(** * The octree of rebound's [tree.c]: construction, maintenance, moments

    A shallow embedding of [src/tree.c].  The C code works on malloc'ed
    [struct cell] objects reached through pointers and on the particle array
    of [struct Rebound]; particles point back into the tree ([Particle.c]) and
    maintenance writes through these back-references.  The embedding therefore
    keeps an explicit store of cells indexed by address, and every pointer is
    an [option addr] ([None] is [NULL]).

    - [double] is IEEE binary64: the kernel's primitive [float].
    - [int] is [Z]; signed overflow is undefined in C and is not modelled.
    - Dereferencing [NULL] or a freed cell, and indexing an array out of its
      bounds, is undefined behaviour: the embedding returns [Fault].
    - Recursion over the pointer structure takes fuel; [OutOfFuel] is a
      separate outcome so that it is never confused with a result.
    - The file is embedded as compiled without [MPI] and [QUADRUPOLE]. *)

From Stdlib Require Import ZArith Floats Lia.
From stdpp Require Import gmap list.

Open Scope Z_scope.
Set Warnings "-inexact-float".

(** ** Data *)

Abbreviation addr := positive.

(** [struct Particle]: position, mass and the back-reference [c] to the cell
    that holds the particle. *)
Record Particle := mkParticle {
  part_x : float;
  part_y : float;
  part_z : float;
  part_m : float;
  part_c : option addr
}.

(** [struct cell]: geometry ([x], [y], [z], [w]), monopole moments ([m],
    [mx], [my], [mz]), the occupancy tag [pt] and the eight octant slots. *)
Record cell := mkcell {
  cell_x : float;
  cell_y : float;
  cell_z : float;
  cell_w : float;
  cell_m : float;
  cell_mx : float;
  cell_my : float;
  cell_mz : float;
  cell_pt : Z;
  cell_oct : list (option addr)
}.

(** The fields of [struct Rebound] that [tree.c] reads and writes, together
    with the store [cells] of allocated [struct cell] objects. *)
Record Rebound := mkRebound {
  particles : list Particle;
  N : Z;
  N_tree_fixed : Z;
  tree_root : option (list (option addr));
  root_nx : Z;
  root_ny : Z;
  root_nz : Z;
  root_n : Z;
  boxsize : float;
  boxsize_x : float;
  boxsize_y : float;
  boxsize_z : float;
  cells : gmap addr cell
}.

Definition set_pt (c : cell) (v : Z) : cell :=
  mkcell (cell_x c) (cell_y c) (cell_z c) (cell_w c)
         (cell_m c) (cell_mx c) (cell_my c) (cell_mz c) v (cell_oct c).

Definition set_oct (c : cell) (o : Z) (d : option addr) : cell :=
  mkcell (cell_x c) (cell_y c) (cell_z c) (cell_w c)
         (cell_m c) (cell_mx c) (cell_my c) (cell_mz c) (cell_pt c)
         (<[Z.to_nat o := d]> (cell_oct c)).

Definition set_geometry (c : cell) (x y z w : float) : cell :=
  mkcell x y z w (cell_m c) (cell_mx c) (cell_my c) (cell_mz c)
         (cell_pt c) (cell_oct c).

Definition set_moments (c : cell) (m mx my mz : float) : cell :=
  mkcell (cell_x c) (cell_y c) (cell_z c) (cell_w c) m mx my mz
         (cell_pt c) (cell_oct c).

Definition set_c (p : Particle) (n : option addr) : Particle :=
  mkParticle (part_x p) (part_y p) (part_z p) (part_m p) n.

Definition with_cells (r : Rebound) (h : gmap addr cell) : Rebound :=
  mkRebound (particles r) (N r) (N_tree_fixed r) (tree_root r)
            (root_nx r) (root_ny r) (root_nz r) (root_n r)
            (boxsize r) (boxsize_x r) (boxsize_y r) (boxsize_z r) h.

Definition with_particles (r : Rebound) (ps : list Particle) : Rebound :=
  mkRebound ps (N r) (N_tree_fixed r) (tree_root r)
            (root_nx r) (root_ny r) (root_nz r) (root_n r)
            (boxsize r) (boxsize_x r) (boxsize_y r) (boxsize_z r) (cells r).

Definition with_N (r : Rebound) (n : Z) : Rebound :=
  mkRebound (particles r) n (N_tree_fixed r) (tree_root r)
            (root_nx r) (root_ny r) (root_nz r) (root_n r)
            (boxsize r) (boxsize_x r) (boxsize_y r) (boxsize_z r) (cells r).

Definition with_tree_root (r : Rebound) (t : option (list (option addr))) : Rebound :=
  mkRebound (particles r) (N r) (N_tree_fixed r) t
            (root_nx r) (root_ny r) (root_nz r) (root_n r)
            (boxsize r) (boxsize_x r) (boxsize_y r) (boxsize_z r) (cells r).

(** ** Outcomes *)

Inductive result (A : Type) : Type :=
  | Ok (a : A)
  | Fault
  | OutOfFuel.
Arguments Ok {A} a.
Arguments Fault {A}.
Arguments OutOfFuel {A}.

#[global] Instance result_ret : MRet result := @Ok.
#[global] Instance result_bind : MBind result := fun A B f m =>
  match m with
  | Ok a => f a
  | Fault => Fault
  | OutOfFuel => OutOfFuel
  end.

(** A C [for] loop over the list [l] of its index values. *)
Fixpoint for_each {S I : Type} (l : list I) (body : S -> I -> result S) (s : S)
  : result S :=
  match l with
  | [] => Ok s
  | i :: l' => s' ← body s i; for_each l' body s'
  end.

(** [for (int o=0; o<8; o++)] *)
Definition octants : list Z := [0; 1; 2; 3; 4; 5; 6; 7].

(** ** Memory *)

(** [*node] for reading. *)
Definition load (r : Rebound) (a : addr) : result cell :=
  match cells r !! a with
  | Some c => Ok c
  | None => Fault
  end.

(** [*node = c], for an allocated [node]. *)
Definition store (r : Rebound) (a : addr) (c : cell) : result Rebound :=
  match cells r !! a with
  | Some _ => Ok (with_cells r (<[a := c]> (cells r)))
  | None => Fault
  end.

(** [free(node)] *)
Definition free (r : Rebound) (a : addr) : result Rebound :=
  match cells r !! a with
  | Some _ => Ok (with_cells r (delete a (cells r)))
  | None => Fault
  end.

(** [calloc(1, sizeof(struct cell))]: an unused address holding an all-zero
    cell (zero bits are [+0.0], [0] and [NULL]). *)
Definition zero_cell : cell :=
  mkcell 0%float 0%float 0%float 0%float 0%float 0%float 0%float 0%float
         0 (replicate 8 None).

Definition calloc_cell (r : Rebound) : addr * Rebound :=
  let a := fresh (dom (cells r)) in
  (a, with_cells r (<[a := zero_cell]> (cells r))).

(** [node->oct[o]] *)
Definition oct_at (c : cell) (o : Z) : result (option addr) :=
  if (0 <=? o) && (o <? 8) then
    match cell_oct c !! Z.to_nat o with
    | Some d => Ok d
    | None => Fault
    end
  else Fault.

(** A pointer about to be dereferenced. *)
Definition deref (p : option addr) : result addr :=
  match p with
  | Some a => Ok a
  | None => Fault
  end.

(** [r->particles[i]] *)
Definition particle_at (r : Rebound) (i : Z) : result Particle :=
  if 0 <=? i then
    match particles r !! Z.to_nat i with
    | Some p => Ok p
    | None => Fault
    end
  else Fault.

(** [r->particles[i] = p] *)
Definition set_particle (r : Rebound) (i : Z) (p : Particle) : result Rebound :=
  if (0 <=? i) && (i <? Z.of_nat (length (particles r))) then
    Ok (with_particles r (<[Z.to_nat i := p]> (particles r)))
  else Fault.

(** ** Arithmetic on [double] *)

Definition two : float := 2%float.
Definition half : float := 0.5%float.

(** [fabs(a) > b] is [b < fabs(a)]. *)
Definition fgt (a b : float) : bool := (b <? a)%float.

(** [(int)floor(f)]: undefined for NaN, the infinities and values outside
    the range of [int]. *)
Definition floor_int (f : float) : result Z :=
  match Prim2SF f with
  | S754_zero _ => Ok 0
  | S754_finite s m e =>
      let v := if s then Z.neg m else Z.pos m in
      let fl := if 0 <=? e then v * 2 ^ e else Z.shiftr v (- e) in
      if (- 2147483648 <=? fl) && (fl <=? 2147483647) then Ok fl else Fault
  | _ => Fault
  end.

(** [(double)i] for an [int] [i]. *)
Definition double_of_int (i : Z) : float :=
  if i <? 0 then (- PrimFloat.of_uint63 (Uint63.of_Z (- i)))%float
  else PrimFloat.of_uint63 (Uint63.of_Z i).

(** [a % b] of C99: the remainder of the division truncated towards zero;
    undefined for [b == 0]. *)
Definition c_mod (a b : Z) : result Z :=
  if b =? 0 then Fault else Ok (Z.rem a b).

(** [o>>k)%2==0 ? 1. : -1] *)
Definition octant_sign (o : Z) (k : Z) : float :=
  if Z.rem (Z.shiftr o k) 2 =? 0 then 1%float else (-1)%float.

(** ** Octant geometry *)

(** [tree_get_octant_for_particle_in_cell] *)
Definition tree_get_octant_for_particle_in_cell (p : Particle) (node : cell) : Z :=
  let octant := 0 in
  let octant := if (part_x p <? cell_x node)%float then octant + 1 else octant in
  let octant := if (part_y p <? cell_y node)%float then octant + 2 else octant in
  let octant := if (part_z p <? cell_z node)%float then octant + 4 else octant in
  octant.

(** The test of [tree_particle_is_inside_cell] on a position and a box. *)
Definition outside_box (p : Particle) (node : cell) : bool :=
  fgt (abs (part_x p - cell_x node)) (cell_w node / two)
  || fgt (abs (part_y p - cell_y node)) (cell_w node / two)
  || fgt (abs (part_z p - cell_z node)) (cell_w node / two).

(** [tree_particle_is_inside_cell] *)
Definition tree_particle_is_inside_cell (r : Rebound) (node : addr) : result Z :=
  c ← load r node;
  p ← particle_at r (cell_pt c);
  if outside_box p c then Ok 0 else Ok 1.

(** [((int)floor((v + box/2.)/r->boxsize))%n]: the index of a coordinate in
    the root grid along one axis. *)
Definition root_grid_index (r : Rebound) (v box : float) (n : Z) : result Z :=
  f ← floor_int ((v + box / two) / boxsize r);
  c_mod f n.

(** ** The particle store's operations

    [particles_add], [particles_add_fixed] and
    [particles_get_rootbox_for_particle] belong to particle.c. *)

(** Modelled from the spec: [particles_add] of particle.c is missing.  The
    spec's particle store "appends a new particle", and the tree "does not
    re-insert this particle during the current maintenance pass": the
    particle is written at index [N] and [N] grows by one. *)
Definition particles_add (r : Rebound) (pt : Particle) : result Rebound :=
  let ps := particles r in
  if (0 <=? N r) && (N r <? Z.of_nat (length ps)) then
    Ok (with_N (with_particles r (<[Z.to_nat (N r) := pt]> ps)) (N r + 1))
  else if N r =? Z.of_nat (length ps) then
    Ok (with_N (with_particles r (ps ++ [pt])) (N r + 1))
  else Fault.

(** Modelled from the spec: [particles_add_fixed] of particle.c is missing.
    The spec re-adds the particle "into a fixed/non-relocating subset": it is
    written back at its old index. *)
Definition particles_add_fixed (r : Rebound) (pt : Particle) (pos : Z)
  : result Rebound :=
  set_particle r pos pt.

(** Modelled from the spec: [particles_get_rootbox_for_particle] of particle.c
    is missing.  The spec floors the coordinates into the periodic grid and
    numbers the root boxes [(k*root_ny+j)*root_nx+i]. *)
Definition particles_get_rootbox_for_particle (r : Rebound) (p : Particle)
  : result Z :=
  i ← root_grid_index r (part_x p) (boxsize_x r) (root_nx r);
  j ← root_grid_index r (part_y p) (boxsize_y r) (root_ny r);
  k ← root_grid_index r (part_z p) (boxsize_z r) (root_nz r);
  Ok ((k * root_ny r + j) * root_nx r + i).

(** ** Construction *)

(** [for (int i=0; i<8; i++) node->oct[i] = NULL;] *)
Definition clear_octs (r : Rebound) (node : addr) : result Rebound :=
  for_each octants (fun r i => c ← load r node; store r node (set_oct c i None)) r.

(** The geometry of a new node: the root box of the particle when there is
    no parent, the octant [o] of the parent otherwise. *)
Definition new_geometry (r : Rebound) (p : Particle) (parent : option addr) (o : Z)
  : result (float * float * float * float) :=
  match parent with
  | None =>
      let w := boxsize r in
      i ← root_grid_index r (part_x p) (boxsize_x r) (root_nx r);
      j ← root_grid_index r (part_y p) (boxsize_y r) (root_ny r);
      k ← root_grid_index r (part_z p) (boxsize_z r) (root_nz r);
      Ok ((- boxsize_x r / two + boxsize r * (half + double_of_int i))%float,
          (- boxsize_y r / two + boxsize r * (half + double_of_int j))%float,
          (- boxsize_z r / two + boxsize r * (half + double_of_int k))%float,
          w)
  | Some pa =>
      pc ← load r pa;
      let w := (cell_w pc / two)%float in
      Ok ((cell_x pc + w / two * octant_sign o 0)%float,
          (cell_y pc + w / two * octant_sign o 1)%float,
          (cell_z pc + w / two * octant_sign o 2)%float,
          w)
  end.

(** The branch [node == NULL] of [tree_add_particle_to_cell]. *)
Definition new_node (r : Rebound) (pt : Z) (parent : option addr) (o : Z)
  : result (Rebound * addr) :=
  let '(a, r) := calloc_cell r in
  p ← particle_at r pt;
  '(x, y, z, w) ← new_geometry r p parent o;
  c ← load r a;
  r ← store r a (set_pt (set_geometry c x y z w) pt);
  q ← particle_at r pt;
  r ← set_particle r pt (set_c q (Some a));
  r ← clear_octs r a;
  Ok (r, a).

(** [node->oct[o] = tree_add_particle_to_cell(r, node->oct[o], pt, node, o)],
    with [add] the recursive call. *)
Definition add_to_octant
    (add : Rebound -> option addr -> Z -> option addr -> Z -> result (Rebound * addr))
    (r : Rebound) (node : addr) (pt : Z) (o : Z) : result Rebound :=
  c ← load r node;
  d ← oct_at c o;
  '(r, d') ← add r d pt (Some node) o;
  c ← load r node;
  store r node (set_oct c o (Some d')).

(** [tree_add_particle_to_cell] *)
Fixpoint tree_add_particle_to_cell (fuel : nat) (r : Rebound) (node : option addr)
    (pt : Z) (parent : option addr) (o : Z) : result (Rebound * addr) :=
  match fuel with
  | O => OutOfFuel
  | S fuel =>
      match node with
      | None => new_node r pt parent o
      | Some a =>
          c ← load r a;
          if 0 <=? cell_pt c then
            q ← particle_at r (cell_pt c);
            let o := tree_get_octant_for_particle_in_cell q c in
            r ← add_to_octant (tree_add_particle_to_cell fuel) r a (cell_pt c) o;
            p ← particle_at r pt;
            c ← load r a;
            let o := tree_get_octant_for_particle_in_cell p c in
            r ← add_to_octant (tree_add_particle_to_cell fuel) r a pt o;
            c ← load r a;
            r ← store r a (set_pt c (-2));
            Ok (r, a)
          else
            r ← store r a (set_pt c (cell_pt c - 1));
            p ← particle_at r pt;
            c ← load r a;
            let o := tree_get_octant_for_particle_in_cell p c in
            r ← add_to_octant (tree_add_particle_to_cell fuel) r a pt o;
            Ok (r, a)
      end
  end.

(** [r->tree_root[i]] *)
Definition root_at (r : Rebound) (i : Z) : result (option addr) :=
  match tree_root r with
  | None => Fault
  | Some roots =>
      if 0 <=? i then
        match roots !! Z.to_nat i with
        | Some d => Ok d
        | None => Fault
        end
      else Fault
  end.

(** [r->tree_root[i] = d] *)
Definition set_root (r : Rebound) (i : Z) (d : option addr) : result Rebound :=
  match tree_root r with
  | None => Fault
  | Some roots =>
      if (0 <=? i) && (i <? Z.of_nat (length roots)) then
        Ok (with_tree_root r (Some (<[Z.to_nat i := d]> roots)))
      else Fault
  end.

(** [if (r->tree_root==NULL) r->tree_root = calloc(root_nx*root_ny*root_nz, ...)] *)
Definition ensure_tree_root (r : Rebound) : Rebound :=
  match tree_root r with
  | Some _ => r
  | None =>
      with_tree_root r
        (Some (replicate (Z.to_nat (root_nx r * root_ny r * root_nz r)) None))
  end.

(** [tree_add_particle_to_tree] *)
Definition tree_add_particle_to_tree (fuel : nat) (r : Rebound) (pt : Z)
  : result Rebound :=
  let r := ensure_tree_root r in
  p ← particle_at r pt;
  rootbox ← particles_get_rootbox_for_particle r p;
  d ← root_at r rootbox;
  '(r, a) ← tree_add_particle_to_cell fuel r d pt None 0;
  set_root r rootbox (Some a).

(** ** Maintenance *)

(** [slot = tree_update_cell(r, slot)] for a slot read by [get] and written
    by [set], with [upd] the recursive call. *)
Definition update_slot
    (get : Rebound -> Z -> result (option addr))
    (set : Rebound -> Z -> option addr -> result Rebound)
    (upd : Rebound -> option addr -> result (Rebound * option addr))
    (r : Rebound) (i : Z) : result Rebound :=
  d ← get r i;
  '(r, d') ← upd r d;
  set r i d'.

(** [node->oct[o]] *)
Definition get_oct (node : addr) (r : Rebound) (o : Z) : result (option addr) :=
  c ← load r node;
  oct_at c o.

(** [node->oct[o] = d] *)
Definition put_oct (node : addr) (r : Rebound) (o : Z) (d : option addr)
  : result Rebound :=
  c ← load r node;
  store r node (set_oct c o d).

(** [node->oct[o] = tree_update_cell(r, node->oct[o])] *)
Definition update_octant
    (upd : Rebound -> option addr -> result (Rebound * option addr))
    (node : addr) : Rebound -> Z -> result Rebound :=
  update_slot (get_oct node) (put_oct node) upd.

(** The body of the loop that recomputes [node->pt]; the state of the loop
    is the store and the local variable [test]. *)
Definition count_octant (node : addr) (s : Rebound * Z) (o : Z)
  : result (Rebound * Z) :=
  let '(r, test) := s in
  c ← load r node;
  d ← oct_at c o;
  match d with
  | None => Ok (r, test)
  | Some da =>
      dc ← load r da;
      c ← load r node;
      if 0 <=? cell_pt dc then
        r ← store r node (set_pt c (cell_pt c - 1));
        Ok (r, o)
      else
        r ← store r node (set_pt c (cell_pt c + cell_pt dc));
        Ok (r, test)
  end.

(** [free(p)]; [free(NULL)] does nothing. *)
Definition free_ptr (r : Rebound) (p : option addr) : result Rebound :=
  match p with
  | Some a => free r a
  | None => Ok r
  end.

(** "Check if the node requires derefinement." *)
Definition derefine (r : Rebound) (node : addr) (test : Z)
  : result (Rebound * option addr) :=
  c ← load r node;
  if cell_pt c =? 0 then
    r ← free r node;
    Ok (r, None)
  else if cell_pt c =? -1 then
    d ← oct_at c test;
    da ← deref d;
    dc ← load r da;
    r ← store r node (set_pt c (cell_pt dc));
    c ← load r node;
    p ← particle_at r (cell_pt c);
    r ← set_particle r (cell_pt c) (set_c p (Some node));
    c ← load r node;
    d ← oct_at c test;
    r ← free_ptr r d;
    c ← load r node;
    r ← store r node (set_oct c test None);
    Ok (r, Some node)
  else Ok (r, Some node).

(** The leaf whose particle has left its box: the particle goes back to the
    particle store and the node is freed. *)
Definition evict (r : Rebound) (node : addr) : result (Rebound * option addr) :=
  c ← load r node;
  let oldpos := cell_pt c in
  reinsertme ← particle_at r oldpos;
  r ← (if oldpos <? N_tree_fixed r then
         particles_add_fixed r reinsertme oldpos
       else
         let r := with_N r (N r - 1) in
         last ← particle_at r (N r);
         r ← set_particle r oldpos last;
         q ← particle_at r oldpos;
         t ← deref (part_c q);
         tc ← load r t;
         r ← store r t (set_pt tc oldpos);
         particles_add r reinsertme);
  r ← free r node;
  Ok (r, None).

(** The leaf whose particle is still inside: [r->particles[node->pt].c = node]. *)
Definition refresh (r : Rebound) (node : addr) : result (Rebound * option addr) :=
  c ← load r node;
  p ← particle_at r (cell_pt c);
  r ← set_particle r (cell_pt c) (set_c p (Some node));
  Ok (r, Some node).

(** [tree_update_cell] *)
Fixpoint tree_update_cell (fuel : nat) (r : Rebound) (node : option addr)
  : result (Rebound * option addr) :=
  match fuel with
  | O => OutOfFuel
  | S fuel =>
      match node with
      | None => Ok (r, None)
      | Some a =>
          c ← load r a;
          if cell_pt c <? 0 then
            r ← for_each octants (update_octant (tree_update_cell fuel) a) r;
            c ← load r a;
            r ← store r a (set_pt c 0);
            '(r, test) ← for_each octants (count_octant a) (r, -1);
            derefine r a test
          else
            inside ← tree_particle_is_inside_cell r a;
            if inside =? 0 then evict r a else refresh r a
      end
  end.

(** The index values of [for(int i=0;i<n;i++)]. *)
Definition upto (n : Z) : list Z := Z.of_nat <$> seq 0 (Z.to_nat n).

(** [r->tree_root[i] = tree_update_cell(r, r->tree_root[i])] *)
Definition update_root (fuel : nat) : Rebound -> Z -> result Rebound :=
  update_slot root_at set_root (tree_update_cell fuel).

(** [tree_update] *)
Definition tree_update (fuel : nat) (r : Rebound) : result Rebound :=
  for_each (upto (root_n r)) (update_root fuel) (ensure_tree_root r).

(** ** Moments *)

(** The accumulation of one child [d] into [node]: [node->mx += d->mx*d_m]
    and so on, [node->m += d_m] last. *)
Definition add_moments (c dc : cell) : cell :=
  let d_m := cell_m dc in
  set_moments c (cell_m c + d_m)
    (cell_mx c + cell_mx dc * d_m)
    (cell_my c + cell_my dc * d_m)
    (cell_mz c + cell_mz dc * d_m).

(** [if (m_tot>0) { node->mx /= m_tot; ... }] *)
Definition normalise (c : cell) : cell :=
  let m_tot := cell_m c in
  if (0 <? m_tot)%float then
    set_moments c (cell_m c) (cell_mx c / m_tot) (cell_my c / m_tot) (cell_mz c / m_tot)
  else c.

(** The body of the loop over the children of a branch, with [upd] the
    recursive call. *)
Definition gravity_octant (upd : Rebound -> addr -> result Rebound)
    (node : addr) (r : Rebound) (o : Z) : result Rebound :=
  c ← load r node;
  d ← oct_at c o;
  match d with
  | None => Ok r
  | Some da =>
      r ← upd r da;
      dc ← load r da;
      c ← load r node;
      store r node (add_moments c dc)
  end.

(** [tree_update_gravity_data_in_cell] *)
Fixpoint tree_update_gravity_data_in_cell (fuel : nat) (r : Rebound) (node : addr)
  : result Rebound :=
  match fuel with
  | O => OutOfFuel
  | S fuel =>
      c ← load r node;
      if cell_pt c <? 0 then
        r ← store r node (set_moments c 0 0 0 0);
        r ← for_each octants
              (gravity_octant (tree_update_gravity_data_in_cell fuel) node) r;
        c ← load r node;
        store r node (normalise c)
      else
        p ← particle_at r (cell_pt c);
        store r node (set_moments c (part_m p) (part_x p) (part_y p) (part_z p))
  end.

(** [tree_update_gravity_data] *)
Definition tree_update_gravity_data (fuel : nat) (r : Rebound) : result Rebound :=
  for_each (upto (root_n r))
    (fun r i =>
       d ← root_at r i;
       match d with
       | Some a => tree_update_gravity_data_in_cell fuel r a
       | None => Ok r
       end) r.

(** ** Reading a state *)

(** Center and width of a cell. *)
Definition geometry (c : cell) : float * float * float * float :=
  (cell_x c, cell_y c, cell_z c, cell_w c).

(** [a] points to a leaf that holds particle [i] and has no children. *)
Definition points_to_leaf (r : Rebound) (a : option addr) (i : Z) : Prop :=
  exists n c, a = Some n /\ cells r !! n = Some c /\ cell_pt c = i
              /\ cell_oct c = replicate 8 None.

(** ** What no operation on the tree changes *)

(** Two particle records that differ at most in the back-reference. *)
Definition same_body (p q : Particle) : Prop :=
  part_x q = part_x p /\ part_y q = part_y p /\ part_z q = part_z p
  /\ part_m q = part_m p.

(** [c'] is [c] with the same geometry and no child that [c] did not have. *)
Definition cell_kept (c c' : cell) : Prop :=
  geometry c' = geometry c
  /\ length (cell_oct c') = length (cell_oct c)
  /\ forall o d, cell_oct c' !! o = Some (Some d) -> cell_oct c !! o = Some (Some d).

(** From [r] to [r']: no cell was allocated, every cell still allocated kept
    its geometry and lost children at most, and every particle record is an
    old one up to its back-reference. *)
Definition evolves (r r' : Rebound) : Prop :=
  (forall b c', cells r' !! b = Some c' ->
                exists c, cells r !! b = Some c /\ cell_kept c c')
  /\ (forall i p', particles r' !! i = Some p' ->
                   exists j p, particles r !! j = Some p /\ same_body p p').

(** ** The two-particle scenario *)

Definition particle_plus : Particle :=
  mkParticle 0.1%float 0.1%float 0.1%float 1%float None.
Definition particle_minus : Particle :=
  mkParticle (-0.1)%float (-0.1)%float (-0.1)%float 1%float None.

(** No tree yet; one root box of width 1.0, centered at the origin. *)
Definition origin_box : Rebound :=
  mkRebound [particle_plus; particle_minus] 2 0 None 1 1 1 1
            1%float 1%float 1%float 1%float ∅.

(** The only root is a branch of occupancy -2 at the origin with width 1.0,
    whose slot 0 holds a leaf for particle 0, whose slot 7 holds a leaf for
    particle 1 and whose other slots are empty; no other cell exists. *)
Definition two_leaves_under_root (r : Rebound) : Prop :=
  exists root c l0 l7,
    tree_root r = Some [Some root] /\ cells r !! root = Some c
    /\ cell_pt c = -2
    /\ geometry c = (0%float, 0%float, 0%float, 1%float)
    /\ cell_oct c = [l0; None; None; None; None; None; None; l7]
    /\ points_to_leaf r l0 0 /\ points_to_leaf r l7 1
    /\ size (cells r) = 3%nat.

(** ** Tree shape *)

(** The cells of the tree in the slot [d], in preorder: [None] when a child
    pointer dangles, a cell has not eight slots, or [fuel] does not reach as
    deep as [tree_update_cell] descends (which enters empty slots too).  A
    leaf ([pt >= 0]) is one node whatever its slots hold. *)
Fixpoint subtree (fuel : nat) (h : gmap addr cell) (d : option addr)
  : option (list addr) :=
  match fuel with
  | O => None
  | S fuel =>
      match d with
      | None => Some []
      | Some a =>
          c ← h !! a;
          if decide (length (cell_oct c) = 8%nat) then
            if cell_pt c <? 0 then
              ls ← mapM (subtree fuel h) (cell_oct c);
              Some (a :: mjoin ls)
            else Some [a]
          else None
      end
  end.

(** The number of particles in the tree at [a], counted leaf by leaf. *)
Fixpoint count_particles (fuel : nat) (h : gmap addr cell) (a : addr) : option Z :=
  match fuel with
  | O => None
  | S fuel =>
      c ← h !! a;
      if cell_pt c <? 0 then
        ns ← mapM (fun d => match d with
                            | Some da => count_particles fuel h da
                            | None => Some 0
                            end) (cell_oct c);
        Some (foldr Z.add 0 ns)
      else Some 1
  end.

(** What a child slot adds to its parent's [pt]: -1 for a leaf, its own [pt]
    for a branch, nothing when empty. *)
Definition contribution (h : gmap addr cell) (d : option addr) : Z :=
  match d with
  | Some da =>
      match h !! da with
      | Some dc => if 0 <=? cell_pt dc then -1 else cell_pt dc
      | None => 0
      end
  | None => 0
  end.

Definition occupancy_of_children (h : gmap addr cell) (oct : list (option addr)) : Z :=
  foldr (fun d acc => contribution h d + acc) 0 oct.

(** The root slots; none before the root grid is allocated. *)
Definition roots (r : Rebound) : list (option addr) := default [] (tree_root r).

(** ** Well-formed states *)

(** The trees of the root slots are trees: the node lists [ls] of the slots
    exist and share no cell. *)
Definition forest (fuel : nat) (r : Rebound) (ls : list (list addr)) : Prop :=
  Forall2 (fun d l => subtree fuel (cells r) d = Some l) (roots r) ls
  /\ NoDup (mjoin ls).

(** A back-reference that points to an allocated cell points to a leaf that
    stores the particle's index. *)
Definition back_references_consistent (r : Rebound) : Prop :=
  forall i p n c,
    particles r !! i = Some p -> part_c p = Some n -> cells r !! n = Some c ->
    cell_pt c = Z.of_nat i.

(** No two leaves store the same particle index. *)
Definition leaf_indices_distinct (r : Rebound) : Prop :=
  forall n1 n2 c1 c2,
    cells r !! n1 = Some c1 -> cells r !! n2 = Some c2 ->
    0 <= cell_pt c1 -> cell_pt c1 = cell_pt c2 -> n1 = n2.

Definition well_formed (r : Rebound) : Prop :=
  (exists fuel ls, forest fuel r ls)
  /\ back_references_consistent r /\ leaf_indices_distinct r.

(** Boxes are nested as far as the particles can tell: a particle that
    passes the containment test of a child passes that of the parent. *)
Definition nested (r : Rebound) : Prop :=
  forall i p a c o d dc,
    particles r !! i = Some p -> cells r !! a = Some c ->
    cell_oct c !! o = Some (Some d) -> cells r !! d = Some dc ->
    outside_box p dc = false -> outside_box p c = false.

(** ** Maintained nodes *)

(** The leaf [n] holding [c]: the particle it names points back to it and,
    if [G], lies in its box. *)
Definition leaf_ok (G : Prop) (r : Rebound) (n : addr) (c : cell) : Prop :=
  exists p, particles r !! Z.to_nat (cell_pt c) = Some p /\ part_c p = Some n
            /\ (G -> outside_box p c = false).

(** The branch holding [c]: its occupancy is that of its children and is
    neither 0 nor -1. *)
Definition branch_ok (r : Rebound) (c : cell) : Prop :=
  cell_pt c <= -2
  /\ cell_pt c = occupancy_of_children (cells r) (cell_oct c).

Definition node_ok (G : Prop) (r : Rebound) (n : addr) : Prop :=
  exists c, cells r !! n = Some c
            /\ if cell_pt c <? 0 then branch_ok r c else leaf_ok G r n c.

(** The invariant of a maintenance pass. *)
Definition pass_invariant (G : Prop) (r : Rebound) : Prop :=
  back_references_consistent r /\ leaf_indices_distinct r /\ (G -> nested r).

(** [c'] is [c] up to the index a leaf stores. *)
Definition relabel_of (c c' : cell) : Prop :=
  c' = set_pt c (cell_pt c')
  /\ (cell_pt c < 0 -> cell_pt c' = cell_pt c)
  /\ (0 <= cell_pt c -> 0 <= cell_pt c').

Definition cell_rel (o o' : option cell) : Prop :=
  match o with
  | Some c => exists c', o' = Some c' /\ relabel_of c c'
  | None => o' = None
  end.

(** Outside [l], cells change by the relabelling of leaves only. *)
Definition frame (l : list addr) (h h' : gmap addr cell) : Prop :=
  forall b, b ∉ l -> cell_rel (h !! b) (h' !! b).

(** Maintained leaves outside [l] stay maintained. *)
Definition leaves_kept (G : Prop) (l : list addr) (r r' : Rebound) : Prop :=
  forall n c, n ∉ l -> cells r !! n = Some c -> 0 <= cell_pt c ->
              leaf_ok G r n c ->
              exists c', cells r' !! n = Some c' /\ 0 <= cell_pt c'
                         /\ leaf_ok G r' n c'.

(** The tree at [d] lies within [l], is a tree, and is maintained. *)
Definition tree_ok (G : Prop) (fuel : nat) (r : Rebound) (l : list addr)
    (d : option addr) : Prop :=
  exists l', subtree fuel (cells r) d = Some l'
             /\ l' ⊆ l /\ NoDup l'
             /\ forall n, n ∈ l' -> node_ok G r n.

(** What a call of [tree_update_cell] with [fuel] achieves on a tree. *)
Definition update_spec (G : Prop) (fuel : nat) : Prop :=
  forall r a f0 l r' ret,
    pass_invariant G r -> subtree f0 (cells r) (Some a) = Some l -> NoDup l ->
    tree_update_cell fuel r (Some a) = Ok (r', ret) ->
    pass_invariant G r'
    /\ frame l (cells r) (cells r') /\ leaves_kept G l r r'
    /\ (ret = None \/ ret = Some a) /\ tree_ok G fuel r' l ret.

(** ** Leaf maintenance, as the spec words it *)

(** "All three axis distances from the particle to the node center are <=
    half-width". *)
Definition within_half_width (p : Particle) (c : cell) : bool :=
  (abs (part_x p - cell_x c) <=? cell_w c / two)%float
  && (abs (part_y p - cell_y c) <=? cell_w c / two)%float
  && (abs (part_z p - cell_z c) <=? cell_w c / two)%float.

(** None of the three distances, nor the half-width, is NaN. *)
Definition no_nan_distance (p : Particle) (c : cell) : Prop :=
  is_nan (abs (part_x p - cell_x c)) = false
  /\ is_nan (abs (part_y p - cell_y c)) = false
  /\ is_nan (abs (part_z p - cell_z c)) = false
  /\ is_nan (cell_w c / two) = false.

(** A leaf's particle is evicted exactly when [within_half_width] fails. *)
Definition evicted_iff_beyond_half_width : Prop :=
  forall fuel r a c p r' ret,
    cells r !! a = Some c -> 0 <= cell_pt c ->
    particles r !! Z.to_nat (cell_pt c) = Some p ->
    tree_update_cell (S fuel) r (Some a) = Ok (r', ret) ->
    (ret = None <-> within_half_width p c = false).

(** Swap-with-last-and-shrink: [N] is one less, the last particle [last]
    sits at [oldpos], and its cell [t] (which held [tc]) stores [oldpos]. *)
Definition swapped_out (r : Rebound) (oldpos : Z) (last : Particle)
    (t : addr) (tc : cell) : Rebound :=
  with_cells
    (with_particles (with_N r (N r - 1)) (<[Z.to_nat oldpos := last]> (particles r)))
    (<[t := set_pt tc oldpos]> (cells r)).

(** The state after the eviction of the particle [p] of leaf [a] at an index
    [oldpos] below [N_tree_fixed]. *)
Definition evicted_fixed (r : Rebound) (a : addr) (oldpos : Z) (p : Particle)
  : Rebound :=
  with_cells (with_particles r (<[Z.to_nat oldpos := p]> (particles r)))
             (delete a (cells r)).

(** The state after the eviction of the particle [p] of leaf [a] at index
    [oldpos] by swap with the last particle [last], whose cell [t] held [tc]:
    [p] is the new last particle. *)
Definition evicted_swapped (r : Rebound) (a : addr) (oldpos : Z)
    (p last : Particle) (t : addr) (tc : cell) : Rebound :=
  mkRebound (<[Z.to_nat (N r - 1) := p]> (<[Z.to_nat oldpos := last]> (particles r)))
            (N r) (N_tree_fixed r) (tree_root r)
            (root_nx r) (root_ny r) (root_nz r) (root_n r)
            (boxsize r) (boxsize_x r) (boxsize_y r) (boxsize_z r)
            (delete a (<[t := set_pt tc oldpos]> (cells r))).

(** ** Example states *)

Definition leaf_cell (x y z w : float) (pt : Z) : cell :=
  mkcell x y z w 0%float 0%float 0%float 0%float pt (replicate 8 None).

Definition branch_cell (x y z w : float) (pt : Z) (oct : list (option addr)) : cell :=
  mkcell x y z w 0%float 0%float 0%float 0%float pt oct.

(** The tree of the two-particle scenario: root 1 with the leaves 2 (octant
    0, particle 0) and 3 (octant 7, particle 1). *)
Definition two_leaf_cells : gmap addr cell :=
  <[1%positive := branch_cell 0 0 0 1 (-2)
                    [Some 2%positive; None; None; None; None; None; None;
                     Some 3%positive]]>
  (<[2%positive := leaf_cell 0.25 0.25 0.25 0.5 0]>
  (<[3%positive := leaf_cell (-0.25) (-0.25) (-0.25) 0.5 1]> ∅)).

Definition sim (ps : list Particle) (n nfixed : Z) (h : gmap addr cell) : Rebound :=
  mkRebound ps n nfixed (Some [Some 1%positive]) 1 1 1 1
            1%float 1%float 1%float 1%float h.

(** Both particles are where they were inserted. *)
Definition settled : Rebound :=
  sim [mkParticle 0.1 0.1 0.1 1 (Some 2%positive);
       mkParticle (-0.1) (-0.1) (-0.1) 1 (Some 3%positive)] 2 0 two_leaf_cells.

(** Particle 0 has left its leaf 2 along x. *)
Definition strayed : Rebound :=
  sim [mkParticle 0.9 0.1 0.1 1 (Some 2%positive);
       mkParticle (-0.1) (-0.1) (-0.1) 1 (Some 3%positive)] 2 0 two_leaf_cells.

(** Particle 0 has a NaN x coordinate. *)
Definition lost : Rebound :=
  sim [mkParticle nan 0.1 0.1 1 (Some 2%positive);
       mkParticle (-0.1) (-0.1) (-0.1) 1 (Some 3%positive)] 2 0 two_leaf_cells.

(** ** Predicates of the proofs *)

(** A step of maintenance: the state evolves and the root array stays. *)
Definition steady (r r' : Rebound) : Prop :=
  evolves r r' /\ tree_root r' = tree_root r.

(** The trees under a list of slots, slot by slot. *)
Definition slots_nodes (fuel : nat) (h : gmap addr cell)
    (ds : list (option addr)) (ls : list (list addr)) : Prop :=
  Forall2 (fun d l => subtree fuel h d = Some l) ds ls.

(** A change that leaves the cells outside [l] and the leaves outside [l]
    as they are. *)
Definition quiet (G : Prop) (l : list addr) (r r' : Rebound) : Prop :=
  frame l (cells r) (cells r') /\ leaves_kept G l r r'.

(** The slots before [k] hold a leaf only if [test] names a slot that does. *)
Definition test_names_leaf (h : gmap addr cell) (oct : list (option addr))
    (k : nat) (test : Z) : Prop :=
  (exists i d dc, (i < k)%nat /\ oct !! i = Some (Some d) /\ h !! d = Some dc
                  /\ 0 <= cell_pt dc) ->
  exists d dc, 0 <= test < Z.of_nat k /\ oct !! Z.to_nat test = Some (Some d)
               /\ h !! d = Some dc /\ 0 <= cell_pt dc.

(** The children of a branch whose slots hold maintained trees. *)
Definition children_settled (h : gmap addr cell) (oct : list (option addr)) : Prop :=
  forall i d, oct !! i = Some (Some d) ->
              exists dc, h !! d = Some dc /\ (cell_pt dc < 0 -> cell_pt dc <= -2).

(** The state after the collapse of the branch [a] (holding [c]) onto the
    leaf [d] (holding [dc]) in slot [test], whose particle is [p]. *)
Definition collapsed (r : Rebound) (a : addr) (c : cell) (test : Z)
    (d : addr) (dc : cell) (p : Particle) : Rebound :=
  with_cells
    (with_particles r
       (<[Z.to_nat (cell_pt dc) := set_c p (Some a)]> (particles r)))
    (<[a := set_oct (set_pt c (cell_pt dc)) test None]> (delete d (cells r))).

(** The children of the cell at [a], as a list of slots. *)
Definition oct_slots (a : addr) (r : Rebound) : list (option addr) :=
  match cells r !! a with
  | Some c => cell_oct c
  | None => []
  end.

(** The cell at [a] is allocated and is a branch. *)
Definition is_branch (a : addr) (r : Rebound) : Prop :=
  exists c, cells r !! a = Some c /\ cell_pt c < 0.

(** The computation ended: with a result or with a fault. *)
Definition runs {A} (m : result A) : Prop := m <> OutOfFuel.

(** The root branch of [strayed] after the loop over its children: leaf 2 is
    gone, its particle went to the end of the particle array and the other
    particle took index 0. *)
Definition strayed_children : Rebound :=
  sim [mkParticle (-0.1) (-0.1) (-0.1) 1 (Some 3%positive);
       mkParticle 0.9 0.1 0.1 1 (Some 2%positive)] 2 0
      (<[1%positive := branch_cell 0 0 0 1 (-2)
                         [None; None; None; None; None; None; None; Some 3%positive]]>
         (<[3%positive := leaf_cell (-0.25) (-0.25) (-0.25) 0.5 0]> ∅)).

(** ... and after the recount: the occupancy of the root branch is -1. *)
Definition strayed_recounted : Rebound :=
  with_cells strayed_children
    (<[1%positive := branch_cell 0 0 0 1 (-1)
                       [None; None; None; None; None; None; None; Some 3%positive]]>
       (cells strayed_children)).

(** [strayed] after a pass: the root has collapsed onto the particle that
    stayed, which is now particle 0. *)
Definition strayed_maintained : Rebound :=
  sim [mkParticle (-0.1) (-0.1) (-0.1) 1 (Some 1%positive);
       mkParticle 0.9 0.1 0.1 1 (Some 2%positive)] 2 0
      (<[1%positive := leaf_cell 0 0 0 1 0]> ∅).

(** The state after [new_node]: the new cell [a] holds particle [pt], whose
    back-reference is [a]. *)
Definition created (r : Rebound) (a : addr) (pt : Z) (p : Particle)
    (g : float * float * float * float) : Rebound :=
  let '(x, y, z, w) := g in
  with_cells
    (with_particles r (<[Z.to_nat pt := set_c p (Some a)]> (particles r)))
    (<[a := set_pt (set_geometry zero_cell x y z w) pt]> (cells r)).

(** A slot already updated holds a maintained tree within its old nodes
    [l]; a slot still to update holds the tree of nodes [l]. *)
Definition slot_state (G : Prop) (fuel f0 : nat) (done : bool) (r : Rebound)
    (l : list addr) (d : option addr) : Prop :=
  if done then tree_ok G fuel r l d
  else subtree f0 (cells r) d = Some l.

(** The slots before [k] are updated, the others are still to update and
    hold trees of depth at most [f0]. *)
Definition slots_state (G : Prop) (fuel : nat) (slots : Rebound -> list (option addr))
    (f0 k : nat) (r : Rebound) (ls : list (list addr)) : Prop :=
  length (slots r) = length ls
  /\ forall i d l, slots r !! i = Some d -> ls !! i = Some l ->
                   slot_state G fuel f0 (bool_decide (i < k)%nat) r l d.

(** ** A second pass, as the spec words it *)

(** The trees of [r'] are those of [r]: the same cells with the same
    contents, the same roots, the same back-references. *)
Definition same_tree (r r' : Rebound) : Prop :=
  cells r' = cells r /\ tree_root r' = tree_root r
  /\ part_c <$> particles r' = part_c <$> particles r.

(** "Running maintenance twice in a row [...] leaves the tree identical after
    the second pass". *)
Definition second_pass_changes_nothing : Prop :=
  forall fuel r r1 r2,
    well_formed r -> tree_update fuel r = Ok r1 -> tree_update fuel r1 = Ok r2 ->
    same_tree r1 r2.

(** ** A particle on the edge of its box *)

(** Four root boxes of width 0.9 along x, no tree yet, particles that never
    change their index. *)
Definition grid (ps : list Particle) : Rebound :=
  mkRebound ps 2 2 None 4 1 1 4 0.9%float 3.6%float 0.9%float 0.9%float ∅.

(** The tree that inserting particles at (-1,0.2,0.2) and (-1.6,-0.2,-0.2)
    builds in the first root box. *)
Definition edge_cells : gmap addr cell :=
  <[1%positive := branch_cell (-1.35) 0 0 0.9 (-2)
                    [Some 2%positive; None; None; None; None; None; None;
                     Some 3%positive]]>
  (<[2%positive := leaf_cell (-1.125) 0.225 0.225 0.45 0]>
  (<[3%positive := leaf_cell (-1.5750000000000002) (-0.225) (-0.225) 0.45 1]> ∅)).

Definition with_roots_and_cells (r : Rebound) (h : gmap addr cell) : Rebound :=
  with_cells (with_tree_root r (Some [Some 1%positive; None; None; None])) h.

(** Particle 0 has moved to x = -0.9, the edge between the first two root
    boxes; particle 1 has left the grid. *)
Definition edge : Rebound :=
  with_roots_and_cells
    (grid [mkParticle (-0.9) 0.2 0.2 1 (Some 2%positive);
           mkParticle 5 (-0.2) (-0.2) 1 (Some 3%positive)])
    edge_cells.

(** After one pass: the root branch has collapsed onto particle 0. *)
Definition edge_once : Rebound :=
  with_roots_and_cells
    (grid [mkParticle (-0.9) 0.2 0.2 1 (Some 1%positive);
           mkParticle 5 (-0.2) (-0.2) 1 (Some 3%positive)])
    (<[1%positive := leaf_cell (-1.35) 0 0 0.9 0]> ∅).

(** After two passes: particle 0 is evicted, the tree is empty. *)
Definition edge_twice : Rebound :=
  with_tree_root
    (grid [mkParticle (-0.9) 0.2 0.2 1 (Some 1%positive);
           mkParticle 5 (-0.2) (-0.2) 1 (Some 3%positive)])
    (Some [None; None; None; None]).

(** Every cell of [r] is still allocated in [r'], with the geometry it had. *)
Definition cells_stay (r r' : Rebound) : Prop :=
  forall b c, cells r !! b = Some c ->
              exists c', cells r' !! b = Some c' /\ geometry c' = geometry c.

(** The two-particle tree with a third particle, not yet in the tree, in
    octant 2 of the root. *)
Definition settled_plus : Rebound :=
  sim [mkParticle 0.1 0.1 0.1 1 (Some 2%positive);
       mkParticle (-0.1) (-0.1) (-0.1) 1 (Some 3%positive);
       mkParticle 0.1 (-0.1) 0.1 1 None] 3 0 two_leaf_cells.

(** The leaves among [l] have no children. *)
Definition clean (h : gmap addr cell) (l : list addr) : Prop :=
  forall n c, n ∈ l -> h !! n = Some c -> 0 <= cell_pt c ->
              cell_oct c = replicate 8 None.

(** What an insertion under the slot [d], whose tree has the nodes [l],
    leaves alone: every cell allocated outside [l]. *)
Definition add_frame (fuel : nat) : Prop :=
  forall r d pt parent o r' ret f0 l,
    tree_add_particle_to_cell fuel r d pt parent o = Ok (r', ret) ->
    subtree f0 (cells r) d = Some l -> NoDup l -> clean (cells r) l ->
    forall b, b ∉ l -> is_Some (cells r !! b) -> cells r' !! b = cells r !! b.

(** ** Insertion at a branch, as the spec words it *)

(** "Decrement its occupancy magnitude by one". *)
Definition insertion_decrements_magnitude : Prop :=
  forall fuel r a c pt parent o r' ret c',
    cells r !! a = Some c -> cell_pt c < 0 ->
    tree_add_particle_to_cell fuel r (Some a) pt parent o = Ok (r', ret) ->
    cells r' !! a = Some c' ->
    Z.abs (cell_pt c') = Z.abs (cell_pt c) - 1.

(** The root of the two-particle tree after the insertion of a third
    particle in its octant 2: a new leaf at address 4. *)
Definition root_of_three : cell :=
  branch_cell 0 0 0 1 (-3)
    [Some 2%positive; None; Some 4%positive; None; None; None; None; Some 3%positive].

(** The cells of the non-null children in the slots [oct], in the order of
    the slots, as they are in [h]. *)
Fixpoint children (h : gmap addr cell) (oct : list (option addr)) : list cell :=
  match oct with
  | [] => []
  | Some da :: oct =>
      match h !! da with
      | Some dc => dc :: children h oct
      | None => children h oct
      end
  | None :: oct => children h oct
  end.

(** The moments of [c] after the children [kids] are added, one by one. *)
Definition aggregate (c : cell) (kids : list cell) : cell := foldl add_moments c kids.

(** What [tree_update_gravity_data_in_cell] on the tree of nodes [l] leaves
    alone: the cells outside [l]. *)
Definition gravity_frame (fuel : nat) : Prop :=
  forall r a r' f0 l,
    tree_update_gravity_data_in_cell fuel r a = Ok r' ->
    subtree f0 (cells r) (Some a) = Some l -> NoDup l ->
    forall b, b ∉ l -> cells r' !! b = cells r !! b.

(** ** Moment aggregation, as the spec words it *)

(** "The mass is the sum of the children's masses": [node->m += d_m], from
    zero, in the order of the slots. *)
Definition total_mass (kids : list cell) : float :=
  foldl (fun m dc => (m + cell_m dc)%float) 0%float kids.

(** The sum of the children's centers along one axis, each weighted with the
    child's mass: [node->mx += d->mx*d_m], from zero. *)
Definition weighted (center : cell -> float) (kids : list cell) : float :=
  foldl (fun s dc => (s + center dc * cell_m dc)%float) 0%float kids.

(** [+0.0] or [-0.0] *)
Definition is_zero (f : float) : bool :=
  match Prim2SF f with
  | S754_zero _ => true
  | _ => false
  end.

(** Neither an infinity nor NaN. *)
Definition finite (f : float) : bool :=
  match Prim2SF f with
  | S754_zero _ | S754_finite _ _ _ => true
  | _ => false
  end.

(** "When the total mass is zero ... the center of mass is left at zero". *)
Definition zero_mass_leaves_center_at_zero : Prop :=
  forall fuel r a c f0 l r' c',
    cells r !! a = Some c -> cell_pt c < 0 ->
    subtree f0 (cells r) (Some a) = Some l -> NoDup l ->
    tree_update_gravity_data_in_cell fuel r a = Ok r' ->
    cells r' !! a = Some c' -> is_zero (cell_m c') = true ->
    is_zero (cell_mx c') = true /\ is_zero (cell_my c') = true
    /\ is_zero (cell_mz c') = true.

(** The two-particle tree with masses 1 and -1. *)
Definition balanced : Rebound :=
  sim [mkParticle 0.1 0.1 0.1 1 (Some 2%positive);
       mkParticle (-0.1) (-0.1) (-0.1) (-1) (Some 3%positive)] 2 0 two_leaf_cells.

(** ** Predicates of aggregation and of a pass *)

(** [c'] is [c] up to the moments [m], [mx], [my], [mz]. *)
Definition moments_apart (c c' : cell) : Prop :=
  c' = set_moments c (cell_m c') (cell_mx c') (cell_my c') (cell_mz c').

(** From [r] to [r'] nothing but moments of cells has changed. *)
Definition only_moments (r r' : Rebound) : Prop :=
  with_cells r' (cells r) = r
  /\ forall b, option_Forall2 moments_apart (cells r !! b) (cells r' !! b).

(** The moments of the node [n] are those of its particle, if [n] is a leaf,
    and those aggregated from its children, if [n] is a branch. *)
Definition moments_settled (r : Rebound) (n : addr) : Prop :=
  exists c, cells r !! n = Some c
    /\ if cell_pt c <? 0 then
         c = normalise (aggregate (set_moments c 0 0 0 0)
                          (children (cells r) (cell_oct c)))
       else
         exists p, particles r !! Z.to_nat (cell_pt c) = Some p
                   /\ c = set_moments c (part_m p) (part_x p) (part_y p) (part_z p).

(** The leaves among [l] name particles that exist. *)
Definition leaves_valid (r : Rebound) (l : list addr) : Prop :=
  forall n c, n ∈ l -> cells r !! n = Some c -> 0 <= cell_pt c ->
              is_Some (particles r !! Z.to_nat (cell_pt c)).

(** The slots from [k] on hold trees with the node lists [ls]. *)
Definition kids_from (f0 k : nat) (s : Rebound) (oct : list (option addr))
    (ls : list (list addr)) : Prop :=
  forall i d, (k <= i)%nat -> oct !! i = Some d ->
              exists l, ls !! i = Some l /\ subtree f0 (cells s) d = Some l.

(** The body of the loop of [tree_update_gravity_data]. *)
Definition gravity_root (fuel : nat) (r : Rebound) (i : Z) : result Rebound :=
  d ← root_at r i;
  match d with
  | Some a => tree_update_gravity_data_in_cell fuel r a
  | None => Ok r
  end.

(** The root slots from [k] on hold trees with the node lists [ls]. *)
Definition roots_from (f0 k : nat) (s : Rebound) (ls : list (list addr)) : Prop :=
  forall i d, (k <= i)%nat -> roots s !! i = Some d ->
              exists l, ls !! i = Some l /\ subtree f0 (cells s) d = Some l.

(** The root array of [s'] is that of [s] with some slots set to NULL. *)
Definition roots_pruned (s s' : Rebound) : Prop :=
  length (roots s') = length (roots s)
  /\ forall i d, roots s' !! i = Some (Some d) -> roots s !! i = Some (Some d).

(** ** Predicates of insertion *)

(** From [r] to [r'] particle [pt] got a new leaf: a cell that [r] did not
    have, without children, that stores [pt] and is the back-reference of
    particle [pt]. *)
Definition placed (r r' : Rebound) (pt : Z) : Prop :=
  exists n c p',
    cells r !! n = None /\ cells r' !! n = Some c /\ cell_pt c = pt /\ 0 <= pt
    /\ cell_oct c = replicate 8 None
    /\ particles r' !! Z.to_nat pt = Some p' /\ part_c p' = Some n.

(** The particles of [r'] are those of [r], in the same order, up to their
    back-references. *)
Definition same_bodies (r r' : Rebound) : Prop :=
  Forall2 same_body (particles r) (particles r') /\ N r' = N r.

(** The geometry of the child in octant [o] of the cell [c]: half the width,
    the center a quarter of the width of [c] away along every axis. *)
Definition child_geometry (c : cell) (o : Z) : float * float * float * float :=
  let w := (cell_w c / two)%float in
  ((cell_x c + w / two * octant_sign o 0)%float,
   (cell_y c + w / two * octant_sign o 1)%float,
   (cell_z c + w / two * octant_sign o 2)%float,
   w).

(** The state after the insertion of particle [pt] in the empty slot [o] of
    the cell [a]: a new leaf in a fresh cell, and slot [o] pointing to it. *)
Definition grown (r : Rebound) (a : addr) (c : cell) (pt : Z) (o : Z) (p : Particle)
  : Rebound :=
  let d := fresh (dom (cells r)) in
  let s := created r d pt p (child_geometry c o) in
  with_cells s (<[a := set_oct c o (Some d)]> (cells s)).

(** Same position. *)
Definition coincide (p q : Particle) : Prop :=
  part_x p = part_x q /\ part_y p = part_y q /\ part_z p = part_z q.

(** ** Example states of insertion *)

(** A new leaf of geometry [g] for particle [pt]. *)
Definition new_leaf (g : float * float * float * float) (pt : Z) : cell :=
  let '(x, y, z, w) := g in set_pt (set_geometry zero_cell x y z w) pt.

(** One leaf, the root cell, with particle 0; particle 1 is not in the tree
    and lies in the opposite octant. *)
Definition lone : Rebound :=
  sim [mkParticle 0.1 0.1 0.1 1 (Some 1%positive);
       mkParticle (-0.1) (-0.1) (-0.1) 1 None] 2 0
      (<[1%positive := leaf_cell 0 0 0 1 0]> ∅).

(** The two-particle tree with a third particle at the position of
    particle 0. *)
Definition twins : Rebound :=
  sim [mkParticle 0.1 0.1 0.1 1 (Some 2%positive);
       mkParticle (-0.1) (-0.1) (-0.1) 1 (Some 3%positive);
       mkParticle 0.1 0.1 0.1 1 None] 3 0 two_leaf_cells.

(** Trees in the first two of the four root boxes: the tree [edge_cells]
    and the leaf 4 with particle 2; particle 3 is not in the tree and lies
    in the first box. *)
Definition two_boxes : Rebound :=
  with_cells
    (with_tree_root
       (grid [mkParticle (-1) 0.2 0.2 1 (Some 2%positive);
              mkParticle (-1.6) (-0.2) (-0.2) 1 (Some 3%positive);
              mkParticle (-0.5) 0.1 0.1 1 (Some 4%positive);
              mkParticle (-1) (-0.2) 0.2 1 None])
       (Some [Some 1%positive; Some 4%positive; None; None]))
    (<[4%positive := leaf_cell (-0.45) 0 0 0.9 2]> edge_cells).

(** ** Essential nodes: the functions of the MPI build that hang cells
    received from other processes into the local tree.  They read the grid
    and the root array through globals ([root_nx], [boxsize], [tree_root]);
    here these are the fields of the state of the same names. *)

(** An [int] result: signed overflow is undefined. *)
Definition int_of (z : Z) : result Z :=
  if (- 2147483648 <=? z) && (z <=? 2147483647) then Ok z else Fault.

(** [(int)floor((v + box/2.)/boxsize)] *)
Definition grid_floor (r : Rebound) (v box : float) : result Z :=
  floor_int ((v + box / two) / boxsize r).

(** [((int)floor((v + box/2.)/boxsize)+n)%n] *)
Definition node_grid_index (r : Rebound) (v box : float) (n : Z) : result Z :=
  f ← grid_floor r v box;
  s ← int_of (f + n);
  c_mod s n.

(** [particles_get_rootbox_for_node] *)
Definition particles_get_rootbox_for_node (r : Rebound) (node : cell) : result Z :=
  i ← node_grid_index r (cell_x node) (boxsize_x r) (root_nx r);
  j ← node_grid_index r (cell_y node) (boxsize_y r) (root_ny r);
  k ← node_grid_index r (cell_z node) (boxsize_z r) (root_nz r);
  a ← int_of (k * root_ny r);
  b ← int_of (a + j);
  c ← int_of (b * root_nx r);
  int_of (c + i).

(** [tree_get_octant_for_cell_in_cell] *)
Definition tree_get_octant_for_cell_in_cell (nnode node : cell) : Z :=
  let octant := 0 in
  let octant := if (cell_x nnode <? cell_x node)%float then octant + 1 else octant in
  let octant := if (cell_y nnode <? cell_y node)%float then octant + 2 else octant in
  let octant := if (cell_z nnode <? cell_z node)%float then octant + 4 else octant in
  octant.

(** [tree_add_essential_node_to_node]; both pointers are dereferenced at
    once. *)
Fixpoint tree_add_essential_node_to_node (fuel : nat) (r : Rebound)
    (nnode node : addr) : result Rebound :=
  match fuel with
  | O => OutOfFuel
  | S fuel =>
      cn ← load r nnode;
      c ← load r node;
      let o := tree_get_octant_for_cell_in_cell cn c in
      d ← oct_at c o;
      match d with
      | None => store r node (set_oct c o (Some nnode))
      | Some a => tree_add_essential_node_to_node fuel r nnode a
      end
  end.

(** [tree_add_essential_node] *)
Definition tree_add_essential_node (fuel : nat) (r : Rebound) (node : addr)
  : result Rebound :=
  r ← clear_octs r node;
  c ← load r node;
  index ← particles_get_rootbox_for_node r c;
  d ← root_at r index;
  match d with
  | None => set_root r index (Some node)
  | Some a => tree_add_essential_node_to_node fuel r node a
  end.

(** The cell [c] with the slots [ds]. *)
Definition set_octs (c : cell) (ds : list (option addr)) : cell :=
  mkcell (cell_x c) (cell_y c) (cell_z c) (cell_w c)
         (cell_m c) (cell_mx c) (cell_my c) (cell_mz c) (cell_pt c) ds.

(** [r'] is [r] with [nnode] written into a slot of the cell [a] that held
    NULL, the slot of the octant of [nnode] in that cell. *)
Definition attached (r r' : Rebound) (nnode : addr) : Prop :=
  exists a c cn,
    cells r !! a = Some c /\ cells r !! nnode = Some cn
    /\ cell_oct c !! Z.to_nat (tree_get_octant_for_cell_in_cell cn c) = Some None
    /\ r' = with_cells r
              (<[a := set_oct c (tree_get_octant_for_cell_in_cell cn c) (Some nnode)]>
                 (cells r)).

(** The two-particle tree and a cell 5, outside the tree, in octant 2 of the
    root. *)
Definition guest : Rebound :=
  sim [mkParticle 0.1 0.1 0.1 1 (Some 2%positive);
       mkParticle (-0.1) (-0.1) (-0.1) 1 (Some 3%positive)] 2 0
      (<[5%positive := branch_cell 0.25 (-0.25) 0.25 0.5 (-3)
                         [None; Some 7%positive; None; None; None; None; None; None]]>
         two_leaf_cells).

(** * Properties *)

(** ** Outcomes and memory operations *)

Lemma bind_Ok {A B} (m : result A) (f : A -> result B) (b : B) :
  m ≫= f = Ok b -> exists a, m = Ok a /\ f a = Ok b.
Proof. destruct m; cbn; [eauto | discriminate | discriminate]. Qed.

(** One step of inversion of a computation that returned [Ok]. *)
Ltac inv_step H :=
  lazymatch type of H with
  | _ ≫= _ = Ok _ =>
      let a := fresh "v" in let E := fresh "E" in
      apply bind_Ok in H; destruct H as (a & E & H)
  | (let '(_, _) := ?p in _) = Ok _ => destruct p
  | (if ?b then _ else _) = Ok _ => let E := fresh "E" in destruct b eqn:E
  | (match ?d with Some _ => _ | None => _ end) = Ok _ =>
      let E := fresh "E" in destruct d eqn:E
  | Ok _ = Ok _ => injection H as H
  | Fault = Ok _ => discriminate H
  | OutOfFuel = Ok _ => discriminate H
  end.
Ltac inv_ok H := repeat inv_step H.

Lemma load_Ok r a c : load r a = Ok c <-> cells r !! a = Some c.
Proof. unfold load. destruct (cells r !! a); split; congruence. Qed.

Lemma store_Ok r a c r' :
  store r a c = Ok r' <->
  is_Some (cells r !! a) /\ r' = with_cells r (<[a := c]> (cells r)).
Proof.
  unfold store. destruct (cells r !! a) eqn:E; split.
  - intros [= <-]. eauto.
  - intros [_ ->]. reflexivity.
  - discriminate.
  - intros [[? ?] _]. discriminate.
Qed.

Lemma free_Ok r a r' :
  free r a = Ok r' <->
  is_Some (cells r !! a) /\ r' = with_cells r (delete a (cells r)).
Proof.
  unfold free. destruct (cells r !! a) eqn:E; split.
  - intros [= <-]. eauto.
  - intros [_ ->]. reflexivity.
  - discriminate.
  - intros [[? ?] _]. discriminate.
Qed.

Lemma oct_at_Ok c o d :
  oct_at c o = Ok d <-> 0 <= o < 8 /\ cell_oct c !! Z.to_nat o = Some d.
Proof.
  unfold oct_at.
  destruct (0 <=? o) eqn:E1, (o <? 8) eqn:E2; cbn;
    try (split; [discriminate | lia]).
  destruct (cell_oct c !! Z.to_nat o); split; try intros [_ ?];
    try congruence; intros [= <-]; split; [lia | reflexivity].
Qed.

Lemma deref_Ok p a : deref p = Ok a <-> p = Some a.
Proof. destruct p; cbn; split; congruence. Qed.

Lemma particle_at_Ok r i p :
  particle_at r i = Ok p <-> 0 <= i /\ particles r !! Z.to_nat i = Some p.
Proof.
  unfold particle_at. destruct (0 <=? i) eqn:E.
  - destruct (particles r !! Z.to_nat i); split; try intros [_ ?];
      try congruence; intros [= <-]; split; [lia | reflexivity].
  - split; [discriminate | lia].
Qed.

Lemma set_particle_Ok r i p r' :
  set_particle r i p = Ok r' <->
  0 <= i < Z.of_nat (length (particles r))
  /\ r' = with_particles r (<[Z.to_nat i := p]> (particles r)).
Proof.
  unfold set_particle.
  destruct (0 <=? i) eqn:E1, (i <? Z.of_nat (length (particles r))) eqn:E2; cbn;
    try (split; [discriminate | lia]).
  split; [intros [= <-]; split; [lia | reflexivity] | intros [_ ->]; reflexivity].
Qed.

Tactic Notation "bind_inv" hyp(H) "as" simple_intropattern(x) ident(E) :=
  apply bind_Ok in H; destruct H as (x & E & H).

Lemma load_eq r a c : cells r !! a = Some c -> load r a = Ok c.
Proof. apply load_Ok. Qed.

Lemma particle_at_eq r i p :
  0 <= i -> particles r !! Z.to_nat i = Some p -> particle_at r i = Ok p.
Proof. intros. apply particle_at_Ok. auto. Qed.

Lemma set_particle_eq r i p :
  0 <= i < Z.of_nat (length (particles r)) ->
  set_particle r i p = Ok (with_particles r (<[Z.to_nat i := p]> (particles r))).
Proof. intros. apply set_particle_Ok. auto. Qed.

Lemma store_eq r a c c' :
  cells r !! a = Some c -> store r a c' = Ok (with_cells r (<[a := c']> (cells r))).
Proof. intros. apply store_Ok. eauto. Qed.

Lemma free_eq r a c :
  cells r !! a = Some c -> free r a = Ok (with_cells r (delete a (cells r))).
Proof. intros. apply free_Ok. eauto. Qed.

(** ** Comparisons of [double] *)

Lemma feqb_not_ltb (a b : float) : (a =? b)%float = true -> (a <? b)%float = false.
Proof.
  rewrite FloatAxioms.eqb_spec, FloatAxioms.ltb_spec. unfold SFeqb, SFltb.
  destruct (SFcompare (Prim2SF a) (Prim2SF b)) as [[]|]; congruence.
Qed.

Lemma SFcompare_swap x y : SFcompare y x = option_map CompOpp (SFcompare x y).
Proof.
  destruct x as [sx|sx| |sx mx ex], y as [sy|sy| |sy my ey]; cbn;
    try reflexivity; try (destruct sx; reflexivity); try (destruct sy; reflexivity);
    try (destruct sx, sy; reflexivity).
  change (Pos.compare_cont Eq my mx) with (my ?= mx)%positive.
  change (Pos.compare_cont Eq mx my) with (mx ?= my)%positive.
  rewrite (Z.compare_antisym ex ey), (Pos.compare_antisym mx my).
  destruct sx, sy, (ex ?= ey), (mx ?= my)%positive; reflexivity.
Qed.

Lemma not_nan_compare a b :
  is_nan a = false -> is_nan b = false ->
  exists c, SFcompare (Prim2SF a) (Prim2SF b) = Some c.
Proof.
  unfold is_nan. rewrite !negb_false_iff, !FloatAxioms.eqb_spec. unfold SFeqb.
  destruct (Prim2SF a), (Prim2SF b); cbn; try discriminate; eauto.
Qed.

(** Away from NaN, "not greater" is "less or equal". *)
Lemma not_fgt_leb a b :
  is_nan a = false -> is_nan b = false -> negb (fgt a b) = (a <=? b)%float.
Proof.
  intros Ha Hb. unfold fgt. rewrite FloatAxioms.ltb_spec, FloatAxioms.leb_spec.
  unfold SFltb, SFleb. rewrite (SFcompare_swap (Prim2SF a) (Prim2SF b)).
  destruct (not_nan_compare a b Ha Hb) as [c ->]. destruct c; reflexivity.
Qed.

(** ** Octants (C7) *)

Lemma octant_bits (p : Particle) (node : cell) :
  let o := tree_get_octant_for_particle_in_cell p node in
  0 <= o < 8
  /\ Z.testbit o 0 = (part_x p <? cell_x node)%float
  /\ Z.testbit o 1 = (part_y p <? cell_y node)%float
  /\ Z.testbit o 2 = (part_z p <? cell_z node)%float.
Proof.
  unfold tree_get_octant_for_particle_in_cell.
  destruct (part_x p <? cell_x node)%float, (part_y p <? cell_y node)%float,
    (part_z p <? cell_z node)%float; cbn; repeat split; lia.
Qed.

(** C7.  The particles (0.1,0.1,0.1) and (-0.1,-0.1,-0.1), inserted in either
    order into the empty root box of width 1.0 at the origin, give one branch
    of occupancy -2 with exactly two leaf children: the positive particle in
    octant 0, the negative one in octant 7.  Bit k of an octant is set exactly
    when the coordinate is strictly below the center on axis k; a coordinate
    equal to the center leaves the bit clear. *)
Theorem two_particles_octants_0_and_7 :
  (exists r, (r1 ← tree_add_particle_to_tree 2 origin_box 0;
              tree_add_particle_to_tree 2 r1 1) = Ok r
             /\ two_leaves_under_root r)
  /\ (exists r, (r1 ← tree_add_particle_to_tree 2 origin_box 1;
                 tree_add_particle_to_tree 2 r1 0) = Ok r
                /\ two_leaves_under_root r)
  /\ (forall p node,
        let o := tree_get_octant_for_particle_in_cell p node in
        0 <= o < 8
        /\ Z.testbit o 0 = (part_x p <? cell_x node)%float
        /\ Z.testbit o 1 = (part_y p <? cell_y node)%float
        /\ Z.testbit o 2 = (part_z p <? cell_z node)%float)
  /\ (forall p node,
        let o := tree_get_octant_for_particle_in_cell p node in
        ((part_x p =? cell_x node)%float = true -> Z.testbit o 0 = false)
        /\ ((part_y p =? cell_y node)%float = true -> Z.testbit o 1 = false)
        /\ ((part_z p =? cell_z node)%float = true -> Z.testbit o 2 = false)).
Proof.
  split; [|split; [|split]].
  - eexists. split; [vm_compute; reflexivity|].
    do 4 eexists. repeat split; try (vm_compute; reflexivity);
      do 2 eexists; repeat split; vm_compute; reflexivity.
  - eexists. split; [vm_compute; reflexivity|].
    do 4 eexists. repeat split; try (vm_compute; reflexivity);
      do 2 eexists; repeat split; vm_compute; reflexivity.
  - intros p node. apply octant_bits.
  - intros p node o.
    destruct (octant_bits p node) as (_ & Hx & Hy & Hz). fold o in Hx, Hy, Hz.
    rewrite Hx, Hy, Hz. repeat split; apply feqb_not_ltb.
Qed.

(** ** What maintenance keeps *)

Lemma same_body_refl p : same_body p p.
Proof. repeat split. Qed.

Lemma same_body_trans p q s : same_body p q -> same_body q s -> same_body p s.
Proof. unfold same_body. intuition congruence. Qed.

Lemma same_body_set_c p n : same_body p (set_c p n).
Proof. repeat split. Qed.

Lemma cell_kept_refl c : cell_kept c c.
Proof. repeat split; auto. Qed.

Lemma cell_kept_trans c1 c2 c3 : cell_kept c1 c2 -> cell_kept c2 c3 -> cell_kept c1 c3.
Proof.
  intros (G1 & L1 & E1) (G2 & L2 & E2). repeat split; [congruence | congruence | auto].
Qed.

Lemma cell_kept_set_pt c v : cell_kept c (set_pt c v).
Proof. repeat split; auto. Qed.

Lemma cell_kept_clear c o : cell_kept c (set_oct c o None).
Proof.
  repeat split; cbn; [apply length_insert|].
  intros o' d H. destruct (decide (o' = Z.to_nat o)) as [->|Hne].
  - destruct (decide (Z.to_nat o < length (cell_oct c))%nat).
    + rewrite list_lookup_insert_eq in H by done. discriminate.
    + rewrite list_insert_ge in H by lia. done.
  - rewrite list_lookup_insert_ne in H by done. done.
Qed.

Lemma evolves_refl r : evolves r r.
Proof. split; intros; eauto using cell_kept_refl, same_body_refl. Qed.

Lemma evolves_trans r1 r2 r3 : evolves r1 r2 -> evolves r2 r3 -> evolves r1 r3.
Proof.
  intros [C1 P1] [C2 P2]. split.
  - intros b c3 H. apply C2 in H as (c2 & H & K2). apply C1 in H as (c1 & H & K1).
    eauto using cell_kept_trans.
  - intros i p3 H. apply P2 in H as (j & p2 & H & K2). apply P1 in H as (k & p1 & H & K1).
    eauto using same_body_trans.
Qed.

Lemma evolves_store r a c c' :
  cells r !! a = Some c -> cell_kept c c' ->
  evolves r (with_cells r (<[a := c']> (cells r))).
Proof.
  intros Ha K. split; cbn; [|eauto using same_body_refl].
  intros b cb. destruct (decide (a = b)) as [->|Hne].
  - rewrite lookup_insert_eq. intros [= <-]. eauto.
  - rewrite lookup_insert_ne by done. eauto using cell_kept_refl.
Qed.

Lemma evolves_free r a : evolves r (with_cells r (delete a (cells r))).
Proof.
  split; cbn; [|eauto using same_body_refl].
  intros b cb. rewrite lookup_delete_Some. intros [_ H]. eauto using cell_kept_refl.
Qed.

Lemma evolves_set_particle r i p q :
  particles r !! i = Some p -> same_body p q ->
  evolves r (with_particles r (<[i := q]> (particles r))).
Proof.
  intros Hp K. split; cbn; [eauto using cell_kept_refl|].
  intros j p'. destruct (decide (i = j)) as [->|Hne].
  - intros H. apply list_lookup_insert_Some in H as [(_ & <- & _)|[? H]]; eauto using same_body_refl.
  - rewrite list_lookup_insert_ne by done. eauto using same_body_refl.
Qed.

Lemma evolves_with_N r n : evolves r (with_N r n).
Proof. split; cbn; eauto using cell_kept_refl, same_body_refl. Qed.

Lemma for_each_preserves {S I} (R : S -> S -> Prop) (l : list I) body :
  (forall s, R s s) -> (forall a b c, R a b -> R b c -> R a c) ->
  (forall s i s', i ∈ l -> body s i = Ok s' -> R s s') ->
  forall s s', for_each l body s = Ok s' -> R s s'.
Proof.
  intros Hr Ht. induction l as [|i l IH]; intros Hb s s' H; cbn in H.
  - injection H as <-. apply Hr.
  - inv_step H. eapply Ht.
    + eapply Hb; [left | exact E].
    + apply IH; [|exact H]. intros. eapply Hb; [right|]; eassumption.
Qed.

(** ** Leaf maintenance (C4) *)

Lemma particles_add_Ok r p r' :
  particles_add r p = Ok r' ->
  0 <= N r < Z.of_nat (length (particles r)) ->
  r' = with_N (with_particles r (<[Z.to_nat (N r) := p]> (particles r))) (N r + 1).
Proof.
  unfold particles_add. intros H Hr.
  destruct (0 <=? N r) eqn:E1; [|lia].
  destruct (N r <? Z.of_nat (length (particles r))) eqn:E2; [|lia].
  cbn in H. congruence.
Qed.

Lemma evict_Ok r a r' ret :
  evict r a = Ok (r', ret) ->
  exists c p,
    cells r !! a = Some c /\ 0 <= cell_pt c
    /\ particles r !! Z.to_nat (cell_pt c) = Some p /\ ret = None
    /\ ((cell_pt c < N_tree_fixed r /\ r' = evicted_fixed r a (cell_pt c) p)
        \/ (N_tree_fixed r <= cell_pt c /\
            exists last t tc,
              1 <= N r /\ particles r !! Z.to_nat (N r - 1) = Some last
              /\ part_c last = Some t /\ cells r !! t = Some tc
              /\ r' = evicted_swapped r a (cell_pt c) p last t tc)).
Proof.
  unfold evict. intros H.
  bind_inv H as c Hc. apply load_Ok in Hc.
  bind_inv H as p Hp. apply particle_at_Ok in Hp as [Hpos Hp].
  bind_inv H as r1 H1. bind_inv H as r2 H2.
  apply free_Ok in H2 as [Hfree ->]. injection H as <- <-.
  exists c, p. repeat split; try assumption.
  destruct (cell_pt c <? N_tree_fixed r) eqn:Efix.
  - left. split; [lia|]. unfold particles_add_fixed in H1.
    apply set_particle_Ok in H1 as [_ ->]. reflexivity.
  - right. split; [lia|].
    bind_inv H1 as last Hlast. apply particle_at_Ok in Hlast as [HN Hlast].
    cbn in HN, Hlast.
    bind_inv H1 as r3 H3. apply set_particle_Ok in H3 as [Hrange ->]. cbn in Hrange.
    bind_inv H1 as q Hq. apply particle_at_Ok in Hq as [_ Hq]. cbn in Hq.
    rewrite list_lookup_insert_eq in Hq by lia. injection Hq as <-.
    bind_inv H1 as t Ht. apply deref_Ok in Ht.
    bind_inv H1 as tc Htc. apply load_Ok in Htc. cbn in Htc.
    bind_inv H1 as r4 H4. apply store_Ok in H4 as [_ ->].
    apply particles_add_Ok in H1; cbn in *.
    2:{ rewrite length_insert. apply lookup_lt_Some in Hlast. lia. }
    subst r1. exists last, t, tc. repeat split; try assumption; [lia|].
    unfold evicted_swapped, with_cells, with_N, with_particles. cbn.
    f_equal. lia.
Qed.

Lemma inside_eq r a c p :
  cells r !! a = Some c -> 0 <= cell_pt c ->
  particles r !! Z.to_nat (cell_pt c) = Some p ->
  tree_particle_is_inside_cell r a = Ok (if outside_box p c then 0 else 1).
Proof.
  intros Ha Hpt Hp. unfold tree_particle_is_inside_cell.
  rewrite (load_eq _ _ _ Ha). cbn. rewrite (particle_at_eq _ _ _ Hpt Hp). cbn.
  destruct (outside_box p c); reflexivity.
Qed.

Lemma leaf_update_eq fuel r a c p :
  cells r !! a = Some c -> 0 <= cell_pt c ->
  particles r !! Z.to_nat (cell_pt c) = Some p ->
  tree_update_cell (S fuel) r (Some a) =
  if outside_box p c then evict r a else refresh r a.
Proof.
  intros Ha Hpt Hp. cbn [tree_update_cell].
  rewrite (load_eq _ _ _ Ha). cbn [mbind result_bind].
  destruct (cell_pt c <? 0) eqn:E; [lia|].
  rewrite (inside_eq _ _ _ _ Ha Hpt Hp). cbn [mbind result_bind].
  destruct (outside_box p c); reflexivity.
Qed.

Lemma refresh_eq r a c p :
  cells r !! a = Some c -> 0 <= cell_pt c ->
  particles r !! Z.to_nat (cell_pt c) = Some p ->
  refresh r a =
  Ok (with_particles r (<[Z.to_nat (cell_pt c) := set_c p (Some a)]> (particles r)),
      Some a).
Proof.
  intros Ha Hpt Hp. unfold refresh.
  rewrite (load_eq _ _ _ Ha). cbn. rewrite (particle_at_eq _ _ _ Hpt Hp). cbn.
  rewrite set_particle_eq; [reflexivity|].
  apply lookup_lt_Some in Hp. lia.
Qed.

Lemma evict_eq r a c p :
  cells r !! a = Some c -> 0 <= cell_pt c ->
  particles r !! Z.to_nat (cell_pt c) = Some p ->
  (cell_pt c < N_tree_fixed r ->
   evict r a = (r1 ← particles_add_fixed r p (cell_pt c); r2 ← free r1 a; Ok (r2, None)))
  /\ (N_tree_fixed r <= cell_pt c ->
      forall last t tc,
        1 <= N r -> particles r !! Z.to_nat (N r - 1) = Some last ->
        part_c last = Some t -> cells r !! t = Some tc ->
        evict r a = (r1 ← particles_add (swapped_out r (cell_pt c) last t tc) p;
                     r2 ← free r1 a; Ok (r2, None))).
Proof.
  intros Ha Hpt Hp. split.
  - intros Hfix. unfold evict.
    rewrite (load_eq _ _ _ Ha). cbn. rewrite (particle_at_eq _ _ _ Hpt Hp). cbn.
    destruct (cell_pt c <? N_tree_fixed r) eqn:E; [reflexivity | lia].
  - intros Hfix last t tc HN Hlast Ht Htc. unfold evict.
    rewrite (load_eq _ _ _ Ha). cbn. rewrite (particle_at_eq _ _ _ Hpt Hp). cbn.
    destruct (cell_pt c <? N_tree_fixed r) eqn:E; [lia|].
    rewrite particle_at_eq with (p := last); [|cbn; lia|exact Hlast]. cbn.
    rewrite set_particle_eq; [|cbn; apply lookup_lt_Some in Hp; lia]. cbn.
    rewrite particle_at_eq with (p := last); [|cbn; lia|].
    2:{ cbn. apply list_lookup_insert_eq. apply lookup_lt_Some in Hp. lia. }
    cbn. rewrite Ht. cbn. rewrite (load_eq _ t tc) by exact Htc. cbn.
    rewrite (store_eq _ t tc) by exact Htc. cbn. reflexivity.
Qed.

Lemma outside_box_false p c :
  outside_box p c = false <->
  fgt (abs (part_x p - cell_x c)) (cell_w c / two) = false
  /\ fgt (abs (part_y p - cell_y c)) (cell_w c / two) = false
  /\ fgt (abs (part_z p - cell_z c)) (cell_w c / two) = false.
Proof.
  unfold outside_box. rewrite !orb_false_iff. tauto.
Qed.

Lemma outside_box_within p c :
  no_nan_distance p c -> outside_box p c = negb (within_half_width p c).
Proof.
  intros (Hx & Hy & Hz & Hw). unfold outside_box, within_half_width.
  rewrite <- !not_fgt_leb by assumption.
  destruct (fgt _ _), (fgt _ _), (fgt _ _); reflexivity.
Qed.

(** A particle with a NaN coordinate is never evicted, although no distance
    of it is <= the half-width. *)
Lemma nan_particle_is_kept : ~ evicted_iff_beyond_half_width.
Proof.
  intros H.
  specialize (H 0%nat lost 2%positive
                (leaf_cell 0.25 0.25 0.25 0.5 0)
                (mkParticle nan 0.1 0.1 1 (Some 2%positive))).
  edestruct H as [_ K]; [reflexivity | cbn; lia | reflexivity | vm_compute; reflexivity |].
  discriminate K. vm_compute. reflexivity.
Qed.

(** C4, amended.  For a leaf [a] that holds particle [p]: the containment
    test returns 0 exactly when some axis distance exceeds the half-width,
    which is the failure of "all three distances <= half-width" whenever no
    distance is NaN.  When the test returns 1 the leaf is kept and the
    back-reference refreshed.  When it returns 0 the particle goes to the
    particle store - [particles_add_fixed] at its old index below
    [N_tree_fixed], [particles_add] after swap-with-last-and-shrink otherwise
    - the leaf is freed and NULL is returned. *)
Theorem leaf_evicted_iff_outside_box (fuel : nat) (r : Rebound) (a : addr)
    (c : cell) (p : Particle) :
  cells r !! a = Some c -> 0 <= cell_pt c ->
  particles r !! Z.to_nat (cell_pt c) = Some p ->
  tree_particle_is_inside_cell r a = Ok (if outside_box p c then 0 else 1)
  /\ (outside_box p c = false <->
      fgt (abs (part_x p - cell_x c)) (cell_w c / two) = false
      /\ fgt (abs (part_y p - cell_y c)) (cell_w c / two) = false
      /\ fgt (abs (part_z p - cell_z c)) (cell_w c / two) = false)
  /\ (no_nan_distance p c -> outside_box p c = negb (within_half_width p c))
  /\ (outside_box p c = false ->
      tree_update_cell (S fuel) r (Some a) =
      Ok (with_particles r
            (<[Z.to_nat (cell_pt c) := set_c p (Some a)]> (particles r)),
          Some a))
  /\ (outside_box p c = true -> cell_pt c < N_tree_fixed r ->
      tree_update_cell (S fuel) r (Some a) =
      (r1 ← particles_add_fixed r p (cell_pt c); r2 ← free r1 a; Ok (r2, None))
      /\ tree_update_cell (S fuel) r (Some a) =
         Ok (evicted_fixed r a (cell_pt c) p, None))
  /\ (outside_box p c = true -> N_tree_fixed r <= cell_pt c ->
      forall last t tc,
        1 <= N r -> particles r !! Z.to_nat (N r - 1) = Some last ->
        part_c last = Some t -> cells r !! t = Some tc ->
        tree_update_cell (S fuel) r (Some a) =
        (r1 ← particles_add (swapped_out r (cell_pt c) last t tc) p;
         r2 ← free r1 a; Ok (r2, None))
        /\ tree_update_cell (S fuel) r (Some a) =
           Ok (evicted_swapped r a (cell_pt c) p last t tc, None)).
Proof.
  intros Ha Hpt Hp.
  pose proof (leaf_update_eq fuel r a c p Ha Hpt Hp) as Hupd.
  destruct (evict_eq r a c p Ha Hpt Hp) as [Hfixed Hswap].
  assert (Hlen : 0 <= cell_pt c < Z.of_nat (length (particles r))).
  { apply lookup_lt_Some in Hp. lia. }
  split; [apply inside_eq; assumption|].
  split; [apply outside_box_false|].
  split; [apply outside_box_within|].
  split; [|split].
  - intros Hin. rewrite Hupd, Hin. apply refresh_eq; assumption.
  - intros Hout Hfix. rewrite Hupd, Hout. split; [apply Hfixed; assumption|].
    rewrite Hfixed by assumption. unfold particles_add_fixed.
    rewrite set_particle_eq by assumption. cbn [mbind result_bind].
    rewrite (free_eq _ a c) by exact Ha. reflexivity.
  - intros Hout Hfix last t tc HN Hlast Ht Htc. rewrite Hupd, Hout.
    split; [apply Hswap; assumption|].
    rewrite (Hswap Hfix last t tc) by assumption.
    unfold particles_add, swapped_out. cbn.
    assert (Hl : (Z.to_nat (N r - 1) < length (particles r))%nat)
      by (apply lookup_lt_Some in Hlast; exact Hlast).
    rewrite length_insert.
    destruct (0 <=? N r - 1) eqn:E1; [|lia].
    destruct (N r - 1 <? Z.of_nat (length (particles r))) eqn:E2; [|lia].
    cbn.
    assert (Hfree : is_Some (<[t := set_pt tc (cell_pt c)]> (cells r) !! a)).
    { destruct (decide (t = a)) as [->|Hne].
      - rewrite lookup_insert_eq. eauto.
      - rewrite lookup_insert_ne by done. eauto. }
    unfold free. cbn. destruct Hfree as [x ->]. cbn.
    unfold evicted_swapped, with_cells, with_N, with_particles. cbn.
    do 3 f_equal. lia.
Qed.

Lemma leaf_evicted_iff_outside_box_witness :
  tree_update_cell 1 strayed (Some 2%positive) =
  Ok (evicted_swapped strayed 2 0
        (mkParticle 0.9 0.1 0.1 1 (Some 2%positive))
        (mkParticle (-0.1) (-0.1) (-0.1) 1 (Some 3%positive))
        3 (leaf_cell (-0.25) (-0.25) (-0.25) 0.5 1), None).
Proof.
  apply (leaf_evicted_iff_outside_box 0 strayed 2
           (leaf_cell 0.25 0.25 0.25 0.5 0)
           (mkParticle 0.9 0.1 0.1 1 (Some 2%positive)));
    try reflexivity; cbn; lia.
Defined.

(** ** The maintenance pass (C1, C2, C3, C6, C9) *)

(** *** Every step of maintenance evolves the state *)

Lemma steady_refl r : steady r r.
Proof. split; [apply evolves_refl | reflexivity]. Qed.

Lemma steady_trans r1 r2 r3 : steady r1 r2 -> steady r2 r3 -> steady r1 r3.
Proof. intros [E1 T1] [E2 T2]. split; [eauto using evolves_trans | congruence]. Qed.

Lemma steady_store r a c c' r' :
  cells r !! a = Some c -> cell_kept c c' -> store r a c' = Ok r' -> steady r r'.
Proof.
  intros Ha K H. apply store_Ok in H as [_ ->].
  split; [eapply evolves_store; eassumption | reflexivity].
Qed.

Lemma steady_free r a r' : free r a = Ok r' -> steady r r'.
Proof. intros H. apply free_Ok in H as [_ ->]. split; [apply evolves_free | reflexivity]. Qed.

Lemma steady_set_c r i p n r' :
  particle_at r i = Ok p -> set_particle r i (set_c p n) = Ok r' -> steady r r'.
Proof.
  intros Hp H. apply particle_at_Ok in Hp as [_ Hp]. apply set_particle_Ok in H as [_ ->].
  split; [|reflexivity]. eapply evolves_set_particle; [eassumption | apply same_body_set_c].
Qed.

Lemma evolves_evicted_fixed r a i p :
  particles r !! Z.to_nat i = Some p -> evolves r (evicted_fixed r a i p).
Proof.
  intros Hp. split; cbn.
  - intros b c'. rewrite lookup_delete_Some. intros [_ H]. eauto using cell_kept_refl.
  - intros j p' H.
    apply list_lookup_insert_Some in H as [(_ & <- & _)|[_ H]];
      eauto using same_body_refl.
Qed.

Lemma evolves_evicted_swapped r a i p last t tc :
  particles r !! Z.to_nat i = Some p ->
  particles r !! Z.to_nat (N r - 1) = Some last ->
  cells r !! t = Some tc ->
  evolves r (evicted_swapped r a i p last t tc).
Proof.
  intros Hp Hlast Ht. split; cbn.
  - intros b c'. rewrite lookup_delete_Some. intros [_ H].
    destruct (decide (t = b)) as [->|Hne].
    + rewrite lookup_insert_eq in H. injection H as <-. eauto using cell_kept_set_pt.
    + rewrite lookup_insert_ne in H by done. eauto using cell_kept_refl.
  - intros j p' H.
    apply list_lookup_insert_Some in H as [(_ & <- & _)|[_ H]];
      [eauto using same_body_refl|].
    apply list_lookup_insert_Some in H as [(_ & <- & _)|[_ H]];
      eauto using same_body_refl.
Qed.

Lemma steady_evict r a r' ret : evict r a = Ok (r', ret) -> steady r r' /\ ret = None.
Proof.
  intros H. apply evict_Ok in H as (c & p & Ha & Hpt & Hp & -> & [[_ ->]|[_ H]]).
  - split; [|reflexivity]. split; [apply evolves_evicted_fixed; assumption | reflexivity].
  - destruct H as (last & t & tc & _ & Hlast & _ & Ht & ->).
    split; [|reflexivity].
    split; [apply evolves_evicted_swapped; assumption | reflexivity].
Qed.

Lemma steady_refresh r a r' ret :
  refresh r a = Ok (r', ret) -> steady r r' /\ ret = Some a.
Proof.
  unfold refresh. intros H.
  bind_inv H as c Hc. bind_inv H as p Hp. bind_inv H as r1 H1.
  injection H as <- <-. split; [|reflexivity]. eapply steady_set_c; eassumption.
Qed.

Lemma steady_count_octant a r test o r' test' :
  count_octant a (r, test) o = Ok (r', test') -> steady r r'.
Proof.
  unfold count_octant. intros H.
  bind_inv H as c Hc. bind_inv H as d Hd. destruct d as [da|].
  - bind_inv H as dc Hdc. bind_inv H as c2 Hc2. apply load_Ok in Hc2.
    destruct (0 <=? cell_pt dc); bind_inv H as r1 H1; injection H as <- _;
      eapply steady_store; eauto using cell_kept_set_pt.
  - injection H as <- _. apply steady_refl.
Qed.

Lemma steady_recount a l : forall r test r' test',
  for_each l (count_octant a) (r, test) = Ok (r', test') -> steady r r'.
Proof.
  induction l as [|o l IH]; intros r test r' test' H; cbn in H.
  - injection H as <- _. apply steady_refl.
  - bind_inv H as [r1 t1] H1. eapply steady_trans; [eapply steady_count_octant|eapply IH]; eassumption.
Qed.

Lemma steady_derefine r a test r' ret :
  derefine r a test = Ok (r', ret) -> steady r r' /\ (ret = None \/ ret = Some a).
Proof.
  unfold derefine. intros H. bind_inv H as c Hc. apply load_Ok in Hc.
  destruct (cell_pt c =? 0).
  { bind_inv H as r1 H1. injection H as <- <-. split; [eapply steady_free; eassumption | auto]. }
  destruct (cell_pt c =? -1); [|injection H as <- <-; split; [apply steady_refl | auto]].
  bind_inv H as d Hd. bind_inv H as da Hda. bind_inv H as dc Hdc.
  bind_inv H as r1 H1. bind_inv H as c1 Hc1. bind_inv H as p Hp.
  bind_inv H as r2 H2. bind_inv H as c2 Hc2. bind_inv H as d2 Hd2.
  bind_inv H as r3 H3. bind_inv H as c3 Hc3. bind_inv H as r4 H4.
  injection H as <- <-. split; [|auto].
  eapply steady_trans; [eapply steady_store; eauto using cell_kept_set_pt|].
  eapply steady_trans; [eapply steady_set_c; eassumption|].
  eapply steady_trans.
  { destruct d2; cbn in H3; [eapply steady_free; eassumption|].
    injection H3 as <-. apply steady_refl. }
  apply load_Ok in Hc3. eapply steady_store; eauto using cell_kept_clear.
Qed.

Lemma steady_update_octant upd a r o r' :
  (forall r d r' ret, upd r d = Ok (r', ret) -> steady r r' /\ (ret = None \/ ret = d)) ->
  update_octant upd a r o = Ok r' -> steady r r'.
Proof.
  intros Hupd H. unfold update_octant, update_slot in H.
  bind_inv H as d Hd. unfold get_oct in Hd.
  bind_inv Hd as c0 Hc0. apply load_Ok in Hc0. apply oct_at_Ok in Hd as [Ho Hd].
  bind_inv H as [r1 d'] H1. apply Hupd in H1 as [[[HC HP] HT] Hret].
  unfold put_oct in H. bind_inv H as c1 Hc1. apply load_Ok in Hc1.
  apply store_Ok in H as [_ ->].
  split; [|exact HT]. split; cbn; [|exact HP].
  intros b c'. destruct (decide (a = b)) as [<-|Hne].
  - rewrite lookup_insert_eq. intros [= <-].
    destruct (HC _ _ Hc1) as (c & Hc & HG & HL & HE).
    rewrite Hc0 in Hc. injection Hc as <-.
    exists c0. split; [assumption|]. repeat split; cbn; [exact HG | rewrite length_insert; exact HL |].
    intros o' x Hx. destruct (decide (o' = Z.to_nat o)) as [->|Hne].
    + apply list_lookup_insert_Some in Hx as [(_ & Hx & _)|[? _]]; [|done].
      destruct Hret as [->| ->]; [discriminate|]. rewrite Hd. f_equal. exact Hx.
    + rewrite list_lookup_insert_ne in Hx by done. auto.
  - rewrite lookup_insert_ne by done. apply HC.
Qed.

Lemma steady_tree_update_cell fuel : forall r node r' ret,
  tree_update_cell fuel r node = Ok (r', ret) ->
  steady r r' /\ (ret = None \/ ret = node).
Proof.
  induction fuel as [|fuel IH]; intros r node r' ret H; [discriminate|].
  cbn [tree_update_cell] in H. destruct node as [a|].
  2:{ injection H as <- <-. split; [apply steady_refl | auto]. }
  bind_inv H as c Hc. destruct (cell_pt c <? 0).
  - bind_inv H as r1 H1. bind_inv H as c1 Hc1. apply load_Ok in Hc1.
    bind_inv H as r2 H2. bind_inv H as [r3 test] H3.
    apply steady_derefine in H as [H4 Hret]. split; [|exact Hret].
    eapply steady_trans; [|eapply steady_trans; [|eapply steady_trans]].
    + eapply (for_each_preserves steady); [apply steady_refl | apply steady_trans | | exact H1].
      intros s i s' _. apply steady_update_octant. exact IH.
    + eapply steady_store; eauto using cell_kept_set_pt.
    + eapply steady_recount; eassumption.
    + exact H4.
  - bind_inv H as inside Hin. destruct (inside =? 0).
    + apply steady_evict in H as [? ->]. auto.
    + apply steady_refresh in H as [? ->]. auto.
Qed.

(** *** Shape *)

Lemma subtree_S fuel h a l :
  subtree (S fuel) h (Some a) = Some l <->
  exists c, h !! a = Some c /\ length (cell_oct c) = 8%nat
            /\ ((cell_pt c < 0 /\ exists ls, slots_nodes fuel h (cell_oct c) ls
                                             /\ l = a :: mjoin ls)
                \/ (0 <= cell_pt c /\ l = [a])).
Proof.
  cbn [subtree]. destruct (h !! a) as [c|] eqn:Ha; cbn.
  2:{ split; [discriminate | intros (c & ? & _); discriminate]. }
  destruct (decide (length (cell_oct c) = 8%nat)) as [Hl|Hl].
  2:{ split; [discriminate | intros (c' & [= <-] & ? & _); contradiction]. }
  destruct (cell_pt c <? 0) eqn:E.
  - split.
    + intros H. apply bind_Some in H as (ls & Hls & [= <-]).
      apply mapM_Some in Hls. exists c. repeat split; try assumption.
      left. split; [lia|]. eauto.
    + intros (c' & [= <-] & _ & [(_ & ls & Hls & ->)|[? _]]); [|lia].
      apply mapM_Some in Hls. unfold slots_nodes in Hls. rewrite Hls. reflexivity.
  - split.
    + intros [= <-]. exists c. repeat split; try assumption. right. split; [lia | reflexivity].
    + intros (c' & [= <-] & _ & [(? & _)|[_ ->]]); [lia | reflexivity].
Qed.

Lemma subtree_None fuel h l : subtree fuel h None = Some l -> l = [].
Proof. destruct fuel; cbn; congruence. Qed.

Lemma subtree_in fuel h d l n :
  subtree fuel h d = Some l -> n ∈ l -> exists a, d = Some a.
Proof.
  destruct d as [a|]; [eauto|]. intros H Hn. apply subtree_None in H as ->.
  apply elem_of_nil in Hn. contradiction.
Qed.

Lemma slots_nodes_elem fuel h ds ls n :
  slots_nodes fuel h ds ls -> n ∈ mjoin ls ->
  exists o d l, ds !! o = Some (Some d) /\ ls !! o = Some l
                /\ subtree fuel h (Some d) = Some l /\ n ∈ l.
Proof.
  intros HF Hn. apply list_elem_of_join in Hn as (l & Hn & Hl).
  apply list_elem_of_lookup in Hl as [o Ho].
  destruct (Forall2_lookup_r _ _ _ _ _ HF Ho) as (d & Hd & Hsub).
  destruct (subtree_in _ _ _ _ _ Hsub Hn) as (da & ->). eauto 10.
Qed.

Lemma subtree_root_in fuel h a l : subtree fuel h (Some a) = Some l -> a ∈ l.
Proof.
  destruct fuel; [discriminate|]. intros H.
  apply subtree_S in H as (c & _ & _ & [(_ & ls & _ & ->)|[_ ->]]); left.
Qed.

Lemma subtree_allocated fuel : forall h d l n,
  subtree fuel h d = Some l -> n ∈ l -> is_Some (h !! n).
Proof.
  induction fuel as [|fuel IH]; intros h d l n H Hn; [discriminate|].
  destruct (subtree_in _ _ _ _ _ H Hn) as [a ->].
  apply subtree_S in H as (c & Ha & _ & [(_ & ls & Hls & ->)|[_ ->]]).
  - apply elem_of_cons in Hn as [->|Hn]; [eauto|].
    destruct (slots_nodes_elem _ _ _ _ _ Hls Hn) as (o & d & l & _ & _ & Hd & Hl). eauto.
  - apply list_elem_of_singleton in Hn as ->. eauto.
Qed.

Lemma subtree_child_in fuel : forall h x l n c o d,
  subtree fuel h x = Some l -> n ∈ l -> h !! n = Some c -> cell_pt c < 0 ->
  cell_oct c !! o = Some (Some d) -> d ∈ l.
Proof.
  induction fuel as [|fuel IH]; intros h x l n c o d H Hn Hc Hpt Ho; [discriminate|].
  destruct (subtree_in _ _ _ _ _ H Hn) as [a ->].
  apply subtree_S in H as (ca & Ha & _ & [(_ & ls & Hls & ->)|[Hpos ->]]).
  - apply elem_of_cons in Hn as [->|Hn].
    + rewrite Ha in Hc. injection Hc as ->.
      destruct (Forall2_lookup_l _ _ _ _ _ Hls Ho) as (ld & Hld & Hsub). cbn in Hsub.
      apply elem_of_cons. right. apply list_elem_of_join. exists ld.
      split; [eapply subtree_root_in; eassumption | eapply list_elem_of_lookup_2; eassumption].
    + destruct (slots_nodes_elem _ _ _ _ _ Hls Hn) as (o' & d' & l' & _ & Hl' & Hd' & Hnl).
      apply elem_of_cons. right. apply list_elem_of_join. exists l'.
      split; [eapply IH; eassumption | eapply list_elem_of_lookup_2; eassumption].
  - apply list_elem_of_singleton in Hn as ->. rewrite Ha in Hc. injection Hc as ->. lia.
Qed.

Lemma relabel_of_refl c : relabel_of c c.
Proof. destruct c; repeat split; auto. Qed.

Lemma relabel_of_trans c1 c2 c3 : relabel_of c1 c2 -> relabel_of c2 c3 -> relabel_of c1 c3.
Proof.
  intros (E1 & N1 & P1) (E2 & N2 & P2). repeat split.
  - rewrite E2 at 1. rewrite E1. reflexivity.
  - intros H. rewrite N2; [auto | rewrite N1; auto].
  - auto.
Qed.

Lemma cell_rel_refl o : cell_rel o o.
Proof. destruct o; cbn; eauto using relabel_of_refl. Qed.

Lemma cell_rel_trans o1 o2 o3 : cell_rel o1 o2 -> cell_rel o2 o3 -> cell_rel o1 o3.
Proof.
  destruct o1 as [c1|]; cbn.
  - intros (c2 & -> & R1) (c3 & -> & R2). eauto using relabel_of_trans.
  - intros -> H. exact H.
Qed.

Lemma cell_rel_eq o o' : o' = o -> cell_rel o o'.
Proof. intros ->. apply cell_rel_refl. Qed.

Lemma frame_refl l h : frame l h h.
Proof. intros b _. apply cell_rel_refl. Qed.

Lemma frame_trans l h1 h2 h3 : frame l h1 h2 -> frame l h2 h3 -> frame l h1 h3.
Proof. intros F1 F2 b Hb. eapply cell_rel_trans; eauto. Qed.

Lemma frame_weaken l l' h h' : frame l h h' -> l ⊆ l' -> frame l' h h'.
Proof. intros F Hs b Hb. apply F. set_solver. Qed.

Lemma cell_rel_Some o o' c :
  cell_rel o o' -> o = Some c -> exists c', o' = Some c' /\ relabel_of c c'.
Proof. intros H ->. exact H. Qed.

Lemma relabel_of_oct c c' : relabel_of c c' -> cell_oct c' = cell_oct c.
Proof. intros (-> & _). reflexivity. Qed.

Lemma relabel_of_geometry c c' : relabel_of c c' -> geometry c' = geometry c.
Proof. intros (-> & _). reflexivity. Qed.

Lemma relabel_of_branch c c' : relabel_of c c' -> cell_pt c < 0 -> c' = c.
Proof. intros (E & Hn & _) H. rewrite E, (Hn H). destruct c; reflexivity. Qed.

Lemma relabel_of_sign c c' : relabel_of c c' -> (cell_pt c' <? 0) = (cell_pt c <? 0).
Proof.
  intros (_ & Hn & Hp). destruct (Z.ltb_spec (cell_pt c) 0).
  - rewrite Hn by assumption. lia.
  - specialize (Hp H). lia.
Qed.

Lemma contribution_rel h h' d :
  cell_rel (h !! d) (h' !! d) -> contribution h' (Some d) = contribution h (Some d).
Proof.
  unfold contribution. destruct (h !! d) as [c|]; cbn.
  - intros (c' & -> & R). pose proof (relabel_of_sign _ _ R) as Hs.
    destruct R as (_ & Hn & Hp).
    destruct (Z.leb_spec 0 (cell_pt c)), (Z.leb_spec 0 (cell_pt c')); try lia.
  - intros ->. reflexivity.
Qed.

(** A tree whose cells change by relabelling only is the same tree. *)
Lemma subtree_rel fuel : forall h h' d l,
  (forall n, n ∈ l -> cell_rel (h !! n) (h' !! n)) ->
  subtree fuel h d = Some l -> subtree fuel h' d = Some l.
Proof.
  induction fuel as [|fuel IH]; intros h h' d l Hrel H; [discriminate|].
  destruct d as [a|]; [|exact H].
  apply subtree_S in H as (c & Ha & Hlen & Hcase). apply subtree_S.
  assert (Hin : a ∈ l) by (destruct Hcase as [(_ & ls & _ & ->)|[_ ->]]; left).
  destruct (cell_rel_Some _ _ _ (Hrel a Hin) Ha) as (c' & Ha' & R).
  exists c'. split; [assumption|]. split; [rewrite (relabel_of_oct _ _ R); assumption|].
  destruct Hcase as [(Hpt & ls & Hls & ->)|[Hpt ->]].
  - left. rewrite (relabel_of_branch _ _ R Hpt). split; [assumption|].
    exists ls. split; [|reflexivity].
    apply Forall2_same_length_lookup. split; [eapply Forall2_length; eassumption|].
    intros o d l Hd Hl. pose proof (Forall2_lookup_lr _ _ _ _ _ _ Hls Hd Hl) as Hsub.
    cbn in Hsub. eapply IH; [|eassumption]. intros n Hn. apply Hrel.
    apply elem_of_cons. right. apply list_elem_of_join. exists l.
    split; [assumption | eapply list_elem_of_lookup_2; eassumption].
  - right. destruct R as (_ & _ & Hp). split; [auto | reflexivity].
Qed.

Lemma subtree_frame fuel h h' d l l0 :
  frame l0 h h' -> (forall n, n ∈ l -> n ∉ l0) ->
  subtree fuel h d = Some l -> subtree fuel h' d = Some l.
Proof. intros F Hd. apply subtree_rel. intros n Hn. apply F, Hd, Hn. Qed.

Lemma subtree_mono fuel : forall fuel' h d l,
  subtree fuel h d = Some l -> (fuel <= fuel')%nat -> subtree fuel' h d = Some l.
Proof.
  induction fuel as [|fuel IH]; intros fuel' h d l H Hle; [discriminate|].
  destruct fuel' as [|fuel']; [lia|]. destruct d as [a|]; [|exact H].
  apply subtree_S in H as (c & Ha & Hlen & Hcase). apply subtree_S.
  exists c. repeat split; try assumption.
  destruct Hcase as [(Hpt & ls & Hls & ->)|[Hpt ->]]; [left | right; auto].
  split; [assumption|]. exists ls. split; [|reflexivity].
  eapply Forall2_impl; [exact Hls|]. intros d l Hd. cbn in *.
  apply IH; [assumption | lia].
Qed.

(** *** Boxes and positions *)

Lemma outside_box_ext p p' c c' :
  same_body p p' -> geometry c' = geometry c -> outside_box p' c' = outside_box p c.
Proof.
  intros (Hx & Hy & Hz & _) Hg. unfold geometry in Hg. injection Hg as Gx Gy Gz Gw.
  unfold outside_box. rewrite Hx, Hy, Hz, Gx, Gy, Gz, Gw. reflexivity.
Qed.

Lemma outside_box_set_c p n c : outside_box (set_c p n) c = outside_box p c.
Proof. reflexivity. Qed.

Lemma outside_box_set_pt p c v : outside_box p (set_pt c v) = outside_box p c.
Proof. reflexivity. Qed.

Lemma nested_evolves r r' : evolves r r' -> nested r -> nested r'.
Proof.
  intros [HC HP] Hn i p' a c' o d dc' Hp Ha Ho Hd Hin.
  destruct (HP _ _ Hp) as (j & p & Hj & Hb).
  destruct (HC _ _ Ha) as (c & Hc & Hg & _ & He).
  destruct (HC _ _ Hd) as (dc & Hdc & Hgd & _ & _).
  rewrite (outside_box_ext p p' c c' Hb Hg).
  eapply Hn; [exact Hj | exact Hc | apply He; exact Ho | exact Hdc |].
  rewrite <- (outside_box_ext p p' dc dc' Hb Hgd). exact Hin.
Qed.

(** *** Node lists without repetition *)

Lemma NoDup_join_lookup {A} (ls : list (list A)) i l :
  NoDup (mjoin ls) -> ls !! i = Some l -> NoDup l.
Proof.
  revert i. induction ls as [|l0 ls IH]; intros i Hnd Hl; [discriminate|].
  cbn in Hnd. apply NoDup_app in Hnd as (H0 & _ & Hrest).
  destruct i; cbn in Hl; [injection Hl as <-; assumption | eauto].
Qed.

Lemma NoDup_join_disjoint {A} (ls : list (list A)) i j li lj x :
  NoDup (mjoin ls) -> i <> j -> ls !! i = Some li -> ls !! j = Some lj ->
  x ∈ li -> x ∉ lj.
Proof.
  revert i j. induction ls as [|l0 ls IH]; intros i j Hnd Hij Hi Hj Hx; [discriminate|].
  cbn in Hnd. apply NoDup_app in Hnd as (H0 & Hd & Hrest).
  destruct i as [|i], j as [|j]; cbn in Hi, Hj; try done.
  - injection Hi as <-. intros Hxj. apply (Hd x Hx).
    apply list_elem_of_join. exists lj. split; [assumption | eapply list_elem_of_lookup_2; eassumption].
  - injection Hj as <-. intros Hxj. apply (Hd x Hxj).
    apply list_elem_of_join. exists li. split; [assumption | eapply list_elem_of_lookup_2; eassumption].
  - eapply IH; [exact Hrest | | exact Hi | exact Hj | exact Hx]. congruence.
Qed.

Lemma elem_of_join_lookup {A} (ls : list (list A)) i l x :
  ls !! i = Some l -> x ∈ l -> x ∈ mjoin ls.
Proof.
  intros Hl Hx. apply list_elem_of_join. exists l.
  split; [assumption | eapply list_elem_of_lookup_2; eassumption].
Qed.

(** Sublists of lists without common elements and without repetition. *)
Lemma NoDup_join_sub {A} (ls' ls : list (list A)) :
  Forall2 (fun l' l => l' ⊆ l /\ NoDup l') ls' ls -> NoDup (mjoin ls) -> NoDup (mjoin ls').
Proof.
  induction 1 as [|l' l ls' ls [Hs Hn] HF IH]; intros Hnd; [constructor|].
  cbn in *. apply NoDup_app in Hnd as (H0 & Hd & Hrest). apply NoDup_app.
  split; [assumption|]. split; [|auto].
  intros x Hx Hx'. apply (Hd x (Hs x Hx)).
  apply list_elem_of_join in Hx' as (k' & Hk' & Hin).
  apply list_elem_of_lookup in Hin as [i Hi].
  destruct (Forall2_lookup_l _ _ _ _ _ HF Hi) as (k & Hk & Hsub & _).
  eapply elem_of_join_lookup; [exact Hk | apply Hsub, Hk'].
Qed.

(** *** Occupancy *)

Lemma occupancy_cons h d oct :
  occupancy_of_children h (d :: oct) = contribution h d + occupancy_of_children h oct.
Proof. reflexivity. Qed.

Lemma occupancy_rel h h' oct :
  (forall d, Some d ∈ oct -> cell_rel (h !! d) (h' !! d)) ->
  occupancy_of_children h' oct = occupancy_of_children h oct.
Proof.
  induction oct as [|d oct IH]; intros H; [reflexivity|].
  rewrite !occupancy_cons. rewrite IH by (intros; apply H; set_solver). f_equal.
  destruct d as [d|]; [|reflexivity]. apply contribution_rel, H. set_solver.
Qed.

(** *** Quiet changes: what a change elsewhere leaves of a maintained tree *)

Lemma quiet_refl G l r : quiet G l r r.
Proof. split; [apply frame_refl|]. intros n c _ Hc Hpt Hok. eauto. Qed.

Lemma quiet_trans G l r1 r2 r3 : quiet G l r1 r2 -> quiet G l r2 r3 -> quiet G l r1 r3.
Proof.
  intros [F1 K1] [F2 K2]. split; [eapply frame_trans; eassumption|].
  intros n c Hn Hc Hpt Hok.
  destruct (K1 n c Hn Hc Hpt Hok) as (c2 & Hc2 & Hpt2 & Hok2). eauto.
Qed.

Lemma quiet_weaken G l l' r r' : quiet G l r r' -> l ⊆ l' -> quiet G l' r r'.
Proof.
  intros [F K] Hs. split; [eapply frame_weaken; eassumption|].
  intros n c Hn. apply K. set_solver.
Qed.

Lemma node_ok_quiet G l0 r r' fuel d l n :
  quiet G l0 r r' -> subtree fuel (cells r) d = Some l -> (forall x, x ∈ l -> x ∉ l0) ->
  n ∈ l -> node_ok G r n -> node_ok G r' n.
Proof.
  intros [F K] Hsub Hdis Hn (c & Hc & Hok).
  destruct (cell_rel_Some _ _ _ (F n (Hdis n Hn)) Hc) as (c' & Hc' & R).
  destruct (cell_pt c <? 0) eqn:E.
  - assert (Hpt : cell_pt c < 0) by lia.
    rewrite (relabel_of_branch _ _ R Hpt) in Hc'.
    exists c. split; [assumption|]. rewrite E. destruct Hok as [H2 Hocc].
    split; [assumption|]. rewrite Hocc. symmetry. apply occupancy_rel.
    intros x Hx. apply list_elem_of_lookup in Hx as [o Ho].
    apply F, Hdis. eapply subtree_child_in; eassumption.
  - assert (Hpt : 0 <= cell_pt c) by lia.
    destruct (K n c (Hdis n Hn) Hc Hpt Hok) as (c2 & Hc2 & Hpt2 & Hok2).
    exists c2. split; [assumption|].
    destruct (cell_pt c2 <? 0) eqn:E2; [lia | assumption].
Qed.

Lemma tree_ok_quiet G l0 r r' fuel l d :
  quiet G l0 r r' -> (forall x, x ∈ l -> x ∉ l0) ->
  tree_ok G fuel r l d -> tree_ok G fuel r' l d.
Proof.
  intros Q Hdis (l' & Hsub & Hincl & Hnd & Hok). exists l'.
  repeat split; try assumption.
  - eapply subtree_frame; [apply Q | | exact Hsub]. intros n Hn. apply Hdis, Hincl, Hn.
  - intros n Hn. eapply node_ok_quiet; eauto.
Qed.

(** A change that keeps the particles and the cells outside [l]. *)
Lemma quiet_same G l r r' :
  particles r' = particles r -> (forall b, b ∉ l -> cells r' !! b = cells r !! b) ->
  quiet G l r r'.
Proof.
  intros HP HC. split.
  - intros b Hb. apply cell_rel_eq, HC, Hb.
  - intros n c Hn Hc Hpt (p & Hp & Hpc & Hin). exists c.
    rewrite HC by assumption. repeat split; try assumption.
    exists p. rewrite HP. auto.
Qed.

(** *** Leaves *)

Lemma not_in_singleton (n a : addr) : n ∉ [a] -> n <> a.
Proof. intros H ->. apply H. left. Qed.

Lemma leaf_tree_ok G fuel r a c :
  cells r !! a = Some c -> 0 <= cell_pt c -> length (cell_oct c) = 8%nat ->
  leaf_ok G r a c -> tree_ok G (S fuel) r [a] (Some a).
Proof.
  intros Ha Hpt Hlen Hok. exists [a]. split; [|split; [done|split]].
  - apply subtree_S. exists c. repeat split; try assumption. right. auto.
  - apply NoDup_singleton.
  - intros n Hn. apply list_elem_of_singleton in Hn as ->. exists c. split; [assumption|].
    destruct (cell_pt c <? 0) eqn:E; [lia | assumption].
Qed.

Lemma pruned_tree_ok G fuel r l : tree_ok G (S fuel) r l None.
Proof.
  exists []. split; [reflexivity|]. split; [intros x Hx; apply elem_of_nil in Hx; contradiction|].
  split; [constructor|].
  intros n Hn. apply elem_of_nil in Hn. contradiction.
Qed.

Lemma refresh_spec G fuel r a c p :
  pass_invariant G r ->
  cells r !! a = Some c -> 0 <= cell_pt c -> length (cell_oct c) = 8%nat ->
  particles r !! Z.to_nat (cell_pt c) = Some p -> outside_box p c = false ->
  let r' := with_particles r
              (<[Z.to_nat (cell_pt c) := set_c p (Some a)]> (particles r)) in
  pass_invariant G r' /\ quiet G [a] r r' /\ tree_ok G (S fuel) r' [a] (Some a).
Proof.
  intros (I4 & I2 & IN) Ha Hpt Hlen Hp Hin r'.
  assert (Hlt : (Z.to_nat (cell_pt c) < length (particles r))%nat)
    by (eapply lookup_lt_Some; eassumption).
  split; [|split].
  - split; [|split].
    + intros i q n cn Hq Hn Hcn. cbn in Hq, Hcn.
      destruct (decide (i = Z.to_nat (cell_pt c))) as [->|Hne].
      * rewrite list_lookup_insert_eq in Hq by assumption. injection Hq as <-.
        cbn in Hn. injection Hn as <-. rewrite Ha in Hcn. injection Hcn as <-. lia.
      * rewrite list_lookup_insert_ne in Hq by done. eapply I4; eassumption.
    + exact I2.
    + intros HG. eapply nested_evolves; [|apply IN, HG].
      eapply evolves_set_particle; [exact Hp | apply same_body_set_c].
  - split; [apply frame_refl|].
    intros n cn Hn Hcn Hptn (q & Hq & Hqc & Hqin). exists cn.
    split; [assumption|]. split; [assumption|]. exists q. cbn.
    split; [|auto]. rewrite list_lookup_insert_ne; [assumption|].
    intros Heq. apply Hn. apply list_elem_of_singleton.
    symmetry. eapply (I2 a n c cn); try eassumption. lia.
  - eapply leaf_tree_ok; try eassumption.
    exists (set_c p (Some a)). cbn. split; [apply list_lookup_insert_eq; assumption|].
    split; [reflexivity | auto].
Qed.

Lemma evicted_fixed_spec G r a c p :
  pass_invariant G r ->
  cells r !! a = Some c -> particles r !! Z.to_nat (cell_pt c) = Some p ->
  let r' := evicted_fixed r a (cell_pt c) p in
  pass_invariant G r' /\ quiet G [a] r r'.
Proof.
  intros (I4 & I2 & IN) Ha Hp r'.
  assert (HP : particles r' = particles r) by (cbn; apply list_insert_id; assumption).
  split; [split; [|split]|].
  - intros i q n cn Hq Hn Hcn. rewrite HP in Hq. cbn in Hcn.
    apply lookup_delete_Some in Hcn as [_ Hcn]. eapply I4; eassumption.
  - intros n1 n2 c1 c2 H1 H2. cbn in H1, H2.
    apply lookup_delete_Some in H1 as [_ H1]. apply lookup_delete_Some in H2 as [_ H2].
    eapply I2; eassumption.
  - intros HG. eapply nested_evolves; [|apply IN, HG]. apply evolves_evicted_fixed. assumption.
  - apply quiet_same; [assumption|]. intros b Hb. cbn. apply lookup_delete_ne. apply not_in_singleton in Hb. congruence.
Qed.

Lemma cells_evicted_swapped r a i p last t tc :
  cells (evicted_swapped r a i p last t tc) = delete a (<[t := set_pt tc i]> (cells r)).
Proof. reflexivity. Qed.

Lemma particles_evicted_swapped r a i p last t tc :
  particles (evicted_swapped r a i p last t tc) =
  <[Z.to_nat (N r - 1) := p]> (<[Z.to_nat i := last]> (particles r)).
Proof. reflexivity. Qed.

Lemma evicted_swapped_spec G r a c p last t tc :
  pass_invariant G r ->
  cells r !! a = Some c -> 0 <= cell_pt c ->
  particles r !! Z.to_nat (cell_pt c) = Some p ->
  1 <= N r -> particles r !! Z.to_nat (N r - 1) = Some last ->
  part_c last = Some t -> cells r !! t = Some tc ->
  let r' := evicted_swapped r a (cell_pt c) p last t tc in
  pass_invariant G r' /\ quiet G [a] r r'.
Proof.
  intros (I4 & I2 & IN) Ha Hpt Hp HN Hlast Ht Htc r'.
  set (i := Z.to_nat (cell_pt c)) in *. set (k := Z.to_nat (N r - 1)) in *.
  assert (Hi : (i < length (particles r))%nat) by (eapply lookup_lt_Some; eassumption).
  assert (Hk : (k < length (particles r))%nat) by (eapply lookup_lt_Some; eassumption).
  assert (Htk : cell_pt tc = Z.of_nat k) by (eapply I4; eassumption).
  assert (Hci : cell_pt c = Z.of_nat i) by (unfold i; lia).
  assert (Hcell : forall n cn, cells r' !! n = Some cn ->
            n <> a /\ ((n = t /\ cn = set_pt tc (cell_pt c)) \/ (n <> t /\ cells r !! n = Some cn))).
  { intros n cn H. unfold r' in H. rewrite cells_evicted_swapped in H.
    apply lookup_delete_Some in H as [Hna H].
    split; [congruence|]. destruct (decide (t = n)) as [->|Hne].
    - rewrite lookup_insert_eq in H. injection H as <-. auto.
    - rewrite lookup_insert_ne in H by done. auto. }
  assert (Hpart : forall j q, particles r' !! j = Some q ->
            (j = k /\ q = p) \/ (j <> k /\ j = i /\ q = last)
            \/ (j <> k /\ j <> i /\ particles r !! j = Some q)).
  { intros j q H. unfold r' in H. rewrite particles_evicted_swapped in H. fold i k in H.
    destruct (decide (j = k)) as [->|Hjk].
    - rewrite list_lookup_insert_eq in H by (rewrite length_insert; assumption).
      injection H as <-. auto.
    - rewrite list_lookup_insert_ne in H by done. right.
      destruct (decide (j = i)) as [->|Hji].
      + rewrite list_lookup_insert_eq in H by assumption. injection H as <-. auto.
      + rewrite list_lookup_insert_ne in H by done. auto. }
  split; [split; [|split]|].
  - intros j q n cn Hq Hn Hcn.
    destruct (Hcell _ _ Hcn) as [Hna Hcn'].
    destruct (Hpart _ _ Hq) as [[-> ->]|[(Hjk & -> & ->)|(Hjk & Hji & Hq')]].
    + (* the evicted particle: its cell is gone *)
      exfalso. destruct Hcn' as [[-> ->]|[Hnt Hcn']].
      * pose proof (I4 _ _ _ _ Hp Hn Htc) as E.
        apply Hna. symmetry. eapply (I2 a t c tc); try eassumption. lia.
      * pose proof (I4 _ _ _ _ Hp Hn Hcn') as E.
        apply Hna. symmetry. eapply (I2 a n c cn); try eassumption. lia.
    + rewrite Ht in Hn. injection Hn as <-.
      destruct Hcn' as [[_ ->]|[Hnt _]]; [cbn; lia | congruence].
    + destruct Hcn' as [[-> ->]|[Hnt Hcn']].
      * pose proof (I4 _ _ _ _ Hq' Hn Htc) as E. lia.
      * eapply I4; eassumption.
  - intros n1 n2 c1 c2 H1 H2 Hpos Heq.
    destruct (Hcell _ _ H1) as [Hn1 H1']. destruct (Hcell _ _ H2) as [Hn2 H2'].
    clear H1 H2.
    destruct H1' as [[-> ->]|[Hnt1 H1]], H2' as [[-> ->]|[Hnt2 H2]]; try reflexivity.
    + cbn in Heq. exfalso. apply Hn2. symmetry. eapply (I2 a n2 c c2); eassumption.
    + cbn in Heq. exfalso. apply Hn1. symmetry. eapply (I2 a n1 c c1); try eassumption. congruence.
    + eapply I2; eassumption.
  - intros HG. eapply nested_evolves; [|apply IN, HG].
    apply evolves_evicted_swapped; assumption.
  - split.
    + intros b Hb. unfold r'. rewrite cells_evicted_swapped.
      rewrite lookup_delete_ne by (apply not_in_singleton in Hb; congruence).
      destruct (decide (t = b)) as [<-|Hne].
      * rewrite lookup_insert_eq, Htc. eexists. split; [reflexivity|].
        repeat split; cbn; lia.
      * rewrite lookup_insert_ne by done. apply cell_rel_refl.
    + intros n cn Hn Hcn Hptn (q & Hq & Hqc & Hqin).
      assert (Hna : n <> a) by (apply not_in_singleton; assumption).
      assert (Hji : Z.to_nat (cell_pt cn) <> i).
      { intros E. apply Hna. symmetry. eapply (I2 a n c cn); try eassumption. lia. }
      destruct (decide (n = t)) as [->|Hnt].
      * rewrite Htc in Hcn. injection Hcn as <-.
        exists (set_pt tc (cell_pt c)). unfold r'.
        rewrite cells_evicted_swapped.
        rewrite lookup_delete_ne by done. rewrite lookup_insert_eq.
        split; [reflexivity|]. split; [assumption|]. exists last.
        rewrite particles_evicted_swapped. fold i k.
        change (cell_pt (set_pt tc (cell_pt c))) with (cell_pt c). fold i. rewrite Htk, Nat2Z.id in Hji, Hq.
        rewrite list_lookup_insert_ne by done.
        rewrite list_lookup_insert_eq by assumption.
        split; [reflexivity|]. split; [assumption|].
        rewrite Hlast in Hq. injection Hq as <-. exact Hqin.
      * exists cn. unfold r'. rewrite cells_evicted_swapped.
        rewrite lookup_delete_ne by done.
        rewrite lookup_insert_ne by done. split; [assumption|].
        split; [assumption|]. exists q. rewrite particles_evicted_swapped. fold i k.
        assert (Hjk : Z.to_nat (cell_pt cn) <> k).
        { intros E. rewrite E, Hlast in Hq. injection Hq as <-. congruence. }
        rewrite !list_lookup_insert_ne by done. auto.
Qed.

(** *** A loop over slots *)

Section slot_loop.
Variables (G : Prop) (fuel : nat).
Hypothesis IH : update_spec G fuel.
Variable A : list addr.
Variable A_ok : Rebound -> Prop.
Variable slots : Rebound -> list (option addr).
Variable get : Rebound -> Z -> result (option addr).
Variable put : Rebound -> Z -> option addr -> result Rebound.

Hypothesis get_spec : forall r i d,
  get r i = Ok d -> 0 <= i /\ slots r !! Z.to_nat i = Some d.
Hypothesis put_spec : forall r i d d0 r',
  put r i d = Ok r' -> slots r !! Z.to_nat i = Some d0 -> d = None \/ d = d0 ->
  pass_invariant G r -> A_ok r ->
  slots r' = <[Z.to_nat i := d]> (slots r) /\ pass_invariant G r' /\ A_ok r'
  /\ particles r' = particles r /\ (forall b, b ∉ A -> cells r' !! b = cells r !! b).
Hypothesis slots_frame : forall r r' l,
  frame l (cells r) (cells r') -> (forall b, b ∈ A -> b ∉ l) ->
  tree_root r' = tree_root r -> A_ok r -> slots r' = slots r /\ A_ok r'.

Lemma slot_state_quiet f0 b l0 r r' l d :
  quiet G l0 r r' -> (forall x, x ∈ l -> x ∉ l0) ->
  slot_state G fuel f0 b r l d -> slot_state G fuel f0 b r' l d.
Proof.
  intros Q Hdis. destruct b; cbn.
  - eapply tree_ok_quiet; eassumption.
  - eapply subtree_frame; [apply Q | eassumption..].
Qed.

Lemma call_spec r d f0 l r1 ret :
  pass_invariant G r -> subtree f0 (cells r) d = Some l -> NoDup l ->
  tree_update_cell fuel r d = Ok (r1, ret) ->
  pass_invariant G r1 /\ quiet G l r r1 /\ (ret = None \/ ret = d)
  /\ tree_ok G fuel r1 l ret /\ tree_root r1 = tree_root r.
Proof.
  intros Hinv Hsub Hnd H.
  pose proof (steady_tree_update_cell _ _ _ _ _ H) as [[_ HT] _].
  destruct d as [a|].
  - destruct (IH _ _ _ _ _ _ Hinv Hsub Hnd H) as (I' & F & K & Hret & Hok).
    split; [exact I'|]. split; [split; assumption|]. split; [exact Hret|].
    split; [exact Hok | exact HT].
  - destruct fuel; [discriminate|]. cbn in H. injection H as <- <-.
    split; [exact Hinv|]. split; [apply quiet_refl|]. split; [auto|].
    split; [apply pruned_tree_ok | reflexivity].
Qed.

Lemma slot_step f0 k r ls r' :
  pass_invariant G r -> A_ok r -> NoDup (A ++ mjoin ls) -> slots_state G fuel slots f0 k r ls ->
  update_slot get put (tree_update_cell fuel) r (Z.of_nat k) = Ok r' ->
  pass_invariant G r' /\ A_ok r' /\ slots_state G fuel slots f0 (S k) r' ls
  /\ quiet G (A ++ mjoin ls) r r'
  /\ (forall i d', slots r' !! i = Some d' -> d' = None \/ slots r !! i = Some d').
Proof.
  intros Hinv HA Hnd [Hlen Hst] H. unfold update_slot in H.
  bind_inv H as d Hd. apply get_spec in Hd as [_ Hd]. rewrite Nat2Z.id in Hd.
  bind_inv H as [r1 ret] Hcall.
  assert (Hk : (k < length ls)%nat) by (rewrite <- Hlen; eapply lookup_lt_Some; eassumption).
  destruct (lookup_lt_is_Some_2 _ _ Hk) as [lk Hlk].
  pose proof (Hst _ _ _ Hd Hlk) as Hk0.
  rewrite bool_decide_eq_false_2 in Hk0 by lia. cbn in Hk0. rename Hk0 into Hsub.
  apply NoDup_app in Hnd as (HndA & HdisA & Hndls).
  assert (Hndk : NoDup lk) by (eapply NoDup_join_lookup; eassumption).
  assert (HAk : forall b, b ∈ A -> b ∉ lk).
  { intros b Hb Hbk. eapply HdisA; [exact Hb|]. eapply elem_of_join_lookup; eassumption. }
  destruct (call_spec _ _ _ _ _ _ Hinv Hsub Hndk Hcall) as (Hinv1 & Q1 & Hret & Hok1 & HT1).
  destruct (slots_frame r r1 lk (proj1 Q1) HAk HT1 HA) as [Hs1 HA1].
  rewrite <- Hs1 in Hd.
  destruct (put_spec _ _ _ _ _ H ltac:(rewrite Nat2Z.id; exact Hd) Hret Hinv1 HA1)
    as (Hs2 & Hinv2 & HA2 & HP2 & HC2).
  rewrite Nat2Z.id in Hs2.
  assert (Q2 : quiet G A r1 r') by (apply quiet_same; assumption).
  split; [assumption|]. split; [assumption|]. split; [|split].
  - split; [rewrite Hs2, length_insert, Hs1; assumption|].
    intros i di li Hdi Hli. rewrite Hs2 in Hdi.
    destruct (decide (i = k)) as [->|Hne].
    + rewrite list_lookup_insert_eq in Hdi by (eapply lookup_lt_Some; eassumption).
      injection Hdi as <-. rewrite Hlk in Hli. injection Hli as <-.
      rewrite bool_decide_eq_true_2 by lia. cbn.
      eapply tree_ok_quiet; [exact Q2 | | exact Hok1].
      intros x Hx Hxa. exact (HAk x Hxa Hx).
    + rewrite list_lookup_insert_ne in Hdi by done. rewrite Hs1 in Hdi.
      pose proof (Hst _ _ _ Hdi Hli) as Hi.
      replace (bool_decide (i < S k)%nat) with (bool_decide (i < k)%nat)
        by (apply bool_decide_ext; lia).
      eapply slot_state_quiet; [exact Q2 | |].
      { intros x Hx Hxa. eapply HdisA; [exact Hxa|]. eapply elem_of_join_lookup; eassumption. }
      eapply slot_state_quiet; [exact Q1 | | exact Hi].
      intros x Hx. eapply NoDup_join_disjoint; [exact Hndls | exact Hne | exact Hli | exact Hlk | exact Hx].
  - eapply quiet_trans.
    + eapply quiet_weaken; [exact Q1|]. intros x Hx. apply elem_of_app. right.
      eapply elem_of_join_lookup; eassumption.
    + eapply quiet_weaken; [exact Q2|]. intros x Hx. apply elem_of_app. auto.
  - intros i d' Hd'. rewrite Hs2 in Hd'.
    destruct (decide (i = k)) as [->|Hne].
    + rewrite list_lookup_insert_eq in Hd' by (eapply lookup_lt_Some; eassumption).
      injection Hd' as <-. rewrite <- Hs1. destruct Hret as [->| ->]; auto.
    + rewrite list_lookup_insert_ne in Hd' by done. rewrite <- Hs1. auto.
Qed.

Lemma slot_loop f0 m : forall k r ls r',
  pass_invariant G r -> A_ok r -> NoDup (A ++ mjoin ls) -> slots_state G fuel slots f0 k r ls ->
  for_each (Z.of_nat <$> seq k m) (update_slot get put (tree_update_cell fuel)) r = Ok r' ->
  pass_invariant G r' /\ A_ok r' /\ slots_state G fuel slots f0 (k + m) r' ls
  /\ quiet G (A ++ mjoin ls) r r'
  /\ (forall i d', slots r' !! i = Some d' -> d' = None \/ slots r !! i = Some d').
Proof.
  induction m as [|m IHm]; intros k r ls r' Hinv HA Hnd Hst H; cbn in H.
  - injection H as <-. rewrite Nat.add_0_r.
    split; [assumption|]. split; [assumption|]. split; [assumption|].
    split; [apply quiet_refl | auto].
  - bind_inv H as r1 H1.
    destruct (slot_step _ _ _ _ _ Hinv HA Hnd Hst H1) as (Hinv1 & HA1 & Hst1 & Q1 & Hsl1).
    destruct (IHm _ _ _ _ Hinv1 HA1 Hnd Hst1 H) as (Hinv2 & HA2 & Hst2 & Q2 & Hsl2).
    replace (k + S m)%nat with (S k + m)%nat by lia.
    split; [assumption|]. split; [assumption|]. split; [assumption|].
    split; [eapply quiet_trans; eassumption|].
    intros i d' Hd'. destruct (Hsl2 _ _ Hd') as [->|Hd1]; auto.
Qed.

End slot_loop.

(** *** The recount of a branch *)

Lemma with_cells_with_cells r h h' : with_cells (with_cells r h) h' = with_cells r h'.
Proof. reflexivity. Qed.

Lemma contribution_le h d : contribution h d <= 0.
Proof.
  unfold contribution. destruct d as [d|]; [|lia].
  destruct (h !! d) as [dc|]; [|lia]. destruct (Z.leb_spec 0 (cell_pt dc)); lia.
Qed.

Lemma occupancy_le h oct : occupancy_of_children h oct <= 0.
Proof.
  induction oct as [|d oct IH]; [cbn; lia|].
  rewrite occupancy_cons. pose proof (contribution_le h d). lia.
Qed.

Lemma contribution_insert_ne h a c d :
  d <> a -> contribution (<[a := c]> h) (Some d) = contribution h (Some d).
Proof. intros Hne. unfold contribution. rewrite lookup_insert_ne by done. reflexivity. Qed.

Lemma count_octant_inv a r0 ca v test o r' test' :
  cells r0 !! a = Some ca ->
  (forall i d, cell_oct ca !! i = Some (Some d) -> d <> a) ->
  count_octant a (with_cells r0 (<[a := set_pt ca v]> (cells r0)), test) o = Ok (r', test') ->
  exists d, 0 <= o < 8 /\ cell_oct ca !! Z.to_nat o = Some d
    /\ r' = with_cells r0
              (<[a := set_pt ca (v + contribution (cells r0) d)]> (cells r0))
    /\ match d with
       | None => test' = test
       | Some da => exists dc, cells r0 !! da = Some dc
                               /\ test' = if 0 <=? cell_pt dc then o else test
       end.
Proof.
  intros Ha Hself H. unfold count_octant in H.
  bind_inv H as c Hc. apply load_Ok in Hc. cbn in Hc. rewrite lookup_insert_eq in Hc.
  injection Hc as <-. bind_inv H as d Hd. apply oct_at_Ok in Hd as [Ho Hd]. cbn in Hd.
  exists d. split; [assumption|]. split; [assumption|].
  destruct d as [da|].
  - pose proof (Hself _ _ Hd) as Hne.
    bind_inv H as dc Hdc. apply load_Ok in Hdc. cbn in Hdc.
    rewrite lookup_insert_ne in Hdc by done.
    bind_inv H as c2 Hc2. apply load_Ok in Hc2. cbn in Hc2. rewrite lookup_insert_eq in Hc2.
    injection Hc2 as <-. unfold contribution. rewrite Hdc.
    destruct (0 <=? cell_pt dc) eqn:E; bind_inv H as r1 H1;
      apply store_Ok in H1 as [_ ->]; injection H as <- <-; cbn;
      rewrite insert_insert_eq;
      (split; [reflexivity | exists dc; rewrite E; split; reflexivity]).
  - injection H as <- <-. cbn. split; [|reflexivity]. f_equal. f_equal.
    destruct ca; cbn. f_equal. lia.
Qed.

Lemma recount_loop a r0 ca :
  cells r0 !! a = Some ca -> length (cell_oct ca) = 8%nat ->
  (forall i d, cell_oct ca !! i = Some (Some d) -> d <> a) ->
  forall m k v test r' test',
    (k + m = 8)%nat ->
    for_each (Z.of_nat <$> seq k m) (count_octant a)
      (with_cells r0 (<[a := set_pt ca v]> (cells r0)), test) = Ok (r', test') ->
    r' = with_cells r0
           (<[a := set_pt ca (v + occupancy_of_children (cells r0) (drop k (cell_oct ca)))]>
              (cells r0))
    /\ (test_names_leaf (cells r0) (cell_oct ca) k test ->
        test_names_leaf (cells r0) (cell_oct ca) 8 test').
Proof.
  intros Ha Hlen Hself. induction m as [|m IH]; intros k v test r' test' Hk H; cbn in H.
  - injection H as <- <-. assert (k = 8%nat) as -> by lia.
    rewrite drop_ge by lia. cbn. rewrite Z.add_0_r. auto.
  - bind_inv H as [r1 t1] H1.
    apply count_octant_inv in H1 as (d & Ho & Hd & -> & Ht); [|assumption..].
    rewrite Nat2Z.id in Hd.
    apply IH in H as [-> Htest]; [|lia].
    rewrite (drop_S _ _ _ Hd), occupancy_cons. split; [f_equal; f_equal; f_equal; lia|].
    intros Hk0. apply Htest. clear Htest. intros (i & di & dci & Hi & Hdi & Hci & Hpi).
    destruct d as [da|].
    + destruct Ht as (dc & Hdc & ->). destruct (Z.leb_spec 0 (cell_pt dc)).
      * exists da, dc. rewrite Nat2Z.id. repeat split; try assumption; lia.
      * assert (i <> k).
        { intros ->. rewrite Hd in Hdi. injection Hdi as <-. rewrite Hdc in Hci.
          injection Hci as <-. lia. }
        destruct Hk0 as (d' & dc' & Hr & ?); [exists i, di, dci; repeat split; try assumption; lia|].
        exists d', dc'. split; [lia | assumption].
    + subst t1. assert (i <> k) by (intros ->; congruence).
      destruct Hk0 as (d' & dc' & Hr & ?); [exists i, di, dci; repeat split; try assumption; lia|].
      exists d', dc'. split; [lia | assumption].
Qed.

Lemma children_settled_tail h d oct :
  children_settled h (d :: oct) -> children_settled h oct.
Proof. intros H i x Hx. apply (H (S i) x Hx). Qed.

Lemma occupancy_zero h oct :
  children_settled h oct -> occupancy_of_children h oct = 0 ->
  forall i d, oct !! i = Some d -> d = None.
Proof.
  induction oct as [|x oct IH]; intros Hs H0 i d Hd; [discriminate|].
  rewrite occupancy_cons in H0.
  pose proof (contribution_le h x). pose proof (occupancy_le h oct).
  destruct i as [|i]; cbn in Hd.
  - injection Hd as <-. destruct x as [x|]; [|reflexivity].
    destruct (Hs 0%nat x eq_refl) as (dc & Hdc & _).
    unfold contribution in *. rewrite Hdc in *.
    destruct (Z.leb_spec 0 (cell_pt dc)); lia.
  - eapply IH; [eapply children_settled_tail; eassumption | lia | eassumption].
Qed.

(** Occupancy -1: exactly one slot is taken, by a leaf. *)
Lemma occupancy_one h oct :
  children_settled h oct -> occupancy_of_children h oct = -1 ->
  exists i d dc, oct !! i = Some (Some d) /\ h !! d = Some dc /\ 0 <= cell_pt dc
                 /\ forall j x, oct !! j = Some (Some x) -> j = i.
Proof.
  induction oct as [|x oct IH]; intros Hs H1; [discriminate|].
  rewrite occupancy_cons in H1.
  pose proof (contribution_le h x). pose proof (occupancy_le h oct).
  destruct x as [x|].
  - destruct (Hs 0%nat x eq_refl) as (dc & Hdc & Hbr).
    unfold contribution in H1, H. rewrite Hdc in H1, H.
    destruct (Z.leb_spec 0 (cell_pt dc)) as [Hleaf|Hbranch].
    + exists 0%nat, x, dc. repeat split; try assumption.
      intros [|j] y Hy; [reflexivity|]. cbn in Hy.
      assert (Some y = None); [|discriminate].
      eapply occupancy_zero; [eapply children_settled_tail; eassumption | lia | eassumption].
    + specialize (Hbr Hbranch). lia.
  - cbn in H1. destruct IH as (i & d & dc & Hi & Hd & Hpt & Huniq);
      [eapply children_settled_tail; eassumption | lia |].
    exists (S i), d, dc. repeat split; try assumption.
    intros [|j] y Hy; [discriminate|]. f_equal. eapply Huniq. exact Hy.
Qed.

(** *** Derefinement *)

Lemma derefine_inv r a test c r' ret :
  cells r !! a = Some c -> derefine r a test = Ok (r', ret) ->
  (cell_pt c = 0 /\ ret = None /\ r' = with_cells r (delete a (cells r)))
  \/ (cell_pt c = -1 /\ ret = Some a /\
      exists d dc p, 0 <= test < 8 /\ cell_oct c !! Z.to_nat test = Some (Some d)
                     /\ d <> a /\ cells r !! d = Some dc /\ 0 <= cell_pt dc
                     /\ particles r !! Z.to_nat (cell_pt dc) = Some p
                     /\ r' = collapsed r a c test d dc p)
  \/ (cell_pt c <> 0 /\ cell_pt c <> -1 /\ ret = Some a /\ r' = r).
Proof.
  intros Ha H. unfold derefine in H. rewrite (load_eq _ _ _ Ha) in H. cbn in H.
  destruct (Z.eqb_spec (cell_pt c) 0) as [E0|E0].
  { bind_inv H as r1 H1. apply free_Ok in H1 as [_ ->]. injection H as <- <-. auto. }
  destruct (Z.eqb_spec (cell_pt c) (-1)) as [E1|E1].
  2:{ injection H as <- <-. auto 10. }
  right. left. split; [assumption|].
  bind_inv H as d0 Hd. apply oct_at_Ok in Hd as [Ht Hd].
  bind_inv H as d Hda. apply deref_Ok in Hda as ->.
  bind_inv H as dc Hdc. apply load_Ok in Hdc.
  bind_inv H as r1 H1. apply store_Ok in H1 as [_ ->].
  bind_inv H as c1 Hc1. apply load_Ok in Hc1. cbn in Hc1. rewrite lookup_insert_eq in Hc1.
  injection Hc1 as <-.
  bind_inv H as p Hp. apply particle_at_Ok in Hp as [Hpos Hp]. cbn in Hpos, Hp.
  bind_inv H as r2 H2. apply set_particle_Ok in H2 as [_ ->]. cbn in H.
  bind_inv H as c2 Hc2. apply load_Ok in Hc2. cbn in Hc2. rewrite lookup_insert_eq in Hc2.
  injection Hc2 as <-.
  bind_inv H as d2 Hd2. apply oct_at_Ok in Hd2 as [_ Hd2]. cbn in Hd2.
  rewrite Hd in Hd2. injection Hd2 as <-.
  bind_inv H as r3 H3. cbn in H3. apply free_Ok in H3 as [_ ->].
  bind_inv H as c3 Hc3. apply load_Ok in Hc3. cbn in Hc3.
  assert (Hne : d <> a).
  { intros ->. rewrite lookup_delete_eq in Hc3. discriminate. }
  rewrite lookup_delete_ne, lookup_insert_eq in Hc3 by done. injection Hc3 as <-.
  bind_inv H as r4 H4. apply store_Ok in H4 as [_ ->]. injection H as <- <-.
  split; [reflexivity|].
  exists d, dc, p. repeat split; try assumption; try lia.
  unfold collapsed. cbn. f_equal.
  rewrite delete_insert_ne by done. rewrite insert_insert_eq. reflexivity.
Qed.

(** *** The invariant under changes of one cell *)

Lemma inv_nested G r r' :
  evolves r r' -> (G -> nested r) -> (G -> nested r').
Proof. intros E H HG. eapply nested_evolves; [exact E | exact (H HG)]. Qed.

Lemma inv_delete G r a :
  pass_invariant G r -> pass_invariant G (with_cells r (delete a (cells r))).
Proof.
  intros (I4 & I2 & IN). split; [|split].
  - intros i q n cn Hq Hn Hcn. cbn in Hcn. apply lookup_delete_Some in Hcn as [_ Hcn].
    eapply I4; eassumption.
  - intros n1 n2 c1 c2 H1 H2. cbn in H1, H2.
    apply lookup_delete_Some in H1 as [_ H1]. apply lookup_delete_Some in H2 as [_ H2].
    eapply I2; eassumption.
  - eapply inv_nested; [apply evolves_free | exact IN].
Qed.

Lemma inv_store_branch G r a c c' :
  pass_invariant G r -> cells r !! a = Some c -> cell_pt c < 0 -> cell_pt c' < 0 ->
  cell_kept c c' -> pass_invariant G (with_cells r (<[a := c']> (cells r))).
Proof.
  intros (I4 & I2 & IN) Ha Hpt Hpt' K. split; [|split].
  - intros i q n cn Hq Hn Hcn. cbn in Hq, Hcn.
    destruct (decide (a = n)) as [<-|Hne].
    + pose proof (I4 _ _ _ _ Hq Hn Ha). lia.
    + rewrite lookup_insert_ne in Hcn by done. eapply I4; eassumption.
  - intros n1 n2 c1 c2 H1 H2 Hpos Heq. cbn in H1, H2.
    destruct (decide (a = n1)) as [<-|Hne1].
    { rewrite lookup_insert_eq in H1. injection H1 as <-. lia. }
    destruct (decide (a = n2)) as [<-|Hne2].
    { rewrite lookup_insert_eq in H2. injection H2 as <-. lia. }
    rewrite lookup_insert_ne in H1, H2 by done. eapply I2; eassumption.
  - eapply inv_nested; [eapply evolves_store; eassumption | exact IN].
Qed.

Lemma cell_kept_put c o d :
  d = None \/ cell_oct c !! Z.to_nat o = Some d -> cell_kept c (set_oct c o d).
Proof.
  intros [->|Hd]; [apply cell_kept_clear|].
  unfold set_oct. rewrite list_insert_id by assumption. destruct c; apply cell_kept_refl.
Qed.

(** *** The children of a branch as slots *)

Lemma get_oct_spec a r i d :
  get_oct a r i = Ok d -> 0 <= i /\ oct_slots a r !! Z.to_nat i = Some d.
Proof.
  unfold get_oct, oct_slots. intros H. bind_inv H as c Hc. apply load_Ok in Hc.
  apply oct_at_Ok in H as [Hi H]. rewrite Hc. split; [lia | assumption].
Qed.

Lemma cells_with_cells r h : cells (with_cells r h) = h.
Proof. reflexivity. Qed.

Lemma put_oct_spec G a r i d d0 r' :
  put_oct a r i d = Ok r' -> oct_slots a r !! Z.to_nat i = Some d0 -> d = None \/ d = d0 ->
  pass_invariant G r -> is_branch a r ->
  oct_slots a r' = <[Z.to_nat i := d]> (oct_slots a r) /\ pass_invariant G r'
  /\ is_branch a r'
  /\ particles r' = particles r /\ (forall b, b ∉ [a] -> cells r' !! b = cells r !! b).
Proof.
  unfold put_oct, oct_slots, is_branch. intros H Hd0 Hd Hinv (c & Hc & Hpt).
  rewrite (load_eq _ _ _ Hc) in H. cbn [mbind result_bind] in H.
  apply store_Ok in H as [_ ->].
  rewrite Hc in Hd0. rewrite Hc, !cells_with_cells, lookup_insert_eq.
  split; [reflexivity|]. split.
  { eapply inv_store_branch; try eassumption. apply cell_kept_put.
    destruct Hd as [->| ->]; auto. }
  split; [exists (set_oct c i d); auto|].
  split; [reflexivity|]. intros b Hb. apply lookup_insert_ne.
  apply not_in_singleton in Hb. congruence.
Qed.

Lemma oct_slots_frame a r r' l :
  frame l (cells r) (cells r') -> (forall b, b ∈ [a] -> b ∉ l) ->
  tree_root r' = tree_root r -> is_branch a r ->
  oct_slots a r' = oct_slots a r /\ is_branch a r'.
Proof.
  intros F Ha _ (c & Hc & Hpt).
  destruct (cell_rel_Some _ _ _ (F a (Ha a ltac:(left))) Hc) as (c' & Hc' & R).
  rewrite (relabel_of_branch _ _ R Hpt) in Hc'. unfold oct_slots, is_branch.
  rewrite Hc, Hc'. eauto.
Qed.

(** The maintained trees of a list of slots, collected. *)
Lemma trees_collect G fuel r ds ls :
  Forall2 (fun d l => tree_ok G fuel r l d) ds ls ->
  exists ls', Forall2 (fun d l' => subtree fuel (cells r) d = Some l') ds ls'
              /\ Forall2 (fun l' l => l' ⊆ l /\ NoDup l') ls' ls
              /\ forall n, n ∈ mjoin ls' -> node_ok G r n.
Proof.
  induction 1 as [|d l ds ls (l' & Hsub & Hincl & Hnd & Hok) HF (ls' & H1 & H2 & H3)].
  - exists []. repeat constructor. intros n Hn. apply elem_of_nil in Hn. contradiction.
  - exists (l' :: ls'). split; [constructor; assumption|]. split; [constructor; auto|].
    intros n Hn. cbn in Hn. apply elem_of_app in Hn as [Hn|Hn]; auto.
Qed.

Lemma join_subseteq {A} (ls' ls : list (list A)) :
  Forall2 (fun l' l => l' ⊆ l /\ NoDup l') ls' ls -> mjoin ls' ⊆ mjoin ls.
Proof.
  induction 1 as [|l' l ls' ls [Hs _] HF IH]; [done|].
  cbn. intros x Hx. apply elem_of_app in Hx as [Hx|Hx]; apply elem_of_app; auto.
Qed.

(** *** Branches *)

Lemma children_loop G fuel r a c ls f0 r1 :
  update_spec G fuel ->
  pass_invariant G r -> cells r !! a = Some c -> cell_pt c < 0 ->
  length (cell_oct c) = 8%nat ->
  slots_nodes f0 (cells r) (cell_oct c) ls -> NoDup (a :: mjoin ls) ->
  for_each octants (update_octant (tree_update_cell fuel) a) r = Ok r1 ->
  pass_invariant G r1 /\ quiet G (a :: mjoin ls) r r1
  /\ exists c1, cells r1 !! a = Some c1 /\ cell_pt c1 < 0
                /\ length (cell_oct c1) = 8%nat
                /\ Forall2 (fun d l => tree_ok G fuel r1 l d) (cell_oct c1) ls.
Proof.
  intros IH Hinv Ha Hpt Hlen Hls Hnd H.
  change octants with (Z.of_nat <$> seq 0 8) in H. unfold update_octant in H.
  assert (Hst : slots_state G fuel (oct_slots a) f0 0 r ls).
  { unfold slots_state, oct_slots. rewrite Ha. split; [eapply Forall2_length; eassumption|].
    intros i d l Hd Hl. rewrite bool_decide_eq_false_2 by lia.
    exact (Forall2_lookup_lr _ _ _ _ _ _ Hls Hd Hl). }
  destruct (slot_loop G fuel IH [a] (is_branch a) (oct_slots a) (get_oct a) (put_oct a)
              (get_oct_spec a) (put_oct_spec G a) (oct_slots_frame a)
              f0 8 0 r ls r1 Hinv ltac:(exists c; auto) Hnd Hst H)
    as (Hinv1 & (c1 & Hc1 & Hpt1) & [Hlen1 Hst1] & Q & _).
  split; [assumption|]. split; [assumption|].
  exists c1. unfold oct_slots in Hlen1, Hst1. rewrite Hc1 in Hlen1, Hst1.
  split; [assumption|]. split; [assumption|].
  assert (Hlen8 : length (cell_oct c1) = 8%nat).
  { rewrite Hlen1, <- Hlen. symmetry. eapply Forall2_length; eassumption. }
  split; [assumption|].
  apply Forall2_same_length_lookup_2; [assumption|].
  intros i d l Hd Hl. specialize (Hst1 i d l Hd Hl).
  destruct (bool_decide (i < 0 + 8)%nat) eqn:E; [exact Hst1|].
  (* the loop has visited every slot of the cell *)
  exfalso. apply bool_decide_eq_false_1 in E. apply E.
  apply lookup_lt_Some in Hd. lia.
Qed.

(** The recount of the branch [a]: its [pt] is the occupancy of its
    children, and [test] names a leaf child if there is one. *)
Lemma recount_spec r1 a c1 r3 test :
  cells r1 !! a = Some c1 -> length (cell_oct c1) = 8%nat ->
  (forall i d, cell_oct c1 !! i = Some (Some d) -> d <> a) ->
  for_each octants (count_octant a)
    (with_cells r1 (<[a := set_pt c1 0]> (cells r1)), -1) = Ok (r3, test) ->
  r3 = with_cells r1
         (<[a := set_pt c1 (occupancy_of_children (cells r1) (cell_oct c1))]> (cells r1))
  /\ test_names_leaf (cells r1) (cell_oct c1) 8 test.
Proof.
  intros Ha Hlen Hself H.
  change octants with (Z.of_nat <$> seq 0 8) in H.
  apply (recount_loop a r1 c1 Ha Hlen Hself 8 0 0 (-1)) in H as [-> Ht]; [|reflexivity].
  split; [reflexivity|]. apply Ht. intros (i & _ & _ & Hi & _). lia.
Qed.

Lemma settled_children G fuel r1 c1 ls :
  Forall2 (fun d l => tree_ok G fuel r1 l d) (cell_oct c1) ls ->
  forall i d, cell_oct c1 !! i = Some (Some d) -> d ∈ mjoin ls /\ node_ok G r1 d.
Proof.
  intros HF i d Hd.
  destruct (Forall2_lookup_l _ _ _ _ _ HF Hd) as (l & Hl & l' & Hsub & Hincl & _ & Hok).
  apply subtree_root_in in Hsub.
  split; [eapply elem_of_join_lookup; [exact Hl | apply Hincl, Hsub] | apply Hok, Hsub].
Qed.

Lemma node_ok_settled G r d :
  node_ok G r d ->
  exists dc, cells r !! d = Some dc /\ (cell_pt dc < 0 -> cell_pt dc <= -2).
Proof.
  intros (dc & Hdc & Hok). exists dc. split; [assumption|]. intros Hpt.
  destruct (cell_pt dc <? 0) eqn:E; [apply Hok | lia].
Qed.

Lemma occupancy_insert_self h a c oct :
  (forall i d, oct !! i = Some (Some d) -> d <> a) ->
  occupancy_of_children (<[a := c]> h) oct = occupancy_of_children h oct.
Proof.
  induction oct as [|d oct IH]; intros Hself; [reflexivity|].
  rewrite !occupancy_cons, IH by (intros i x Hx; apply (Hself (S i) x Hx)).
  f_equal. destruct d as [d|]; [|reflexivity].
  apply contribution_insert_ne. apply (Hself 0%nat d eq_refl).
Qed.

Lemma keep_spec G fuel r1 a c1 ls :
  pass_invariant G r1 -> cells r1 !! a = Some c1 -> cell_pt c1 < 0 ->
  length (cell_oct c1) = 8%nat ->
  Forall2 (fun d l => tree_ok G fuel r1 l d) (cell_oct c1) ls ->
  NoDup (a :: mjoin ls) ->
  occupancy_of_children (cells r1) (cell_oct c1) <= -2 ->
  let r' := with_cells r1
              (<[a := set_pt c1 (occupancy_of_children (cells r1) (cell_oct c1))]>
                 (cells r1)) in
  pass_invariant G r' /\ quiet G [a] r1 r'
  /\ tree_ok G (S fuel) r' (a :: mjoin ls) (Some a).
Proof.
  intros Hinv Ha Hpt Hlen HF Hnd Hocc r'.
  apply NoDup_cons in Hnd as [Hna Hnd].
  assert (Hself : forall i d, cell_oct c1 !! i = Some (Some d) -> d <> a).
  { intros i d Hd ->. apply Hna. eapply settled_children; eassumption. }
  assert (Q : quiet G [a] r1 r').
  { apply quiet_same; [reflexivity|]. intros b Hb. unfold r'.
    rewrite cells_with_cells. apply lookup_insert_ne. apply not_in_singleton in Hb. congruence. }
  split; [|split; [exact Q|]].
  { eapply inv_store_branch; try eassumption; [cbn; lia | apply cell_kept_set_pt]. }
  destruct (trees_collect _ _ _ _ _ HF) as (ls' & H1 & H2 & H3).
  assert (Hsub' : mjoin ls' ⊆ mjoin ls) by (eapply join_subseteq; eassumption).
  exists (a :: mjoin ls'). split; [|split; [|split]].
  - apply subtree_S. eexists. unfold r'. rewrite cells_with_cells.
    split; [apply lookup_insert_eq|]. split; [exact Hlen|]. left.
    split; [cbn; lia|]. exists ls'. split; [|reflexivity].
    apply Forall2_same_length_lookup. split; [eapply Forall2_length; eassumption|].
    intros i d l' Hd Hl'. pose proof (Forall2_lookup_lr _ _ _ _ _ _ H1 Hd Hl') as Hs.
    cbn in Hs. apply (subtree_frame fuel (cells r1) (cells r') d l' [a] (proj1 Q)); [|exact Hs].
    intros x Hx Hxa. apply list_elem_of_singleton in Hxa as ->.
    apply Hna, Hsub'. eapply elem_of_join_lookup; eassumption.
  - intros x Hx. apply elem_of_cons in Hx as [->|Hx]; [left | right; auto].
  - apply NoDup_cons. split; [intros Hx; apply Hna, Hsub', Hx|].
    eapply NoDup_join_sub; eassumption.
  - intros n Hn. apply elem_of_cons in Hn as [->|Hn].
    + eexists. unfold r'. rewrite cells_with_cells. split; [apply lookup_insert_eq|].
      cbn [cell_pt set_pt]. destruct (_ <? 0) eqn:E; [|lia].
      split; [assumption|]. cbn [cell_oct set_pt]. rewrite cells_with_cells.
      symmetry. apply occupancy_insert_self. exact Hself.
    + apply list_elem_of_join in Hn as (l' & Hn & Hl').
      apply list_elem_of_lookup in Hl' as [i Hi].
      destruct (Forall2_lookup_r _ _ _ _ _ H1 Hi) as (d & Hd & Hs).
      eapply (node_ok_quiet G [a] r1); [exact Q | exact Hs | | exact Hn |].
      * intros x Hx Hxa. apply list_elem_of_singleton in Hxa as ->.
        apply Hna, Hsub'. eapply elem_of_join_lookup; eassumption.
      * apply H3. eapply elem_of_join_lookup; eassumption.
Qed.

Lemma prune_spec G r1 a l :
  pass_invariant G r1 -> a ∈ l ->
  let r' := with_cells r1 (delete a (cells r1)) in
  pass_invariant G r' /\ quiet G l r1 r'.
Proof.
  intros Hinv Ha r'. split; [apply inv_delete; assumption|].
  apply quiet_same; [reflexivity|]. intros b Hb. unfold r'.
  rewrite cells_with_cells. apply lookup_delete_ne. intros ->. contradiction.
Qed.

Lemma evolves_collapsed r a c test d dc p :
  cells r !! a = Some c -> particles r !! Z.to_nat (cell_pt dc) = Some p ->
  evolves r (collapsed r a c test d dc p).
Proof.
  intros Ha Hp. split.
  - intros b cb. unfold collapsed. rewrite cells_with_cells.
    destruct (decide (a = b)) as [<-|Hne].
    + rewrite lookup_insert_eq. intros [= <-]. exists c. split; [assumption|].
      eapply cell_kept_trans; [apply (cell_kept_set_pt c (cell_pt dc)) | apply cell_kept_clear].
    + rewrite lookup_insert_ne by done. rewrite lookup_delete_Some. intros [_ H].
      eauto using cell_kept_refl.
  - intros j q H. cbn in H.
    apply list_lookup_insert_Some in H as [(_ & <- & _)|[_ H]];
      eauto using same_body_refl, same_body_set_c.
Qed.

Lemma tree_ok_weaken G fuel r l l2 d :
  tree_ok G fuel r l d -> l ⊆ l2 -> tree_ok G fuel r l2 d.
Proof.
  intros (l' & Hs & Hincl & Hnd & Hok) H. exists l'.
  repeat split; try assumption. intros x Hx. apply H, Hincl, Hx.
Qed.

Lemma collapse_spec G fuel r1 a c1 l test d dc p :
  pass_invariant G r1 -> cells r1 !! a = Some c1 -> cell_pt c1 < 0 ->
  length (cell_oct c1) = 8%nat ->
  cell_oct c1 !! Z.to_nat test = Some (Some d) -> d <> a -> a ∈ l -> d ∈ l ->
  cells r1 !! d = Some dc -> 0 <= cell_pt dc -> leaf_ok G r1 d dc ->
  particles r1 !! Z.to_nat (cell_pt dc) = Some p ->
  let r' := collapsed r1 a c1 test d dc p in
  pass_invariant G r' /\ quiet G l r1 r' /\ tree_ok G (S fuel) r' l (Some a).
Proof.
  intros (I4 & I2 & IN) Ha Hpt Hlen Hd Hne Hal Hdl Hdc Hpos Hok Hp r'.
  set (cf := set_oct (set_pt c1 (cell_pt dc)) test None).
  assert (Hlt : (Z.to_nat (cell_pt dc) < length (particles r1))%nat)
    by (eapply lookup_lt_Some; eassumption).
  assert (Hcell : forall n cn, cells r' !! n = Some cn ->
            (n = a /\ cn = cf) \/ (n <> a /\ n <> d /\ cells r1 !! n = Some cn)).
  { intros n cn H. unfold r', collapsed in H. rewrite cells_with_cells in H.
    destruct (decide (a = n)) as [<-|Hna].
    - rewrite lookup_insert_eq in H. injection H as <-. auto.
    - rewrite lookup_insert_ne in H by done. apply lookup_delete_Some in H as [? ?].
      right. repeat split; congruence. }
  assert (Hpart : forall j q, particles r' !! j = Some q ->
            (j = Z.to_nat (cell_pt dc) /\ q = set_c p (Some a))
            \/ (j <> Z.to_nat (cell_pt dc) /\ particles r1 !! j = Some q)).
  { intros j q H. cbn in H.
    destruct (decide (j = Z.to_nat (cell_pt dc))) as [->|Hj].
    - rewrite list_lookup_insert_eq in H by assumption. injection H as <-. auto.
    - rewrite list_lookup_insert_ne in H by done. auto. }
  assert (Q : quiet G l r1 r').
  { split.
    - intros b Hb. unfold r', collapsed. rewrite cells_with_cells.
      rewrite lookup_insert_ne by (intros ->; contradiction).
      rewrite lookup_delete_ne by (intros ->; contradiction). apply cell_rel_refl.
    - intros n cn Hn Hcn Hptn (q & Hq & Hqc & Hqin). exists cn.
      unfold r', collapsed. rewrite cells_with_cells.
      rewrite lookup_insert_ne by (intros ->; contradiction).
      rewrite lookup_delete_ne by (intros ->; contradiction).
      split; [assumption|]. split; [assumption|]. exists q. cbn.
      rewrite list_lookup_insert_ne; [auto|].
      intros E. assert (d = n); [|subst; contradiction].
      eapply (I2 d n dc cn); try eassumption. lia. }
  split; [split; [|split]|split; [exact Q|]].
  - intros j q n cn Hq Hn Hcn.
    destruct (Hpart _ _ Hq) as [[-> ->]|[Hj Hq']];
      destruct (Hcell _ _ Hcn) as [[-> ->]|(Hna & Hnd & Hcn')].
    + cbn. lia.
    + cbn in Hn. congruence.
    + pose proof (I4 _ _ _ _ Hq' Hn Ha). lia.
    + eapply I4; eassumption.
  - intros n1 n2 cn1 cn2 H1 H2 Hp1 Heq.
    destruct (Hcell _ _ H1) as [[-> ->]|(Hna1 & Hnd1 & H1')];
      destruct (Hcell _ _ H2) as [[-> ->]|(Hna2 & Hnd2 & H2')]; try reflexivity.
    + cbn in Heq. exfalso. apply Hnd2. eapply (I2 n2 d cn2 dc); try eassumption; lia.
    + cbn in Heq. exfalso. apply Hnd1. eapply (I2 n1 d cn1 dc); try eassumption; lia.
    + eapply I2; eassumption.
  - eapply inv_nested; [apply evolves_collapsed; eassumption | exact IN].
  - destruct Hok as (p' & Hp' & Hpc & Hpin). rewrite Hp in Hp'. injection Hp' as <-.
    assert (Hcf : cells r' !! a = Some cf).
    { unfold r', collapsed. rewrite cells_with_cells. apply lookup_insert_eq. }
    eapply tree_ok_weaken.
    + eapply (leaf_tree_ok G fuel r' a cf Hcf); [exact Hpos | |].
      * unfold cf. cbn. rewrite length_insert. exact Hlen.
      * exists (set_c p (Some a)). split; [cbn; apply list_lookup_insert_eq; assumption|].
        split; [reflexivity|]. intros HG.
        change (outside_box (set_c p (Some a)) cf) with (outside_box p c1).
        eapply (IN HG); [exact Hp | exact Ha | exact Hd | exact Hdc | exact (Hpin HG)].
    + intros x Hx. apply list_elem_of_singleton in Hx as ->. assumption.
Qed.

(** *** Every call of [tree_update_cell] *)

Lemma update_spec_S G fuel : update_spec G fuel -> update_spec G (S fuel).
Proof.
  intros IH r a f0 l r' ret Hinv Hsub Hnd H.
  destruct f0 as [|f0]; [discriminate|].
  apply subtree_S in Hsub as (c & Ha & Hlen & Hcase).
  cbn [tree_update_cell] in H. rewrite (load_eq _ _ _ Ha) in H.
  cbn [mbind result_bind] in H.
  destruct Hcase as [(Hpt & ls & Hls & ->)|(Hpt & ->)].
  - destruct (cell_pt c <? 0) eqn:E; [|lia].
    bind_inv H as r1 H1.
    destruct (children_loop G fuel r a c ls f0 r1 IH Hinv Ha Hpt Hlen Hls Hnd H1)
      as (Hinv1 & Q1 & c1 & Hc1 & Hpt1 & Hlen1 & HF).
    pose proof (settled_children _ _ _ _ _ HF) as Hkids.
    pose proof Hnd as Hnd'. apply NoDup_cons in Hnd' as [Hna _].
    assert (Hself : forall i d, cell_oct c1 !! i = Some (Some d) -> d <> a).
    { intros i d Hd ->. apply Hna. eapply Hkids; eassumption. }
    rewrite (load_eq _ _ _ Hc1) in H. cbn [mbind result_bind] in H.
    rewrite (store_eq _ _ _ _ Hc1) in H. cbn [mbind result_bind] in H.
    bind_inv H as [r3 test] H3.
    apply recount_spec in H3 as [-> _]; [|assumption..].
    set (occ := occupancy_of_children (cells r1) (cell_oct c1)) in *.
    eapply derefine_inv in H; [|rewrite cells_with_cells; apply lookup_insert_eq].
    destruct H as [(H0 & -> & ->)|[(H1' & -> & d & dc & p & Ht & Hd & Hne & Hdc & Hpos & Hp & ->)
                                  |(H0 & H1' & -> & ->)]].
    + rewrite cells_with_cells, with_cells_with_cells, delete_insert_eq.
      destruct (prune_spec G r1 a (a :: mjoin ls) Hinv1 ltac:(left)) as [Hinv' Q'].
      destruct (quiet_trans _ _ _ _ _ Q1 Q') as [F K].
      split; [assumption|]. split; [assumption|]. split; [assumption|].
      split; [auto | apply pruned_tree_ok].
    + cbn [cell_oct set_pt] in Hd. rewrite cells_with_cells in Hdc.
      rewrite lookup_insert_ne in Hdc by done.
      change (particles (with_cells r1 (<[a:=set_pt c1 occ]> (cells r1))))
        with (particles r1) in Hp.
      assert (Hr' : collapsed (with_cells r1 (<[a:=set_pt c1 occ]> (cells r1))) a
                      (set_pt c1 occ) test d dc p = collapsed r1 a c1 test d dc p).
      { unfold collapsed. cbn. f_equal.
        rewrite delete_insert_ne by done. apply insert_insert_eq. }
      rewrite Hr'. destruct (Hkids _ _ Hd) as [Hdl (dc' & Hdc' & Hok)].
      rewrite Hdc in Hdc'. injection Hdc' as <-.
      destruct (cell_pt dc <? 0) eqn:E2; [lia|].
      destruct (collapse_spec G fuel r1 a c1 (a :: mjoin ls) test d dc p Hinv1 Hc1 Hpt1
                  Hlen1 Hd Hne ltac:(left) ltac:(right; exact Hdl) Hdc Hpos Hok Hp)
        as (Hinv' & Q' & Hok').
      destruct (quiet_trans _ _ _ _ _ Q1 Q') as [F K].
      split; [assumption|]. split; [assumption|]. split; [assumption|]. auto.
    + cbn [cell_pt set_pt] in H0, H1'. pose proof (occupancy_le (cells r1) (cell_oct c1)).
      destruct (keep_spec G fuel r1 a c1 ls Hinv1 Hc1 Hpt1 Hlen1 HF Hnd ltac:(fold occ; lia))
        as (Hinv' & Q' & Hok').
      fold occ in Hinv', Q', Hok'.
      assert (Q'' : quiet G (a :: mjoin ls) r1
                      (with_cells r1 (<[a:=set_pt c1 occ]> (cells r1)))).
      { eapply quiet_weaken; [exact Q'|]. intros x Hx.
        apply list_elem_of_singleton in Hx as ->. left. }
      destruct (quiet_trans _ _ _ _ _ Q1 Q'') as [F K].
      split; [assumption|]. split; [assumption|]. split; [assumption|]. auto.
  - destruct (cell_pt c <? 0) eqn:E; [lia|].
    bind_inv H as inside Hin. unfold tree_particle_is_inside_cell in Hin.
    rewrite (load_eq _ _ _ Ha) in Hin. cbn [mbind result_bind] in Hin.
    bind_inv Hin as p Hp. apply particle_at_Ok in Hp as [_ Hp].
    destruct (outside_box p c) eqn:Hout; injection Hin as <-; cbn in H.
    + apply evict_Ok in H as (c' & p' & Ha' & _ & Hp' & -> & Hcase).
      rewrite Ha in Ha'. injection Ha' as <-. rewrite Hp in Hp'. injection Hp' as <-.
      destruct Hcase as [[_ ->]|(_ & last & t & tc & HN & Hlast & Ht & Htc & ->)].
      * destruct (evicted_fixed_spec G r a c p Hinv Ha Hp) as [Hinv' [F K]].
        split; [assumption|]. split; [assumption|]. split; [assumption|].
        split; [auto | apply pruned_tree_ok].
      * destruct (evicted_swapped_spec G r a c p last t tc Hinv Ha Hpt Hp HN Hlast Ht Htc)
          as [Hinv' [F K]].
        split; [assumption|]. split; [assumption|]. split; [assumption|].
        split; [auto | apply pruned_tree_ok].
    + rewrite (refresh_eq _ _ _ _ Ha Hpt Hp) in H. injection H as <- <-.
      destruct (refresh_spec G fuel r a c p Hinv Ha Hpt Hlen Hp Hout) as (Hinv' & [F K] & Hok).
      split; [assumption|]. split; [assumption|]. split; [assumption|]. auto.
Qed.

Theorem update_spec_all G fuel : update_spec G fuel.
Proof.
  induction fuel as [|fuel IH]; [|apply update_spec_S; assumption].
  intros r a f0 l r' ret _ _ _ H. discriminate.
Qed.

(** *** The root slots *)

Lemma root_at_spec r i d :
  root_at r i = Ok d -> 0 <= i /\ roots r !! Z.to_nat i = Some d.
Proof.
  unfold root_at, roots. destruct (tree_root r) as [rs|]; [|discriminate]. cbn.
  destruct (Z.leb_spec 0 i); [|discriminate].
  destruct (rs !! Z.to_nat i); [|discriminate]. intros [= <-]. auto.
Qed.

Lemma set_root_spec G r i d d0 r' :
  set_root r i d = Ok r' -> roots r !! Z.to_nat i = Some d0 -> d = None \/ d = d0 ->
  pass_invariant G r -> True ->
  roots r' = <[Z.to_nat i := d]> (roots r) /\ pass_invariant G r' /\ True
  /\ particles r' = particles r /\ (forall b, b ∉ [] -> cells r' !! b = cells r !! b).
Proof.
  unfold set_root, roots. intros H _ _ Hinv _.
  destruct (tree_root r) as [rs|]; [|discriminate].
  destruct ((0 <=? i) && (i <? Z.of_nat (length rs))); [|discriminate].
  injection H as <-. cbn.
  split; [reflexivity|]. split; [exact Hinv|]. split; [exact I|].
  split; [reflexivity | intros; reflexivity].
Qed.

Lemma roots_frame r r' (l : list addr) :
  frame l (cells r) (cells r') -> (forall b : addr, b ∈ [] -> b ∉ l) ->
  tree_root r' = tree_root r -> True -> roots r' = roots r /\ True.
Proof. intros _ _ H _. unfold roots. rewrite H. auto. Qed.

Lemma join_replicate_nil {A} n : mjoin (replicate n ([] : list A)) = [].
Proof. induction n; cbn; auto. Qed.

Lemma forest_ensure r :
  (exists f0 ls, forest f0 r ls) -> exists f0 ls, forest f0 (ensure_tree_root r) ls.
Proof.
  intros (f0 & ls & HF & Hnd). unfold ensure_tree_root.
  destruct (tree_root r) as [rs|] eqn:E; [exists f0, ls; split; assumption|].
  set (n := Z.to_nat (root_nx r * root_ny r * root_nz r)).
  exists 1%nat, (replicate n []). split.
  - unfold roots. cbn. apply Forall2_same_length_lookup.
    split; [rewrite !length_replicate; reflexivity|].
    intros i d l Hd Hl. apply lookup_replicate in Hd as [-> _].
    apply lookup_replicate in Hl as [-> _]. reflexivity.
  - rewrite join_replicate_nil. constructor.
Qed.

Lemma invariant_ensure G r :
  pass_invariant G r -> pass_invariant G (ensure_tree_root r).
Proof. unfold ensure_tree_root. destruct (tree_root r); auto. Qed.

(** After a pass every root slot the loop visits holds a maintained tree. *)
Theorem maintenance_spec G fuel r r' :
  well_formed r -> (G -> nested r) -> tree_update fuel r = Ok r' ->
  pass_invariant G r'
  /\ length (roots r') = length (roots (ensure_tree_root r))
  /\ exists ls, NoDup (mjoin ls) /\
       forall i d, (i < Z.to_nat (root_n r))%nat -> roots r' !! i = Some d ->
                   exists l, ls !! i = Some l /\ tree_ok G fuel r' l d.
Proof.
  intros (HF & I4 & I2) HG H. unfold tree_update, update_root in H.
  destruct (forest_ensure r HF) as (f0 & ls & Hls & Hnd).
  assert (Hinv : pass_invariant G (ensure_tree_root r))
    by (apply invariant_ensure; repeat split; assumption).
  assert (Hst : slots_state G fuel roots f0 0 (ensure_tree_root r) ls).
  { split; [eapply Forall2_length; eassumption|].
    intros i d l Hd Hl. rewrite bool_decide_eq_false_2 by lia.
    exact (Forall2_lookup_lr _ _ _ _ _ _ Hls Hd Hl). }
  replace (root_n r) with (root_n (ensure_tree_root r)) in H
    by (unfold ensure_tree_root; destruct (tree_root r); reflexivity).
  unfold upto in H.
  destruct (slot_loop G fuel (update_spec_all G fuel) [] (fun _ => True) roots root_at
              set_root root_at_spec (set_root_spec G) roots_frame
              f0 _ 0 _ ls r' Hinv I Hnd Hst H)
    as (Hinv' & _ & [Hlen' Hst'] & _ & _).
  split; [assumption|].
  split; [rewrite Hlen'; symmetry; eapply Forall2_length; eassumption|].
  exists ls. split; [assumption|]. intros i d Hi Hd.
  assert (Hil : (i < length ls)%nat) by (rewrite <- Hlen'; eapply lookup_lt_Some; eassumption).
  destruct (lookup_lt_is_Some_2 _ _ Hil) as [l Hl]. exists l. split; [assumption|].
  specialize (Hst' i d l Hd Hl). rewrite bool_decide_eq_true_2 in Hst'; [exact Hst'|].
  replace (root_n (ensure_tree_root r)) with (root_n r)
    by (unfold ensure_tree_root; destruct (tree_root r); reflexivity).
  lia.
Qed.

(** *** Enough fuel *)

Lemma runs_Ok {A} (a : A) : runs (Ok a).
Proof. discriminate. Qed.

Lemma runs_Fault {A} : runs (@Fault A).
Proof. discriminate. Qed.

Lemma runs_bind {A B} (m : result A) (f : A -> result B) :
  runs m -> (forall a, m = Ok a -> runs (f a)) -> runs (m ≫= f).
Proof.
  intros Hm Hf. destruct m; cbn;
    [apply Hf; reflexivity | discriminate | exfalso; apply Hm; reflexivity].
Qed.

Lemma runs_for_each {S I} (l : list I) (body : S -> I -> result S) :
  (forall s i, runs (body s i)) -> forall s, runs (for_each l body s).
Proof.
  intros Hb. induction l as [|i l IH]; intros s; cbn; [apply runs_Ok|].
  apply runs_bind; auto.
Qed.

Ltac runs_step :=
  match goal with
  | |- runs (Ok _) => apply runs_Ok
  | |- runs Fault => apply runs_Fault
  | |- runs (_ ≫= _) => apply runs_bind; [|intros ? _]
  | |- runs (if ?b then _ else _) => destruct b
  | |- runs (match ?d with Some _ => _ | None => _ end) => destruct d
  | |- runs (let '(_, _) := ?p in _) => destruct p
  end.
Ltac runs_auto := repeat runs_step.

Lemma runs_load r a : runs (load r a).
Proof. unfold load. runs_auto. Qed.
Lemma runs_store r a c : runs (store r a c).
Proof. unfold store. runs_auto. Qed.
Lemma runs_free r a : runs (free r a).
Proof. unfold free. runs_auto. Qed.
Lemma runs_oct_at c o : runs (oct_at c o).
Proof. unfold oct_at. runs_auto. Qed.
Lemma runs_deref p : runs (deref p).
Proof. unfold deref. runs_auto. Qed.
Lemma runs_particle_at r i : runs (particle_at r i).
Proof. unfold particle_at. runs_auto. Qed.
Lemma runs_set_particle r i p : runs (set_particle r i p).
Proof. unfold set_particle. runs_auto. Qed.
Lemma runs_particles_add r p : runs (particles_add r p).
Proof. unfold particles_add. cbv zeta. runs_auto. Qed.
Lemma runs_root_at r i : runs (root_at r i).
Proof. unfold root_at. runs_auto. Qed.
Lemma runs_set_root r i d : runs (set_root r i d).
Proof. unfold set_root. runs_auto. Qed.

Create HintDb runs.
#[local] Hint Resolve runs_load runs_store runs_free runs_oct_at runs_deref
  runs_particle_at runs_set_particle runs_particles_add runs_root_at
  runs_set_root : runs.

Ltac runs_prim := runs_auto; auto with runs.

Lemma runs_get_oct a r o : runs (get_oct a r o).
Proof. unfold get_oct. runs_prim. Qed.
Lemma runs_put_oct a r o d : runs (put_oct a r o d).
Proof. unfold put_oct. runs_prim. Qed.
Lemma runs_inside r a : runs (tree_particle_is_inside_cell r a).
Proof. unfold tree_particle_is_inside_cell. runs_prim. Qed.
Lemma runs_refresh r a : runs (refresh r a).
Proof. unfold refresh. runs_prim. Qed.
Lemma runs_evict r a : runs (evict r a).
Proof. unfold evict, particles_add_fixed. cbv zeta. runs_prim. Qed.
Lemma runs_count_octant a s o : runs (count_octant a s o).
Proof. unfold count_octant. runs_prim. Qed.
Lemma runs_derefine r a test : runs (derefine r a test).
Proof. unfold derefine, free_ptr. runs_prim. Qed.

Section slot_loop_runs.
Variables (G : Prop) (fuel f0 : nat).
Variable A : list addr.
Variable A_ok : Rebound -> Prop.
Variable slots : Rebound -> list (option addr).
Variable get : Rebound -> Z -> result (option addr).
Variable put : Rebound -> Z -> option addr -> result Rebound.
Hypothesis get_spec : forall r i d,
  get r i = Ok d -> 0 <= i /\ slots r !! Z.to_nat i = Some d.
Hypothesis put_spec : forall r i d d0 r',
  put r i d = Ok r' -> slots r !! Z.to_nat i = Some d0 -> d = None \/ d = d0 ->
  pass_invariant G r -> A_ok r ->
  slots r' = <[Z.to_nat i := d]> (slots r) /\ pass_invariant G r' /\ A_ok r'
  /\ particles r' = particles r /\ (forall b, b ∉ A -> cells r' !! b = cells r !! b).
Hypothesis slots_frame : forall r r' l,
  frame l (cells r) (cells r') -> (forall b, b ∈ A -> b ∉ l) ->
  tree_root r' = tree_root r -> A_ok r -> slots r' = slots r /\ A_ok r'.
Hypothesis get_runs : forall r i, runs (get r i).
Hypothesis put_runs : forall r i d, runs (put r i d).
Hypothesis call_runs : forall r d l,
  pass_invariant G r -> subtree f0 (cells r) d = Some l -> NoDup l ->
  runs (tree_update_cell fuel r d).

Lemma slot_loop_runs m : forall k r ls,
  pass_invariant G r -> A_ok r -> NoDup (A ++ mjoin ls) ->
  slots_state G fuel slots f0 k r ls ->
  runs (for_each (Z.of_nat <$> seq k m) (update_slot get put (tree_update_cell fuel)) r).
Proof.
  induction m as [|m IH]; intros k r ls Hinv HA Hnd Hst; cbn; [apply runs_Ok|].
  apply runs_bind.
  - unfold update_slot. apply runs_bind; [apply get_runs|]. intros d Hd.
    apply get_spec in Hd as [_ Hd]. rewrite Nat2Z.id in Hd.
    apply runs_bind; [|intros [r1 d'] _; apply put_runs].
    destruct Hst as [Hlen Hst].
    assert (Hk : (k < length ls)%nat) by (rewrite <- Hlen; eapply lookup_lt_Some; eassumption).
    destruct (lookup_lt_is_Some_2 _ _ Hk) as [lk Hlk].
    pose proof (Hst _ _ _ Hd Hlk) as Hk0.
    rewrite bool_decide_eq_false_2 in Hk0 by lia. cbn in Hk0.
    eapply call_runs; [exact Hinv | exact Hk0 |].
    apply NoDup_app in Hnd as (_ & _ & Hnd). eapply NoDup_join_lookup; eassumption.
  - intros r1 H1.
    destruct (slot_step G fuel (update_spec_all G fuel) A A_ok slots get put
                get_spec put_spec slots_frame f0 k r ls r1 Hinv HA Hnd Hst H1)
      as (Hinv1 & HA1 & Hst1 & _).
    eapply IH; eassumption.
Qed.

End slot_loop_runs.

Lemma tree_update_cell_runs G fuel : forall r d f0 l,
  pass_invariant G r -> subtree f0 (cells r) d = Some l -> NoDup l ->
  (f0 <= fuel)%nat -> runs (tree_update_cell fuel r d).
Proof.
  induction fuel as [|fuel IH]; intros r d f0 l Hinv Hsub Hnd Hf.
  { assert (f0 = 0%nat) as -> by lia. discriminate. }
  cbn [tree_update_cell]. destruct d as [a|]; [|apply runs_Ok].
  destruct f0 as [|f0]; [discriminate|].
  apply subtree_S in Hsub as (c & Ha & Hlen & Hcase).
  rewrite (load_eq _ _ _ Ha). cbn [mbind result_bind].
  destruct (cell_pt c <? 0) eqn:E.
  - destruct Hcase as [(Hpt & ls & Hls & ->)|[? _]]; [|lia].
    apply runs_bind.
    + change octants with (Z.of_nat <$> seq 0 8). unfold update_octant.
      eapply (slot_loop_runs G fuel f0 [a] (is_branch a) (oct_slots a) (get_oct a) (put_oct a)
                (get_oct_spec a) (put_oct_spec G a) (oct_slots_frame a)
                (runs_get_oct a) (runs_put_oct a)).
      * intros r0 d0 l0 Hinv0 Hs0 Hnd0. eapply IH; try eassumption. lia.
      * exact Hinv.
      * exists c. auto.
      * exact Hnd.
      * unfold slots_state, oct_slots. rewrite Ha.
        split; [eapply Forall2_length; eassumption|].
        intros i d l Hd Hl. rewrite bool_decide_eq_false_2 by lia.
        exact (Forall2_lookup_lr _ _ _ _ _ _ Hls Hd Hl).
    + intros r1 _. runs_auto; auto with runs.
      { apply (runs_for_each octants (count_octant a) (runs_count_octant a)). }
      apply runs_derefine.
  - apply runs_bind; [apply runs_inside|]. intros inside _.
    destruct (inside =? 0); [apply runs_evict | apply runs_refresh].
Qed.

(** A pass over a well-formed state ends, with a result or a fault, for
    every fuel above the depth of its trees. *)
Theorem tree_update_runs r :
  well_formed r -> exists fuel0, forall fuel, (fuel0 <= fuel)%nat -> runs (tree_update fuel r).
Proof.
  intros (HF & I4 & I2).
  destruct (forest_ensure r HF) as (f0 & ls & Hls & Hnd).
  exists f0. intros fuel Hfuel. unfold tree_update, update_root, upto.
  assert (Hinv : pass_invariant False (ensure_tree_root r)).
  { apply invariant_ensure. split; [assumption|]. split; [assumption | contradiction]. }
  eapply (slot_loop_runs False fuel f0 [] (fun _ => True) roots root_at set_root
            root_at_spec (set_root_spec False) roots_frame runs_root_at runs_set_root).
  - intros r0 d0 l0 Hinv0 Hs0 Hnd0.
    apply (tree_update_cell_runs False fuel r0 d0 f0 l0 Hinv0 Hs0 Hnd0). lia.
  - exact Hinv.
  - exact I.
  - exact Hnd.
  - split; [eapply Forall2_length; eassumption|].
    intros i d l Hd Hl. rewrite bool_decide_eq_false_2 by lia.
    exact (Forall2_lookup_lr _ _ _ _ _ _ Hls Hd Hl).
Qed.

(** *** Derefinement, forwards *)

Lemma derefine_prune_eq r a c test :
  cells r !! a = Some c -> cell_pt c = 0 ->
  derefine r a test = Ok (with_cells r (delete a (cells r)), None).
Proof.
  intros Ha Hpt. unfold derefine. rewrite (load_eq _ _ _ Ha). cbn [mbind result_bind].
  rewrite Hpt. cbn. rewrite (free_eq _ _ _ Ha). reflexivity.
Qed.

Lemma derefine_keep_eq r a c test :
  cells r !! a = Some c -> cell_pt c <> 0 -> cell_pt c <> -1 ->
  derefine r a test = Ok (r, Some a).
Proof.
  intros Ha H0 H1. unfold derefine. rewrite (load_eq _ _ _ Ha). cbn [mbind result_bind].
  destruct (Z.eqb_spec (cell_pt c) 0); [contradiction|].
  destruct (Z.eqb_spec (cell_pt c) (-1)); [contradiction|]. reflexivity.
Qed.

Lemma oct_at_eq c o d :
  0 <= o < 8 -> cell_oct c !! Z.to_nat o = Some d -> oct_at c o = Ok d.
Proof. intros. apply oct_at_Ok. auto. Qed.

Lemma derefine_collapse_eq r a c test d dc p :
  cells r !! a = Some c -> cell_pt c = -1 -> 0 <= test < 8 ->
  cell_oct c !! Z.to_nat test = Some (Some d) -> d <> a ->
  cells r !! d = Some dc -> 0 <= cell_pt dc ->
  particles r !! Z.to_nat (cell_pt dc) = Some p ->
  derefine r a test = Ok (collapsed r a c test d dc p, Some a).
Proof.
  intros Ha Hpt Ht Hd Hne Hdc Hpos Hp. unfold derefine.
  rewrite (load_eq _ _ _ Ha). cbn [mbind result_bind]. rewrite Hpt. cbn [Z.eqb].
  rewrite (oct_at_eq _ _ _ Ht Hd). cbn [mbind result_bind deref].
  rewrite (load_eq _ _ _ Hdc). cbn [mbind result_bind].
  rewrite (store_eq _ _ _ _ Ha). cbn [mbind result_bind].
  rewrite (load_eq _ a (set_pt c (cell_pt dc)))
    by (rewrite cells_with_cells; apply lookup_insert_eq).
  cbn [mbind result_bind cell_pt set_pt].
  rewrite (particle_at_eq _ _ p) by assumption. cbn [mbind result_bind].
  rewrite set_particle_eq by (cbn; apply lookup_lt_Some in Hp; lia).
  cbn [mbind result_bind].
  rewrite (load_eq _ a (set_pt c (cell_pt dc))) by (cbn; apply lookup_insert_eq).
  cbn [mbind result_bind].
  rewrite (oct_at_eq _ _ (Some d)) by assumption. cbn [mbind result_bind free_ptr].
  rewrite (free_eq _ d dc) by (cbn; rewrite lookup_insert_ne by done; assumption).
  cbn [mbind result_bind].
  rewrite (load_eq _ a (set_pt c (cell_pt dc)))
    by (cbn; rewrite lookup_delete_ne by done; apply lookup_insert_eq).
  cbn [mbind result_bind].
  rewrite (store_eq _ a (set_pt c (cell_pt dc)))
    by (cbn; rewrite lookup_delete_ne by done; apply lookup_insert_eq).
  cbn [mbind result_bind]. unfold collapsed. cbn. do 3 f_equal.
  rewrite delete_insert_ne by done. apply insert_insert_eq.
Qed.

(** *** The recount, forwards *)

Lemma count_octant_eq a r0 ca v test o d :
  cells r0 !! a = Some ca -> 0 <= o < 8 -> cell_oct ca !! Z.to_nat o = Some d ->
  (forall da, d = Some da -> da <> a /\ is_Some (cells r0 !! da)) ->
  exists test',
    count_octant a (with_cells r0 (<[a := set_pt ca v]> (cells r0)), test) o =
    Ok (with_cells r0 (<[a := set_pt ca (v + contribution (cells r0) d)]> (cells r0)),
        test').
Proof.
  intros Ha Ho Hd Hkid. unfold count_octant.
  rewrite (load_eq _ a (set_pt ca v)) by (cbn; apply lookup_insert_eq).
  cbn [mbind result_bind]. rewrite (oct_at_eq _ _ d) by assumption.
  cbn [mbind result_bind]. destruct d as [da|].
  - destruct (Hkid da eq_refl) as [Hne [dc Hdc]].
    rewrite (load_eq _ da dc) by (cbn; rewrite lookup_insert_ne by done; assumption).
    cbn [mbind result_bind]. unfold contribution. rewrite Hdc.
    destruct (0 <=? cell_pt dc);
      rewrite (store_eq _ a (set_pt ca v)) by (cbn; apply lookup_insert_eq);
      cbn; rewrite insert_insert_eq; eexists; (do 2 f_equal);
      destruct r0, ca; reflexivity.
  - exists test. cbn [contribution]. rewrite Z.add_0_r. reflexivity.
Qed.

Lemma recount_loop_eq a r0 ca :
  cells r0 !! a = Some ca -> length (cell_oct ca) = 8%nat ->
  (forall i da, cell_oct ca !! i = Some (Some da) -> da <> a /\ is_Some (cells r0 !! da)) ->
  forall m k v test,
    (k + m = 8)%nat ->
    exists test',
      for_each (Z.of_nat <$> seq k m) (count_octant a)
        (with_cells r0 (<[a := set_pt ca v]> (cells r0)), test) =
      Ok (with_cells r0
            (<[a := set_pt ca (v + occupancy_of_children (cells r0) (drop k (cell_oct ca)))]>
               (cells r0)), test').
Proof.
  intros Ha Hlen Hkids. induction m as [|m IH]; intros k v test Hk.
  2: change (Z.of_nat <$> seq k (S m)) with (Z.of_nat k :: (Z.of_nat <$> seq (S k) m)).
  all: cbn [for_each seq fmap list_fmap].
  - assert (k = 8%nat) as -> by lia. rewrite drop_ge by lia. cbn.
    rewrite Z.add_0_r. eauto.
  - assert (Hlt : (k < length (cell_oct ca))%nat) by lia.
    destruct (lookup_lt_is_Some_2 _ _ Hlt) as [d Hd].
    destruct (count_octant_eq a r0 ca v test (Z.of_nat k) d Ha) as [t1 ->];
      [lia | rewrite Nat2Z.id; exact Hd | intros da ->; eapply Hkids; eassumption |].
    cbn [mbind result_bind].
    destruct (IH (S k) (v + contribution (cells r0) d) t1) as [t2 ->]; [lia|].
    exists t2. rewrite (drop_S _ _ _ Hd), occupancy_cons, Z.add_assoc. reflexivity.
Qed.

(** *** A maintained tree is a fixed point *)

Lemma with_particles_id r : with_particles r (particles r) = r.
Proof. destruct r; reflexivity. Qed.

Lemma with_cells_id r : with_cells r (cells r) = r.
Proof. destruct r; reflexivity. Qed.

Lemma set_c_id p n : part_c p = n -> set_c p n = p.
Proof. intros <-. destruct p; reflexivity. Qed.

Lemma set_pt_id c : set_pt c (cell_pt c) = c.
Proof. destruct c; reflexivity. Qed.

Lemma set_oct_id c o d : cell_oct c !! Z.to_nat o = Some d -> set_oct c o d = c.
Proof. intros H. unfold set_oct. rewrite list_insert_id by assumption. destruct c; reflexivity. Qed.

Lemma for_each_fixed {S I} (l : list I) (body : S -> I -> result S) s :
  (forall i, i ∈ l -> body s i = Ok s) -> for_each l body s = Ok s.
Proof.
  induction l as [|i l IH]; intros H; cbn; [reflexivity|].
  rewrite H by left. cbn. apply IH. intros j Hj. apply H. right. exact Hj.
Qed.

Lemma octants_range o : o ∈ octants -> 0 <= o < 8.
Proof.
  unfold octants. rewrite !elem_of_cons, elem_of_nil. lia.
Qed.

Lemma stable_update fuel : forall r d l,
  subtree fuel (cells r) d = Some l -> (forall n, n ∈ l -> node_ok True r n) ->
  tree_update_cell fuel r d = Ok (r, d).
Proof.
  induction fuel as [|fuel IH]; intros r d l Hsub Hok; [discriminate|].
  destruct d as [a|]; [|reflexivity].
  pose proof Hsub as Hsub0.
  apply subtree_S in Hsub as (c & Ha & Hlen & Hcase).
  destruct Hcase as [(Hpt & ls & Hls & ->)|(Hpt & ->)].
  - destruct (Hok a ltac:(left)) as (c' & Hc' & Hb). rewrite Ha in Hc'. injection Hc' as <-.
    destruct (cell_pt c <? 0) eqn:E; [|lia]. destruct Hb as [H2 Hocc].
    cbn [tree_update_cell]. rewrite (load_eq _ _ _ Ha). cbn [mbind result_bind]. rewrite E.
    assert (Hkids : forall i da, cell_oct c !! i = Some (Some da) ->
                                 da <> a /\ is_Some (cells r !! da)).
    { intros i da Hda.
      assert (Hin : da ∈ a :: mjoin ls) by (eapply subtree_child_in; try eassumption; left).
      split; [|eapply subtree_allocated; eassumption].
      intros ->. clear Hin.
      destruct (Forall2_lookup_l _ _ _ _ _ Hls Hda) as (la & Hla & Hsa).
      (* the address would occur in its own proper subtree: the node under
         [a] at [a] has the same slots, one level deeper each time *)
      pose proof (subtree_mono _ (S fuel) _ _ _ Hsa ltac:(lia)) as Hsa'.
      rewrite Hsub0 in Hsa'. injection Hsa' as Heq.
      assert (Hlen' : length (a :: mjoin ls) = length la) by (rewrite Heq; reflexivity).
      assert (length la <= length (mjoin ls))%nat; [|cbn in Hlen'; lia].
      clear -Hla. revert i Hla. induction ls as [|l0 ls IHl]; intros i Hla; [discriminate|].
      change (mjoin (l0 :: ls)) with (l0 ++ mjoin ls).
      rewrite length_app. destruct i; cbn in Hla.
      - injection Hla as ->. lia.
      - specialize (IHl _ Hla). lia. }
    rewrite for_each_fixed.
    2:{ intros o Ho. apply octants_range in Ho. unfold update_octant, update_slot, get_oct.
        rewrite (load_eq _ _ _ Ha). cbn [mbind result_bind].
        assert (Hlt : (Z.to_nat o < length (cell_oct c))%nat) by lia.
        destruct (lookup_lt_is_Some_2 _ _ Hlt) as [d Hd].
        rewrite (oct_at_eq _ _ _ Ho Hd). cbn [mbind result_bind].
        destruct (Forall2_lookup_l _ _ _ _ _ Hls Hd) as (ld & Hld & Hsd).
        rewrite (IH r d ld Hsd).
        2:{ intros n Hn. apply Hok. right. eapply elem_of_join_lookup; eassumption. }
        cbn [mbind result_bind]. unfold put_oct. rewrite (load_eq _ _ _ Ha).
        cbn [mbind result_bind]. rewrite (store_eq _ _ _ _ Ha).
        rewrite (set_oct_id _ _ _ Hd), insert_id by assumption.
        rewrite with_cells_id. reflexivity. }
    cbn [mbind result_bind]. rewrite (load_eq _ _ _ Ha). cbn [mbind result_bind].
    rewrite (store_eq _ _ _ _ Ha). cbn [mbind result_bind].
    change octants with (Z.of_nat <$> seq 0 8).
    destruct (recount_loop_eq a r c Ha Hlen Hkids 8 0 0 (-1) eq_refl) as [test ->].
    cbn [mbind result_bind]. rewrite drop_0, Z.add_0_l, <- Hocc, set_pt_id, insert_id by assumption.
    rewrite with_cells_id. eapply derefine_keep_eq; [eassumption | lia | lia].
  - destruct (Hok a ltac:(left)) as (c' & Hc' & Hb). rewrite Ha in Hc'. injection Hc' as <-.
    destruct (cell_pt c <? 0) eqn:E; [lia|]. destruct Hb as (p & Hp & Hpc & Hin).
    rewrite (leaf_update_eq fuel r a c p Ha Hpt Hp), (Hin I).
    rewrite (refresh_eq r a c p Ha Hpt Hp).
    rewrite (set_c_id _ _ Hpc), list_insert_id by assumption.
    rewrite with_particles_id. reflexivity.
Qed.

(** *** Counting the particles of a subtree *)

Lemma foldr_opp_contribution h oct :
  foldr Z.add 0 ((fun d => - contribution h d) <$> oct) = - occupancy_of_children h oct.
Proof.
  induction oct as [|d oct IH]; [reflexivity|].
  rewrite occupancy_cons. cbn [fmap list_fmap foldr]. cbn [fmap] in IH. rewrite IH. lia.
Qed.

Lemma count_particles_spec fuel : forall h a l,
  subtree fuel h (Some a) = Some l ->
  (forall n c, n ∈ l -> h !! n = Some c -> cell_pt c < 0 ->
               cell_pt c = occupancy_of_children h (cell_oct c)) ->
  count_particles fuel h a = Some (- contribution h (Some a)).
Proof.
  induction fuel as [|fuel IH]; intros h a l Hsub Hocc; [discriminate|].
  pose proof (subtree_root_in _ _ _ _ Hsub) as Hroot.
  apply subtree_S in Hsub as (c & Ha & Hlen & Hcase).
  cbn [count_particles contribution]. rewrite Ha. cbn [mbind option_bind].
  destruct Hcase as [(Hpt & ls & Hls & ->)|(Hpt & ->)].
  - destruct (Z.ltb_spec (cell_pt c) 0); [|lia].
    destruct (Z.leb_spec 0 (cell_pt c)); [lia|].
    rewrite (Hocc a c Hroot Ha Hpt) at 1.
    erewrite (mapM_Some_2 _ _ ((fun d => - contribution h d) <$> cell_oct c)).
    { cbn [mbind option_bind]. f_equal. rewrite foldr_opp_contribution.
      rewrite <- (Hocc a c Hroot Ha Hpt). reflexivity. }
    apply Forall2_fmap_r, Forall_Forall2_diag, Forall_lookup. intros o d Hd.
    destruct d as [da|]; [|reflexivity].
    destruct (Forall2_lookup_l _ _ _ _ _ Hls Hd) as (la & Hla & Hsa).
    apply (IH h da la Hsa). intros n cn Hn. apply Hocc. right.
    eapply elem_of_join_lookup; eassumption.
  - destruct (Z.ltb_spec (cell_pt c) 0); [lia|].
    destruct (Z.leb_spec 0 (cell_pt c)); [|lia]. reflexivity.
Qed.

Lemma contribution_branch h a c :
  h !! a = Some c -> cell_pt c < 0 -> contribution h (Some a) = cell_pt c.
Proof.
  intros Ha Hpt. unfold contribution. rewrite Ha.
  destruct (Z.leb_spec 0 (cell_pt c)); [lia | reflexivity].
Qed.

(** Every node of a tree roots a tree of the same nodes or fewer. *)
Lemma subtree_at fuel : forall h d l n,
  subtree fuel h d = Some l -> n ∈ l ->
  exists l', subtree fuel h (Some n) = Some l' /\ l' ⊆ l.
Proof.
  induction fuel as [|fuel IH]; intros h d l n Hsub Hn; [discriminate|].
  destruct (subtree_in _ _ _ _ _ Hsub Hn) as [a ->]. pose proof Hsub as Hsub0.
  apply subtree_S in Hsub as (c & Ha & Hlen & [(Hpt & ls & Hls & ->)|(Hpt & ->)]).
  - apply elem_of_cons in Hn as [->|Hn]; [exists (a :: mjoin ls); split; [assumption | done]|].
    destruct (slots_nodes_elem _ _ _ _ _ Hls Hn) as (o & d & ld & Hd & Hld & Hsd & Hnd).
    destruct (IH h (Some d) ld n Hsd Hnd) as (l' & Hl' & Hincl).
    exists l'. split; [eapply subtree_mono; [eassumption | lia]|].
    intros x Hx. right. eapply elem_of_join_lookup; [eassumption | auto].
  - apply list_elem_of_singleton in Hn as ->. exists [a]. split; [assumption | done].
Qed.

(** *** Checking a concrete state *)

Lemma leaf_indices_distinct_dec r :
  map_Forall (fun n1 c1 => map_Forall (fun n2 c2 =>
    0 <= cell_pt c1 -> cell_pt c1 = cell_pt c2 -> n1 = n2) (cells r)) (cells r) ->
  leaf_indices_distinct r.
Proof. intros H n1 n2 c1 c2 H1 H2. exact (H n1 c1 H1 n2 c2 H2). Qed.

Lemma sim_two_leaves_well_formed p0 p1 n nf :
  part_c p0 = Some 2%positive -> part_c p1 = Some 3%positive ->
  well_formed (sim [p0; p1] n nf two_leaf_cells).
Proof.
  intros H0 H1. split; [|split].
  - exists 3%nat, [[1; 2; 3]%positive]. split.
    + repeat constructor.
    + cbn. repeat (apply NoDup_cons; split;
                       [rewrite ?elem_of_cons, elem_of_nil; intuition discriminate|]).
      apply NoDup_nil_2.
  - intros i p a c Hp Hc Ha. destruct i as [|[|i]]; cbn in Hp.
    + injection Hp as <-. rewrite H0 in Hc. injection Hc as <-.
      vm_compute in Ha. injection Ha as <-. reflexivity.
    + injection Hp as <-. rewrite H1 in Hc. injection Hc as <-.
      vm_compute in Ha. injection Ha as <-. reflexivity.
    + destruct i; discriminate.
  - apply leaf_indices_distinct_dec. apply (bool_decide_unpack _). vm_compute. exact I.
Qed.

(** *** The trees after a pass *)

Lemma well_formed_invariant G r :
  well_formed r -> (G -> nested r) -> pass_invariant G r.
Proof. intros (_ & H1 & H2) HG. repeat split; assumption. Qed.

(** After a pass, the tree in a root slot that the loop visited is a tree of
    maintained nodes. *)
Lemma maintained_roots G fuel r r' i a :
  well_formed r -> (G -> nested r) -> tree_update fuel r = Ok r' ->
  (i < Z.to_nat (root_n r))%nat -> roots r' !! i = Some (Some a) ->
  exists l, subtree fuel (cells r') (Some a) = Some l /\ NoDup l
            /\ forall n, n ∈ l -> node_ok G r' n.
Proof.
  intros Hwf HG H Hi Ha.
  destruct (maintenance_spec G fuel r r' Hwf HG H) as (_ & _ & ls & _ & Hall).
  destruct (Hall i (Some a) Hi Ha) as (l0 & _ & l & Hsub & _ & Hnd & Hok).
  exists l. auto.
Qed.

Lemma node_ok_branch G r n c :
  node_ok G r n -> cells r !! n = Some c -> cell_pt c < 0 -> branch_ok r c.
Proof.
  intros (c' & Hc' & Hok) Hc Hpt. rewrite Hc in Hc'. injection Hc' as <-.
  destruct (Z.ltb_spec (cell_pt c) 0); [assumption | lia].
Qed.

Lemma node_ok_leaf G r n c :
  node_ok G r n -> cells r !! n = Some c -> 0 <= cell_pt c -> leaf_ok G r n c.
Proof.
  intros (c' & Hc' & Hok) Hc Hpt. rewrite Hc in Hc'. injection Hc' as <-.
  destruct (Z.ltb_spec (cell_pt c) 0); [lia | assumption].
Qed.

(** *** The root grid stays *)

Lemma root_n_evict r a r' ret : evict r a = Ok (r', ret) -> root_n r' = root_n r.
Proof.
  intros H. apply evict_Ok in H as (c & p & _ & _ & _ & _ & [[_ ->]|[_ H]]);
    [reflexivity|].
  destruct H as (last & t & tc & _ & _ & _ & _ & ->). reflexivity.
Qed.

Lemma root_n_refresh r a r' ret : refresh r a = Ok (r', ret) -> root_n r' = root_n r.
Proof.
  unfold refresh. intros H.
  bind_inv H as c Hc. bind_inv H as p Hp. bind_inv H as r1 H1.
  injection H as <- _. apply set_particle_Ok in H1 as [_ ->]. reflexivity.
Qed.

Lemma root_n_store r a c r' : store r a c = Ok r' -> root_n r' = root_n r.
Proof. intros H. apply store_Ok in H as [_ ->]. reflexivity. Qed.

Lemma root_n_free r a r' : free r a = Ok r' -> root_n r' = root_n r.
Proof. intros H. apply free_Ok in H as [_ ->]. reflexivity. Qed.

Lemma root_n_count_octant a r test o r' test' :
  count_octant a (r, test) o = Ok (r', test') -> root_n r' = root_n r.
Proof.
  unfold count_octant. intros H.
  bind_inv H as c Hc. bind_inv H as d Hd. destruct d as [da|].
  - bind_inv H as dc Hdc. bind_inv H as c2 Hc2.
    destruct (0 <=? cell_pt dc); bind_inv H as r1 H1; injection H as <- _;
      eapply root_n_store; eassumption.
  - injection H as <- _. reflexivity.
Qed.

Lemma root_n_recount a l : forall r test r' test',
  for_each l (count_octant a) (r, test) = Ok (r', test') -> root_n r' = root_n r.
Proof.
  induction l as [|o l IH]; intros r test r' test' H; cbn in H.
  - injection H as <- _. reflexivity.
  - bind_inv H as [r1 t1] H1. apply IH in H. apply root_n_count_octant in H1. congruence.
Qed.

Lemma root_n_derefine r a test r' ret :
  derefine r a test = Ok (r', ret) -> root_n r' = root_n r.
Proof.
  unfold derefine. intros H. bind_inv H as c Hc.
  destruct (cell_pt c =? 0).
  { bind_inv H as r1 H1. injection H as <- _. eapply root_n_free; eassumption. }
  destruct (cell_pt c =? -1); [|injection H as <- _; reflexivity].
  bind_inv H as d Hd. bind_inv H as da Hda. bind_inv H as dc Hdc.
  bind_inv H as r1 H1. bind_inv H as c1 Hc1. bind_inv H as p Hp.
  bind_inv H as r2 H2. bind_inv H as c2 Hc2. bind_inv H as d2 Hd2.
  bind_inv H as r3 H3. bind_inv H as c3 Hc3. bind_inv H as r4 H4.
  injection H as <- _.
  apply root_n_store in H1, H4. apply set_particle_Ok in H2 as [_ ->].
  assert (root_n r3 = root_n r1).
  { destruct d2; cbn in H3; [apply root_n_free in H3; exact H3|].
    injection H3 as <-. reflexivity. }
  congruence.
Qed.

Lemma root_n_tree_update_cell fuel : forall r node r' ret,
  tree_update_cell fuel r node = Ok (r', ret) -> root_n r' = root_n r.
Proof.
  induction fuel as [|fuel IH]; intros r node r' ret H; [discriminate|].
  cbn [tree_update_cell] in H. destruct node as [a|]; [|injection H as <- _; reflexivity].
  bind_inv H as c Hc. destruct (cell_pt c <? 0).
  - bind_inv H as r1 H1. bind_inv H as c1 Hc1.
    bind_inv H as r2 H2. bind_inv H as [r3 test] H3.
    apply root_n_derefine in H. apply root_n_recount in H3. apply root_n_store in H2.
    assert (root_n r1 = root_n r); [|congruence].
    eapply (for_each_preserves (fun s s' => root_n s' = root_n s));
      [reflexivity | intros; congruence | | exact H1].
    intros s i s' _ Hs. unfold update_octant, update_slot in Hs.
    bind_inv Hs as d Hd. bind_inv Hs as [s1 d'] Hs1. apply IH in Hs1.
    unfold put_oct in Hs. bind_inv Hs as c2 Hc2. apply root_n_store in Hs. congruence.
  - bind_inv H as inside Hin. destruct (inside =? 0).
    + eapply root_n_evict; eassumption.
    + eapply root_n_refresh; eassumption.
Qed.

Lemma root_n_ensure r : root_n (ensure_tree_root r) = root_n r.
Proof. unfold ensure_tree_root. destruct (tree_root r); reflexivity. Qed.

Lemma set_root_Ok r i d r' :
  set_root r i d = Ok r' ->
  exists rs, tree_root r = Some rs /\ (Z.to_nat i < length rs)%nat /\ 0 <= i
             /\ r' = with_tree_root r (Some (<[Z.to_nat i := d]> rs)).
Proof.
  unfold set_root. destruct (tree_root r) as [rs|]; [|discriminate].
  destruct (Z.leb_spec 0 i); [|discriminate].
  destruct (Z.ltb_spec i (Z.of_nat (length rs))); [|discriminate].
  cbn. intros [= <-]. exists rs. repeat split; try assumption. lia.
Qed.

Lemma update_root_Ok fuel r i r' :
  update_root fuel r i = Ok r' ->
  root_n r' = root_n r /\ length (roots r') = length (roots r)
  /\ (Z.to_nat i < length (roots r))%nat /\ is_Some (tree_root r').
Proof.
  unfold update_root, update_slot. intros H.
  bind_inv H as d Hd. bind_inv H as [r1 d'] H1.
  pose proof (root_n_tree_update_cell _ _ _ _ _ H1) as Hn.
  apply steady_tree_update_cell in H1 as [[_ HT] _].
  apply set_root_Ok in H as (rs & Hrs & Hi & _ & ->).
  unfold roots. cbn. rewrite <- HT, Hrs. cbn. rewrite length_insert. eauto.
Qed.

Lemma root_loop fuel n : forall k r r',
  for_each (Z.of_nat <$> seq k n) (update_root fuel) r = Ok r' ->
  root_n r' = root_n r /\ length (roots r') = length (roots r)
  /\ (n = 0 \/ k + n <= length (roots r))%nat
  /\ (is_Some (tree_root r) -> is_Some (tree_root r')).
Proof.
  induction n as [|n IH]; intros k r r' H; cbn in H.
  - injection H as <-. auto.
  - bind_inv H as r1 H1. apply update_root_Ok in H1 as (Hn & Hl & Hk & HT).
    apply IH in H as (Hn' & Hl' & Hk' & HT'). rewrite Nat2Z.id in Hk.
    split; [congruence|]. split; [congruence|]. split; [|auto].
    right. destruct Hk' as [->|Hk']; lia.
Qed.

Lemma tree_update_Ok fuel r r' :
  tree_update fuel r = Ok r' ->
  root_n r' = root_n r /\ ensure_tree_root r' = r'
  /\ (Z.to_nat (root_n r) = 0 \/ Z.to_nat (root_n r) <= length (roots r'))%nat.
Proof.
  unfold tree_update, upto. intros H.
  apply root_loop in H as (Hn & Hl & Hk & HT). rewrite root_n_ensure in Hn.
  split; [assumption|]. split.
  - assert (Hs : is_Some (tree_root (ensure_tree_root r)))
      by (unfold ensure_tree_root; destruct (tree_root r) eqn:E; cbn; rewrite ?E;
          eexists; reflexivity).
    destruct (HT Hs) as [rs Hrs]. unfold ensure_tree_root. rewrite Hrs. reflexivity.
  - rewrite Hl. destruct Hk as [Hk|Hk]; [auto|]. right. exact Hk.
Qed.

(** *** The last steps on a branch *)

Lemma recount_facts G fuel r a c f0 l r1 c1 r3 test :
  pass_invariant G r -> subtree f0 (cells r) (Some a) = Some l -> NoDup l ->
  cells r !! a = Some c -> cell_pt c < 0 ->
  for_each octants (update_octant (tree_update_cell fuel) a) r = Ok r1 ->
  cells r1 !! a = Some c1 ->
  for_each octants (count_octant a)
    (with_cells r1 (<[a := set_pt c1 0]> (cells r1)), -1) = Ok (r3, test) ->
  r3 = with_cells r1
         (<[a := set_pt c1 (occupancy_of_children (cells r1) (cell_oct c1))]> (cells r1))
  /\ length (cell_oct c1) = 8%nat
  /\ (forall i d, cell_oct c1 !! i = Some (Some d) -> d <> a /\ node_ok G r1 d)
  /\ (occupancy_of_children (cells r1) (cell_oct c1) = -1 ->
      exists d dc p,
        0 <= test < 8 /\ cell_oct c1 !! Z.to_nat test = Some (Some d)
        /\ cells r1 !! d = Some dc /\ 0 <= cell_pt dc
        /\ particles r1 !! Z.to_nat (cell_pt dc) = Some p /\ part_c p = Some d
        /\ forall j x, cell_oct c1 !! j = Some (Some x) -> j = Z.to_nat test).
Proof.
  intros Hinv Hsub Hnd Ha Hpt Hloop Hc1 Hrec.
  destruct f0 as [|f0]; [discriminate|].
  apply subtree_S in Hsub as (c' & Ha' & Hlen & [(_ & ls & Hls & ->)|(Hpos & _)]); [|].
  2:{ rewrite Ha in Ha'. injection Ha' as <-. lia. }
  rewrite Ha in Ha'. injection Ha' as <-.
  destruct (children_loop G fuel r a c ls f0 r1 (update_spec_all G fuel)
              Hinv Ha Hpt Hlen Hls Hnd Hloop)
    as (Hinv1 & _ & c1' & Hc1' & Hpt1 & Hlen1 & Hkids).
  rewrite Hc1 in Hc1'. injection Hc1' as <-.
  pose proof (settled_children _ _ _ _ _ Hkids) as Hset.
  assert (Hself : forall i d, cell_oct c1 !! i = Some (Some d) -> d <> a).
  { intros i d Hd ->. destruct (Hset i a Hd) as [Hin _].
    apply NoDup_cons in Hnd as [Hnot _]. contradiction. }
  destruct (recount_spec r1 a c1 r3 test Hc1 Hlen1 Hself Hrec) as [Hr3 Htest].
  split; [assumption|]. split; [assumption|].
  split; [intros i d Hd; split; [eapply Hself | eapply Hset]; eassumption|].
  intros Hocc.
  assert (Hcs : children_settled (cells r1) (cell_oct c1)).
  { intros i d Hd. apply (node_ok_settled G). eapply Hset. eassumption. }
  destruct (occupancy_one _ _ Hcs Hocc) as (i & d & dc & Hd & Hdc & Hleaf & Huniq).
  destruct Htest as (d' & dc' & Ht & Hd' & Hdc' & Hleaf').
  { exists i, d, dc. repeat split; try assumption.
    apply lookup_lt_Some in Hd. lia. }
  destruct (Hset _ _ Hd') as [_ Hok].
  destruct (node_ok_leaf _ _ _ _ Hok Hdc' Hleaf') as (p & Hp & Hpc & _).
  exists d', dc', p. repeat split; try assumption; try lia.
  intros j x Hx. rewrite (Huniq _ _ Hx). symmetry. eapply Huniq. eassumption.
Qed.

Lemma branch_update_eq fuel r a c r1 c1 r3 test :
  cells r !! a = Some c -> cell_pt c < 0 ->
  for_each octants (update_octant (tree_update_cell fuel) a) r = Ok r1 ->
  cells r1 !! a = Some c1 ->
  for_each octants (count_octant a)
    (with_cells r1 (<[a := set_pt c1 0]> (cells r1)), -1) = Ok (r3, test) ->
  tree_update_cell (S fuel) r (Some a) = derefine r3 a test.
Proof.
  intros Ha Hpt Hloop Hc1 Hrec. cbn [tree_update_cell].
  rewrite (load_eq _ _ _ Ha). cbn [mbind result_bind].
  destruct (Z.ltb_spec (cell_pt c) 0); [|lia].
  rewrite Hloop. cbn [mbind result_bind]. rewrite (load_eq _ _ _ Hc1).
  cbn [mbind result_bind]. rewrite (store_eq _ _ _ _ Hc1). cbn [mbind result_bind].
  rewrite Hrec. reflexivity.
Qed.

Lemma branch_update_inv fuel r a c r' ret :
  cells r !! a = Some c -> cell_pt c < 0 ->
  tree_update_cell (S fuel) r (Some a) = Ok (r', ret) ->
  exists r1 c1 r3 test,
    for_each octants (update_octant (tree_update_cell fuel) a) r = Ok r1
    /\ cells r1 !! a = Some c1
    /\ for_each octants (count_octant a)
         (with_cells r1 (<[a := set_pt c1 0]> (cells r1)), -1) = Ok (r3, test)
    /\ derefine r3 a test = Ok (r', ret).
Proof.
  intros Ha Hpt H. cbn [tree_update_cell] in H.
  rewrite (load_eq _ _ _ Ha) in H. cbn [mbind result_bind] in H.
  destruct (Z.ltb_spec (cell_pt c) 0); [|lia].
  bind_inv H as r1 H1. bind_inv H as c1 Hc1. apply load_Ok in Hc1.
  rewrite (store_eq _ _ _ _ Hc1) in H. cbn [mbind result_bind] in H.
  bind_inv H as [r3 test] H3. exists r1, c1, r3, test. auto.
Qed.

Lemma clear_octs_eq r a c :
  cells r !! a = Some c -> cell_oct c = replicate 8 None -> clear_octs r a = Ok r.
Proof.
  intros Ha Hoct. unfold clear_octs. apply for_each_fixed. intros o Ho.
  apply octants_range in Ho. rewrite (load_eq _ _ _ Ha). cbn [mbind result_bind].
  rewrite (store_eq _ _ _ _ Ha), set_oct_id, insert_id, with_cells_id; try done.
  rewrite Hoct. apply lookup_replicate. split; [reflexivity | cbn; lia].
Qed.

Lemma fresh_cell r : cells r !! fresh (dom (cells r)) = None.
Proof. apply not_elem_of_dom, is_fresh. Qed.

Lemma new_node_eq r pt parent o :
  let a := fresh (dom (cells r)) in
  new_node r pt parent o =
  (p ← particle_at r pt;
   g ← new_geometry (with_cells r (<[a := zero_cell]> (cells r))) p parent o;
   Ok (created r a pt p g, a)).
Proof.
  intros a. unfold new_node, calloc_cell. fold a.
  change (particle_at (with_cells r (<[a:=zero_cell]> (cells r))) pt)
    with (particle_at r pt).
  destruct (particle_at r pt) as [p| |] eqn:Hp; [|reflexivity..].
  cbn [mbind result_bind].
  destruct (new_geometry _ p parent o) as [[[[x y] z] w]| |]; [|reflexivity..].
  cbn [mbind result_bind].
  rewrite (load_eq _ a zero_cell) by (cbn; apply lookup_insert_eq).
  cbn [mbind result_bind].
  rewrite (store_eq _ a zero_cell) by (cbn; apply lookup_insert_eq).
  cbn [mbind result_bind].
  match goal with |- context [particle_at ?s pt] =>
    change (particle_at s pt) with (particle_at r pt) end.
  rewrite Hp. cbn [mbind result_bind].
  apply particle_at_Ok in Hp as [Hpt Hp].
  rewrite set_particle_eq by (cbn; apply lookup_lt_Some in Hp; lia).
  cbn [mbind result_bind].
  erewrite clear_octs_eq; [|cbn; apply lookup_insert_eq | reflexivity].
  cbn. rewrite insert_insert_eq. reflexivity.
Qed.

(** *** A pass, end to end *)

(** C1.  A pass over a well-formed state ends once the fuel covers the depth
    of the trees.  When it returns, every branch of every root tree that the
    loop visited stores, negated, the number of particles in its subtree:
    its [pt] is the sum over its children of -1 for a leaf and of the child's
    own [pt] for a branch, and an independent recursive count of the leaves
    below it returns [- pt]. *)
Theorem occupancy_counts_the_subtree (r : Rebound) :
  well_formed r ->
  (exists fuel0, forall fuel, (fuel0 <= fuel)%nat -> runs (tree_update fuel r))
  /\ forall fuel r' i a,
       tree_update fuel r = Ok r' ->
       (i < Z.to_nat (root_n r))%nat -> roots r' !! i = Some (Some a) ->
       exists l,
         subtree fuel (cells r') (Some a) = Some l
         /\ forall n c, n ∈ l -> cells r' !! n = Some c -> cell_pt c < 0 ->
                        cell_pt c = occupancy_of_children (cells r') (cell_oct c)
                        /\ count_particles fuel (cells r') n = Some (- cell_pt c).
Proof.
  intros Hwf. split; [apply tree_update_runs; assumption|].
  intros fuel r' i a H Hi Ha.
  destruct (maintained_roots False fuel r r' i a Hwf ltac:(tauto) H Hi Ha)
    as (l & Hsub & _ & Hok).
  exists l. split; [assumption|]. intros n c Hn Hc Hpt.
  destruct (node_ok_branch _ _ _ _ (Hok n Hn) Hc Hpt) as [_ Hocc].
  split; [assumption|].
  destruct (subtree_at _ _ _ _ _ Hsub Hn) as (l' & Hsub' & Hincl).
  rewrite (count_particles_spec _ _ _ _ Hsub'), (contribution_branch _ _ _ Hc Hpt);
    [reflexivity|].
  intros m cm Hm Hcm Hptm.
  apply (node_ok_branch _ _ _ _ (Hok m (Hincl m Hm)) Hcm Hptm).
Qed.

Lemma occupancy_counts_the_subtree_witness :
  count_particles 2 (cells settled) 1%positive = Some 2.
Proof.
  destruct (occupancy_counts_the_subtree settled) as [_ H].
  { apply sim_two_leaves_well_formed; reflexivity. }
  destruct (H 2%nat settled 0%nat 1%positive) as (l & Hsub & Hl).
  { vm_compute. reflexivity. }
  { vm_compute. lia. }
  { reflexivity. }
  destruct (Hl 1%positive (branch_cell 0 0 0 1 (-2)
             [Some 2%positive; None; None; None; None; None; None; Some 3%positive]))
    as [_ Hcount].
  { eapply subtree_root_in. eassumption. }
  { reflexivity. }
  { cbn. lia. }
  exact Hcount.
Defined.

(** C2.  After a pass, every branch of every root tree that the loop visited
    has [pt <= -2].  This is by the last step of [tree_update_cell] on a
    branch [a]: with [occ] the occupancy recounted from the children after
    their own update, [occ = 0] frees [a] and returns NULL to the parent;
    [occ = -1] means exactly one child [d], a leaf, and turns [a] into a leaf
    in place, which stores the particle index of [d], has no children and is
    the back-reference of that particle, [d] being freed; otherwise [a]
    stays a branch with [pt = occ <= -2]. *)
Theorem no_branch_of_occupancy_0_or_1 (fuel : nat) (r r' : Rebound) :
  well_formed r -> tree_update fuel r = Ok r' ->
  (forall i a,
     (i < Z.to_nat (root_n r))%nat -> roots r' !! i = Some (Some a) ->
     exists l, subtree fuel (cells r') (Some a) = Some l
               /\ forall n c, n ∈ l -> cells r' !! n = Some c -> cell_pt c < 0 ->
                              cell_pt c <= -2)
  /\ (forall k s a c f0 l s1 c1 s' ret,
        pass_invariant False s -> subtree f0 (cells s) (Some a) = Some l -> NoDup l ->
        cells s !! a = Some c -> cell_pt c < 0 ->
        for_each octants (update_octant (tree_update_cell k) a) s = Ok s1 ->
        cells s1 !! a = Some c1 ->
        tree_update_cell (S k) s (Some a) = Ok (s', ret) ->
        let occ := occupancy_of_children (cells s1) (cell_oct c1) in
        (occ = 0 /\ ret = None /\ cells s' !! a = None)
        \/ (occ = -1 /\ ret = Some a /\
            exists o d dc p c',
              cell_oct c1 !! o = Some (Some d)
              /\ (forall j x, cell_oct c1 !! j = Some (Some x) -> j = o)
              /\ cells s1 !! d = Some dc /\ 0 <= cell_pt dc
              /\ particles s1 !! Z.to_nat (cell_pt dc) = Some p
              /\ cells s' !! a = Some c' /\ cell_pt c' = cell_pt dc
              /\ geometry c' = geometry c1
              /\ (forall j x, cell_oct c' !! j = Some x -> x = None)
              /\ particles s' !! Z.to_nat (cell_pt dc) = Some (set_c p (Some a))
              /\ cells s' !! d = None)
        \/ (occ <= -2 /\ ret = Some a /\
            cells s' !! a = Some (set_pt c1 occ))).
Proof.
  intros Hwf H. split.
  - intros i a Hi Ha.
    destruct (maintained_roots False fuel r r' i a Hwf ltac:(tauto) H Hi Ha)
      as (l & Hsub & _ & Hok).
    exists l. split; [assumption|]. intros n c Hn Hc Hpt.
    apply (node_ok_branch _ _ _ _ (Hok n Hn) Hc Hpt).
  - clear. intros k s a c f0 l s1 c1 s' ret Hinv Hsub Hnd Ha Hpt Hloop Hc1 Hupd occ.
    destruct (branch_update_inv _ _ _ _ _ _ Ha Hpt Hupd)
      as (s1' & c1' & s3 & test & Hloop' & Hc1' & Hrec & Hder).
    rewrite Hloop in Hloop'. injection Hloop' as <-.
    rewrite Hc1 in Hc1'. injection Hc1' as <-.
    destruct (recount_facts _ _ _ _ _ _ _ _ _ _ _ Hinv Hsub Hnd Ha Hpt Hloop Hc1 Hrec)
      as (Hs3 & Hlen & Hkids & Hone).
    fold occ in Hs3, Hone.
    assert (Hc3 : cells s3 !! a = Some (set_pt c1 occ))
      by (rewrite Hs3; cbn; apply lookup_insert_eq).
    destruct (derefine_inv _ _ _ _ _ _ Hc3 Hder)
      as [(H0 & -> & ->)|[(H1 & -> & d & dc & p & Ht & Hd & Hne & Hdc & Hleaf & Hp & ->)
                         |(H0 & H1 & -> & ->)]]; cbn [cell_pt set_pt] in *.
    + left. repeat split; try assumption. cbn. apply lookup_delete_eq.
    + right. left. split; [assumption|]. split; [reflexivity|].
      destruct (Hone H1) as (d' & dc' & p' & _ & Hd' & _ & _ & _ & _ & Huniq).
      cbn [cell_oct set_pt] in Hd.
      assert (Hdc1 : cells s1 !! d = Some dc).
      { rewrite Hs3 in Hdc. cbn in Hdc. rewrite lookup_insert_ne in Hdc by done.
        exact Hdc. }
      assert (Hp1 : particles s1 !! Z.to_nat (cell_pt dc) = Some p)
        by (rewrite Hs3 in Hp; exact Hp).
      exists (Z.to_nat test), d, dc, p,
        (set_oct (set_pt (set_pt c1 occ) (cell_pt dc)) test None).
      split; [assumption|]. split; [exact Huniq|].
      split; [assumption|]. split; [assumption|]. split; [assumption|].
      split; [unfold collapsed; cbn; apply lookup_insert_eq|].
      split; [reflexivity|]. split; [reflexivity|].
      split; [|split].
      * intros j x Hx. cbn in Hx.
        destruct (decide (j = Z.to_nat test)) as [->|Hj].
        { apply list_lookup_insert_Some in Hx as [(_ & <- & _)|[? _]]; done. }
        rewrite list_lookup_insert_ne in Hx by done.
        destruct x as [x|]; [|reflexivity]. apply Huniq in Hx. contradiction.
      * unfold collapsed. cbn. rewrite Hs3. cbn. apply list_lookup_insert_eq.
        eapply lookup_lt_Some. eassumption.
      * unfold collapsed. cbn. rewrite lookup_insert_ne by done. apply lookup_delete_eq.
    + right. right. pose proof (occupancy_le (cells s1) (cell_oct c1)). fold occ in H.
      split; [lia|]. split; [reflexivity | assumption].
Qed.

Lemma no_branch_of_occupancy_0_or_1_witness :
  exists l, subtree 2 (cells settled) (Some 1%positive) = Some l
            /\ forall n c, n ∈ l -> cells settled !! n = Some c -> cell_pt c < 0 ->
                           cell_pt c <= -2.
Proof.
  refine (proj1 (no_branch_of_occupancy_0_or_1 2 settled settled _ _) 0%nat 1%positive _ _).
  - apply sim_two_leaves_well_formed; reflexivity.
  - vm_compute. reflexivity.
  - vm_compute. lia.
  - reflexivity.
Defined.

(** C3.  After a pass the leaves and the particles agree.  Every leaf of
    every root tree that the loop visited names a particle whose
    back-reference is that leaf, and every particle whose back-reference is
    an allocated cell is the particle that cell names.  The back-reference
    is set when a node is created for a particle, set again by the pass on
    every leaf whose particle passes the containment test, and moved to the
    branch on a collapse (C2). *)
Theorem leaves_and_particles_agree (fuel : nat) (r r' : Rebound) :
  well_formed r -> tree_update fuel r = Ok r' ->
  (forall i a,
     (i < Z.to_nat (root_n r))%nat -> roots r' !! i = Some (Some a) ->
     exists l, subtree fuel (cells r') (Some a) = Some l
               /\ forall n c, n ∈ l -> cells r' !! n = Some c -> 0 <= cell_pt c ->
                              exists p, particles r' !! Z.to_nat (cell_pt c) = Some p
                                        /\ part_c p = Some n)
  /\ (forall i p n c,
        particles r' !! i = Some p -> part_c p = Some n -> cells r' !! n = Some c ->
        cell_pt c = Z.of_nat i)
  /\ (forall s pt parent o s' a,
        new_node s pt parent o = Ok (s', a) ->
        cells s !! a = None
        /\ exists p c, particles s' !! Z.to_nat pt = Some p /\ part_c p = Some a
                       /\ cells s' !! a = Some c /\ cell_pt c = pt)
  /\ (forall k s a c p,
        cells s !! a = Some c -> 0 <= cell_pt c ->
        particles s !! Z.to_nat (cell_pt c) = Some p -> outside_box p c = false ->
        exists s', tree_update_cell (S k) s (Some a) = Ok (s', Some a)
                   /\ cells s' = cells s
                   /\ exists p', particles s' !! Z.to_nat (cell_pt c) = Some p'
                                 /\ part_c p' = Some a).
Proof.
  intros Hwf H. split; [|split; [|split]].
  - intros i a Hi Ha.
    destruct (maintained_roots False fuel r r' i a Hwf ltac:(tauto) H Hi Ha)
      as (l & Hsub & _ & Hok).
    exists l. split; [assumption|]. intros n c Hn Hc Hpt.
    destruct (node_ok_leaf _ _ _ _ (Hok n Hn) Hc Hpt) as (p & Hp & Hpc & _). eauto.
  - destruct (maintenance_spec False fuel r r' Hwf ltac:(tauto) H) as ((HB & _) & _).
    exact HB.
  - clear. intros s pt parent o s' a Hnew. rewrite new_node_eq in Hnew.
    bind_inv Hnew as p Hp. bind_inv Hnew as g Hg. injection Hnew as <- <-.
    apply particle_at_Ok in Hp as [Hpt Hp]. split; [apply fresh_cell|].
    destruct g as [[[x y] z] w].
    exists (set_c p (Some (fresh (dom (cells s))))),
      (set_pt (set_geometry zero_cell x y z w) pt).
    split; [cbn; apply list_lookup_insert_eq; eapply lookup_lt_Some; eassumption|].
    split; [reflexivity|]. split; [cbn; apply lookup_insert_eq | reflexivity].
  - clear. intros k s a c p Ha Hpt Hp Hin.
    rewrite (leaf_update_eq k s a c p Ha Hpt Hp), Hin, (refresh_eq s a c p Ha Hpt Hp).
    eexists. split; [reflexivity|]. split; [reflexivity|].
    exists (set_c p (Some a)). split; [|reflexivity].
    cbn. apply list_lookup_insert_eq. eapply lookup_lt_Some. eassumption.
Qed.

Lemma leaves_and_particles_agree_witness :
  exists p, particles settled !! 0%nat = Some p /\ part_c p = Some 2%positive.
Proof.
  destruct (proj1 (leaves_and_particles_agree 2 settled settled
                     ltac:(apply sim_two_leaves_well_formed; reflexivity)
                     ltac:(vm_compute; reflexivity))
              0%nat 1%positive ltac:(vm_compute; lia) eq_refl)
    as (l & Hsub & Hl).
  vm_compute in Hsub. injection Hsub as <-.
  apply (Hl 2%positive (leaf_cell 0.25 0.25 0.25 0.5 0)).
  - rewrite !elem_of_cons. auto.
  - reflexivity.
  - cbn. lia.
Defined.

(** C9.  In [tree_update_cell] on a branch [a] of a tree, once the children
    are updated and the recount has left [pt = -1] in [a], the variable
    [test] is the octant of a child: it lies in [0,7], slot [test] holds a
    non-null cell, that cell is a leaf, and the particle it names exists.
    The collapse therefore reads and frees well-defined memory and
    [tree_update_cell] returns the collapsed node. *)
Theorem collapse_reads_a_leaf (fuel : nat) (r : Rebound) (a : addr) (c : cell)
    (f0 : nat) (l : list addr) (r1 : Rebound) (c1 : cell) (r3 : Rebound)
    (test : Z) (c3 : cell) :
  pass_invariant False r -> subtree f0 (cells r) (Some a) = Some l -> NoDup l ->
  cells r !! a = Some c -> cell_pt c < 0 ->
  for_each octants (update_octant (tree_update_cell fuel) a) r = Ok r1 ->
  cells r1 !! a = Some c1 ->
  for_each octants (count_octant a)
    (with_cells r1 (<[a := set_pt c1 0]> (cells r1)), -1) = Ok (r3, test) ->
  cells r3 !! a = Some c3 -> cell_pt c3 = -1 ->
  0 <= test < 8
  /\ exists d dc p,
       cell_oct c3 !! Z.to_nat test = Some (Some d)
       /\ cells r3 !! d = Some dc /\ 0 <= cell_pt dc
       /\ particles r3 !! Z.to_nat (cell_pt dc) = Some p
       /\ derefine r3 a test = Ok (collapsed r3 a c3 test d dc p, Some a)
       /\ tree_update_cell (S fuel) r (Some a)
          = Ok (collapsed r3 a c3 test d dc p, Some a).
Proof.
  intros Hinv Hsub Hnd Ha Hpt Hloop Hc1 Hrec Hc3 Hpt3.
  destruct (recount_facts _ _ _ _ _ _ _ _ _ _ _ Hinv Hsub Hnd Ha Hpt Hloop Hc1 Hrec)
    as (Hr3 & Hlen & Hkids & Hone).
  assert (Hc3' : c3 = set_pt c1 (occupancy_of_children (cells r1) (cell_oct c1))).
  { rewrite Hr3 in Hc3. cbn in Hc3. rewrite lookup_insert_eq in Hc3. congruence. }
  assert (Hocc : occupancy_of_children (cells r1) (cell_oct c1) = -1)
    by (rewrite Hc3' in Hpt3; exact Hpt3).
  destruct (Hone Hocc) as (d & dc & p & Ht & Hd & Hdc & Hleaf & Hp & _ & _).
  destruct (Hkids _ _ Hd) as [Hne _].
  assert (Hd3 : cell_oct c3 !! Z.to_nat test = Some (Some d)) by (rewrite Hc3'; exact Hd).
  assert (Hdc3 : cells r3 !! d = Some dc).
  { rewrite Hr3. cbn. rewrite lookup_insert_ne by done. exact Hdc. }
  assert (Hp3 : particles r3 !! Z.to_nat (cell_pt dc) = Some p) by (rewrite Hr3; exact Hp).
  pose proof (derefine_collapse_eq r3 a c3 test d dc p Hc3 Hpt3 Ht Hd3 Hne Hdc3 Hleaf Hp3)
    as Hder.
  split; [assumption|]. exists d, dc, p. repeat split; try assumption.
  rewrite (branch_update_eq _ _ _ _ _ _ _ _ Ha Hpt Hloop Hc1 Hrec). exact Hder.
Qed.

Lemma collapse_reads_a_leaf_witness :
  exists r', tree_update_cell 2 strayed (Some 1%positive) = Ok (r', Some 1%positive).
Proof.
  destruct (collapse_reads_a_leaf 1 strayed 1%positive
              (branch_cell 0 0 0 1 (-2)
                 [Some 2%positive; None; None; None; None; None; None; Some 3%positive])
              2 [1; 2; 3]%positive strayed_children
              (branch_cell 0 0 0 1 (-2)
                 [None; None; None; None; None; None; None; Some 3%positive])
              strayed_recounted 7
              (branch_cell 0 0 0 1 (-1)
                 [None; None; None; None; None; None; None; Some 3%positive]))
    as (_ & d & dc & p & _ & _ & _ & _ & _ & Hupd).
  - apply well_formed_invariant; [|tauto]. apply sim_two_leaves_well_formed; reflexivity.
  - vm_compute. reflexivity.
  - repeat (apply NoDup_cons; split;
            [rewrite ?elem_of_cons, elem_of_nil; intuition discriminate|]).
    apply NoDup_nil_2.
  - reflexivity.
  - cbn. lia.
  - vm_compute. reflexivity.
  - vm_compute. reflexivity.
  - vm_compute. reflexivity.
  - vm_compute. reflexivity.
  - reflexivity.
  - eexists. exact Hupd.
Defined.

Lemma edge_is_built :
  (r1 ← tree_add_particle_to_tree 2
          (grid [mkParticle (-1) 0.2 0.2 1 None;
                 mkParticle (-1.6) (-0.2) (-0.2) 1 None]) 0;
   tree_add_particle_to_tree 2 r1 1)
  = Ok (with_particles edge
          [mkParticle (-1) 0.2 0.2 1 (Some 2%positive);
           mkParticle (-1.6) (-0.2) (-0.2) 1 (Some 3%positive)]).
Proof. vm_compute. reflexivity. Qed.

Lemma edge_well_formed : well_formed edge.
Proof.
  split; [|split].
  - exists 2%nat, [[1; 2; 3]%positive; []; []; []]. split.
    + repeat constructor.
    + cbn. repeat (apply NoDup_cons; split;
                   [rewrite ?elem_of_cons, elem_of_nil; intuition discriminate|]).
      apply NoDup_nil_2.
  - intros i p a c Hp Hc Ha. destruct i as [|[|i]]; cbn in Hp.
    + injection Hp as <-. injection Hc as <-.
      vm_compute in Ha. injection Ha as <-. reflexivity.
    + injection Hp as <-. injection Hc as <-.
      vm_compute in Ha. injection Ha as <-. reflexivity.
    + destruct i; discriminate.
  - apply leaf_indices_distinct_dec. apply (bool_decide_unpack _). vm_compute. exact I.
Qed.

Lemma edge_first_pass : tree_update 2 edge = Ok edge_once.
Proof. vm_compute. reflexivity. Qed.

Lemma edge_second_pass : tree_update 2 edge_once = Ok edge_twice.
Proof. vm_compute. reflexivity. Qed.

(** The second pass evicts a particle that the first pass kept: in its leaf
    (center -1.125, width 0.45) the particle at x = -0.9 is at distance
    0.22499999999999998 <= 0.225; after the collapse its cell is the root box
    (center -1.35, width 0.9), where it is at distance 0.45000000000000007 >
    0.45. *)
Lemma second_pass_evicts_at_box_edge : ~ second_pass_changes_nothing.
Proof.
  intros H.
  destruct (H 2%nat edge edge_once edge_twice edge_well_formed
              edge_first_pass edge_second_pass) as [Hcells _].
  apply (f_equal (fun h => h !! 1%positive)) in Hcells. vm_compute in Hcells.
  discriminate Hcells.
Qed.

(** *** A second pass *)

Lemma with_tree_root_id r : with_tree_root r (tree_root r) = r.
Proof. destruct r; reflexivity. Qed.

Lemma root_at_eq r i d :
  0 <= i -> roots r !! Z.to_nat i = Some d -> root_at r i = Ok d.
Proof.
  unfold root_at, roots. intros Hi Hd. destruct (tree_root r) as [rs|]; [|discriminate].
  cbn in Hd. destruct (Z.leb_spec 0 i); [|lia]. rewrite Hd. reflexivity.
Qed.

Lemma set_root_id r i d :
  0 <= i -> roots r !! Z.to_nat i = Some d -> set_root r i d = Ok r.
Proof.
  unfold set_root, roots. intros Hi Hd. destruct (tree_root r) as [rs|] eqn:E; [|discriminate].
  cbn in Hd. pose proof (lookup_lt_Some _ _ _ Hd).
  destruct (Z.leb_spec 0 i); [|lia].
  destruct (Z.ltb_spec i (Z.of_nat (length rs))); [|lia]. cbn.
  rewrite list_insert_id, <- E, with_tree_root_id by assumption. reflexivity.
Qed.

(** A pass over maintained trees whose particles lie in their boxes changes
    nothing. *)
Lemma stable_pass fuel r :
  ensure_tree_root r = r ->
  (forall i, (i < Z.to_nat (root_n r))%nat ->
             exists d l, roots r !! i = Some d
                         /\ subtree fuel (cells r) d = Some l
                         /\ forall n, n ∈ l -> node_ok True r n) ->
  tree_update fuel r = Ok r.
Proof.
  intros He Hroots. unfold tree_update. rewrite He. apply for_each_fixed.
  intros i Hi. unfold upto in Hi. apply list_elem_of_fmap in Hi as (k & -> & Hk).
  apply elem_of_seq in Hk. destruct (Hroots k ltac:(lia)) as (d & l & Hd & Hsub & Hok).
  unfold update_root, update_slot.
  rewrite (root_at_eq r (Z.of_nat k) d) by (rewrite ?Nat2Z.id; first [lia | assumption]).
  cbn [mbind result_bind]. rewrite (stable_update fuel r d l Hsub Hok).
  cbn [mbind result_bind]. apply set_root_id; [lia | rewrite Nat2Z.id; assumption].
Qed.

Lemma nested_dec r :
  Forall (fun p =>
    map_Forall (fun _ c =>
      Forall (fun d =>
        match d with
        | Some d =>
            match cells r !! d with
            | Some dc => implb (negb (outside_box p dc)) (negb (outside_box p c))
            | None => true
            end
        | None => true
        end = true) (cell_oct c)) (cells r)) (particles r) ->
  nested r.
Proof.
  intros H i p a c o d dc Hp Ha Hd Hdc Hin.
  rewrite Forall_lookup in H. specialize (H i p Hp a c Ha).
  rewrite Forall_lookup in H. specialize (H o (Some d) Hd). cbn in H.
  rewrite Hdc, Hin in H. cbn in H. destruct (outside_box p c); [discriminate | reflexivity].
Qed.

Lemma strayed_nested : nested strayed.
Proof. apply nested_dec. apply (bool_decide_unpack _). vm_compute. exact I. Qed.

(** C6, amended.  When box nesting holds for the containment test before the
    first pass - a particle that passes the test of a cell passes the test of
    the cell's parent - a second pass over the result of a first pass returns
    the very same state: no cell is freed, collapsed or created, no [pt] and
    no back-reference changes. *)
Theorem second_pass_is_identity (fuel : nat) (r r1 : Rebound) :
  well_formed r -> nested r -> tree_update fuel r = Ok r1 ->
  tree_update fuel r1 = Ok r1
  /\ forall r2, tree_update fuel r1 = Ok r2 -> same_tree r1 r2.
Proof.
  intros Hwf Hnest H.
  assert (Hfix : tree_update fuel r1 = Ok r1).
  { destruct (tree_update_Ok _ _ _ H) as (Hn & He & Hlen).
    destruct (maintenance_spec True fuel r r1 Hwf (fun _ => Hnest) H)
      as (_ & _ & ls & _ & Hall).
    apply stable_pass; [assumption|]. rewrite Hn. intros i Hi.
    assert (Hil : (i < length (roots r1))%nat) by lia.
    destruct (lookup_lt_is_Some_2 _ _ Hil) as [d Hd].
    destruct (Hall i d Hi Hd) as (l0 & _ & l & Hsub & _ & _ & Hok).
    exists d, l. auto. }
  split; [assumption|]. intros r2 H2. rewrite Hfix in H2. injection H2 as <-.
  repeat split.
Qed.

Lemma second_pass_is_identity_witness :
  tree_update 2 strayed = Ok strayed_maintained
  /\ tree_update 2 strayed_maintained = Ok strayed_maintained.
Proof.
  assert (H : tree_update 2 strayed = Ok strayed_maintained) by (vm_compute; reflexivity).
  split; [exact H|].
  refine (proj1 (second_pass_is_identity 2 strayed strayed_maintained _ strayed_nested H)).
  apply sim_two_leaves_well_formed; reflexivity.
Defined.

(** ** Geometry (C10) *)

Lemma cells_stay_refl r : cells_stay r r.
Proof. intros b c H. eauto. Qed.

Lemma cells_stay_trans r1 r2 r3 : cells_stay r1 r2 -> cells_stay r2 r3 -> cells_stay r1 r3.
Proof.
  intros H1 H2 b c Hb. destruct (H1 _ _ Hb) as (c2 & Hb2 & G2).
  destruct (H2 _ _ Hb2) as (c3 & Hb3 & G3). exists c3. split; [assumption | congruence].
Qed.

Lemma cells_stay_same r r' : cells r' = cells r -> cells_stay r r'.
Proof. intros E b c H. rewrite E. eauto. Qed.

Lemma cells_stay_store r a c c' r' :
  cells r !! a = Some c -> geometry c' = geometry c -> store r a c' = Ok r' ->
  cells_stay r r'.
Proof.
  intros Ha G H. apply store_Ok in H as [_ ->]. intros b cb Hb. cbn.
  destruct (decide (a = b)) as [<-|Hne].
  - rewrite lookup_insert_eq. exists c'. split; [reflexivity | congruence].
  - rewrite lookup_insert_ne by done. eauto.
Qed.

Ltac stay_store :=
  eapply cells_stay_store; [| |eassumption]; [eassumption | try reflexivity].

Lemma cells_stay_created r pt p g :
  cells_stay r (created r (fresh (dom (cells r))) pt p g).
Proof.
  intros b c Hb. destruct g as [[[x y] z] w]. cbn.
  rewrite lookup_insert_ne; [eauto|]. intros <-. rewrite fresh_cell in Hb. discriminate.
Qed.

Lemma new_node_stays r pt parent o r' a :
  new_node r pt parent o = Ok (r', a) -> cells_stay r r'.
Proof.
  rewrite new_node_eq. intros H. bind_inv H as p Hp. bind_inv H as g Hg.
  injection H as <- _. apply cells_stay_created.
Qed.

Lemma add_to_octant_stays add r node pt o r' :
  (forall r d pt parent o r' ret, add r d pt parent o = Ok (r', ret) -> cells_stay r r') ->
  add_to_octant add r node pt o = Ok r' -> cells_stay r r'.
Proof.
  intros Hadd H. unfold add_to_octant in H.
  bind_inv H as c Hc. bind_inv H as d Hd. bind_inv H as [r1 d'] H1.
  bind_inv H as c1 Hc1. apply load_Ok in Hc1.
  eapply cells_stay_trans; [eapply Hadd; eassumption|].
  stay_store.
Qed.

Lemma add_stays fuel : forall r d pt parent o r' ret,
  tree_add_particle_to_cell fuel r d pt parent o = Ok (r', ret) -> cells_stay r r'.
Proof.
  induction fuel as [|fuel IH]; intros r d pt parent o r' ret H; [discriminate|].
  cbn [tree_add_particle_to_cell] in H. destruct d as [a|]; [|eapply new_node_stays; eassumption].
  bind_inv H as c Hc. apply load_Ok in Hc. destruct (0 <=? cell_pt c).
  - bind_inv H as q Hq. bind_inv H as r1 H1. bind_inv H as p Hp.
    bind_inv H as c1 Hc1. bind_inv H as r2 H2. bind_inv H as c2 Hc2.
    bind_inv H as r3 H3. injection H as <- _. apply load_Ok in Hc2.
    eapply cells_stay_trans; [eapply add_to_octant_stays; [exact IH | eassumption]|].
    eapply cells_stay_trans; [eapply add_to_octant_stays; [exact IH | eassumption]|].
    stay_store.
  - bind_inv H as r1 H1. bind_inv H as p Hp. bind_inv H as c1 Hc1.
    bind_inv H as r2 H2. injection H as <- _.
    eapply cells_stay_trans; [stay_store|].
    eapply add_to_octant_stays; [exact IH | eassumption].
Qed.

Lemma cells_ensure r : cells (ensure_tree_root r) = cells r.
Proof. unfold ensure_tree_root. destruct (tree_root r); reflexivity. Qed.

Lemma cells_set_root r i d r' : set_root r i d = Ok r' -> cells r' = cells r.
Proof. intros H. apply set_root_Ok in H as (rs & _ & _ & _ & ->). reflexivity. Qed.

Lemma insertion_stays fuel r pt r' :
  tree_add_particle_to_tree fuel r pt = Ok r' -> cells_stay r r'.
Proof.
  unfold tree_add_particle_to_tree. intros H.
  bind_inv H as p Hp. bind_inv H as rootbox Hb. bind_inv H as d Hd.
  bind_inv H as [r1 a] H1. apply add_stays in H1. apply cells_set_root in H.
  eapply cells_stay_trans; [apply cells_stay_same, cells_ensure|].
  eapply cells_stay_trans; [eassumption|]. apply cells_stay_same. assumption.
Qed.

Lemma geometry_normalise c : geometry (normalise c) = geometry c.
Proof. unfold normalise. destruct (0 <? cell_m c)%float; reflexivity. Qed.

Lemma gravity_stays fuel : forall r a r',
  tree_update_gravity_data_in_cell fuel r a = Ok r' -> cells_stay r r'.
Proof.
  induction fuel as [|fuel IH]; intros r a r' H; [discriminate|].
  cbn [tree_update_gravity_data_in_cell] in H.
  bind_inv H as c Hc. apply load_Ok in Hc. destruct (cell_pt c <? 0).
  - bind_inv H as r1 H1. bind_inv H as r2 H2. bind_inv H as c2 Hc2. apply load_Ok in Hc2.
    eapply cells_stay_trans; [stay_store|].
    eapply cells_stay_trans;
      [|stay_store; apply geometry_normalise].
    eapply (for_each_preserves cells_stay);
      [apply cells_stay_refl | apply cells_stay_trans | | exact H2].
    intros s o s' _ Hs. unfold gravity_octant in Hs.
    bind_inv Hs as cs Hcs. bind_inv Hs as d Hd.
    destruct d as [da|]; [|injection Hs as <-; apply cells_stay_refl].
    bind_inv Hs as s1 Hs1. bind_inv Hs as dc Hdc. bind_inv Hs as c3 Hc3.
    apply load_Ok in Hc3.
    eapply cells_stay_trans; [eapply IH; eassumption|].
    stay_store.
  - bind_inv H as p Hp.
    stay_store.
Qed.

Lemma moments_stay fuel r r' :
  tree_update_gravity_data fuel r = Ok r' -> cells_stay r r'.
Proof.
  unfold tree_update_gravity_data.
  apply (for_each_preserves cells_stay); [apply cells_stay_refl | apply cells_stay_trans|].
  intros s i s' _ Hs. bind_inv Hs as d Hd.
  destruct d as [a|]; [eapply gravity_stays; eassumption|].
  injection Hs as <-. apply cells_stay_refl.
Qed.

Lemma evolves_same r r' :
  cells r' = cells r -> particles r' = particles r -> evolves r r'.
Proof.
  intros Hc Hp. split.
  - intros b c'. rewrite Hc. eauto using cell_kept_refl.
  - intros i p'. rewrite Hp. eauto using same_body_refl.
Qed.

Lemma tree_update_evolves fuel r r' : tree_update fuel r = Ok r' -> evolves r r'.
Proof.
  unfold tree_update. intros H.
  eapply evolves_trans; [apply (evolves_same r (ensure_tree_root r))|].
  - apply cells_ensure.
  - unfold ensure_tree_root. destruct (tree_root r); reflexivity.
  - revert H. apply (for_each_preserves evolves); [apply evolves_refl | apply evolves_trans|].
    intros s i s' _ Hs. unfold update_root, update_slot in Hs.
    bind_inv Hs as d Hd. bind_inv Hs as [s1 d'] Hs1.
    apply steady_tree_update_cell in Hs1 as [[He _] _].
    apply set_root_Ok in Hs as (rs & _ & _ & _ & ->).
    eapply evolves_trans; [eassumption|]. apply evolves_same; reflexivity.
Qed.

(** C10.  The geometry of a cell is written when [new_node] allocates it -
    the cell is fresh and gets the center and width that [new_geometry]
    computes - and by nothing else: insertion and moment aggregation keep
    every cell allocated with its geometry, a maintenance pass allocates
    nothing and leaves every cell it does not free with its geometry, and the
    branch that collapses into a leaf keeps its own center and width. *)
Theorem geometry_is_assigned_once :
  (forall s pt parent o s' a,
     new_node s pt parent o = Ok (s', a) ->
     cells s !! a = None
     /\ exists p g c,
          particles s !! Z.to_nat pt = Some p
          /\ new_geometry (snd (calloc_cell s)) p parent o = Ok g
          /\ cells s' !! a = Some c /\ geometry c = g)
  /\ (forall fuel r pt r',
        tree_add_particle_to_tree fuel r pt = Ok r' ->
        forall b c, cells r !! b = Some c ->
                    exists c', cells r' !! b = Some c' /\ geometry c' = geometry c)
  /\ (forall fuel r r',
        tree_update fuel r = Ok r' ->
        forall b c', cells r' !! b = Some c' ->
                     exists c, cells r !! b = Some c /\ geometry c' = geometry c)
  /\ (forall fuel r r',
        tree_update_gravity_data fuel r = Ok r' ->
        forall b c, cells r !! b = Some c ->
                    exists c', cells r' !! b = Some c' /\ geometry c' = geometry c)
  /\ (forall r a c test r' ret,
        cells r !! a = Some c -> cell_pt c = -1 ->
        derefine r a test = Ok (r', ret) ->
        exists c', cells r' !! a = Some c' /\ 0 <= cell_pt c'
                   /\ geometry c' = geometry c).
Proof.
  split; [|split; [|split; [|split]]].
  - intros s pt parent o s' a H. rewrite new_node_eq in H.
    bind_inv H as p Hp. bind_inv H as g Hg. injection H as <- <-.
    apply particle_at_Ok in Hp as [_ Hp]. split; [apply fresh_cell|].
    exists p, g. destruct g as [[[x y] z] w]. eexists.
    split; [assumption|]. split; [exact Hg|].
    split; [cbn; apply lookup_insert_eq | reflexivity].
  - intros fuel r pt r' H. exact (insertion_stays _ _ _ _ H).
  - intros fuel r r' H b c' Hb.
    destruct (tree_update_evolves _ _ _ H) as [Hc _].
    destruct (Hc _ _ Hb) as (c & Hcb & G & _). eauto.
  - intros fuel r r' H. exact (moments_stay _ _ _ H).
  - intros r a c test r' ret Ha Hpt H.
    destruct (derefine_inv _ _ _ _ _ _ Ha H)
      as [(H0 & _)|[(_ & _ & d & dc & p & _ & _ & _ & _ & Hleaf & _ & ->)|(_ & H1 & _)]];
      [lia | | lia].
    eexists. split; [unfold collapsed; cbn; apply lookup_insert_eq|].
    split; [exact Hleaf | reflexivity].
Qed.

Lemma geometry_is_assigned_once_witness :
  exists r' c', tree_add_particle_to_tree 2 settled_plus 2 = Ok r'
                /\ cells r' !! 1%positive = Some c'
                /\ geometry c' = (0, 0, 0, 1)%float.
Proof.
  destruct (tree_add_particle_to_tree 2 settled_plus 2) as [r'| |] eqn:E;
    [|vm_compute in E; discriminate E..].
  destruct (proj1 (proj2 geometry_is_assigned_once) 2%nat settled_plus 2 r' E 1%positive
              (branch_cell 0 0 0 1 (-2)
                 [Some 2%positive; None; None; None; None; None; None; Some 3%positive])
              eq_refl)
    as (c' & Hc' & G).
  exists r', c'. auto.
Defined.

(** ** Insertion at a branch (C5) *)

Lemma octant_range p c : 0 <= tree_get_octant_for_particle_in_cell p c < 8.
Proof. apply octant_bits. Qed.

Lemma created_frame r pt p g b :
  is_Some (cells r !! b) ->
  cells (created r (fresh (dom (cells r))) pt p g) !! b = cells r !! b.
Proof.
  intros [c Hb]. destruct g as [[[x y] z] w]. cbn.
  apply lookup_insert_ne. intros <-. rewrite fresh_cell in Hb. discriminate.
Qed.

Lemma new_node_frame r pt parent o r' a b :
  new_node r pt parent o = Ok (r', a) -> is_Some (cells r !! b) ->
  cells r' !! b = cells r !! b.
Proof.
  rewrite new_node_eq. intros H Hb. bind_inv H as p Hp. bind_inv H as g Hg.
  injection H as <- _. apply created_frame. assumption.
Qed.

Lemma new_node_leaf r pt parent o r' a :
  new_node r pt parent o = Ok (r', a) ->
  cells r !! a = None
  /\ exists c, cells r' !! a = Some c /\ cell_pt c = pt /\ 0 <= pt
               /\ cell_oct c = replicate 8 None.
Proof.
  rewrite new_node_eq. intros H. bind_inv H as p Hp. bind_inv H as g Hg.
  injection H as <- <-. apply particle_at_Ok in Hp as [Hpt _].
  split; [apply fresh_cell|]. destruct g as [[[x y] z] w]. eexists.
  split; [cbn; apply lookup_insert_eq|]. auto.
Qed.

(** The insertion at a branch, given what the recursive call leaves alone. *)
Lemma branch_insert fuel r a c pt parent o0 r' ret f0 l :
  add_frame fuel ->
  cells r !! a = Some c -> cell_pt c < 0 ->
  subtree f0 (cells r) (Some a) = Some l -> NoDup l -> clean (cells r) l ->
  tree_add_particle_to_cell (S fuel) r (Some a) pt parent o0 = Ok (r', ret) ->
  exists p d0 l0 rA d',
    0 <= pt /\ particles r !! Z.to_nat pt = Some p
    /\ cell_oct c !! Z.to_nat (tree_get_octant_for_particle_in_cell p c) = Some d0
    /\ l0 ⊆ l /\ (a ∉ l0)
    /\ tree_add_particle_to_cell fuel
         (with_cells r (<[a := set_pt c (cell_pt c - 1)]> (cells r))) d0 pt (Some a)
         (tree_get_octant_for_particle_in_cell p c) = Ok (rA, d')
    /\ (forall b, b ∉ l0 ->
                  is_Some (<[a := set_pt c (cell_pt c - 1)]> (cells r) !! b) ->
                  cells rA !! b = <[a := set_pt c (cell_pt c - 1)]> (cells r) !! b)
    /\ ret = a
    /\ r' = with_cells rA
              (<[a := set_oct (set_pt c (cell_pt c - 1))
                        (tree_get_octant_for_particle_in_cell p c) (Some d')]>
                 (cells rA)).
Proof.
  intros Hframe Ha Hpt Hsub Hnd Hclean H.
  destruct f0 as [|f0]; [discriminate|].
  apply subtree_S in Hsub as (c' & Ha' & Hlen & [(_ & ls & Hls & ->)|(Hpos & _)]).
  2:{ rewrite Ha in Ha'. injection Ha' as <-. lia. }
  rewrite Ha in Ha'. injection Ha' as <-.
  cbn [tree_add_particle_to_cell] in H. rewrite (load_eq _ _ _ Ha) in H.
  cbn [mbind result_bind] in H. destruct (Z.leb_spec 0 (cell_pt c)); [lia|].
  rewrite (store_eq _ _ _ _ Ha) in H. cbn [mbind result_bind] in H.
  bind_inv H as p Hp. apply particle_at_Ok in Hp as [Hpt0 Hp]. cbn in Hp.
  rewrite (load_eq _ a (set_pt c (cell_pt c - 1))) in H by (cbn; apply lookup_insert_eq).
  cbn [mbind result_bind] in H. bind_inv H as r2 H2. injection H as <- <-.
  unfold add_to_octant in H2.
  rewrite (load_eq _ a (set_pt c (cell_pt c - 1))) in H2 by (cbn; apply lookup_insert_eq).
  cbn [mbind result_bind] in H2. bind_inv H2 as d0 Hd0.
  apply oct_at_Ok in Hd0 as [Ho Hd0]. cbn [cell_oct set_pt] in Hd0.
  bind_inv H2 as [rA d'] HA. bind_inv H2 as cA HcA. apply load_Ok in HcA.
  apply store_Ok in H2 as [_ ->].
  destruct (Forall2_lookup_l _ _ _ _ _ Hls Hd0) as (l0 & Hl0 & Hs0).
  apply NoDup_cons in Hnd as [Hnot Hnd].
  assert (Hincl : l0 ⊆ mjoin ls) by (intros x Hx; eapply elem_of_join_lookup; eassumption).
  assert (Ha0 : a ∉ l0) by (intros Hin; apply Hnot, Hincl, Hin).
  assert (Hs1 : subtree f0 (<[a := set_pt c (cell_pt c - 1)]> (cells r)) d0 = Some l0).
  { eapply subtree_rel; [|exact Hs0]. intros n Hn.
    rewrite lookup_insert_ne by (intros ->; contradiction). apply cell_rel_refl. }
  assert (Hfr : forall b, b ∉ l0 ->
            is_Some (<[a := set_pt c (cell_pt c - 1)]> (cells r) !! b) ->
            cells rA !! b = <[a := set_pt c (cell_pt c - 1)]> (cells r) !! b).
  { eapply (Hframe _ _ _ _ _ _ _ _ _ HA Hs1).
    - eapply NoDup_join_lookup; eassumption.
    - intros n cn Hn Hcn. cbn in Hcn.
      rewrite lookup_insert_ne in Hcn by (intros ->; contradiction).
      apply (Hclean n cn); [right; apply Hincl, Hn | assumption]. }
  assert (cA = set_pt c (cell_pt c - 1)) as ->.
  { rewrite Hfr in HcA; [|assumption | rewrite lookup_insert_eq; eauto].
    rewrite lookup_insert_eq in HcA. congruence. }
  exists p, d0, l0, rA, d'.
  split; [assumption|]. split; [assumption|]. split; [assumption|].
  split; [intros x Hx; right; apply Hincl, Hx|].
  split; [assumption|]. split; [exact HA|]. split; [exact Hfr|]. split; reflexivity.
Qed.

(** The insertion in a slot of [a] that is empty or holds a leaf without
    children. *)
Lemma add_to_octant_frame fuel r a c pt o r' :
  add_frame fuel ->
  cells r !! a = Some c ->
  (forall d, cell_oct c !! Z.to_nat o = Some (Some d) ->
             d <> a /\ exists dc, cells r !! d = Some dc /\ 0 <= cell_pt dc
                                  /\ length (cell_oct dc) = 8%nat
                                  /\ cell_oct dc = replicate 8 None) ->
  add_to_octant (tree_add_particle_to_cell fuel) r a pt o = Ok r' ->
  (forall b, b <> a -> (forall d, cell_oct c !! Z.to_nat o = Some (Some d) -> b <> d) ->
             is_Some (cells r !! b) -> cells r' !! b = cells r !! b)
  /\ exists d', cells r' !! a = Some (set_oct c o (Some d')).
Proof.
  intros Hframe Ha Hkid H. unfold add_to_octant in H.
  rewrite (load_eq _ _ _ Ha) in H. cbn [mbind result_bind] in H.
  bind_inv H as d Hd. apply oct_at_Ok in Hd as [Ho Hd].
  bind_inv H as [rA d'] HA. bind_inv H as cA HcA. apply load_Ok in HcA.
  apply store_Ok in H as [_ ->].
  assert (Hfr : forall b, (forall x, d = Some x -> b <> x) -> is_Some (cells r !! b) ->
                          cells rA !! b = cells r !! b).
  { destruct d as [x|].
    - destruct (Hkid x Hd) as (Hxa & dc & Hdc & Hleaf & Hlen & Hoct).
      intros b Hb Hal.
      eapply (Hframe _ _ _ _ _ _ _ 1%nat [x] HA); try assumption.
      + cbn. rewrite Hdc. cbn. destruct (decide (length (cell_oct dc) = 8%nat)); [|done].
        destruct (Z.ltb_spec (cell_pt dc) 0); [lia | reflexivity].
      + apply NoDup_singleton.
      + intros n cn Hn Hcn _. apply list_elem_of_singleton in Hn as ->. congruence.
      + intros Hin. apply list_elem_of_singleton in Hin. exact (Hb x eq_refl Hin).
    - intros b _ Hal. destruct fuel as [|fuel]; [discriminate|].
      cbn [tree_add_particle_to_cell] in HA. eapply new_node_frame; eassumption. }
  assert (cA = c) as ->.
  { rewrite Hfr in HcA; [congruence | | eauto].
    intros x ->. intros ->. destruct (Hkid _ Hd) as [Hne _]. contradiction. }
  split; [|exists d'; cbn; apply lookup_insert_eq].
  intros b Hba Hbd Hal. cbn. rewrite lookup_insert_ne by done.
  apply Hfr; [|assumption]. intros x ->. apply Hbd. assumption.
Qed.

Lemma add_to_empty_octant fuel r a c pt o r' :
  cells r !! a = Some c -> cell_oct c !! Z.to_nat o = Some None ->
  add_to_octant (tree_add_particle_to_cell fuel) r a pt o = Ok r' ->
  exists d dc,
    cells r !! d = None /\ cells r' !! d = Some dc /\ 0 <= cell_pt dc
    /\ cell_oct dc = replicate 8 None
    /\ cells r' !! a = Some (set_oct c o (Some d))
    /\ forall b, b <> a -> is_Some (cells r !! b) -> cells r' !! b = cells r !! b.
Proof.
  intros Ha Hslot H. unfold add_to_octant in H.
  rewrite (load_eq _ _ _ Ha) in H. cbn [mbind result_bind] in H.
  bind_inv H as d Hd. apply oct_at_Ok in Hd as [Ho Hd].
  rewrite Hslot in Hd. injection Hd as <-.
  bind_inv H as [rA d'] HA. destruct fuel as [|fuel]; [discriminate|].
  cbn [tree_add_particle_to_cell] in HA.
  destruct (new_node_leaf _ _ _ _ _ _ HA) as (Hfresh & dc & Hdc & Hpt & Hpos & Hoct).
  pose proof (fun b => new_node_frame _ _ _ _ _ _ b HA) as Hfr.
  bind_inv H as cA HcA. apply load_Ok in HcA.
  rewrite Hfr in HcA by eauto. rewrite Ha in HcA. injection HcA as <-.
  apply store_Ok in H as [_ ->].
  assert (d' <> a) by (intros ->; congruence).
  exists d', dc. split; [assumption|].
  split; [cbn; rewrite lookup_insert_ne by done; assumption|].
  split; [lia|]. split; [assumption|].
  split; [cbn; apply lookup_insert_eq|].
  intros b Hb Hal. cbn. rewrite lookup_insert_ne by done. apply Hfr. assumption.
Qed.

Lemma add_frame_S fuel : add_frame fuel -> add_frame (S fuel).
Proof.
  intros IH r d pt parent o0 r' ret f0 l H Hsub Hnd Hclean b Hb Hal.
  destruct d as [a|].
  2:{ cbn [tree_add_particle_to_cell] in H. eapply new_node_frame; eassumption. }
  destruct f0 as [|f0]; [discriminate|]. pose proof Hsub as Hsub0.
  apply subtree_S in Hsub as (c & Ha & Hlen & [(Hpt & ls & Hls & ->)|(Hpt & ->)]).
  - destruct (branch_insert _ _ _ _ _ _ _ _ _ _ _ IH Ha Hpt Hsub0 Hnd Hclean H)
      as (p & d0 & l0 & rA & d' & _ & _ & _ & Hincl & _ & _ & Hfr & _ & ->).
    assert (b <> a) by (intros ->; apply Hb; left).
    cbn. rewrite lookup_insert_ne by done.
    rewrite Hfr; [apply lookup_insert_ne; done | |rewrite lookup_insert_ne by done; assumption].
    intros Hin. apply Hb, Hincl, Hin.
  - assert (b <> a) by (intros ->; apply Hb; left).
    pose proof (Hclean a c ltac:(left) Ha Hpt) as Hoct.
    cbn [tree_add_particle_to_cell] in H. rewrite (load_eq _ _ _ Ha) in H.
    cbn [mbind result_bind] in H. destruct (Z.leb_spec 0 (cell_pt c)); [|lia].
    bind_inv H as q Hq. bind_inv H as r1 Hr1. bind_inv H as p Hp.
    bind_inv H as c1 Hc1. apply load_Ok in Hc1. bind_inv H as r2 Hr2.
    bind_inv H as c2 Hc2. bind_inv H as r3 Hr3. apply store_Ok in Hr3 as [_ ->].
    injection H as <- _.
    assert (Hslot : cell_oct c !! Z.to_nat (tree_get_octant_for_particle_in_cell q c)
                    = Some None).
    { rewrite Hoct. apply lookup_replicate. split; [reflexivity|].
      pose proof (octant_range q c). lia. }
    destruct (add_to_empty_octant _ _ _ _ _ _ _ Ha Hslot Hr1)
      as (d1 & dc1 & Hfresh & Hdc1 & Hleaf1 & Hoct1 & Ha1 & Hfr1).
    rewrite Ha1 in Hc1. injection Hc1 as <-.
    assert (Hd1a : d1 <> a) by (intros ->; congruence).
    match type of Hr2 with
    | add_to_octant _ _ _ _ ?o2 = _ =>
        destruct (add_to_octant_frame fuel r1 a _ pt o2 r2 IH Ha1) as [Hfr2 _];
        [|exact Hr2|]
    end.
    { intros d Hd. cbn in Hd. rewrite Hoct in Hd.
      apply list_lookup_insert_Some in Hd as [(_ & Hd & _)|[_ Hd]].
      - injection Hd as <-. split; [assumption|]. exists dc1.
        repeat split; try assumption. rewrite Hoct1. reflexivity.
      - apply lookup_replicate in Hd as [? _]. discriminate. }
    cbn. rewrite lookup_insert_ne by done.
    rewrite Hfr2; [apply Hfr1; assumption | assumption | | rewrite Hfr1; assumption].
    intros d Hd. cbn in Hd. rewrite Hoct in Hd.
    apply list_lookup_insert_Some in Hd as [(_ & Hd & _)|[_ Hd]].
    + injection Hd as <-. intros ->. destruct Hal as [x Hx]. congruence.
    + apply lookup_replicate in Hd as [? _]. discriminate.
Qed.

Lemma add_frame_all fuel : add_frame fuel.
Proof.
  induction fuel as [|fuel IH]; [|apply add_frame_S; assumption].
  intros r d pt parent o r' ret f0 l H. discriminate.
Qed.

(** The third particle makes the magnitude of the root's [pt] 3, not 1. *)
Lemma insertion_grows_the_magnitude : ~ insertion_decrements_magnitude.
Proof.
  intros H.
  destruct (tree_add_particle_to_cell 2 settled_plus (Some 1%positive) 2 None 0)
    as [[r' ret]| |] eqn:E; [|vm_compute in E; discriminate E..].
  specialize (H 2%nat settled_plus 1%positive
                (branch_cell 0 0 0 1 (-2)
                   [Some 2%positive; None; None; None; None; None; None; Some 3%positive])
                2 None 0 r' ret root_of_three eq_refl ltac:(cbn; lia) E).
  vm_compute in E. injection E as <- _. specialize (H eq_refl). discriminate H.
Qed.

(** C5, amended.  At a branch [a] of a tree, insertion decrements [pt] -
    which is negative, so its magnitude grows by one - and recurses into the
    octant [o] of the particle relative to the center of [a]; when it returns,
    [a] is the node returned, slot [o] of [a] holds what the recursive call
    returned, and the geometry and all other slots of [a] are as before. *)
Theorem insertion_at_a_branch (fuel : nat) (r : Rebound) (a : addr) (c : cell)
    (pt : Z) (parent : option addr) (o0 : Z) (f0 : nat) (l : list addr)
    (r' : Rebound) (ret : addr) :
  cells r !! a = Some c -> cell_pt c < 0 ->
  subtree f0 (cells r) (Some a) = Some l -> NoDup l -> clean (cells r) l ->
  tree_add_particle_to_cell (S fuel) r (Some a) pt parent o0 = Ok (r', ret) ->
  exists p d0 rA d' c',
    particles r !! Z.to_nat pt = Some p
    /\ cell_oct c !! Z.to_nat (tree_get_octant_for_particle_in_cell p c) = Some d0
    /\ tree_add_particle_to_cell fuel
         (with_cells r (<[a := set_pt c (cell_pt c - 1)]> (cells r))) d0 pt (Some a)
         (tree_get_octant_for_particle_in_cell p c) = Ok (rA, d')
    /\ ret = a /\ cells r' !! a = Some c'
    /\ cell_pt c' = cell_pt c - 1
    /\ Z.abs (cell_pt c') = Z.abs (cell_pt c) + 1
    /\ geometry c' = geometry c
    /\ cell_oct c'
       = <[Z.to_nat (tree_get_octant_for_particle_in_cell p c) := Some d']> (cell_oct c)
    /\ forall j, j <> Z.to_nat (tree_get_octant_for_particle_in_cell p c) ->
                 cell_oct c' !! j = cell_oct c !! j.
Proof.
  intros Ha Hpt Hsub Hnd Hclean H.
  destruct (branch_insert _ _ _ _ _ _ _ _ _ _ _ (add_frame_all fuel) Ha Hpt Hsub Hnd Hclean H)
    as (p & d0 & l0 & rA & d' & _ & Hp & Hd0 & _ & _ & HA & _ & -> & ->).
  exists p, d0, rA, d'. eexists.
  split; [assumption|]. split; [assumption|]. split; [assumption|].
  split; [reflexivity|]. split; [cbn; apply lookup_insert_eq|].
  cbn. split; [reflexivity|]. split; [lia|]. split; [reflexivity|].
  split; [reflexivity|]. intros j Hj. apply list_lookup_insert_ne. auto.
Qed.

Lemma insertion_at_a_branch_witness :
  exists r' c', tree_add_particle_to_cell 2 settled_plus (Some 1%positive) 2 None 0
                = Ok (r', 1%positive)
                /\ cells r' !! 1%positive = Some c' /\ cell_pt c' = -3.
Proof.
  destruct (tree_add_particle_to_cell 2 settled_plus (Some 1%positive) 2 None 0)
    as [[r' ret]| |] eqn:E; [|vm_compute in E; discriminate E..].
  destruct (insertion_at_a_branch 1 settled_plus 1%positive
              (branch_cell 0 0 0 1 (-2)
                 [Some 2%positive; None; None; None; None; None; None; Some 3%positive])
              2 None 0 2 [1; 2; 3]%positive r' ret)
    as (p & d0 & rA & d' & c' & _ & _ & _ & -> & Hc' & Hpt & _).
  - reflexivity.
  - cbn. lia.
  - vm_compute. reflexivity.
  - repeat (apply NoDup_cons; split;
            [rewrite ?elem_of_cons, elem_of_nil; intuition discriminate|]).
    apply NoDup_nil_2.
  - intros n cn Hn Hcn Hpos. rewrite !elem_of_cons, elem_of_nil in Hn.
    destruct Hn as [->|[->|[->|[]]]]; vm_compute in Hcn; injection Hcn as <-;
      first [reflexivity | cbn in Hpos; lia].
  - exact E.
  - exists r', c'. auto.
Defined.

(** ** Moments (C8) *)

Lemma children_ext h h' oct :
  (forall d, Some d ∈ oct -> h' !! d = h !! d) -> children h' oct = children h oct.
Proof.
  induction oct as [|d oct IH]; intros H; [reflexivity|].
  cbn. rewrite IH by (intros x Hx; apply H; right; exact Hx).
  destruct d as [da|]; [|reflexivity]. rewrite (H da) by left. reflexivity.
Qed.

Lemma aggregate_oct c kids : cell_oct (aggregate c kids) = cell_oct c.
Proof.
  unfold aggregate. revert c. induction kids as [|dc kids IH]; intros c; [reflexivity|].
  cbn [foldl]. rewrite IH. reflexivity.
Qed.

Lemma subtree_same fuel h h' d l :
  (forall n, n ∈ l -> h' !! n = h !! n) ->
  subtree fuel h d = Some l -> subtree fuel h' d = Some l.
Proof.
  intros H. apply subtree_rel. intros n Hn. rewrite (H n Hn). apply cell_rel_refl.
Qed.

Lemma gravity_loop fuel a oct ls f0 :
  gravity_frame fuel -> length oct = 8%nat -> NoDup (a :: mjoin ls) ->
  forall m k s acc s',
    (k + m = 8)%nat ->
    cells s !! a = Some acc -> cell_oct acc = oct ->
    (forall i d, (k <= i)%nat -> oct !! i = Some d ->
                 exists l, ls !! i = Some l /\ subtree f0 (cells s) d = Some l) ->
    for_each (Z.of_nat <$> seq k m)
      (gravity_octant (tree_update_gravity_data_in_cell fuel) a) s = Ok s' ->
    (forall b, b <> a -> b ∉ mjoin (drop k ls) -> cells s' !! b = cells s !! b)
    /\ cells s' !! a = Some (aggregate acc (children (cells s') (drop k oct))).
Proof.
  intros Hframe Hlen Hnd. induction m as [|m IH]; intros k s acc s' Hk Ha Hoct Hkids H.
  { cbn in H. injection H as <-. rewrite (drop_ge oct) by lia. auto. }
  change (Z.of_nat <$> seq k (S m)) with (Z.of_nat k :: (Z.of_nat <$> seq (S k) m)) in H.
  cbn [for_each] in H. bind_inv H as s2 H2. unfold gravity_octant in H2.
  rewrite (load_eq _ _ _ Ha) in H2. cbn [mbind result_bind] in H2.
  bind_inv H2 as d Hd. apply oct_at_Ok in Hd as [_ Hd]. rewrite Nat2Z.id, Hoct in Hd.
  destruct (Hkids k d ltac:(lia) Hd) as (lk & Hlk & Hsk).
  rewrite (drop_S _ _ _ Hd), (drop_S _ _ _ Hlk).
  apply NoDup_cons in Hnd as [Hnot Hnd'].
  destruct d as [da|].
  - bind_inv H2 as s1 H1. bind_inv H2 as dc Hdc. apply load_Ok in Hdc.
    bind_inv H2 as c1 Hc1. apply load_Ok in Hc1. apply store_Ok in H2 as [_ ->].
    pose proof (Hframe _ _ _ _ _ H1 Hsk (NoDup_join_lookup _ _ _ Hnd' Hlk)) as Hfr1.
    assert (Halk : a ∉ lk)
      by (intros Hin; apply Hnot; eapply elem_of_join_lookup; eassumption).
    rewrite (Hfr1 a Halk), Ha in Hc1. injection Hc1 as <-.
    assert (Hda : da ∈ lk) by (eapply subtree_root_in; eassumption).
    assert (Hdaa : da <> a) by (intros ->; contradiction).
    destruct (IH (S k) (with_cells s1 (<[a := add_moments acc dc]> (cells s1)))
                (add_moments acc dc) s') as [Hfr Hagg];
      [lia | cbn; apply lookup_insert_eq | exact Hoct | | exact H |].
    { intros i d Hi Hdi. destruct (Hkids i d ltac:(lia) Hdi) as (li & Hli & Hsi).
      exists li. split; [assumption|]. eapply subtree_same; [|exact Hsi].
      intros n Hn. cbn.
      assert (n <> a) by (intros ->; apply Hnot; eapply elem_of_join_lookup; eassumption).
      rewrite lookup_insert_ne by done. apply Hfr1.
      intros Hin. eapply (NoDup_join_disjoint ls i k); try eassumption. lia. }
    assert (Hout : da ∉ mjoin (drop (S k) ls)).
    { intros Hin. apply list_elem_of_join in Hin as (lj & Hin & Hlj).
      apply list_elem_of_lookup in Hlj as [j Hj]. rewrite lookup_drop in Hj.
      eapply (NoDup_join_disjoint ls k (S k + j)); try eassumption. lia. }
    split.
    + intros b Hba Hb. cbn in Hb. rewrite Hfr; [|assumption|].
      2:{ intros Hin. apply Hb, elem_of_app. right. exact Hin. }
      cbn. rewrite lookup_insert_ne by done. apply Hfr1.
      intros Hin. apply Hb, elem_of_app. left. exact Hin.
    + rewrite Hagg. cbn [children]. rewrite (Hfr da Hdaa Hout). cbn [cells with_cells].
      rewrite lookup_insert_ne by done. rewrite Hdc. reflexivity.
  - injection H2 as <-.
    destruct (IH (S k) s acc s') as [Hfr Hagg];
      [lia | exact Ha | exact Hoct | | exact H |].
    { intros i d Hi Hdi. apply Hkids; [lia | assumption]. }
    split; [|rewrite Hagg; reflexivity].
    intros b Hba Hb. apply Hfr; [assumption|].
    intros Hin. apply Hb. cbn. apply elem_of_app. right. exact Hin.
Qed.

Lemma gravity_branch fuel r a c f0 l r' :
  gravity_frame fuel ->
  cells r !! a = Some c -> cell_pt c < 0 ->
  subtree f0 (cells r) (Some a) = Some l -> NoDup l ->
  tree_update_gravity_data_in_cell (S fuel) r a = Ok r' ->
  (forall b, b ∉ l -> cells r' !! b = cells r !! b)
  /\ cells r' !! a
     = Some (normalise (aggregate (set_moments c 0 0 0 0)
                          (children (cells r') (cell_oct c)))).
Proof.
  intros Hframe Ha Hpt Hsub Hnd H.
  destruct f0 as [|f0]; [discriminate|].
  apply subtree_S in Hsub as (c' & Ha' & Hlen & [(_ & ls & Hls & ->)|(Hpos & _)]).
  2:{ rewrite Ha in Ha'. injection Ha' as <-. lia. }
  rewrite Ha in Ha'. injection Ha' as <-.
  cbn [tree_update_gravity_data_in_cell] in H. rewrite (load_eq _ _ _ Ha) in H.
  cbn [mbind result_bind] in H. destruct (Z.ltb_spec (cell_pt c) 0); [|lia].
  rewrite (store_eq _ _ _ _ Ha) in H. cbn [mbind result_bind] in H.
  bind_inv H as s2 H2. bind_inv H as c2 Hc2. apply load_Ok in Hc2.
  apply store_Ok in H as [_ ->].
  pose proof Hnd as Hnd0. apply NoDup_cons in Hnd0 as [Hnot _].
  change octants with (Z.of_nat <$> seq 0 8) in H2.
  destruct (gravity_loop fuel a (cell_oct c) ls f0 Hframe Hlen Hnd 8 0
              (with_cells r (<[a := set_moments c 0 0 0 0]> (cells r)))
              (set_moments c 0 0 0 0) s2 eq_refl
              ltac:(cbn; apply lookup_insert_eq) eq_refl) as [Hfr Hagg];
    [|exact H2|].
  { intros i d _ Hd. destruct (Forall2_lookup_l _ _ _ _ _ Hls Hd) as (li & Hli & Hsi).
    exists li. split; [assumption|]. eapply subtree_same; [|exact Hsi].
    intros n Hn. cbn. apply lookup_insert_ne. intros ->.
    apply Hnot. eapply elem_of_join_lookup; eassumption. }
  rewrite drop_0 in Hagg. rewrite Hagg in Hc2. injection Hc2 as <-.
  split.
  - intros b Hb. cbn.
    assert (b <> a) by (intros ->; apply Hb; left).
    rewrite lookup_insert_ne by done. rewrite Hfr; [|assumption|].
    + cbn. apply lookup_insert_ne. done.
    + rewrite drop_0. intros Hin. apply Hb. right. exact Hin.
  - cbn. rewrite lookup_insert_eq. do 3 f_equal. symmetry. apply children_ext.
    intros d Hd. apply lookup_insert_ne. intros <-.
    apply list_elem_of_lookup in Hd as [i Hi].
    destruct (Forall2_lookup_l _ _ _ _ _ Hls Hi) as (li & Hli & Hsi).
    apply Hnot. eapply elem_of_join_lookup; [eassumption|].
    eapply subtree_root_in. eassumption.
Qed.

Lemma gravity_frame_all fuel : gravity_frame fuel.
Proof.
  induction fuel as [|fuel IH]; intros r a r' f0 l H Hsub Hnd b Hb; [discriminate|].
  destruct f0 as [|f0]; [discriminate|]. pose proof Hsub as Hsub0.
  apply subtree_S in Hsub as (c & Ha & Hlen & [(Hpt & ls & Hls & ->)|(Hpt & ->)]).
  - eapply gravity_branch; eassumption.
  - cbn [tree_update_gravity_data_in_cell] in H. rewrite (load_eq _ _ _ Ha) in H.
    cbn [mbind result_bind] in H. destruct (Z.ltb_spec (cell_pt c) 0); [lia|].
    bind_inv H as p Hp. apply store_Ok in H as [_ ->]. cbn.
    apply lookup_insert_ne. intros ->. apply Hb. left.
Qed.

(** *** Sums of moments *)

Lemma aggregate_m c kids :
  cell_m (aggregate c kids) = foldl (fun m dc => (m + cell_m dc)%float) (cell_m c) kids.
Proof.
  unfold aggregate. revert c. induction kids as [|dc kids IH]; intros c; [reflexivity|].
  cbn [foldl]. rewrite IH. reflexivity.
Qed.

Lemma aggregate_center c kids :
  cell_mx (aggregate c kids)
  = foldl (fun s dc => (s + cell_mx dc * cell_m dc)%float) (cell_mx c) kids
  /\ cell_my (aggregate c kids)
     = foldl (fun s dc => (s + cell_my dc * cell_m dc)%float) (cell_my c) kids
  /\ cell_mz (aggregate c kids)
     = foldl (fun s dc => (s + cell_mz dc * cell_m dc)%float) (cell_mz c) kids.
Proof.
  unfold aggregate. revert c. induction kids as [|dc kids IH]; intros c; [auto|].
  cbn [foldl]. destruct (IH (add_moments c dc)) as (-> & -> & ->). auto.
Qed.

Lemma is_zero_add a b : is_zero a = true -> is_zero b = true -> is_zero (a + b) = true.
Proof.
  unfold is_zero. rewrite FloatAxioms.add_spec.
  destruct (Prim2SF a) as [sa| | |], (Prim2SF b) as [sb| | |]; try discriminate.
  intros _ _. destruct sa, sb; reflexivity.
Qed.

Lemma is_zero_mul x z : finite x = true -> is_zero z = true -> is_zero (x * z) = true.
Proof.
  unfold is_zero, finite. rewrite FloatAxioms.mul_spec.
  destruct (Prim2SF x) as [sx| | |sx mx ex], (Prim2SF z) as [sz| | |]; try discriminate;
    intros _ _; reflexivity.
Qed.

Lemma is_zero_not_positive m : is_zero m = true -> (0 <? m)%float = false.
Proof.
  unfold is_zero. rewrite FloatAxioms.ltb_spec.
  destruct (Prim2SF m) as [s| | |]; try discriminate. intros _. destruct s; reflexivity.
Qed.

Lemma zero_sums (center : cell -> float) kids m s :
  Forall (fun dc => is_zero (cell_m dc) = true /\ finite (center dc) = true) kids ->
  is_zero m = true -> is_zero s = true ->
  is_zero (foldl (fun m dc => (m + cell_m dc)%float) m kids) = true
  /\ is_zero (foldl (fun s dc => (s + center dc * cell_m dc)%float) s kids) = true.
Proof.
  intros H. revert m s. induction H as [|dc kids [Hm Hf] _ IH]; intros m s Hm0 Hs0; [auto|].
  cbn [foldl]. apply IH; [apply is_zero_add; assumption|].
  apply is_zero_add; [assumption|]. apply is_zero_mul; assumption.
Qed.

(** With masses 1 and -1 the total is zero and the division is skipped, but
    the sums 0.1*1 + (-0.1)*(-1) are left in the center of mass. *)
Lemma opposite_masses_leave_a_center : ~ zero_mass_leaves_center_at_zero.
Proof.
  intros H.
  destruct (tree_update_gravity_data_in_cell 2 balanced 1%positive) as [r'| |] eqn:E;
    [|vm_compute in E; discriminate E..].
  destruct (cells r' !! 1%positive) as [c'|] eqn:Ec;
    [|vm_compute in E; injection E as <-; vm_compute in Ec; discriminate Ec].
  destruct (H 2%nat balanced 1%positive
              (branch_cell 0 0 0 1 (-2)
                 [Some 2%positive; None; None; None; None; None; None; Some 3%positive])
              2%nat [1; 2; 3]%positive r' c' eq_refl ltac:(cbn; lia)
              ltac:(vm_compute; reflexivity)) as [Hx _].
  - repeat (apply NoDup_cons; split;
            [rewrite ?elem_of_cons, elem_of_nil; intuition discriminate|]).
    apply NoDup_nil_2.
  - exact E.
  - exact Ec.
  - vm_compute in E. injection E as <-. vm_compute in Ec. injection Ec as <-.
    vm_compute. reflexivity.
  - vm_compute in E. injection E as <-. vm_compute in Ec. injection Ec as <-.
    vm_compute in Hx. discriminate Hx.
Qed.

(** C8, amended.  After moment aggregation on a branch [a] of a tree, with
    [kids] the non-null children of [a] as the aggregation left them: the
    mass of [a] is the sum [m] of the children's masses; when [0 < m] the
    center of mass is the sum of the children's centers weighted with their
    masses, divided by [m]; otherwise - [m] zero, negative or NaN - nothing
    is divided and the center of mass is that weighted sum itself, which is
    zero when every child has mass zero and a finite center. *)
Theorem branch_moments (fuel : nat) (r : Rebound) (a : addr) (c : cell)
    (f0 : nat) (l : list addr) (r' : Rebound) :
  cells r !! a = Some c -> cell_pt c < 0 ->
  subtree f0 (cells r) (Some a) = Some l -> NoDup l ->
  tree_update_gravity_data_in_cell (S fuel) r a = Ok r' ->
  exists c',
    cells r' !! a = Some c'
    /\ let kids := children (cells r') (cell_oct c) in
       let m := total_mass kids in
       cell_m c' = m
       /\ ((0 <? m)%float = true ->
           cell_mx c' = (weighted cell_mx kids / m)%float
           /\ cell_my c' = (weighted cell_my kids / m)%float
           /\ cell_mz c' = (weighted cell_mz kids / m)%float)
       /\ ((0 <? m)%float = false ->
           cell_mx c' = weighted cell_mx kids
           /\ cell_my c' = weighted cell_my kids
           /\ cell_mz c' = weighted cell_mz kids)
       /\ (Forall (fun dc => is_zero (cell_m dc) = true
                             /\ finite (cell_mx dc) = true
                             /\ finite (cell_my dc) = true
                             /\ finite (cell_mz dc) = true) kids ->
           is_zero (cell_m c') = true /\ is_zero (cell_mx c') = true
           /\ is_zero (cell_my c') = true /\ is_zero (cell_mz c') = true).
Proof.
  intros Ha Hpt Hsub Hnd H.
  destruct (gravity_branch _ _ _ _ _ _ _ (gravity_frame_all fuel) Ha Hpt Hsub Hnd H)
    as [_ Hc'].
  eexists. split; [exact Hc'|]. intros kids m.
  change (children (cells r') (cell_oct c)) with kids.
  set (agg := aggregate (set_moments c 0 0 0 0) kids).
  assert (Hm : cell_m agg = m) by (unfold agg; rewrite aggregate_m; reflexivity).
  destruct (aggregate_center (set_moments c 0 0 0 0) kids) as (Hx & Hy & Hz).
  fold agg in Hx, Hy, Hz. cbn [cell_mx cell_my cell_mz set_moments] in Hx, Hy, Hz.
  assert (Hpos : (0 <? m)%float = true ->
                 normalise agg = set_moments agg m (weighted cell_mx kids / m)
                                 (weighted cell_my kids / m) (weighted cell_mz kids / m)).
  { intros E. unfold normalise. rewrite Hm, E, Hx, Hy, Hz. reflexivity. }
  assert (Hneg : (0 <? m)%float = false -> normalise agg = agg).
  { intros E. unfold normalise. rewrite Hm, E. reflexivity. }
  split; [|split; [|split]].
  - destruct (0 <? m)%float eqn:E; [rewrite Hpos | rewrite Hneg]; auto.
  - intros E. rewrite (Hpos E). auto.
  - intros E. rewrite (Hneg E). auto.
  - intros Hall.
    assert (Hzm : is_zero m = true).
    { refine (proj1 (zero_sums cell_mx kids 0 0 _ eq_refl eq_refl)).
      eapply Forall_impl; [exact Hall|]. cbn. tauto. }
    rewrite (Hneg (is_zero_not_positive _ Hzm)), Hm, Hx, Hy, Hz.
    split; [assumption|]. split; [|split].
    + refine (proj2 (zero_sums cell_mx kids 0 0 _ eq_refl eq_refl)).
      eapply Forall_impl; [exact Hall|]. cbn. tauto.
    + refine (proj2 (zero_sums cell_my kids 0 0 _ eq_refl eq_refl)).
      eapply Forall_impl; [exact Hall|]. cbn. tauto.
    + refine (proj2 (zero_sums cell_mz kids 0 0 _ eq_refl eq_refl)).
      eapply Forall_impl; [exact Hall|]. cbn. tauto.
Qed.

Lemma branch_moments_witness :
  exists r' c', tree_update_gravity_data_in_cell 2 settled 1%positive = Ok r'
                /\ cells r' !! 1%positive = Some c' /\ cell_m c' = 2%float.
Proof.
  destruct (tree_update_gravity_data_in_cell 2 settled 1%positive) as [r'| |] eqn:E;
    [|vm_compute in E; discriminate E..].
  destruct (branch_moments 1 settled 1%positive
              (branch_cell 0 0 0 1 (-2)
                 [Some 2%positive; None; None; None; None; None; None; Some 3%positive])
              2 [1; 2; 3]%positive r') as (c' & Hc' & Hm & _).
  - reflexivity.
  - cbn. lia.
  - vm_compute. reflexivity.
  - repeat (apply NoDup_cons; split;
            [rewrite ?elem_of_cons, elem_of_nil; intuition discriminate|]).
    apply NoDup_nil_2.
  - exact E.
  - exists r', c'. split; [reflexivity|]. split; [assumption|].
    rewrite Hm. vm_compute in E. injection E as <-. vm_compute. reflexivity.
Defined.

(** ** Moment aggregation beyond one node *)

Lemma moments_apart_refl c : moments_apart c c.
Proof. destruct c; reflexivity. Qed.

Lemma moments_apart_trans c1 c2 c3 :
  moments_apart c1 c2 -> moments_apart c2 c3 -> moments_apart c1 c3.
Proof. unfold moments_apart. intros -> ->. reflexivity. Qed.

Lemma moments_apart_set c m mx my mz : moments_apart c (set_moments c m mx my mz).
Proof. reflexivity. Qed.

Lemma moments_apart_add c dc : moments_apart c (add_moments c dc).
Proof. reflexivity. Qed.

Lemma moments_apart_normalise c : moments_apart c (normalise c).
Proof. unfold normalise. destruct (0 <? cell_m c)%float; [reflexivity | apply moments_apart_refl]. Qed.

Lemma only_moments_refl r : only_moments r r.
Proof.
  split; [apply with_cells_id|]. intros b.
  destruct (cells r !! b); constructor. apply moments_apart_refl.
Qed.

Lemma only_moments_trans r1 r2 r3 :
  only_moments r1 r2 -> only_moments r2 r3 -> only_moments r1 r3.
Proof.
  intros [E1 H1] [E2 H2]. split.
  - rewrite <- E1 at 2. rewrite <- E2. reflexivity.
  - intros b. specialize (H1 b). specialize (H2 b).
    destruct H1 as [c1 c2 M1|]; inversion H2 as [c2' c3 M2|]; subst; constructor.
    eapply moments_apart_trans; eassumption.
Qed.

Lemma only_moments_store r a c c' r' :
  cells r !! a = Some c -> moments_apart c c' -> store r a c' = Ok r' ->
  only_moments r r'.
Proof.
  intros Ha M H. apply store_Ok in H as [_ ->]. split.
  - destruct r; reflexivity.
  - intros b. cbn. destruct (decide (a = b)) as [<-|Hne].
    + rewrite lookup_insert_eq, Ha. constructor. assumption.
    + rewrite lookup_insert_ne by done.
      destruct (cells r !! b); constructor. apply moments_apart_refl.
Qed.

Ltac moments_store :=
  eapply only_moments_store; [| |eassumption];
  [eassumption | first [apply moments_apart_normalise | reflexivity]].

Lemma gravity_only_moments fuel : forall r a r',
  tree_update_gravity_data_in_cell fuel r a = Ok r' -> only_moments r r'.
Proof.
  induction fuel as [|fuel IH]; intros r a r' H; [discriminate|].
  cbn [tree_update_gravity_data_in_cell] in H.
  bind_inv H as c Hc. apply load_Ok in Hc. destruct (cell_pt c <? 0).
  - bind_inv H as r1 Hr1. bind_inv H as r2 Hr2. bind_inv H as c2 Hc2. apply load_Ok in Hc2.
    eapply only_moments_trans; [moments_store|].
    eapply only_moments_trans; [|moments_store].
    eapply (for_each_preserves only_moments);
      [apply only_moments_refl | apply only_moments_trans | | exact Hr2].
    intros s o s' _ Hs. unfold gravity_octant in Hs.
    bind_inv Hs as cs Hcs. bind_inv Hs as d Hd.
    destruct d as [da|]; [|injection Hs as <-; apply only_moments_refl].
    bind_inv Hs as s1 Hs1. bind_inv Hs as dc Hdc. bind_inv Hs as c3 Hc3.
    apply load_Ok in Hc3.
    eapply only_moments_trans; [eapply IH; eassumption | moments_store].
  - bind_inv H as p Hp. moments_store.
Qed.

Lemma update_gravity_only_moments fuel r r' :
  tree_update_gravity_data fuel r = Ok r' -> only_moments r r'.
Proof.
  unfold tree_update_gravity_data.
  apply (for_each_preserves only_moments); [apply only_moments_refl | apply only_moments_trans|].
  intros s i s' _ Hs. bind_inv Hs as d Hd.
  destruct d as [a|]; [eapply gravity_only_moments; eassumption|].
  injection Hs as <-. apply only_moments_refl.
Qed.

(** *** Shape is all that matters *)

Lemma moments_apart_shape c c' :
  moments_apart c c' ->
  cell_pt c' = cell_pt c /\ cell_oct c' = cell_oct c /\ geometry c' = geometry c.
Proof. intros ->. auto. Qed.

Lemma subtree_shape fuel : forall h h' d l,
  (forall n, n ∈ l -> option_Forall2 moments_apart (h !! n) (h' !! n)) ->
  subtree fuel h d = Some l -> subtree fuel h' d = Some l.
Proof.
  induction fuel as [|fuel IH]; intros h h' d l Hrel H; [discriminate|].
  destruct d as [a|]; [|exact H].
  apply subtree_S in H as (c & Ha & Hlen & Hcase). apply subtree_S.
  assert (Hin : a ∈ l) by (destruct Hcase as [(_ & ls & _ & ->)|[_ ->]]; left).
  pose proof (Hrel a Hin) as R. rewrite Ha in R. inversion R as [c0 c' M E0 E'|]; subst.
  destruct (moments_apart_shape _ _ M) as (Hpt & Hoct & _).
  exists c'. split; [congruence|]. split; [rewrite Hoct; assumption|].
  rewrite Hpt, Hoct. destruct Hcase as [(Hneg & ls & Hls & ->)|[Hpos ->]]; [left | right; auto].
  split; [assumption|]. exists ls. split; [|reflexivity].
  apply Forall2_same_length_lookup. split; [eapply Forall2_length; eassumption|].
  intros o d l Hd Hl. pose proof (Forall2_lookup_lr _ _ _ _ _ _ Hls Hd Hl) as Hsub.
  cbn in Hsub. eapply IH; [|eassumption]. intros n Hn. apply Hrel.
  right. eapply elem_of_join_lookup; eassumption.
Qed.

Lemma only_moments_subtree fuel r r' d l :
  only_moments r r' -> subtree fuel (cells r) d = Some l ->
  subtree fuel (cells r') d = Some l.
Proof. intros [_ H]. apply subtree_shape. intros n _. apply H. Qed.

Lemma only_moments_particles r r' : only_moments r r' -> particles r' = particles r.
Proof. intros [E _]. rewrite <- E. reflexivity. Qed.

Lemma only_moments_lookup r r' b c :
  only_moments r r' -> cells r !! b = Some c ->
  exists c', cells r' !! b = Some c' /\ moments_apart c c'.
Proof.
  intros [_ H] Hb. specialize (H b). rewrite Hb in H.
  inversion H as [c0 c' M E0 E'|]; subst. eauto.
Qed.

Lemma only_moments_leaves_valid r r' l :
  only_moments r r' -> leaves_valid r' l -> leaves_valid r l.
Proof.
  intros HM HV n c Hn Hc Hpt.
  destruct (only_moments_lookup _ _ _ _ HM Hc) as (c' & Hc' & M).
  destruct (moments_apart_shape _ _ M) as (Hpt' & _).
  rewrite <- (only_moments_particles _ _ HM), <- Hpt'. apply (HV n c' Hn Hc'). lia.
Qed.

Lemma leaves_valid_only_moments r r' l :
  only_moments r r' -> leaves_valid r l -> leaves_valid r' l.
Proof.
  intros HM HV n c' Hn Hc' Hpt. destruct HM as [E H]. pose proof (H n) as R.
  rewrite Hc' in R. inversion R as [c c0 M Ec E0|]; subst.
  destruct (moments_apart_shape _ _ M) as (Hpt' & _).
  replace (particles r') with (particles r) by (rewrite <- E; reflexivity).
  rewrite Hpt'. apply (HV n c Hn); [congruence | lia].
Qed.

(** *** Settled nodes *)

Lemma settled_frame s s' l n f0 d :
  subtree f0 (cells s) d = Some l -> n ∈ l ->
  (forall x, x ∈ l -> cells s' !! x = cells s !! x) ->
  particles s' = particles s ->
  moments_settled s n -> moments_settled s' n.
Proof.
  intros Hsub Hn Hsame Hps (c & Hc & Hset). exists c.
  split; [rewrite Hsame by assumption; assumption|].
  destruct (cell_pt c <? 0) eqn:E.
  - rewrite Hset at 1. do 2 f_equal. symmetry. apply children_ext.
    intros x Hx. apply Hsame. apply list_elem_of_lookup in Hx as [o Ho].
    eapply subtree_child_in; try eassumption. lia.
  - rewrite Hps. assumption.
Qed.

(** *** One step of the loop over the children *)

Lemma gravity_loop_only_moments fuel a l : forall s s',
  for_each l (gravity_octant (tree_update_gravity_data_in_cell fuel) a) s = Ok s' ->
  only_moments s s'.
Proof.
  apply (for_each_preserves only_moments); [apply only_moments_refl | apply only_moments_trans|].
  intros s o s' _ Hs. unfold gravity_octant in Hs.
  bind_inv Hs as cs Hcs. bind_inv Hs as d Hd.
  destruct d as [da|]; [|injection Hs as <-; apply only_moments_refl].
  bind_inv Hs as s1 Hs1. bind_inv Hs as dc Hdc. bind_inv Hs as c3 Hc3.
  apply load_Ok in Hc3.
  eapply only_moments_trans; [eapply gravity_only_moments; eassumption | moments_store].
Qed.

Lemma gravity_step fuel a oct ls f0 k s acc s2 :
  NoDup (a :: mjoin ls) ->
  cells s !! a = Some acc -> cell_oct acc = oct -> kids_from f0 k s oct ls ->
  gravity_octant (tree_update_gravity_data_in_cell fuel) a s (Z.of_nat k) = Ok s2 ->
  exists d lk,
    oct !! k = Some d /\ ls !! k = Some lk
    /\ match d with
       | None => s2 = s
       | Some da =>
           exists s1 dc,
             tree_update_gravity_data_in_cell fuel s da = Ok s1
             /\ subtree f0 (cells s) (Some da) = Some lk /\ NoDup lk
             /\ cells s1 !! da = Some dc
             /\ s2 = with_cells s1 (<[a := add_moments acc dc]> (cells s1))
       end
    /\ kids_from f0 (S k) s2 oct ls
    /\ (forall b, b <> a -> b ∉ lk -> cells s2 !! b = cells s !! b)
    /\ exists acc2, cells s2 !! a = Some acc2 /\ cell_oct acc2 = oct.
Proof.
  intros Hnd Ha Hoct Hkids H. unfold gravity_octant in H.
  rewrite (load_eq _ _ _ Ha) in H. cbn [mbind result_bind] in H.
  bind_inv H as d Hd. apply oct_at_Ok in Hd as [_ Hd]. rewrite Nat2Z.id, Hoct in Hd.
  destruct (Hkids k d ltac:(lia) Hd) as (lk & Hlk & Hsk).
  apply NoDup_cons in Hnd as [Hnot Hnd'].
  exists d, lk. split; [assumption|]. split; [assumption|].
  destruct d as [da|].
  - bind_inv H as s1 H1. bind_inv H as dc Hdc. apply load_Ok in Hdc.
    bind_inv H as c1 Hc1. apply load_Ok in Hc1. apply store_Ok in H as [_ ->].
    pose proof (NoDup_join_lookup _ _ _ Hnd' Hlk) as Hndk.
    pose proof (gravity_frame_all fuel _ _ _ _ _ H1 Hsk Hndk) as Hfr1.
    assert (Halk : a ∉ lk)
      by (intros Hin; apply Hnot; eapply elem_of_join_lookup; eassumption).
    rewrite (Hfr1 a Halk), Ha in Hc1. injection Hc1 as <-.
    split; [exists s1, dc; auto|]. split; [|split].
    + intros i d Hi Hdi. destruct (Hkids i d ltac:(lia) Hdi) as (li & Hli & Hsi).
      exists li. split; [assumption|]. eapply subtree_same; [|exact Hsi].
      intros n Hn. cbn.
      assert (n <> a) by (intros ->; apply Hnot; eapply elem_of_join_lookup; eassumption).
      rewrite lookup_insert_ne by done. apply Hfr1.
      intros Hin. eapply (NoDup_join_disjoint ls i k); try eassumption. lia.
    + intros b Hba Hb. cbn. rewrite lookup_insert_ne by done. apply Hfr1. assumption.
    + eexists. split; [cbn; apply lookup_insert_eq | exact Hoct].
  - injection H as <-. split; [reflexivity|]. split; [|split].
    + intros i d Hi Hdi. apply Hkids; [lia | assumption].
    + reflexivity.
    + eauto.
Qed.

(** *** Every node of the tree is settled *)

Lemma gravity_loop_settled fuel a oct ls f0 :
  (forall r a r' f0 l,
     tree_update_gravity_data_in_cell fuel r a = Ok r' ->
     subtree f0 (cells r) (Some a) = Some l -> NoDup l ->
     forall n, n ∈ l -> moments_settled r' n) ->
  length oct = 8%nat -> NoDup (a :: mjoin ls) ->
  forall m k s acc s',
    (k + m = 8)%nat ->
    cells s !! a = Some acc -> cell_oct acc = oct -> kids_from f0 k s oct ls ->
    for_each (Z.of_nat <$> seq k m)
      (gravity_octant (tree_update_gravity_data_in_cell fuel) a) s = Ok s' ->
    forall i da li n,
      (k <= i)%nat -> oct !! i = Some (Some da) -> ls !! i = Some li -> n ∈ li ->
      moments_settled s' n.
Proof.
  intros IHs Hlen Hnd. induction m as [|m IH];
    intros k s acc s' Hk Ha Hoct Hkids H i da li n Hi Hda Hli Hn.
  { apply lookup_lt_Some in Hda. lia. }
  change (Z.of_nat <$> seq k (S m)) with (Z.of_nat k :: (Z.of_nat <$> seq (S k) m)) in H.
  cbn [for_each] in H. bind_inv H as s2 H2.
  destruct (gravity_step _ _ _ _ _ _ _ _ _ Hnd Ha Hoct Hkids H2)
    as (d & lk & Hd & Hlk & Hcase & Hkids2 & Hfr2 & acc2 & Ha2 & Hoct2).
  destruct (decide (i = k)) as [->|Hne].
  2:{ eapply (IH (S k) s2 acc2 s'); try eassumption; lia. }
  rewrite Hd in Hda. injection Hda as ->. rewrite Hlk in Hli. injection Hli as ->.
  destruct Hcase as (s1 & dc & H1 & Hsk & Hndk & Hdc & ->).
  pose proof (IHs _ _ _ _ _ H1 Hsk Hndk n Hn) as Hset.
  pose proof (gravity_only_moments _ _ _ _ H1) as HM1.
  pose proof Hnd as Hnd0. apply NoDup_cons in Hnd0 as [Hnot Hnd'].
  destruct (gravity_loop fuel a oct ls f0 (gravity_frame_all fuel) Hlen Hnd m (S k)
              _ acc2 s' ltac:(lia) Ha2 Hoct2 Hkids2 H) as [Hfr _].
  eapply (settled_frame s1 s' li n f0 (Some da));
    [eapply only_moments_subtree; eassumption | assumption | | | assumption].
  - intros x Hx.
    assert (x <> a) by (intros ->; apply Hnot; eapply elem_of_join_lookup; eassumption).
    rewrite Hfr; [cbn; apply lookup_insert_ne; done | assumption|].
    intros Hin. apply list_elem_of_join in Hin as (lj & Hin & Hlj).
    apply list_elem_of_lookup in Hlj as [j Hj]. rewrite lookup_drop in Hj.
    eapply (NoDup_join_disjoint ls k (S k + j)); try eassumption. lia.
  - apply gravity_loop_only_moments in H. apply only_moments_particles in H.
    rewrite H. reflexivity.
Qed.

Lemma kids_from_start f0 s oct ls :
  slots_nodes f0 (cells s) oct ls -> kids_from f0 0 s oct ls.
Proof.
  intros Hls i d _ Hd. destruct (Forall2_lookup_l _ _ _ _ _ Hls Hd) as (li & Hli & Hsi).
  eauto.
Qed.

Lemma aggregate_apart c kids : moments_apart c (aggregate c kids).
Proof.
  unfold aggregate. revert c. induction kids as [|dc kids IH]; intros c.
  - apply moments_apart_refl.
  - cbn [foldl]. eapply moments_apart_trans; [apply moments_apart_add | apply IH].
Qed.

Lemma moments_apart_reset c c' m x y z :
  moments_apart c c' -> set_moments c' m x y z = set_moments c m x y z.
Proof. intros ->. reflexivity. Qed.

Lemma gravity_branch_inv fuel r a c r' :
  cells r !! a = Some c -> cell_pt c < 0 ->
  tree_update_gravity_data_in_cell (S fuel) r a = Ok r' ->
  exists s2 c2,
    for_each octants (gravity_octant (tree_update_gravity_data_in_cell fuel) a)
      (with_cells r (<[a := set_moments c 0 0 0 0]> (cells r))) = Ok s2
    /\ cells s2 !! a = Some c2
    /\ r' = with_cells s2 (<[a := normalise c2]> (cells s2)).
Proof.
  intros Ha Hpt H. cbn [tree_update_gravity_data_in_cell] in H.
  rewrite (load_eq _ _ _ Ha) in H. cbn [mbind result_bind] in H.
  destruct (Z.ltb_spec (cell_pt c) 0); [|lia].
  rewrite (store_eq _ _ _ _ Ha) in H. cbn [mbind result_bind] in H.
  bind_inv H as s2 H2. bind_inv H as c2 Hc2. apply load_Ok in Hc2.
  apply store_Ok in H as [_ ->]. eauto.
Qed.

Lemma gravity_leaf_eq fuel r a c p :
  cells r !! a = Some c -> 0 <= cell_pt c ->
  particles r !! Z.to_nat (cell_pt c) = Some p ->
  tree_update_gravity_data_in_cell (S fuel) r a
  = Ok (with_cells r
          (<[a := set_moments c (part_m p) (part_x p) (part_y p) (part_z p)]> (cells r))).
Proof.
  intros Ha Hpt Hp. cbn [tree_update_gravity_data_in_cell].
  rewrite (load_eq _ _ _ Ha). cbn [mbind result_bind].
  destruct (Z.ltb_spec (cell_pt c) 0); [lia|].
  rewrite (particle_at_eq _ _ p) by assumption. cbn [mbind result_bind].
  apply store_eq with (c := c). assumption.
Qed.

Lemma gravity_leaf_inv fuel r a c r' :
  cells r !! a = Some c -> 0 <= cell_pt c ->
  tree_update_gravity_data_in_cell (S fuel) r a = Ok r' ->
  exists p, particles r !! Z.to_nat (cell_pt c) = Some p
    /\ r' = with_cells r
              (<[a := set_moments c (part_m p) (part_x p) (part_y p) (part_z p)]>
                 (cells r)).
Proof.
  intros Ha Hpt H. cbn [tree_update_gravity_data_in_cell] in H.
  rewrite (load_eq _ _ _ Ha) in H. cbn [mbind result_bind] in H.
  destruct (Z.ltb_spec (cell_pt c) 0); [lia|].
  bind_inv H as p Hp. apply particle_at_Ok in Hp as [_ Hp].
  apply store_Ok in H as [_ ->]. eauto.
Qed.

Lemma gravity_settles fuel : forall r a r' f0 l,
  tree_update_gravity_data_in_cell fuel r a = Ok r' ->
  subtree f0 (cells r) (Some a) = Some l -> NoDup l ->
  forall n, n ∈ l -> moments_settled r' n.
Proof.
  induction fuel as [|fuel IH]; intros r a r' f0 l H Hsub Hnd n Hn; [discriminate|].
  destruct f0 as [|f0]; [discriminate|]. pose proof Hsub as Hsub0.
  apply subtree_S in Hsub as (c & Ha & Hlen & [(Hpt & ls & Hls & ->)|(Hpt & ->)]).
  - apply elem_of_cons in Hn as [->|Hn].
    + destruct (gravity_branch _ _ _ _ _ _ _ (gravity_frame_all fuel) Ha Hpt Hsub0 Hnd H)
        as [_ Hc'].
      eexists. split; [exact Hc'|].
      set (kids := children (cells r') (cell_oct c)).
      assert (M : moments_apart c (normalise (aggregate (set_moments c 0 0 0 0) kids))).
      { eapply moments_apart_trans; [apply (moments_apart_set c 0 0 0 0)|].
        eapply moments_apart_trans; [apply aggregate_apart | apply moments_apart_normalise]. }
      destruct (moments_apart_shape _ _ M) as (Hpt' & Hoct' & _).
      rewrite Hpt', Hoct', (moments_apart_reset _ _ _ _ _ _ M).
      destruct (Z.ltb_spec (cell_pt c) 0); [reflexivity | lia].
    + destruct (gravity_branch_inv _ _ _ _ _ Ha Hpt H) as (s2 & c2 & H2 & Hc2 & ->).
      destruct (slots_nodes_elem _ _ _ _ _ Hls Hn) as (o & d & li & Hd & Hli & Hsd & Hni).
      pose proof Hnd as Hnd0. apply NoDup_cons in Hnd0 as [Hnot _].
      change octants with (Z.of_nat <$> seq 0 8) in H2.
      assert (Hset : moments_settled s2 n).
      { eapply (gravity_loop_settled fuel a (cell_oct c) ls f0 IH Hlen Hnd 8 0
                  (with_cells r (<[a := set_moments c 0 0 0 0]> (cells r)))
                  (set_moments c 0 0 0 0) s2 eq_refl);
          [cbn; apply lookup_insert_eq | reflexivity | | exact H2 | | exact Hd | exact Hli
          | exact Hni]; [|lia].
        apply kids_from_start. cbn.
        apply Forall2_same_length_lookup. split; [eapply Forall2_length; eassumption|].
        intros i di l' Hdi Hl'. pose proof (Forall2_lookup_lr _ _ _ _ _ _ Hls Hdi Hl') as Hs.
        cbn in Hs. eapply subtree_same; [|exact Hs]. intros x Hx.
        apply lookup_insert_ne. intros ->. apply Hnot.
        eapply elem_of_join_lookup; eassumption. }
      pose proof (gravity_loop_only_moments _ _ _ _ _ H2) as HM2.
      eapply (settled_frame s2 _ li n f0 (Some d)); [| exact Hni | | reflexivity | exact Hset].
      * eapply only_moments_subtree; [exact HM2|]. cbn.
        eapply subtree_same; [|exact Hsd]. intros x Hx.
        apply lookup_insert_ne. intros ->. apply Hnot.
        eapply elem_of_join_lookup; eassumption.
      * intros x Hx. cbn. apply lookup_insert_ne. intros ->. apply Hnot.
        eapply elem_of_join_lookup; eassumption.
  - apply list_elem_of_singleton in Hn as ->.
    destruct (gravity_leaf_inv _ _ _ _ _ Ha Hpt H) as (p & Hp & ->).
    eexists. split; [cbn; apply lookup_insert_eq|]. cbn [cell_pt set_moments].
    destruct (Z.ltb_spec (cell_pt c) 0); [lia|]. exists p. split; [exact Hp | reflexivity].
Qed.

(** *** Aggregation succeeds on a tree *)

Lemma leaves_valid_sub r l l' : l' ⊆ l -> leaves_valid r l -> leaves_valid r l'.
Proof. intros Hs H n c Hn. apply H, Hs, Hn. Qed.

Lemma gravity_loop_succeeds fuel a oct ls f0 :
  (forall r a l,
     subtree f0 (cells r) (Some a) = Some l -> NoDup l -> leaves_valid r l ->
     exists r', tree_update_gravity_data_in_cell fuel r a = Ok r') ->
  length oct = 8%nat -> NoDup (a :: mjoin ls) ->
  forall m k s acc,
    (k + m = 8)%nat ->
    cells s !! a = Some acc -> cell_oct acc = oct -> kids_from f0 k s oct ls ->
    leaves_valid s (mjoin ls) ->
    exists s', for_each (Z.of_nat <$> seq k m)
                 (gravity_octant (tree_update_gravity_data_in_cell fuel) a) s = Ok s'.
Proof.
  intros IHs Hlen Hnd. induction m as [|m IH]; intros k s acc Hk Ha Hoct Hkids Hval.
  { eexists. reflexivity. }
  change (Z.of_nat <$> seq k (S m)) with (Z.of_nat k :: (Z.of_nat <$> seq (S k) m)).
  cbn [for_each].
  assert (Hstep : exists s2,
            gravity_octant (tree_update_gravity_data_in_cell fuel) a s (Z.of_nat k) = Ok s2).
  { unfold gravity_octant. rewrite (load_eq _ _ _ Ha). cbn [mbind result_bind].
    assert (Hlt : (k < length oct)%nat) by lia.
    destruct (lookup_lt_is_Some_2 _ _ Hlt) as [d Hd].
    rewrite (oct_at_eq _ _ d) by (rewrite ?Nat2Z.id, ?Hoct; first [lia | assumption]).
    cbn [mbind result_bind]. destruct d as [da|]; [|eauto].
    destruct (Hkids k _ ltac:(lia) Hd) as (lk & Hlk & Hsk).
    pose proof Hnd as Hnd0. apply NoDup_cons in Hnd0 as [Hnot Hnd'].
    pose proof (NoDup_join_lookup _ _ _ Hnd' Hlk) as Hndk.
    destruct (IHs s da lk Hsk Hndk) as [s1 H1].
    { eapply leaves_valid_sub; [|exact Hval].
      intros x Hx. eapply elem_of_join_lookup; eassumption. }
    rewrite H1. cbn [mbind result_bind].
    pose proof (gravity_only_moments _ _ _ _ H1) as HM.
    destruct (subtree_allocated _ _ _ _ da Hsk ltac:(eapply subtree_root_in; eassumption))
      as [dc0 Hdc0].
    destruct (only_moments_lookup _ _ _ _ HM Hdc0) as (dc & Hdc & _).
    destruct (only_moments_lookup _ _ _ _ HM Ha) as (acc1 & Hacc1 & _).
    rewrite (load_eq _ _ _ Hdc). cbn [mbind result_bind].
    rewrite (load_eq _ _ _ Hacc1). cbn [mbind result_bind].
    rewrite (store_eq _ _ _ _ Hacc1). eauto. }
  destruct Hstep as [s2 H2]. rewrite H2. cbn [mbind result_bind].
  destruct (gravity_step _ _ _ _ _ _ _ _ _ Hnd Ha Hoct Hkids H2)
    as (d & lk & Hd & Hlk & Hcase & Hkids2 & Hfr2 & acc2 & Ha2 & Hoct2).
  apply (IH (S k) s2 acc2); try assumption; [lia|].
  eapply leaves_valid_only_moments; [|exact Hval].
  apply (gravity_loop_only_moments fuel a [Z.of_nat k]). cbn. rewrite H2. reflexivity.
Qed.

Lemma gravity_succeeds fuel : forall r a f0 l,
  subtree f0 (cells r) (Some a) = Some l -> NoDup l -> leaves_valid r l ->
  (f0 <= fuel)%nat ->
  exists r', tree_update_gravity_data_in_cell fuel r a = Ok r'.
Proof.
  induction fuel as [|fuel IH]; intros r a f0 l Hsub Hnd Hval Hle.
  { destruct f0; [discriminate | lia]. }
  destruct f0 as [|f0]; [discriminate|]. pose proof Hsub as Hsub0.
  apply subtree_S in Hsub as (c & Ha & Hlen & [(Hpt & ls & Hls & ->)|(Hpt & ->)]).
  - cbn [tree_update_gravity_data_in_cell]. rewrite (load_eq _ _ _ Ha).
    cbn [mbind result_bind]. destruct (Z.ltb_spec (cell_pt c) 0); [|lia].
    rewrite (store_eq _ _ _ _ Ha). cbn [mbind result_bind].
    pose proof Hnd as Hnd0. apply NoDup_cons in Hnd0 as [Hnot _].
    set (s0 := with_cells r (<[a := set_moments c 0 0 0 0]> (cells r))).
    assert (HM0 : only_moments r s0).
    { eapply only_moments_store; [exact Ha | apply (moments_apart_set c 0 0 0 0)|].
      apply store_eq with (c := c). exact Ha. }
    change octants with (Z.of_nat <$> seq 0 8).
    destruct (gravity_loop_succeeds fuel a (cell_oct c) ls f0
                ltac:(intros; eapply IH; try eassumption; lia) Hlen Hnd 8 0 s0
                (set_moments c 0 0 0 0) eq_refl) as [s2 H2];
      [cbn; apply lookup_insert_eq | reflexivity | | |].
    + apply kids_from_start.
      apply Forall2_same_length_lookup. split; [eapply Forall2_length; eassumption|].
      intros i di l' Hdi Hl'. pose proof (Forall2_lookup_lr _ _ _ _ _ _ Hls Hdi Hl') as Hs.
      cbn in Hs. eapply only_moments_subtree; eassumption.
    + eapply leaves_valid_only_moments; [exact HM0|].
      eapply leaves_valid_sub; [|exact Hval]. intros x Hx. right. exact Hx.
    + rewrite H2. cbn [mbind result_bind].
      pose proof (gravity_loop_only_moments _ _ _ _ _ H2) as HM2.
      destruct (only_moments_lookup s0 s2 a (set_moments c 0 0 0 0) HM2
                  ltac:(cbn; apply lookup_insert_eq)) as (c2 & Hc2 & _).
      rewrite (load_eq _ _ _ Hc2). cbn [mbind result_bind].
      rewrite (store_eq _ _ _ _ Hc2). eauto.
  - destruct (Hval a c ltac:(left) Ha Hpt) as [p Hp].
    rewrite (gravity_leaf_eq _ _ _ _ _ Ha Hpt Hp). eauto.
Qed.

(** *** Settled moments are unique *)

Lemma settled_unique f0 : forall s s' d l,
  subtree f0 (cells s) d = Some l -> NoDup l -> only_moments s s' ->
  (forall n, n ∈ l -> moments_settled s n) ->
  (forall n, n ∈ l -> moments_settled s' n) ->
  forall n, n ∈ l -> cells s' !! n = cells s !! n.
Proof.
  induction f0 as [|f0 IH]; intros s s' d l Hsub Hnd HM Hs Hs' n Hn; [discriminate|].
  destruct (subtree_in _ _ _ _ _ Hsub Hn) as [a ->].
  apply subtree_S in Hsub as (c & Ha & Hlen & Hcase).
  assert (Hkids : forall o x, cell_pt c < 0 -> cell_oct c !! o = Some (Some x) ->
                              x ∈ l /\ x <> a).
  { intros o x Hpt Ho. destruct Hcase as [(_ & ls & Hls & ->)|(Hpos & _)]; [|lia].
    destruct (Forall2_lookup_l _ _ _ _ _ Hls Ho) as (li & Hli & Hsi).
    assert (Hin : x ∈ mjoin ls).
    { eapply elem_of_join_lookup; [eassumption|]. eapply subtree_root_in. eassumption. }
    apply NoDup_cons in Hnd as [Hnot _].
    split; [right; assumption | intros ->; contradiction]. }
  assert (Hrest : forall x, x ∈ l -> x <> a -> cells s' !! x = cells s !! x).
  { destruct Hcase as [(Hpt & ls & Hls & ->)|(Hpt & ->)].
    - intros x Hx Hxa. apply elem_of_cons in Hx as [->|Hx]; [done|].
      destruct (slots_nodes_elem _ _ _ _ _ Hls Hx) as (o & d & li & Hd & Hli & Hsd & Hxi).
      apply NoDup_cons in Hnd as [_ Hnd'].
      apply (IH s s' (Some d) li Hsd (NoDup_join_lookup _ _ _ Hnd' Hli) HM); [| |assumption];
        intros y Hy; [apply Hs | apply Hs']; right; eapply elem_of_join_lookup; eassumption.
    - intros x Hx Hxa. apply list_elem_of_singleton in Hx. contradiction. }
  destruct (decide (n = a)) as [->|Hna]; [|apply Hrest; assumption].
  destruct (Hs a Hn) as (c0 & Hc0 & Hset). rewrite Ha in Hc0. injection Hc0 as <-.
  destruct (Hs' a Hn) as (c' & Hc' & Hset').
  destruct (only_moments_lookup _ _ _ _ HM Ha) as (c1 & Hc1 & M).
  rewrite Hc' in Hc1. injection Hc1 as <-.
  destruct (moments_apart_shape _ _ M) as (Hpt' & Hoct' & _).
  rewrite Hc', Ha. f_equal. rewrite Hpt' in Hset'.
  destruct (Z.ltb_spec (cell_pt c) 0) as [Hpt|Hpt].
  - rewrite Hset', Hset at 1. rewrite Hoct', (moments_apart_reset _ _ _ _ _ _ M).
    do 2 f_equal. apply children_ext. intros x Hx.
    apply list_elem_of_lookup in Hx as [o Ho].
    destruct (Hkids o x Hpt Ho). apply Hrest; assumption.
  - destruct Hset as (p & Hp & Hc), Hset' as (p' & Hp' & Hc'').
    rewrite (only_moments_particles _ _ HM), Hp in Hp'. injection Hp' as <-.
    rewrite Hc'', Hc at 1. apply (moments_apart_reset _ _ _ _ _ _ M).
Qed.

(** *** Aggregation on an aggregated tree *)

Lemma settled_leaves_valid s l :
  (forall n, n ∈ l -> moments_settled s n) -> leaves_valid s l.
Proof.
  intros H n c Hn Hc Hpt. destruct (H n Hn) as (c' & Hc' & Hset).
  rewrite Hc in Hc'. injection Hc' as <-.
  destruct (Z.ltb_spec (cell_pt c) 0); [lia|]. destruct Hset as (p & Hp & _). eauto.
Qed.

Lemma only_moments_eq s s' : only_moments s s' -> cells s' = cells s -> s' = s.
Proof. intros [E _] Hc. rewrite <- Hc in E. rewrite with_cells_id in E. exact E. Qed.

Lemma gravity_fixed fuel s a f0 l :
  subtree f0 (cells s) (Some a) = Some l -> NoDup l -> (f0 <= fuel)%nat ->
  (forall n, n ∈ l -> moments_settled s n) ->
  tree_update_gravity_data_in_cell fuel s a = Ok s.
Proof.
  intros Hsub Hnd Hle Hset.
  destruct (gravity_succeeds fuel s a f0 l Hsub Hnd (settled_leaves_valid _ _ Hset) Hle)
    as [s2 H2].
  rewrite H2. f_equal.
  pose proof (gravity_only_moments _ _ _ _ H2) as HM.
  apply (only_moments_eq _ _ HM). apply map_eq. intros b.
  destruct (decide (b ∈ l)) as [Hb|Hb].
  - eapply (settled_unique f0 s s2 (Some a) l); try eassumption.
    eapply gravity_settles; eassumption.
  - eapply gravity_frame_all; eassumption.
Qed.

(** *** The loop over the root boxes *)

Lemma only_moments_roots s s' : only_moments s s' -> roots s' = roots s.
Proof. intros [E _]. unfold roots. rewrite <- E. reflexivity. Qed.

Lemma only_moments_root_n s s' : only_moments s s' -> root_n s' = root_n s.
Proof. intros [E _]. rewrite <- E. reflexivity. Qed.

Lemma gravity_root_loop fuel f0 ls :
  (f0 <= fuel)%nat -> NoDup (mjoin ls) ->
  forall m k s,
    (k + m <= length (roots s))%nat -> roots_from f0 k s ls ->
    leaves_valid s (mjoin ls) ->
    exists s',
      for_each (Z.of_nat <$> seq k m) (gravity_root fuel) s = Ok s'
      /\ only_moments s s'
      /\ (forall b, (forall i li, (k <= i)%nat -> ls !! i = Some li -> b ∉ li) ->
                    cells s' !! b = cells s !! b)
      /\ forall i a li n,
           (k <= i < k + m)%nat -> roots s !! i = Some (Some a) -> ls !! i = Some li ->
           n ∈ li -> moments_settled s' n.
Proof.
  intros Hle Hnd. induction m as [|m IH]; intros k s Hk Hroots Hval.
  { exists s. split; [reflexivity|]. split; [apply only_moments_refl|].
    split; [reflexivity|]. intros; lia. }
  change (Z.of_nat <$> seq k (S m)) with (Z.of_nat k :: (Z.of_nat <$> seq (S k) m)).
  cbn [for_each].
  assert (Hlt : (k < length (roots s))%nat) by lia.
  destruct (lookup_lt_is_Some_2 _ _ Hlt) as [d Hd].
  destruct (Hroots k d ltac:(lia) Hd) as (lk & Hlk & Hsk).
  pose proof (NoDup_join_lookup _ _ _ Hnd Hlk) as Hndk.
  assert (Hstep : exists s1,
            gravity_root fuel s (Z.of_nat k) = Ok s1 /\ only_moments s s1
            /\ (forall b, b ∉ lk -> cells s1 !! b = cells s !! b)
            /\ forall a n, d = Some a -> n ∈ lk -> moments_settled s1 n).
  { unfold gravity_root.
    rewrite (root_at_eq s (Z.of_nat k) d) by (rewrite ?Nat2Z.id; first [lia | assumption]).
    cbn [mbind result_bind]. destruct d as [a|].
    - destruct (gravity_succeeds fuel s a f0 lk Hsk Hndk) as [s1 H1]; [|assumption|].
      { eapply leaves_valid_sub; [|exact Hval].
        intros x Hx. eapply elem_of_join_lookup; eassumption. }
      exists s1. split; [assumption|]. split; [eapply gravity_only_moments; eassumption|].
      split; [eapply gravity_frame_all; eassumption|].
      intros a' n [= <-] Hn. eapply gravity_settles; eassumption.
    - exists s. split; [reflexivity|]. split; [apply only_moments_refl|].
      split; [reflexivity|]. intros a n [=]. }
  destruct Hstep as (s1 & H1 & HM1 & Hfr1 & Hset1). rewrite H1. cbn [mbind result_bind].
  destruct (IH (S k) s1) as (s' & H' & HM' & Hfr' & Hset').
  - rewrite (only_moments_roots _ _ HM1). lia.
  - intros i di Hi Hdi. rewrite (only_moments_roots _ _ HM1) in Hdi.
    destruct (Hroots i di ltac:(lia) Hdi) as (li & Hli & Hsi).
    exists li. split; [assumption|]. eapply subtree_same; [|exact Hsi].
    intros x Hx. apply Hfr1. intros Hin.
    eapply (NoDup_join_disjoint ls i k); try eassumption. lia.
  - eapply leaves_valid_only_moments; eassumption.
  - exists s'. split; [assumption|]. split; [eapply only_moments_trans; eassumption|].
    split.
    + intros b Hb. rewrite Hfr'; [apply Hfr1; apply (Hb k lk); [lia | assumption]|].
      intros i li Hi. apply Hb. lia.
    + intros i a li n Hi Hia Hli Hn. destruct (decide (i = k)) as [->|Hne].
      * rewrite Hd in Hia. injection Hia as ->. rewrite Hlk in Hli. injection Hli as ->.
        eapply (settled_frame s1 s' li n f0 (Some a));
          [eapply only_moments_subtree; eassumption | assumption | |
           | eapply Hset1; [reflexivity | assumption]].
        -- intros x Hx. apply Hfr'. intros j lj Hj Hlj Hin.
           eapply (NoDup_join_disjoint ls j k); try eassumption. lia.
        -- apply only_moments_particles. assumption.
      * eapply (Hset' i a li n); [lia | | assumption..].
        rewrite (only_moments_roots _ _ HM1). assumption.
Qed.

Lemma roots_from_forest f0 r ls : forest f0 r ls -> roots_from f0 0 r ls.
Proof.
  intros [HF _] i d _ Hd. destruct (Forall2_lookup_l _ _ _ _ _ HF Hd) as (li & Hli & Hsi).
  eauto.
Qed.

(** *** The loop over the root boxes, backwards *)

Lemma gravity_root_loop_inv fuel f0 ls :
  NoDup (mjoin ls) ->
  forall m k s s',
    roots_from f0 k s ls ->
    for_each (Z.of_nat <$> seq k m) (gravity_root fuel) s = Ok s' ->
    only_moments s s'
    /\ (m = 0 \/ k + m <= length (roots s))%nat
    /\ (forall b, (forall i li, (k <= i)%nat -> ls !! i = Some li -> b ∉ li) ->
                  cells s' !! b = cells s !! b)
    /\ forall i a li n,
         (k <= i < k + m)%nat -> roots s !! i = Some (Some a) -> ls !! i = Some li ->
         n ∈ li -> moments_settled s' n.
Proof.
  intros Hnd. induction m as [|m IH]; intros k s s' Hroots H.
  { cbn in H. injection H as <-. split; [apply only_moments_refl|].
    split; [auto|]. split; [reflexivity|]. intros; lia. }
  change (Z.of_nat <$> seq k (S m)) with (Z.of_nat k :: (Z.of_nat <$> seq (S k) m)) in H.
  cbn [for_each] in H. bind_inv H as s1 H1. unfold gravity_root in H1.
  bind_inv H1 as d Hd. apply root_at_spec in Hd as [_ Hd]. rewrite Nat2Z.id in Hd.
  destruct (Hroots k d ltac:(lia) Hd) as (lk & Hlk & Hsk).
  pose proof (NoDup_join_lookup _ _ _ Hnd Hlk) as Hndk.
  assert (Hstep : only_moments s s1
            /\ (forall b, b ∉ lk -> cells s1 !! b = cells s !! b)
            /\ forall a n, d = Some a -> n ∈ lk -> moments_settled s1 n).
  { destruct d as [a|].
    - split; [eapply gravity_only_moments; eassumption|].
      split; [eapply gravity_frame_all; eassumption|].
      intros a' n [= <-] Hn. eapply gravity_settles; eassumption.
    - injection H1 as <-. split; [apply only_moments_refl|].
      split; [reflexivity|]. intros a n [=]. }
  destruct Hstep as (HM1 & Hfr1 & Hset1).
  destruct (IH (S k) s1 s') as (HM' & Hlen' & Hfr' & Hset'); [|exact H|].
  { intros i di Hi Hdi. rewrite (only_moments_roots _ _ HM1) in Hdi.
    destruct (Hroots i di ltac:(lia) Hdi) as (li & Hli & Hsi).
    exists li. split; [assumption|]. eapply subtree_same; [|exact Hsi].
    intros x Hx. apply Hfr1. intros Hin.
    eapply (NoDup_join_disjoint ls i k); try eassumption. lia. }
  rewrite (only_moments_roots _ _ HM1) in Hlen'. apply lookup_lt_Some in Hd as Hklen.
  split; [eapply only_moments_trans; eassumption|].
  split; [right; destruct Hlen' as [->|]; lia|]. split.
  - intros b Hb. rewrite Hfr'; [apply Hfr1; apply (Hb k lk); [lia | assumption]|].
    intros i li Hi. apply Hb. lia.
  - intros i a li n Hi Hia Hli Hn. destruct (decide (i = k)) as [->|Hne].
    + rewrite Hd in Hia. injection Hia as ->. rewrite Hlk in Hli. injection Hli as ->.
      eapply (settled_frame s1 s' li n f0 (Some a));
        [eapply only_moments_subtree; eassumption | assumption | |
         | eapply Hset1; [reflexivity | assumption]].
      * intros x Hx. apply Hfr'. intros j lj Hj Hlj Hin.
        eapply (NoDup_join_disjoint ls j k); try eassumption. lia.
      * apply only_moments_particles. assumption.
    + eapply (Hset' i a li n); [lia | | assumption..].
      rewrite (only_moments_roots _ _ HM1). assumption.
Qed.

(** *** The forest of the example states *)

Lemma two_leaves_forest ps n nf :
  forest 2 (sim ps n nf two_leaf_cells) [[1; 2; 3]%positive].
Proof.
  split; [repeat constructor|]. cbn.
  repeat (apply NoDup_cons; split;
          [rewrite ?elem_of_cons, elem_of_nil; intuition discriminate|]).
  apply NoDup_nil_2.
Qed.

Lemma two_leaves_valid p0 p1 n nf :
  leaves_valid (sim [p0; p1] n nf two_leaf_cells) (mjoin [[1; 2; 3]%positive]).
Proof.
  intros x c Hx Hc Hpt. cbn in Hx. rewrite !elem_of_cons, elem_of_nil in Hx.
  destruct Hx as [->|[->|[->|[]]]]; vm_compute in Hc; injection Hc as <-;
    cbn in Hpt |- *; first [lia | eauto].
Qed.

(** X1.  Moment aggregation over all root boxes writes moments and nothing
    else: the particles, their number, the root array and the set of
    allocated cells are as before, and every cell keeps its geometry, its
    [pt] and its eight child pointers. *)
Theorem aggregation_changes_only_moments (fuel : nat) (r r' : Rebound) :
  tree_update_gravity_data fuel r = Ok r' ->
  particles r' = particles r /\ N r' = N r /\ tree_root r' = tree_root r
  /\ dom (cells r') = dom (cells r)
  /\ forall b c c', cells r !! b = Some c -> cells r' !! b = Some c' ->
                    geometry c' = geometry c /\ cell_pt c' = cell_pt c
                    /\ cell_oct c' = cell_oct c.
Proof.
  intros H. apply update_gravity_only_moments in H as [E HM].
  split; [rewrite <- E; reflexivity|]. split; [rewrite <- E; reflexivity|].
  split; [rewrite <- E; reflexivity|]. split.
  - apply set_eq. intros b. rewrite !elem_of_dom. specialize (HM b).
    destruct HM as [c c' _|]; split; intros [x Hx]; first [discriminate | eauto].
  - intros b c c' Hc Hc'. specialize (HM b). rewrite Hc, Hc' in HM.
    inversion HM as [c0 c1 M|]; subst.
    destruct (moments_apart_shape _ _ M) as (? & ? & ?). auto.
Qed.

Lemma aggregation_changes_only_moments_witness :
  exists r', tree_update_gravity_data 2 settled = Ok r'
             /\ particles r' = particles settled
             /\ dom (cells r') = dom (cells settled).
Proof.
  destruct (tree_update_gravity_data 2 settled) as [r'| |] eqn:E;
    [|vm_compute in E; discriminate E..].
  destruct (aggregation_changes_only_moments 2 settled r' E) as (Hp & _ & _ & Hd & _).
  exists r'. auto.
Defined.

(** X2.  On a forest whose leaves name existing particles, and with fuel for
    its depth, moment aggregation returns, and in the state it returns every
    node of every root tree it visited is settled: a leaf holds the mass and
    the position of its particle, a branch holds the moments aggregated from
    its children as they are in that state. *)
Theorem aggregation_settles_every_node (fuel f0 : nat) (r : Rebound)
    (ls : list (list addr)) :
  forest f0 r ls -> leaves_valid r (mjoin ls) ->
  (Z.to_nat (root_n r) <= length (roots r))%nat -> (f0 <= fuel)%nat ->
  exists r',
    tree_update_gravity_data fuel r = Ok r'
    /\ forall i a li n,
         (i < Z.to_nat (root_n r))%nat -> roots r !! i = Some (Some a) ->
         ls !! i = Some li -> n ∈ li -> moments_settled r' n.
Proof.
  intros HF Hval Hn Hle. pose proof HF as [_ Hnd].
  destruct (gravity_root_loop fuel f0 ls Hle Hnd (Z.to_nat (root_n r)) 0 r Hn
              (roots_from_forest _ _ _ HF) Hval) as (r' & H & _ & _ & Hset).
  exists r'. split; [exact H|]. intros i a li n Hi. apply Hset. lia.
Qed.

Lemma aggregation_settles_every_node_witness :
  exists r', tree_update_gravity_data 2 settled = Ok r' /\ moments_settled r' 1%positive.
Proof.
  destruct (aggregation_settles_every_node 2 2 settled [[1; 2; 3]%positive])
    as (r' & H & Hset).
  - apply two_leaves_forest.
  - apply two_leaves_valid.
  - vm_compute. lia.
  - lia.
  - exists r'. split; [exact H|].
    apply (Hset 0%nat 1%positive [1; 2; 3]%positive);
      [vm_compute; lia | reflexivity | reflexivity | left].
Defined.

(** X3.  Moment aggregation is idempotent on a forest: a second aggregation,
    with no change in between, returns the state the first one returned. *)
Theorem aggregation_is_idempotent (fuel f0 : nat) (r r1 : Rebound)
    (ls : list (list addr)) :
  forest f0 r ls -> (f0 <= fuel)%nat ->
  tree_update_gravity_data fuel r = Ok r1 ->
  tree_update_gravity_data fuel r1 = Ok r1.
Proof.
  intros HF Hle H. pose proof HF as [HF2 Hnd].
  destruct (gravity_root_loop_inv fuel f0 ls Hnd (Z.to_nat (root_n r)) 0 r r1
              (roots_from_forest _ _ _ HF) H) as (HM & Hlen & _ & Hset).
  unfold tree_update_gravity_data. rewrite (only_moments_root_n _ _ HM).
  apply for_each_fixed. intros i Hi. unfold upto in Hi.
  apply list_elem_of_fmap in Hi as (k & -> & Hk). apply elem_of_seq in Hk.
  assert (Hlt : (k < length (roots r))%nat) by lia.
  destruct (lookup_lt_is_Some_2 _ _ Hlt) as [d Hd].
  rewrite (root_at_eq r1 (Z.of_nat k) d)
    by (rewrite ?Nat2Z.id, ?(only_moments_roots _ _ HM); first [lia | assumption]).
  cbn [mbind result_bind]. destruct d as [a|]; [|reflexivity].
  destruct (Forall2_lookup_l _ _ _ _ _ HF2 Hd) as (li & Hli & Hsi). cbn in Hsi.
  apply (gravity_fixed fuel r1 a f0 li).
  - eapply only_moments_subtree; eassumption.
  - eapply NoDup_join_lookup; eassumption.
  - assumption.
  - intros n Hn. apply (Hset k a li n); [lia | assumption..].
Qed.

Lemma aggregation_is_idempotent_witness :
  exists r1, tree_update_gravity_data 2 settled = Ok r1
             /\ tree_update_gravity_data 2 r1 = Ok r1.
Proof.
  destruct (tree_update_gravity_data 2 settled) as [r1| |] eqn:E;
    [|vm_compute in E; discriminate E..].
  exists r1. split; [reflexivity|].
  apply (aggregation_is_idempotent 2 2 settled r1 [[1; 2; 3]%positive]);
    [apply two_leaves_forest | lia | exact E].
Defined.

(** ** A pass as a whole *)

(** *** A pass only prunes *)

Lemma roots_pruned_refl s : roots_pruned s s.
Proof. split; auto. Qed.

Lemma roots_pruned_trans s1 s2 s3 :
  roots_pruned s1 s2 -> roots_pruned s2 s3 -> roots_pruned s1 s3.
Proof. intros [L1 H1] [L2 H2]. split; [congruence | auto]. Qed.

Lemma update_root_pruned fuel s i s' :
  update_root fuel s i = Ok s' -> roots_pruned s s'.
Proof.
  unfold update_root, update_slot. intros H.
  bind_inv H as d Hd. apply root_at_spec in Hd as [Hi Hd].
  bind_inv H as [s1 d'] H1. apply steady_tree_update_cell in H1 as [[_ HT] Hret].
  apply set_root_Ok in H as (rs & Hrs & Hlt & _ & ->).
  assert (Hroots : roots s = rs) by (unfold roots; rewrite <- HT, Hrs; reflexivity).
  unfold roots_pruned, roots at 1 3. cbn. rewrite Hroots, length_insert.
  split; [reflexivity|]. intros j x Hx.
  destruct (decide (j = Z.to_nat i)) as [->|Hne].
  - apply list_lookup_insert_Some in Hx as [(_ & Hx & _)|[? _]]; [|done].
    destruct Hret as [->| ->]; [discriminate|]. rewrite <- Hroots, Hd, <- Hx. reflexivity.
  - rewrite list_lookup_insert_ne in Hx by done. exact Hx.
Qed.

Lemma tree_update_pruned fuel r r' :
  tree_update fuel r = Ok r' -> roots_pruned (ensure_tree_root r) r'.
Proof.
  unfold tree_update.
  apply (for_each_preserves roots_pruned); [apply roots_pruned_refl | apply roots_pruned_trans|].
  intros s i s' _. apply update_root_pruned.
Qed.

(** *** A pass keeps the state well-formed *)

Lemma collect_lists {A B} (P : A -> list B -> Prop) (Q : list B -> list B -> Prop) ds ls :
  Forall2 (fun d l => exists l', P d l' /\ Q l' l) ds ls ->
  exists ls', Forall2 P ds ls' /\ Forall2 Q ls' ls.
Proof.
  induction 1 as [|d l ds ls (l' & HP & HQ) _ (ls' & H1 & H2)].
  - exists []. split; constructor.
  - exists (l' :: ls'). split; constructor; assumption.
Qed.

Lemma maintenance_forest G fuel r r' :
  well_formed r -> (G -> nested r) -> tree_update fuel r = Ok r' ->
  pass_invariant G r' /\ exists f1 ls', forest f1 r' ls'.
Proof.
  intros (HF & I4 & I2) HG H. unfold tree_update, update_root in H.
  destruct (forest_ensure r HF) as (f0 & ls & Hls & Hnd).
  assert (Hinv : pass_invariant G (ensure_tree_root r))
    by (apply invariant_ensure; repeat split; assumption).
  assert (Hst : slots_state G fuel roots f0 0 (ensure_tree_root r) ls).
  { split; [eapply Forall2_length; eassumption|].
    intros i d l Hd Hl. rewrite bool_decide_eq_false_2 by lia.
    exact (Forall2_lookup_lr _ _ _ _ _ _ Hls Hd Hl). }
  unfold upto in H.
  destruct (slot_loop G fuel (update_spec_all G fuel) [] (fun _ => True) roots root_at
              set_root root_at_spec (set_root_spec G) roots_frame
              f0 _ 0 _ ls r' Hinv I Hnd Hst H)
    as (Hinv' & _ & [Hlen' Hst'] & _ & _).
  split; [assumption|]. exists (Nat.max fuel f0).
  destruct (collect_lists
              (fun d l' => subtree (Nat.max fuel f0) (cells r') d = Some l')
              (fun l' l => l' ⊆ l /\ NoDup l') (roots r') ls) as (ls' & H1 & H2).
  { apply Forall2_same_length_lookup. split; [assumption|].
    intros i d l Hd Hl. specialize (Hst' i d l Hd Hl).
    destruct (bool_decide _); cbn in Hst'.
    - destruct Hst' as (l' & Hsub & Hincl & Hndl & _). exists l'.
      split; [eapply subtree_mono; [eassumption | lia] | auto].
    - exists l. split; [eapply subtree_mono; [eassumption | lia]|].
      split; [done | eapply NoDup_join_lookup; eassumption]. }
  exists ls'. split; [assumption|]. eapply NoDup_join_sub; eassumption.
Qed.

(** X4.  A maintenance pass only prunes.  It allocates no cell; a cell that
    is still allocated has its geometry and its eight slots, and every child
    pointer it holds it held before in the same slot; the root array keeps
    its length and a root slot that is not NULL after the pass held the same
    cell before. *)
Theorem maintenance_only_prunes (fuel : nat) (r r' : Rebound) :
  tree_update fuel r = Ok r' ->
  (forall b c', cells r' !! b = Some c' ->
                exists c, cells r !! b = Some c /\ geometry c' = geometry c
                          /\ length (cell_oct c') = length (cell_oct c)
                          /\ forall o d, cell_oct c' !! o = Some (Some d) ->
                                         cell_oct c !! o = Some (Some d))
  /\ length (roots r') = length (roots (ensure_tree_root r))
  /\ forall i d, roots r' !! i = Some (Some d) ->
                 roots (ensure_tree_root r) !! i = Some (Some d).
Proof.
  intros H. split.
  - intros b c' Hb. destruct (tree_update_evolves _ _ _ H) as [Hc _].
    destruct (Hc _ _ Hb) as (c & Hcb & K). exists c. split; [assumption | exact K].
  - exact (tree_update_pruned _ _ _ H).
Qed.

Lemma maintenance_only_prunes_witness :
  length (roots strayed_maintained) = 1%nat
  /\ forall b c', cells strayed_maintained !! b = Some c' ->
                  exists c, cells strayed !! b = Some c /\ geometry c' = geometry c.
Proof.
  destruct (maintenance_only_prunes 2 strayed strayed_maintained
              ltac:(vm_compute; reflexivity)) as (Hcells & Hlen & _).
  split; [exact Hlen|]. intros b c' Hb.
  destruct (Hcells b c' Hb) as (c & Hc & G & _). eauto.
Defined.

(** X5.  A maintenance pass keeps the state well-formed: the root trees of
    the result are trees that share no cell, a back-reference that points to
    an allocated cell points to the leaf that stores the particle's index,
    and no two leaves store the same index.  The next pass therefore starts
    from a state of the same kind. *)
Theorem pass_keeps_well_formed (fuel : nat) (r r' : Rebound) :
  well_formed r -> tree_update fuel r = Ok r' -> well_formed r'.
Proof.
  intros Hwf H.
  destruct (maintenance_forest False fuel r r' Hwf ltac:(tauto) H)
    as ((HB & HL & _) & HF).
  repeat split; assumption.
Qed.

Lemma pass_keeps_well_formed_witness : well_formed strayed_maintained.
Proof.
  apply (pass_keeps_well_formed 2 strayed).
  - apply sim_two_leaves_well_formed; reflexivity.
  - vm_compute. reflexivity.
Defined.

(** X6.  After a pass over a well-formed state in which box nesting holds
    for the containment test, every leaf of every root tree that the loop
    visited holds a particle that passes the containment test of that leaf:
    [tree_particle_is_inside_cell] returns 1 on it. *)
Theorem after_a_pass_particles_are_inside (fuel : nat) (r r' : Rebound) (i : nat)
    (a : addr) :
  well_formed r -> nested r -> tree_update fuel r = Ok r' ->
  (i < Z.to_nat (root_n r))%nat -> roots r' !! i = Some (Some a) ->
  exists l,
    subtree fuel (cells r') (Some a) = Some l
    /\ forall n c, n ∈ l -> cells r' !! n = Some c -> 0 <= cell_pt c ->
                   tree_particle_is_inside_cell r' n = Ok 1.
Proof.
  intros Hwf Hnest H Hi Ha.
  destruct (maintained_roots True fuel r r' i a Hwf (fun _ => Hnest) H Hi Ha)
    as (l & Hsub & _ & Hok).
  exists l. split; [assumption|]. intros n c Hn Hc Hpt.
  destruct (node_ok_leaf _ _ _ _ (Hok n Hn) Hc Hpt) as (p & Hp & _ & Hin).
  rewrite (inside_eq r' n c p Hc Hpt Hp), (Hin I). reflexivity.
Qed.

Lemma after_a_pass_particles_are_inside_witness :
  tree_particle_is_inside_cell strayed_maintained 1%positive = Ok 1.
Proof.
  destruct (after_a_pass_particles_are_inside 2 strayed strayed_maintained 0 1%positive)
    as (l & Hsub & Hl).
  - apply sim_two_leaves_well_formed; reflexivity.
  - apply strayed_nested.
  - vm_compute. reflexivity.
  - vm_compute. lia.
  - reflexivity.
  - apply (Hl 1%positive (leaf_cell 0 0 0 1 0)).
    + eapply subtree_root_in. eassumption.
    + reflexivity.
    + cbn. lia.
Defined.

(** *** A pass over no tree *)

Lemma for_each_app {S I} (l1 l2 : list I) (body : S -> I -> result S) s :
  for_each (l1 ++ l2) body s = (s' ← for_each l1 body s; for_each l2 body s').
Proof.
  revert s. induction l1 as [|i l1 IH]; intros s; [reflexivity|].
  cbn. destruct (body s i); cbn; [apply IH | reflexivity..].
Qed.

Lemma update_null_root fuel s k :
  roots s !! k = Some None -> update_root (S fuel) s (Z.of_nat k) = Ok s.
Proof.
  intros Hk. unfold update_root, update_slot.
  rewrite (root_at_eq s (Z.of_nat k) None) by (rewrite ?Nat2Z.id; first [lia | assumption]).
  cbn [mbind result_bind tree_update_cell].
  apply set_root_id; [lia | rewrite Nat2Z.id; assumption].
Qed.

Lemma update_missing_root fuel s k :
  (length (roots s) <= k)%nat -> update_root fuel s (Z.of_nat k) = Fault.
Proof.
  intros Hk. unfold update_root, update_slot, root_at, roots in *.
  destruct (tree_root s) as [rs|]; [|reflexivity]. cbn in Hk.
  destruct (Z.leb_spec 0 (Z.of_nat k)); [|lia].
  rewrite Nat2Z.id, lookup_ge_None_2 by assumption. reflexivity.
Qed.

(** X7.  On a forest without trees - the root array not yet allocated, or
    all its slots NULL - a pass allocates the array of
    [root_nx*root_ny*root_nz] NULL slots if there is none and changes nothing
    else; but when [root_n] is larger than that array, the loop reads
    [tree_root] past its end. *)
Theorem pass_over_no_tree (fuel : nat) (r : Rebound) :
  (forall i d, roots (ensure_tree_root r) !! i = Some d -> d = None) ->
  ((Z.to_nat (root_n r) <= length (roots (ensure_tree_root r)))%nat ->
   tree_update (S fuel) r = Ok (ensure_tree_root r))
  /\ ((length (roots (ensure_tree_root r)) < Z.to_nat (root_n r))%nat ->
      tree_update (S fuel) r = Fault).
Proof.
  intros Hnull. set (s := ensure_tree_root r) in *.
  assert (Hfix : forall k, (k <= length (roots s))%nat ->
                           for_each (Z.of_nat <$> seq 0 k) (update_root (S fuel)) s = Ok s).
  { intros k Hk. apply for_each_fixed. intros i Hi.
    apply list_elem_of_fmap in Hi as (j & -> & Hj). apply elem_of_seq in Hj.
    apply update_null_root.
    assert (Hlt : (j < length (roots s))%nat) by lia.
    destruct (lookup_lt_is_Some_2 _ _ Hlt) as [d Hd]. rewrite Hd, (Hnull j d Hd).
    reflexivity. }
  unfold tree_update, upto. fold s. split; [apply Hfix|].
  intros Hlt.
  replace (Z.to_nat (root_n r))
    with (length (roots s) + S (Z.to_nat (root_n r) - S (length (roots s))))%nat by lia.
  rewrite seq_app, fmap_app, for_each_app, Hfix by lia.
  cbn [mbind result_bind seq fmap list_fmap for_each].
  rewrite update_missing_root by lia. reflexivity.
Qed.

Lemma pass_over_no_tree_witness :
  tree_update 1 origin_box = Ok (ensure_tree_root origin_box).
Proof.
  apply (pass_over_no_tree 0 origin_box).
  - intros i d Hd. change (roots (ensure_tree_root origin_box)) with [@None addr] in Hd.
    destruct i as [|[|i]]; cbn in Hd; congruence.
  - vm_compute. lia.
Defined.

(** ** Insertion as a whole *)

(** *** The new leaf *)

Lemma cells_stay_fresh r r' n : cells_stay r r' -> cells r' !! n = None -> cells r !! n = None.
Proof.
  intros H Hn. destruct (cells r !! n) as [c|] eqn:E; [|reflexivity].
  destruct (H _ _ E) as (c' & Hc' & _). congruence.
Qed.

Lemma new_node_placed r pt parent o r' a :
  new_node r pt parent o = Ok (r', a) -> placed r r' pt.
Proof.
  intros H. pose proof H as H0. rewrite new_node_eq in H0.
  bind_inv H0 as p Hp. bind_inv H0 as g Hg. injection H0 as <- <-.
  apply particle_at_Ok in Hp as [Hpt Hp].
  destruct (new_node_leaf _ _ _ _ _ _ H) as (Hfresh & c & Hc & Hcpt & _ & Hoct).
  exists (fresh (dom (cells r))), c, (set_c p (Some (fresh (dom (cells r))))).
  repeat split; try assumption.
  destruct g as [[[x y] z] w]. cbn. apply list_lookup_insert_eq.
  eapply lookup_lt_Some. eassumption.
Qed.

Lemma placed_store_after r r' a c r2 pt :
  placed r r' pt -> is_Some (cells r !! a) -> store r' a c = Ok r2 -> placed r r2 pt.
Proof.
  intros (n & cn & p' & Hfresh & Hn & Hpt & Hpos & Hoct & Hp & Hc) [ca Ha] H.
  apply store_Ok in H as [_ ->]. exists n, cn, p'.
  split; [assumption|]. split; [|auto].
  cbn. rewrite lookup_insert_ne by (intros ->; congruence). assumption.
Qed.

Lemma placed_before r0 r r' pt : cells_stay r0 r -> placed r r' pt -> placed r0 r' pt.
Proof.
  intros Hs (n & cn & p' & Hfresh & H). exists n, cn, p'.
  split; [eapply cells_stay_fresh; eassumption | exact H].
Qed.

Lemma add_to_octant_placed add r a pt o r' :
  (forall r d pt parent o r' ret, add r d pt parent o = Ok (r', ret) -> placed r r' pt) ->
  add_to_octant add r a pt o = Ok r' -> placed r r' pt.
Proof.
  intros Hadd H. unfold add_to_octant in H.
  bind_inv H as c Hc. apply load_Ok in Hc. bind_inv H as d Hd.
  bind_inv H as [r1 d'] H1. bind_inv H as c1 Hc1.
  eapply placed_store_after; [eapply Hadd; eassumption | eauto | eassumption].
Qed.

Lemma add_placed fuel : forall r d pt parent o r' ret,
  tree_add_particle_to_cell fuel r d pt parent o = Ok (r', ret) -> placed r r' pt.
Proof.
  induction fuel as [|fuel IH]; intros r d pt parent o r' ret H; [discriminate|].
  cbn [tree_add_particle_to_cell] in H.
  destruct d as [a|]; [|eapply new_node_placed; eassumption].
  bind_inv H as c Hc. apply load_Ok in Hc. destruct (0 <=? cell_pt c).
  - bind_inv H as q Hq. bind_inv H as r1 Hr1. bind_inv H as p Hp.
    bind_inv H as c1 Hc1. apply load_Ok in Hc1. bind_inv H as r2 Hr2.
    bind_inv H as c2 Hc2. bind_inv H as r3 Hr3. injection H as <- _.
    eapply (placed_before r r1);
      [eapply add_to_octant_stays; [apply add_stays | eassumption]|].
    eapply placed_store_after; [eapply add_to_octant_placed; eassumption | eauto | eassumption].
  - bind_inv H as r1 Hr1. bind_inv H as p Hp. bind_inv H as c1 Hc1.
    bind_inv H as r2 Hr2. injection H as <- _.
    eapply (placed_before r r1); [|eapply add_to_octant_placed; eassumption].
    eapply cells_stay_store; [| |eassumption]; [eassumption | reflexivity].
Qed.

(** *** The particles *)

Lemma same_bodies_refl r : same_bodies r r.
Proof. split; [|reflexivity]. apply Forall_Forall2_diag, Forall_forall. intros; apply same_body_refl. Qed.

Lemma same_bodies_trans r1 r2 r3 : same_bodies r1 r2 -> same_bodies r2 r3 -> same_bodies r1 r3.
Proof.
  intros [H1 N1] [H2 N2]. split; [|congruence].
  eapply Forall2_trans; [|eassumption..]. intros; eapply same_body_trans; eassumption.
Qed.

Lemma same_bodies_cells r h : same_bodies r (with_cells r h).
Proof. exact (same_bodies_refl r). Qed.

Lemma same_bodies_store r a c r' : store r a c = Ok r' -> same_bodies r r'.
Proof. intros H. apply store_Ok in H as [_ ->]. apply same_bodies_cells. Qed.

Lemma same_bodies_new_node r pt parent o r' a :
  new_node r pt parent o = Ok (r', a) -> same_bodies r r'.
Proof.
  rewrite new_node_eq. intros H. bind_inv H as p Hp. bind_inv H as g Hg.
  injection H as <- _. apply particle_at_Ok in Hp as [_ Hp].
  destruct g as [[[x y] z] w]. split; [|reflexivity]. cbn.
  apply Forall2_same_length_lookup. split; [rewrite length_insert; reflexivity|].
  intros i p1 p2 H1 H2.
  apply list_lookup_insert_Some in H2 as [(Hi & <- & _)|[_ H2]].
  - subst i. rewrite Hp in H1. injection H1 as <-. apply same_body_set_c.
  - rewrite H1 in H2. injection H2 as <-. apply same_body_refl.
Qed.

Lemma same_bodies_add fuel : forall r d pt parent o r' ret,
  tree_add_particle_to_cell fuel r d pt parent o = Ok (r', ret) -> same_bodies r r'.
Proof.
  induction fuel as [|fuel IH]; intros r d pt parent o r' ret H; [discriminate|].
  assert (Hoct : forall s a i o s',
            add_to_octant (tree_add_particle_to_cell fuel) s a i o = Ok s' ->
            same_bodies s s').
  { intros s a i oo s' Hs. unfold add_to_octant in Hs.
    bind_inv Hs as c Hc. bind_inv Hs as d0 Hd. bind_inv Hs as [s1 d'] Hs1.
    bind_inv Hs as c1 Hc1.
    eapply same_bodies_trans; [eapply IH; eassumption | eapply same_bodies_store; eassumption]. }
  cbn [tree_add_particle_to_cell] in H.
  destruct d as [a|]; [|eapply same_bodies_new_node; eassumption].
  bind_inv H as c Hc. destruct (0 <=? cell_pt c).
  - bind_inv H as q Hq. bind_inv H as r1 Hr1. bind_inv H as p Hp.
    bind_inv H as c1 Hc1. bind_inv H as r2 Hr2.
    bind_inv H as c2 Hc2. bind_inv H as r3 Hr3. injection H as <- _.
    eapply same_bodies_trans; [eapply Hoct; eassumption|].
    eapply same_bodies_trans; [eapply Hoct; eassumption|].
    eapply same_bodies_store; eassumption.
  - bind_inv H as r1 Hr1. bind_inv H as p Hp. bind_inv H as c1 Hc1.
    bind_inv H as r2 Hr2. injection H as <- _.
    eapply same_bodies_trans; [eapply same_bodies_store; eassumption|].
    eapply Hoct; eassumption.
Qed.

Lemma add_keeps_root_array fuel : forall s d pt parent o r1 a,
  tree_add_particle_to_cell fuel s d pt parent o = Ok (r1, a) ->
  tree_root r1 = tree_root s.
Proof.
  induction fuel as [|fuel IH]; intros s d pt parent o r1 a H; [discriminate|].
  assert (Hoct : forall s a i o s',
            add_to_octant (tree_add_particle_to_cell fuel) s a i o = Ok s' ->
            tree_root s' = tree_root s).
  { intros s0 a0 i oo s' Hs. unfold add_to_octant in Hs.
    bind_inv Hs as c Hc. bind_inv Hs as d0 Hd. bind_inv Hs as [s1 d'] Hs1.
    bind_inv Hs as c1 Hc1. apply store_Ok in Hs as [_ ->]. cbn. eapply IH. eassumption. }
  cbn [tree_add_particle_to_cell] in H. destruct d as [a0|].
  - bind_inv H as c Hc. destruct (0 <=? cell_pt c).
    + bind_inv H as q Hq. bind_inv H as s1 Hs1. bind_inv H as p Hp.
      bind_inv H as c1 Hc1. bind_inv H as s2 Hs2.
      bind_inv H as c2 Hc2. bind_inv H as s3 Hs3. injection H as <- _.
      apply store_Ok in Hs3 as [_ ->]. cbn.
      rewrite (Hoct _ _ _ _ _ Hs2). eapply Hoct. eassumption.
    + bind_inv H as s1 Hs1. bind_inv H as p Hp. bind_inv H as c1 Hc1.
      bind_inv H as s2 Hs2. injection H as <- _.
      apply store_Ok in Hs1 as [_ ->]. rewrite (Hoct _ _ _ _ _ Hs2). reflexivity.
  - rewrite new_node_eq in H. bind_inv H as p Hp. bind_inv H as g Hg.
    injection H as <- _. destruct g as [[[x y] z] w]. reflexivity.
Qed.

(** The steps of a successful [tree_add_particle_to_tree]. *)
Lemma insertion_inv fuel r pt r' :
  tree_add_particle_to_tree fuel r pt = Ok r' ->
  exists p k d r1 a,
    particles r !! Z.to_nat pt = Some p /\ 0 <= pt
    /\ particles_get_rootbox_for_particle (ensure_tree_root r) p = Ok k
    /\ 0 <= k /\ roots (ensure_tree_root r) !! Z.to_nat k = Some d
    /\ tree_add_particle_to_cell fuel (ensure_tree_root r) d pt None 0 = Ok (r1, a)
    /\ r' = with_tree_root r1 (Some (<[Z.to_nat k := Some a]> (roots (ensure_tree_root r)))).
Proof.
  unfold tree_add_particle_to_tree. intros H.
  bind_inv H as p Hp. apply particle_at_Ok in Hp as [Hpt Hp].
  bind_inv H as k Hk. bind_inv H as d Hd. apply root_at_spec in Hd as [Hk0 Hd].
  bind_inv H as [r1 a] H1. apply set_root_Ok in H as (rs & Hrs & _ & _ & ->).
  exists p, k, d, r1, a.
  split; [unfold ensure_tree_root in Hp; destruct (tree_root r); exact Hp|].
  do 5 (split; [assumption|]).
  unfold roots. rewrite <- (add_keeps_root_array _ _ _ _ _ _ _ _ H1), Hrs. reflexivity.
Qed.

(** X8.  A successful insertion of particle [pt] gives the particle a new
    leaf: a cell that was not allocated before, without children, that stores
    [pt]; the back-reference of the particle is that cell, and its position
    and mass are as before. *)
Theorem insertion_gives_a_new_leaf (fuel : nat) (r : Rebound) (pt : Z) (r' : Rebound) :
  tree_add_particle_to_tree fuel r pt = Ok r' ->
  exists n c p p',
    cells r !! n = None /\ cells r' !! n = Some c
    /\ cell_pt c = pt /\ cell_oct c = replicate 8 None
    /\ particles r !! Z.to_nat pt = Some p
    /\ particles r' !! Z.to_nat pt = Some p'
    /\ part_c p' = Some n /\ same_body p p'.
Proof.
  intros H. destruct (insertion_inv _ _ _ _ H)
    as (p & k & d & r1 & a & Hp & Hpt & _ & _ & _ & H1 & ->).
  destruct (add_placed _ _ _ _ _ _ _ _ H1)
    as (n & c & p' & Hfresh & Hn & Hcpt & _ & Hoct & Hp' & Hc).
  destruct (same_bodies_add _ _ _ _ _ _ _ _ H1) as [HB _].
  exists n, c, p, p'. rewrite cells_ensure in Hfresh.
  repeat split; try assumption.
  all: eapply (Forall2_lookup_lr _ _ _ _ _ _ HB); [|exact Hp'];
    unfold ensure_tree_root; destruct (tree_root r); exact Hp.
Qed.

Lemma insertion_gives_a_new_leaf_witness :
  exists r' n c, tree_add_particle_to_tree 2 settled_plus 2 = Ok r'
                 /\ cells settled_plus !! n = None /\ cells r' !! n = Some c
                 /\ cell_pt c = 2.
Proof.
  destruct (tree_add_particle_to_tree 2 settled_plus 2) as [r'| |] eqn:E;
    [|vm_compute in E; discriminate E..].
  destruct (insertion_gives_a_new_leaf 2 settled_plus 2 r' E)
    as (n & c & p & p' & Hfresh & Hn & Hpt & _).
  exists r', n, c. auto.
Defined.

(** X9.  Insertion moves no particle: the particle array has the same
    length and order, every particle has the position and the mass it had -
    only back-references change - and [N] is unchanged. *)
Theorem insertion_moves_no_particle (fuel : nat) (r : Rebound) (pt : Z) (r' : Rebound) :
  tree_add_particle_to_tree fuel r pt = Ok r' ->
  N r' = N r /\ length (particles r') = length (particles r)
  /\ forall i p p', particles r !! i = Some p -> particles r' !! i = Some p' ->
                    part_x p' = part_x p /\ part_y p' = part_y p
                    /\ part_z p' = part_z p /\ part_m p' = part_m p.
Proof.
  intros H. destruct (insertion_inv _ _ _ _ H)
    as (p & k & d & r1 & a & _ & _ & _ & _ & _ & H1 & ->).
  destruct (same_bodies_add _ _ _ _ _ _ _ _ H1) as [HB HN].
  assert (HP : particles (ensure_tree_root r) = particles r)
    by (unfold ensure_tree_root; destruct (tree_root r); reflexivity).
  assert (HN0 : N (ensure_tree_root r) = N r)
    by (unfold ensure_tree_root; destruct (tree_root r); reflexivity).
  rewrite HP in HB. cbn. split; [congruence|].
  split; [symmetry; eapply Forall2_length; eassumption|].
  intros i q q' Hq Hq'. exact (Forall2_lookup_lr _ _ _ _ _ _ HB Hq Hq').
Qed.

Lemma insertion_moves_no_particle_witness :
  exists r', tree_add_particle_to_tree 2 settled_plus 2 = Ok r'
             /\ length (particles r') = 3%nat.
Proof.
  destruct (tree_add_particle_to_tree 2 settled_plus 2) as [r'| |] eqn:E;
    [|vm_compute in E; discriminate E..].
  destruct (insertion_moves_no_particle 2 settled_plus 2 r' E) as (_ & Hlen & _).
  exists r'. split; [reflexivity | exact Hlen].
Defined.

(** *** The insertion in an empty slot, forwards *)

Lemma new_child_eq r a c pt o p :
  cells r !! a = Some c -> particles r !! Z.to_nat pt = Some p -> 0 <= pt ->
  new_node r pt (Some a) o
  = Ok (created r (fresh (dom (cells r))) pt p (child_geometry c o),
        fresh (dom (cells r))).
Proof.
  intros Ha Hp Hpt. rewrite new_node_eq, (particle_at_eq _ _ p) by assumption.
  cbn [mbind result_bind new_geometry].
  rewrite (load_eq _ a c).
  - reflexivity.
  - cbn. rewrite lookup_insert_ne; [assumption|].
    intros E. rewrite <- E, fresh_cell in Ha. discriminate.
Qed.

Lemma add_to_empty_octant_eq fuel r a c pt o p :
  cells r !! a = Some c -> 0 <= o < 8 -> cell_oct c !! Z.to_nat o = Some None ->
  particles r !! Z.to_nat pt = Some p -> 0 <= pt ->
  add_to_octant (tree_add_particle_to_cell (S fuel)) r a pt o = Ok (grown r a c pt o p).
Proof.
  intros Ha Ho Hslot Hp Hpt. unfold add_to_octant.
  rewrite (load_eq _ _ _ Ha). cbn [mbind result_bind].
  rewrite (oct_at_eq _ _ None) by assumption. cbn [mbind result_bind tree_add_particle_to_cell].
  rewrite (new_child_eq r a c pt o p) by assumption. cbn [mbind result_bind].
  assert (Hne : fresh (dom (cells r)) <> a)
    by (intros E; rewrite <- E, fresh_cell in Ha; discriminate).
  assert (Hc : cells (created r (fresh (dom (cells r))) pt p (child_geometry c o)) !! a
               = Some c).
  { rewrite created_frame by eauto. assumption. }
  rewrite (load_eq _ _ _ Hc). cbn [mbind result_bind].
  rewrite (store_eq _ _ _ _ Hc). reflexivity.
Qed.

Lemma grown_cells r a c pt o p :
  cells r !! a = Some c ->
  cells (grown r a c pt o p)
  = <[a := set_oct c o (Some (fresh (dom (cells r))))]>
      (<[fresh (dom (cells r))
         := let '(x, y, z, w) := child_geometry c o in
            set_pt (set_geometry zero_cell x y z w) pt]> (cells r)).
Proof. intros _. reflexivity. Qed.

Lemma grown_particles r a c pt o p :
  particles (grown r a c pt o p)
  = <[Z.to_nat pt := set_c p (Some (fresh (dom (cells r))))]> (particles r).
Proof. reflexivity. Qed.

Lemma octant_coincide p q c c' :
  coincide p q -> geometry c' = geometry c ->
  tree_get_octant_for_particle_in_cell p c' = tree_get_octant_for_particle_in_cell q c.
Proof.
  intros (Hx & Hy & Hz) G. unfold tree_get_octant_for_particle_in_cell.
  injection G as -> -> -> _. rewrite Hx, Hy, Hz. reflexivity.
Qed.

(** *** Two particles at one position *)

Lemma coincident_never_returns fuel : forall r a c q p pt parent o0,
  cells r !! a = Some c -> 0 <= cell_pt c -> cell_oct c = replicate 8 None ->
  particles r !! Z.to_nat (cell_pt c) = Some q ->
  particles r !! Z.to_nat pt = Some p -> 0 <= pt -> coincide p q ->
  tree_add_particle_to_cell fuel r (Some a) pt parent o0 = OutOfFuel.
Proof.
  induction fuel as [|fuel IH]; intros r a c q p pt parent o0 Ha Hleaf Hoct Hq Hp Hpt Hco;
    [reflexivity|].
  cbn [tree_add_particle_to_cell]. rewrite (load_eq _ _ _ Ha). cbn [mbind result_bind].
  destruct (Z.leb_spec 0 (cell_pt c)); [|lia].
  rewrite (particle_at_eq _ _ q) by assumption. cbn [mbind result_bind].
  set (oq := tree_get_octant_for_particle_in_cell q c).
  pose proof (octant_range q c) as Hoq. fold oq in Hoq.
  assert (Hslot : cell_oct c !! Z.to_nat oq = Some None).
  { rewrite Hoct. apply lookup_replicate. split; [reflexivity | lia]. }
  destruct fuel as [|fuel].
  { unfold add_to_octant. rewrite (load_eq _ _ _ Ha). cbn [mbind result_bind].
    rewrite (oct_at_eq _ _ None) by assumption. reflexivity. }
  rewrite (add_to_empty_octant_eq fuel r a c (cell_pt c) oq q) by assumption.
  cbn [mbind result_bind].
  set (d := fresh (dom (cells r))). set (r1 := grown r a c (cell_pt c) oq q).
  assert (Hda : d <> a) by (intros E; unfold d in E; rewrite <- E, fresh_cell in Ha; discriminate).
  assert (Hlen : (Z.to_nat (cell_pt c) < length (particles r))%nat)
    by (eapply lookup_lt_Some; eassumption).
  assert (Hq1 : particles r1 !! Z.to_nat (cell_pt c) = Some (set_c q (Some d))).
  { unfold r1. rewrite grown_particles. apply list_lookup_insert_eq. assumption. }
  assert (Hp1 : exists p1, particles r1 !! Z.to_nat pt = Some p1 /\ coincide p1 q).
  { destruct (decide (Z.to_nat pt = Z.to_nat (cell_pt c))) as [E|E].
    - rewrite E. exists (set_c q (Some d)). split; [assumption | repeat split].
    - exists p. split; [|assumption]. unfold r1. rewrite grown_particles.
      rewrite list_lookup_insert_ne by auto. assumption. }
  destruct Hp1 as (p1 & Hp1 & Hco1).
  rewrite (particle_at_eq _ _ p1) by assumption. cbn [mbind result_bind].
  assert (Ha1 : cells r1 !! a = Some (set_oct c oq (Some d))).
  { unfold r1. rewrite grown_cells by assumption. apply lookup_insert_eq. }
  rewrite (load_eq _ _ _ Ha1). cbn [mbind result_bind].
  rewrite (octant_coincide p1 q c (set_oct c oq (Some d)) Hco1 eq_refl). fold oq.
  unfold add_to_octant at 1. rewrite (load_eq _ _ _ Ha1). cbn [mbind result_bind].
  rewrite (oct_at_eq _ _ (Some d))
    by (first [assumption | cbn; apply list_lookup_insert_eq; rewrite Hoct, length_replicate; lia]).
  cbn [mbind result_bind].
  erewrite (IH r1 d _ (set_c q (Some d)) p1 pt (Some a) oq); [reflexivity | | | | | | | ].
  - unfold r1. rewrite grown_cells by assumption.
    rewrite lookup_insert_ne by (intros E; apply Hda; symmetry; exact E).
    apply lookup_insert_eq.
  - destruct (child_geometry c oq) as [[[x y] z] w]. cbn. lia.
  - destruct (child_geometry c oq) as [[[x y] z] w]. reflexivity.
  - destruct (child_geometry c oq) as [[[x y] z] w]. cbn [cell_pt set_pt]. exact Hq1.
  - exact Hp1.
  - assumption.
  - destruct Hco1 as (? & ? & ?). repeat split; assumption.
Qed.

(** *** Splitting a leaf *)

Lemma created_cells r d pt p g :
  cells (created r d pt p g) = <[d := new_leaf g pt]> (cells r).
Proof. destruct g as [[[x y] z] w]. reflexivity. Qed.

Lemma created_particles r d pt p g :
  particles (created r d pt p g) = <[Z.to_nat pt := set_c p (Some d)]> (particles r).
Proof. destruct g as [[[x y] z] w]. reflexivity. Qed.

(** X10.  Splitting a leaf.  When the particle of a leaf and the inserted
    particle lie in different octants of the leaf's cell, two units of fuel
    suffice: the cell becomes a branch with [pt = -2] and returns itself, each
    of the two particles gets a new leaf in a fresh cell, in its octant, with
    half the width and the center a quarter of the width away, and the
    back-reference of each particle is its new leaf.  No other cell
    changes. *)
Theorem leaf_split (fuel : nat) (r : Rebound) (a : addr) (c : cell) (q p : Particle)
    (pt : Z) (parent : option addr) (o0 : Z) :
  cells r !! a = Some c -> 0 <= cell_pt c -> cell_oct c = replicate 8 None ->
  particles r !! Z.to_nat (cell_pt c) = Some q ->
  particles r !! Z.to_nat pt = Some p -> 0 <= pt ->
  tree_get_octant_for_particle_in_cell q c <> tree_get_octant_for_particle_in_cell p c ->
  let oq := tree_get_octant_for_particle_in_cell q c in
  let op := tree_get_octant_for_particle_in_cell p c in
  exists r' dq dp,
    tree_add_particle_to_cell (S (S fuel)) r (Some a) pt parent o0 = Ok (r', a)
    /\ cells r !! dq = None /\ cells r !! dp = None /\ dq <> dp
    /\ cells r' !! a
       = Some (set_pt (set_oct (set_oct c oq (Some dq)) op (Some dp)) (-2))
    /\ cells r' !! dq = Some (new_leaf (child_geometry c oq) (cell_pt c))
    /\ cells r' !! dp = Some (new_leaf (child_geometry c op) pt)
    /\ particles r'
       = <[Z.to_nat pt := set_c p (Some dp)]>
           (<[Z.to_nat (cell_pt c) := set_c q (Some dq)]> (particles r))
    /\ forall b, b <> a -> b <> dq -> b <> dp -> cells r' !! b = cells r !! b.
Proof.
  intros Ha Hleaf Hoct Hq Hp Hpt Hne oq op.
  pose proof (octant_range q c) as Hoq. fold oq in Hoq.
  pose proof (octant_range p c) as Hop. fold op in Hop.
  assert (Hidx : Z.to_nat pt <> Z.to_nat (cell_pt c)).
  { intros E. rewrite E, Hq in Hp. injection Hp as <-. apply Hne. reflexivity. }
  assert (Hoo : Z.to_nat oq <> Z.to_nat op) by (fold oq op in Hne; lia).
  set (dq := fresh (dom (cells r))).
  set (r1 := grown r a c (cell_pt c) oq q).
  set (c1 := set_oct c oq (Some dq)).
  set (dp := fresh (dom (cells r1))).
  set (r2 := grown r1 a c1 pt op p).
  set (c2 := set_oct c1 op (Some dp)).
  assert (Hdq : cells r !! dq = None) by apply fresh_cell.
  assert (Hdqa : dq <> a) by (intros E; rewrite E, Ha in Hdq; discriminate).
  assert (Hc1 : cells r1 !! a = Some c1).
  { unfold r1. rewrite grown_cells by assumption. apply lookup_insert_eq. }
  assert (Hl1 : cells r1 !! dq = Some (new_leaf (child_geometry c oq) (cell_pt c))).
  { unfold r1. rewrite grown_cells by assumption.
    rewrite lookup_insert_ne by (intros E; apply Hdqa; symmetry; exact E).
    apply lookup_insert_eq. }
  assert (Hdp : cells r1 !! dp = None) by apply fresh_cell.
  assert (Hdpa : dp <> a) by (intros E; rewrite E, Hc1 in Hdp; discriminate).
  assert (Hdpq : dq <> dp) by (intros E; rewrite <- E, Hl1 in Hdp; discriminate).
  assert (Hp1 : particles r1 !! Z.to_nat pt = Some p).
  { unfold r1. rewrite grown_particles, list_lookup_insert_ne by auto. assumption. }
  assert (Hc2 : cells r2 !! a = Some c2).
  { unfold r2. rewrite grown_cells by assumption. apply lookup_insert_eq. }
  exists (with_cells r2 (<[a := set_pt c2 (-2)]> (cells r2))), dq, dp.
  split; [|split; [assumption|]; split; [|split; [assumption|]]].
  - remember (S fuel) as f1 eqn:Hf1.
    cbn [tree_add_particle_to_cell]. rewrite (load_eq _ _ _ Ha). cbn [mbind result_bind].
    destruct (Z.leb_spec 0 (cell_pt c)); [|lia].
    rewrite (particle_at_eq _ _ q) by assumption. cbn [mbind result_bind]. fold oq.
    subst f1.
    rewrite (add_to_empty_octant_eq fuel r a c (cell_pt c) oq q); try assumption.
    2:{ rewrite Hoct. apply lookup_replicate. split; [reflexivity | lia]. }
    fold r1. cbn [mbind result_bind].
    rewrite (particle_at_eq _ _ p) by assumption. cbn [mbind result_bind].
    rewrite (load_eq _ _ _ Hc1). cbn [mbind result_bind].
    change (tree_get_octant_for_particle_in_cell p c1) with op.
    rewrite (add_to_empty_octant_eq fuel r1 a c1 pt op p); try assumption.
    2:{ cbn. rewrite list_lookup_insert_ne by assumption. rewrite Hoct.
        apply lookup_replicate. split; [reflexivity | lia]. }
    fold r2. cbn [mbind result_bind].
    rewrite (load_eq _ _ _ Hc2). cbn [mbind result_bind].
    rewrite (store_eq _ _ _ _ Hc2). reflexivity.
  - revert Hdp. generalize dp. intros b Hb. unfold r1 in Hb.
    rewrite grown_cells in Hb by assumption.
    apply lookup_insert_None in Hb as [Hb _].
    apply lookup_insert_None in Hb as [Hb _]. exact Hb.
  - split; [|split; [|split; [|split]]].
    + cbn. rewrite lookup_insert_eq. reflexivity.
    + cbn [cells with_cells]. rewrite lookup_insert_ne by auto.
      unfold r2. rewrite grown_cells by assumption.
      rewrite lookup_insert_ne by auto. rewrite lookup_insert_ne by auto. exact Hl1.
    + cbn [cells with_cells]. rewrite lookup_insert_ne by auto.
      unfold r2. rewrite grown_cells by assumption.
      rewrite lookup_insert_ne by auto. fold dp. rewrite lookup_insert_eq. reflexivity.
    + cbn [particles with_cells]. unfold r2. rewrite grown_particles. fold dp.
      unfold r1. rewrite grown_particles. reflexivity.
    + intros b Hba Hbq Hbp. cbn [cells with_cells]. rewrite lookup_insert_ne by auto.
      unfold r2. rewrite grown_cells by assumption. fold dp.
      rewrite lookup_insert_ne by auto. rewrite lookup_insert_ne by auto.
      unfold r1. rewrite grown_cells by assumption. fold dq.
      rewrite lookup_insert_ne by auto. rewrite lookup_insert_ne by auto. reflexivity.
Qed.

Lemma leaf_split_witness :
  exists r' dq dp,
    tree_add_particle_to_cell 2 lone (Some 1%positive) 1 None 0 = Ok (r', 1%positive)
    /\ cells r' !! dq = Some (leaf_cell 0.25 0.25 0.25 0.5 0)
    /\ cells r' !! dp = Some (leaf_cell (-0.25) (-0.25) (-0.25) 0.5 1).
Proof.
  destruct (leaf_split 0 lone 1%positive (leaf_cell 0 0 0 1 0)
              (mkParticle 0.1 0.1 0.1 1 (Some 1%positive))
              (mkParticle (-0.1) (-0.1) (-0.1) 1 None) 1 None 0)
    as (r' & dq & dp & H & _ & _ & _ & _ & Hq & Hp & _);
    try reflexivity; try (vm_compute; congruence).
  exists r', dq, dp. split; [exact H|]. split; [exact Hq | exact Hp].
Defined.

(** X11.  Two particles at one position.  Inserting a particle at a leaf
    whose own particle has the same coordinates never returns: both particles
    fall in the same octant of every new cell, so the descent does not end,
    whatever the fuel. *)
Theorem coincident_particles_never_return (r : Rebound) (a : addr) (c : cell)
    (q p : Particle) (pt : Z) (parent : option addr) (o0 : Z) :
  cells r !! a = Some c -> 0 <= cell_pt c -> cell_oct c = replicate 8 None ->
  particles r !! Z.to_nat (cell_pt c) = Some q ->
  particles r !! Z.to_nat pt = Some p -> 0 <= pt ->
  part_x p = part_x q -> part_y p = part_y q -> part_z p = part_z q ->
  forall fuel, tree_add_particle_to_cell fuel r (Some a) pt parent o0 = OutOfFuel.
Proof.
  intros Ha Hleaf Hoct Hq Hp Hpt Hx Hy Hz fuel.
  eapply coincident_never_returns; try eassumption. repeat split; assumption.
Qed.

Lemma coincident_particles_never_return_witness :
  tree_add_particle_to_cell 40 twins (Some 2%positive) 2 (Some 1%positive) 0 = OutOfFuel.
Proof.
  apply (coincident_particles_never_return twins 2%positive
           (leaf_cell 0.25 0.25 0.25 0.5 0)
           (mkParticle 0.1 0.1 0.1 1 (Some 2%positive))
           (mkParticle 0.1 0.1 0.1 1 None)); try reflexivity; vm_compute; congruence.
Defined.

(** *** One root tree *)

Lemma clean_lookup (h : gmap addr cell) (ls : list (list addr)) i l :
  clean h (mjoin ls) -> ls !! i = Some l -> clean h l.
Proof.
  intros Hc Hl n c Hn. apply Hc. apply list_elem_of_join. exists l.
  split; [assumption | eapply list_elem_of_lookup_2; eassumption].
Qed.

(** X12.  Insertion works in one root tree.  When the root slots hold
    disjoint trees whose leaves have no children, a successful insertion
    replaces one root slot by the cell the descent returns and leaves every
    cell of the trees of the other root slots as it was. *)
Theorem insertion_touches_one_root_tree (f0 fuel : nat) (r : Rebound) (pt : Z)
    (r' : Rebound) (ls : list (list addr)) :
  forest f0 (ensure_tree_root r) ls -> clean (cells r) (mjoin ls) ->
  tree_add_particle_to_tree fuel r pt = Ok r' ->
  exists p k a,
    particles r !! Z.to_nat pt = Some p
    /\ particles_get_rootbox_for_particle (ensure_tree_root r) p = Ok k
    /\ roots r' = <[Z.to_nat k := Some a]> (roots (ensure_tree_root r))
    /\ forall j lj b, j <> Z.to_nat k -> ls !! j = Some lj -> b ∈ lj ->
                      cells r' !! b = cells r !! b.
Proof.
  intros [HF Hnd] Hclean H.
  destruct (insertion_inv _ _ _ _ H) as (p & k & d & r1 & a & Hp & Hpt & Hbox & Hk & Hd & Hadd & ->).
  destruct (Forall2_lookup_l _ _ _ _ _ HF Hd) as (lk & Hlk & Hsub).
  exists p, k, a. do 3 (split; [first [assumption | reflexivity]|]).
  intros j lj b Hj Hlj Hb.
  destruct (Forall2_lookup_r _ _ _ _ _ HF Hlj) as (dj & Hdj & Hsubj).
  assert (Hcells : cells (ensure_tree_root r) = cells r)
    by (unfold ensure_tree_root; destruct (tree_root r); reflexivity).
  cbn [cells with_tree_root]. rewrite <- Hcells in Hclean |- *.
  eapply (add_frame_all fuel); [exact Hadd | exact Hsub | | | | ].
  - eapply NoDup_join_lookup; eassumption.
  - eapply clean_lookup; eassumption.
  - eapply NoDup_join_disjoint; [exact Hnd | exact Hj | exact Hlj | exact Hlk | exact Hb].
  - eapply subtree_allocated; eassumption.
Qed.

Lemma two_boxes_forest :
  forest 2 (ensure_tree_root two_boxes) [[1; 2; 3]%positive; [4%positive]; []; []].
Proof.
  split; [repeat constructor|]. cbn.
  repeat (apply NoDup_cons; split;
          [rewrite ?elem_of_cons, elem_of_nil; intuition discriminate|]).
  apply NoDup_nil_2.
Qed.

Lemma two_boxes_clean :
  clean (cells two_boxes) (mjoin [[1; 2; 3]%positive; [4%positive]; []; []]).
Proof.
  intros n c Hn. cbn in Hn. rewrite !elem_of_cons, elem_of_nil in Hn.
  destruct Hn as [->|[->|[->|[->|[]]]]]; intros Hc; vm_compute in Hc;
    injection Hc as <-; intros Hpt; first [reflexivity | exfalso; revert Hpt; vm_compute; congruence].
Qed.

Lemma insertion_touches_one_root_tree_witness :
  exists r', tree_add_particle_to_tree 3 two_boxes 3 = Ok r'
             /\ cells r' !! 4%positive = cells two_boxes !! 4%positive.
Proof.
  destruct (tree_add_particle_to_tree 3 two_boxes 3) as [r'| |] eqn:E;
    [|vm_compute in E; discriminate E..].
  destruct (insertion_touches_one_root_tree 2 3 two_boxes 3 r' _
              two_boxes_forest two_boxes_clean E) as (p & k & a & Hp & Hk & _ & Hf).
  exists r'. split; [reflexivity|].
  injection Hp as <-. vm_compute in Hk. injection Hk as <-.
  apply (Hf 1%nat [4%positive]);
    [discriminate | reflexivity | apply list_elem_of_singleton; reflexivity].
Defined.

(** ** Essential nodes (MPI build) *)

Lemma cell_octant_range cn c : 0 <= tree_get_octant_for_cell_in_cell cn c < 8.
Proof.
  unfold tree_get_octant_for_cell_in_cell.
  destruct (cell_x cn <? cell_x c)%float, (cell_y cn <? cell_y c)%float,
    (cell_z cn <? cell_z c)%float; lia.
Qed.

Lemma essential_to_node_attaches fuel : forall r nnode node r',
  tree_add_essential_node_to_node fuel r nnode node = Ok r' -> attached r r' nnode.
Proof.
  induction fuel as [|fuel IH]; intros r nnode node r' H; [discriminate|].
  cbn [tree_add_essential_node_to_node] in H.
  bind_inv H as cn Hcn. bind_inv H as c Hc. bind_inv H as d Hd.
  apply load_Ok in Hcn, Hc. apply oct_at_Ok in Hd as [_ Hd].
  destruct d as [a|]; [eauto|].
  apply store_Ok in H as [_ ->]. exists node, c, cn. auto.
Qed.

Lemma essential_to_node_returns f0 : forall r nnode node l,
  subtree f0 (cells r) (Some node) = Some l -> clean (cells r) l ->
  is_Some (cells r !! nnode) ->
  exists r', tree_add_essential_node_to_node f0 r nnode node = Ok r'.
Proof.
  induction f0 as [|f0 IH]; intros r nnode node l Hsub Hclean [cn Hcn]; [discriminate|].
  apply subtree_S in Hsub as (c & Hc & Hlen & Hcase).
  cbn [tree_add_essential_node_to_node].
  rewrite (load_eq _ _ _ Hcn), (load_eq _ _ _ Hc). cbn [mbind result_bind].
  pose proof (cell_octant_range cn c) as Ho.
  set (o := tree_get_octant_for_cell_in_cell cn c) in *.
  destruct (lookup_lt_is_Some_2 (cell_oct c) (Z.to_nat o)) as [d Hd]; [lia|].
  rewrite (oct_at_eq _ _ d) by assumption. cbn [mbind result_bind].
  destruct d as [a|]; [|rewrite (store_eq _ _ _ _ Hc); eauto].
  destruct Hcase as [(Hpt & ls & Hls & ->)|(Hpt & ->)].
  - destruct (Forall2_lookup_l _ _ _ _ _ Hls Hd) as (la & Hla & Hsa).
    eapply (IH r nnode a la); [exact Hsa | | eauto].
    intros n c' Hn. apply Hclean. right. apply list_elem_of_join. exists la.
    split; [assumption | eapply list_elem_of_lookup_2; eassumption].
  - rewrite (Hclean node c) in Hd by (first [left | assumption]).
    apply lookup_replicate in Hd as [Hd _]. discriminate.
Qed.

Lemma essential_to_node_mono fuel : forall fuel' r nnode node r',
  tree_add_essential_node_to_node fuel r nnode node = Ok r' -> (fuel <= fuel')%nat ->
  tree_add_essential_node_to_node fuel' r nnode node = Ok r'.
Proof.
  induction fuel as [|fuel IH]; intros fuel' r nnode node r' H Hle; [discriminate|].
  destruct fuel' as [|fuel']; [lia|]. cbn [tree_add_essential_node_to_node] in H |- *.
  destruct (load r nnode); [|discriminate..]. cbn [mbind result_bind] in H |- *.
  destruct (load r node) as [c| |]; [|discriminate..]. cbn [mbind result_bind] in H |- *.
  destruct (oct_at c _) as [[a0|]| |]; [| |discriminate..]; cbn [mbind result_bind] in H |- *.
  - apply IH; [assumption | lia].
  - assumption.
Qed.

(** X13.  Hanging a cell into a tree writes one pointer.  When
    [tree_add_essential_node_to_node] returns, the state differs from the
    one before in a single slot of a single cell: a slot that held NULL now
    holds the new cell, and it is the slot of the octant in which the center
    of the new cell lies.  No cell is allocated or freed and no particle is
    touched. *)
Theorem essential_node_fills_one_empty_slot (fuel : nat) (r : Rebound)
    (nnode node : addr) (r' : Rebound) :
  tree_add_essential_node_to_node fuel r nnode node = Ok r' ->
  exists a c cn,
    cells r !! a = Some c /\ cells r !! nnode = Some cn
    /\ cell_oct c !! Z.to_nat (tree_get_octant_for_cell_in_cell cn c) = Some None
    /\ r' = with_cells r
              (<[a := set_oct c (tree_get_octant_for_cell_in_cell cn c) (Some nnode)]>
                 (cells r)).
Proof. apply essential_to_node_attaches. Qed.

Lemma essential_node_fills_one_empty_slot_witness :
  exists r' a c cn,
    tree_add_essential_node_to_node 2 guest 5%positive 1%positive = Ok r'
    /\ cells guest !! a = Some c /\ cells guest !! 5%positive = Some cn
    /\ cells r' !! a
       = Some (set_oct c (tree_get_octant_for_cell_in_cell cn c) (Some 5%positive)).
Proof.
  destruct (tree_add_essential_node_to_node 2 guest 5%positive 1%positive)
    as [r'| |] eqn:E; [|vm_compute in E; discriminate E..].
  destruct (essential_node_fills_one_empty_slot _ _ _ _ _ E)
    as (a & c & cn & Ha & Hcn & _ & Hr).
  exists r', a, c, cn. split; [reflexivity|]. rewrite Hr. split; [exact Ha|]. split; [exact Hcn|].
  apply lookup_insert_eq.
Defined.

(** X14.  Hanging a cell into a tree returns.  Over a tree that [f0] units
    of fuel traverse and whose leaves have no children, the descent of
    [tree_add_essential_node_to_node] for an allocated cell ends at an empty
    slot within [f0] steps. *)
Theorem essential_node_descent_returns (f0 fuel : nat) (r : Rebound)
    (nnode node : addr) (l : list addr) :
  subtree f0 (cells r) (Some node) = Some l -> clean (cells r) l ->
  is_Some (cells r !! nnode) -> (f0 <= fuel)%nat ->
  exists r', tree_add_essential_node_to_node fuel r nnode node = Ok r'.
Proof.
  intros Hsub Hclean Hn Hle.
  destruct (essential_to_node_returns f0 r nnode node l Hsub Hclean Hn) as [r' H].
  exists r'. eapply essential_to_node_mono; eassumption.
Qed.

Lemma guest_clean : clean (cells guest) [1; 2; 3]%positive.
Proof.
  intros n c Hn. rewrite !elem_of_cons, elem_of_nil in Hn.
  destruct Hn as [->|[->|[->|[]]]]; intros Hc; vm_compute in Hc;
    injection Hc as <-; intros Hpt;
    first [reflexivity | exfalso; revert Hpt; vm_compute; congruence].
Qed.

Lemma essential_node_descent_returns_witness :
  exists r', tree_add_essential_node_to_node 2 guest 5%positive 1%positive = Ok r'.
Proof.
  apply (essential_node_descent_returns 2 2 guest 5%positive 1%positive
           [1; 2; 3]%positive); [reflexivity | exact guest_clean | eexists; reflexivity | lia].
Defined.

(** *** The root box of a cell *)

Lemma int_of_Ok z v : int_of z = Ok v -> v = z.
Proof. unfold int_of. destruct (_ && _); [intros [= <-]; reflexivity | discriminate]. Qed.

Lemma c_mod_Ok a b v : c_mod a b = Ok v -> b <> 0 /\ v = Z.rem a b.
Proof.
  unfold c_mod. destruct (Z.eqb_spec b 0); [discriminate|]. intros [= <-]. auto.
Qed.

Lemma node_grid_index_Ok r v box n i :
  node_grid_index r v box n = Ok i ->
  exists f, grid_floor r v box = Ok f /\ i = Z.rem (f + n) n.
Proof.
  unfold node_grid_index. intros H. bind_inv H as f Hf. bind_inv H as s Hs.
  apply int_of_Ok in Hs as ->. apply c_mod_Ok in H as [_ ->]. eauto.
Qed.

Lemma rem_shifted_range f n : 0 < n -> - n < Z.rem (f + n) n < n.
Proof.
  intros Hn. pose proof (Z.rem_bound_abs (f + n) n). lia.
Qed.

Lemma rem_shifted_nonneg f n : 0 < n -> - n <= f -> 0 <= Z.rem (f + n) n.
Proof. intros Hn Hf. apply Z.rem_bound_pos; lia. Qed.

Lemma index_range nx ny nz i j k :
  0 < nx -> 0 < ny -> 0 < nz -> - nx < i < nx -> - ny < j < ny -> - nz < k < nz ->
  - (nx * ny * nz) < (k * ny + j) * nx + i < nx * ny * nz.
Proof.
  intros Hx Hy Hz Hi Hj Hk.
  assert (Ha : - (nz * ny) < k * ny + j < nz * ny) by nia.
  assert (Hb : - (nz * ny * nx) < (k * ny + j) * nx + i < nz * ny * nx) by nia.
  lia.
Qed.

Lemma index_nonneg nx ny i j k :
  0 < nx -> 0 < ny -> 0 <= i -> 0 <= j -> 0 <= k -> 0 <= (k * ny + j) * nx + i.
Proof. intros. assert (0 <= k * ny + j) by nia. nia. Qed.

Lemma rootbox_for_node_Ok r c idx :
  particles_get_rootbox_for_node r c = Ok idx ->
  exists i j k,
    node_grid_index r (cell_x c) (boxsize_x r) (root_nx r) = Ok i
    /\ node_grid_index r (cell_y c) (boxsize_y r) (root_ny r) = Ok j
    /\ node_grid_index r (cell_z c) (boxsize_z r) (root_nz r) = Ok k
    /\ idx = (k * root_ny r + j) * root_nx r + i.
Proof.
  unfold particles_get_rootbox_for_node. intros H.
  bind_inv H as i Hi. bind_inv H as j Hj. bind_inv H as k Hk.
  bind_inv H as a Ha. bind_inv H as b Hb. bind_inv H as c0 Hc.
  apply int_of_Ok in Ha as ->, Hb as ->, Hc as ->, H as ->.
  exists i, j, k. auto.
Qed.

(** X15.  The root box of a cell.  With positive grid dimensions, an index
    that [particles_get_rootbox_for_node] returns is smaller in magnitude
    than the number of root boxes; it is a valid index, not negative, when
    along every axis the floored grid coordinate of the center is at least
    minus the dimension, that is, when the center lies at most one period
    below the grid. *)
Theorem rootbox_for_node_bounds (r : Rebound) (c : cell) (idx : Z) :
  0 < root_nx r -> 0 < root_ny r -> 0 < root_nz r ->
  particles_get_rootbox_for_node r c = Ok idx ->
  - (root_nx r * root_ny r * root_nz r) < idx < root_nx r * root_ny r * root_nz r
  /\ forall fx fy fz,
       grid_floor r (cell_x c) (boxsize_x r) = Ok fx ->
       grid_floor r (cell_y c) (boxsize_y r) = Ok fy ->
       grid_floor r (cell_z c) (boxsize_z r) = Ok fz ->
       - root_nx r <= fx -> - root_ny r <= fy -> - root_nz r <= fz ->
       0 <= idx.
Proof.
  intros Hx Hy Hz H.
  destruct (rootbox_for_node_Ok _ _ _ H) as (i & j & k & Hi & Hj & Hk & ->).
  apply node_grid_index_Ok in Hi as (fx & Hfx & ->), Hj as (fy & Hfy & ->),
    Hk as (fz & Hfz & ->).
  pose proof (rem_shifted_range fx _ Hx). pose proof (rem_shifted_range fy _ Hy).
  pose proof (rem_shifted_range fz _ Hz). split; [apply index_range; assumption|].
  intros fx' fy' fz' Hfx' Hfy' Hfz' Hbx Hby Hbz.
  rewrite Hfx in Hfx'. rewrite Hfy in Hfy'. rewrite Hfz in Hfz'.
  injection Hfx' as <-. injection Hfy' as <-. injection Hfz' as <-.
  pose proof (rem_shifted_nonneg fx _ Hx Hbx). pose proof (rem_shifted_nonneg fy _ Hy Hby).
  pose proof (rem_shifted_nonneg fz _ Hz Hbz). apply index_nonneg; assumption.
Qed.

Lemma rootbox_for_node_bounds_witness :
  particles_get_rootbox_for_node edge (branch_cell 0.45 0 0 0.9 (-2) (replicate 8 None))
  = Ok 2
  /\ - (4 * 1 * 1) < 2 < 4 * 1 * 1.
Proof.
  split; [reflexivity|].
  refine (proj1 (rootbox_for_node_bounds edge
                   (branch_cell 0.45 0 0 0.9 (-2) (replicate 8 None)) 2 _ _ _ _));
    reflexivity.
Defined.

(** *** Adding an essential node *)

Lemma clear_octs_run r a c :
  cells r !! a = Some c -> length (cell_oct c) = 8%nat ->
  clear_octs r a = Ok (with_cells r (<[a := set_octs c (replicate 8 None)]> (cells r))).
Proof.
  intros Ha Hlen. destruct c as [x y z w m mx my mz pt oct]. cbn in Hlen.
  do 8 (destruct oct as [|? oct]; [discriminate|]). destruct oct; [|discriminate].
  unfold clear_octs, octants. cbn [for_each].
  rewrite (load_eq _ _ _ Ha). cbn [mbind result_bind].
  rewrite (store_eq _ _ _ _ Ha). cbn [mbind result_bind].
  do 7 (erewrite load_eq by (cbn [cells with_cells]; apply lookup_insert_eq);
        cbn [mbind result_bind];
        erewrite store_eq by (cbn [cells with_cells]; apply lookup_insert_eq);
        cbn [mbind result_bind cells with_cells]; rewrite insert_insert_eq).
  reflexivity.
Qed.

(** X16.  Adding an essential node.  [tree_add_essential_node] first drops
    the children of the cell: its eight slots become NULL.  Then the cell
    becomes the root of its root box when that slot is NULL, and nothing else
    changes; otherwise it is hung into the tree of that root, which fills one
    empty slot of one cell. *)
Theorem essential_node_is_added_childless (fuel : nat) (r : Rebound) (node : addr)
    (c : cell) (r' : Rebound) :
  cells r !! node = Some c -> length (cell_oct c) = 8%nat ->
  tree_add_essential_node fuel r node = Ok r' ->
  let r1 := with_cells r (<[node := set_octs c (replicate 8 None)]> (cells r)) in
  exists k,
    particles_get_rootbox_for_node r c = Ok k /\ 0 <= k
    /\ ((roots r !! Z.to_nat k = Some None
         /\ r' = with_tree_root r1 (Some (<[Z.to_nat k := Some node]> (roots r))))
        \/ (exists a, roots r !! Z.to_nat k = Some (Some a) /\ attached r1 r' node)).
Proof.
  intros Hc Hlen H r1. unfold tree_add_essential_node in H.
  rewrite (clear_octs_run _ _ _ Hc Hlen) in H. cbn [mbind result_bind] in H. fold r1 in H.
  assert (H1 : cells r1 !! node = Some (set_octs c (replicate 8 None)))
    by apply lookup_insert_eq.
  rewrite (load_eq _ _ _ H1) in H. cbn [mbind result_bind] in H.
  bind_inv H as k Hk. bind_inv H as d Hd. apply root_at_spec in Hd as [Hk0 Hd].
  exists k. split; [exact Hk|]. split; [assumption|].
  destruct d as [a|].
  - right. exists a. split; [exact Hd|]. eapply essential_to_node_attaches. eassumption.
  - left. split; [exact Hd|].
    apply set_root_Ok in H as (rs & Hrs & _ & _ & ->).
    unfold roots. change (tree_root r) with (tree_root r1). rewrite Hrs. reflexivity.
Qed.

Lemma essential_node_is_added_childless_witness :
  exists r' a,
    tree_add_essential_node 2 guest 5%positive = Ok r'
    /\ roots guest !! 0%nat = Some (Some a)
    /\ attached (with_cells guest
                   (<[5%positive := set_octs (branch_cell 0.25 (-0.25) 0.25 0.5 (-3)
                                                [None; Some 7%positive; None; None;
                                                 None; None; None; None])
                                             (replicate 8 None)]> (cells guest)))
                r' 5%positive.
Proof.
  destruct (tree_add_essential_node 2 guest 5%positive) as [r'| |] eqn:E;
    [|vm_compute in E; discriminate E..].
  destruct (essential_node_is_added_childless 2 guest 5%positive _ r' eq_refl eq_refl E)
    as (k & Hk & _ & [[Hd _]|(a & Hd & Hatt)]);
    vm_compute in Hk; injection Hk as <-.
  - discriminate Hd.
  - exists r', a. split; [reflexivity|]. split; [exact Hd | exact Hatt].
Defined.

